(** * pydantic-evals (TypeScript port): orchestration and report aggregation

    A shallow embedding of [src/dataset.ts], [src/context.ts],
    [src/evaluators/run-evaluator.ts], [src/types.ts],
    [src/otel/context-subtree.ts] and [src/reporting/report.ts], and of
    the serialization of evaluators in [src/evaluators/spec.ts],
    [src/evaluators/base.ts] and [src/serialization/loader.ts], the
    report evaluators of [src/evaluators/report-common.ts] and the
    built-in evaluators of [src/evaluators/common.ts].

    Conventions of the embedding.
    - A JavaScript [number] is an exact rational ([Qc]); counters are [nat]
      and are injected into [Qc] where the source divides.  Rounding,
      infinities and [NaN] are not part of it, except that the values
      the built-in evaluators compare ([Serialization.Value]) have
      [NaN], which [===] tells from itself.
    - A JavaScript object used as a dictionary ([Record<string, T>]) is a
      [gmap string T]: its own string-keyed properties.  Where the source
      depends on the enumeration order of an object it received from user
      code (the value an evaluator returns) the object is the list of its
      [Object.entries].
      Properties inherited from [Object.prototype], which a lookup
      [obj[key]] on a plain object literal also finds for keys such as
      "constructor", are not in the [gmap]: the embedding is what the
      code does under the other names, the [ordinary] ones.
    - Objects and arrays are values.  Where the source changes one in
      place and it may be shared ([addEvaluator]), a heap of objects
      stands next to the function on values.
    - A method that user code may override and that the source calls
      where nothing catches its error ([getDefaultEvaluationName()],
      [asSpec()], [getSerializationName()]) is a value in the records
      [Evaluator] and [ReportEvaluator], which stand for evaluators
      whose methods return, and a call that may throw in
      [EvaluatorMethods] and [ReportEvaluatorMethods].
    - A [Map] whose iteration order reaches the result is an association
      list in insertion order.
    - Code that can throw lives in an exception monad; code that also runs
      user callbacks threads the state of the outside world.  The units of
      one [evaluate] call are run one after the other in submission order,
      which is the order [Promise.all] reassembles their results in. *)

From Stdlib Require Import QArith Qcanon.
From Stdlib Require Import Lqa.
From stdpp Require Import gmap strings list fin_maps pretty.
From stdpp Require Import sorting.

#[global] Instance Qc_eq_decision : EqDecision Qc := Qc_eq_dec.

(** Injection of a counter into the numbers. *)
Definition Qc_of_nat (n : nat) : Qc := Q2Qc (inject_Z (Z.of_nat n)).

(* ================================================================== *)
(** ** JavaScript values, thrown values, exceptions *)

#[local] Set Warnings "-register-all,-clear-no-such-hyp".
Inductive JsVal : Type :=
| JUndefined
| JNull
| JBool (b : bool)
| JNum (x : Qc)
| JStr (s : string)
| JObj (props : list (string * JsVal)).

Inductive JsType : Type :=
| TUndefined | TObject | TBoolean | TNumber | TString.

#[global] Instance JsType_eq_dec : EqDecision JsType.
Proof. solve_decision. Defined.

Definition typeof (v : JsVal) : JsType :=
  match v with
  | JUndefined => TUndefined
  | JNull => TObject
  | JBool _ => TBoolean
  | JNum _ => TNumber
  | JStr _ => TString
  | JObj _ => TObject
  end.

Definition is_null (v : JsVal) : bool :=
  match v with JNull => true | _ => false end.

(** [v == null]: true of [null] and [undefined]. *)
Definition is_nullish (v : JsVal) : bool :=
  match v with JNull | JUndefined => true | _ => false end.

Fixpoint getProp (props : list (string * JsVal)) (key : string) : JsVal :=
  match props with
  | [] => JUndefined
  | (k, x) :: rest => if String.eqb k key then x else getProp rest key
  end.

(** [key in v], for an object [v]. *)
Definition has_in (key : string) (v : JsVal) : bool :=
  match v with
  | JObj props => existsb (fun kv => String.eqb (fst kv) key) props
  | _ => false
  end.

(** [v[key]] *)
Definition get (v : JsVal) (key : string) : JsVal :=
  match v with
  | JObj props => getProp props key
  | _ => JUndefined
  end.

(** What a [catch (e)] clause receives: an [Error] instance with its
    [name], [message] and [stack] (which may be missing), or any other
    thrown value, kept as the string [String(e)] turns it into.  A
    thrown value that [String()] cannot convert (an object whose
    [toString] throws, say) is not among these. *)
Inductive Thrown : Type :=
| ThrownError (name message : string) (stack : option string)
| ThrownValue (str : string).

Inductive outcome (A : Type) : Type :=
| Return (a : A)
| Throw (e : Thrown).
Arguments Return {A} a.
Arguments Throw {A} e.

Definition obind {A B} (m : outcome A) (k : A -> outcome B) : outcome B :=
  match m with
  | Return a => k a
  | Throw e => Throw e
  end.

(** [Object.entries(v)] *)
Definition Object_entries (v : JsVal) : outcome (list (string * JsVal)) :=
  match v with
  | JObj props => Return props
  | JStr s =>
      Return (imap (fun i c => (pretty i, JStr (String c EmptyString)))
                   (String.list_ascii_of_string s))
  | JBool _ | JNum _ => Return []
  | JNull | JUndefined =>
      Throw (ThrownError "TypeError"
               "Cannot convert undefined or null to object" None)
  end.

(** The state-and-exception monad of code that runs user callbacks: a
    thrown exception keeps the state reached when it was thrown. *)
Definition M (S A : Type) : Type := S -> outcome A * S.

Definition ret {S A} (a : A) : M S A := fun s => (Return a, s).

Definition throw {S A} (e : Thrown) : M S A := fun s => (Throw e, s).

Definition bind {S A B} (m : M S A) (k : A -> M S B) : M S B :=
  fun s =>
    match m s with
    | (Return a, s') => k a s'
    | (Throw e, s') => (Throw e, s')
    end.

Definition try_catch {S A} (body : M S A) (handler : Thrown -> M S A) : M S A :=
  fun s =>
    match body s with
    | (Return a, s') => (Return a, s')
    | (Throw e, s') => handler e s'
    end.

Declare Scope js_scope.
Delimit Scope js_scope with js.
Notation "'do' x <- m ; k" := (bind m (fun x => k))
  (at level 10, x name, m at level 100, k at level 200) : js_scope.
Notation "'do' ' p <- m ; k" := (bind m (fun x => match x with p => k end))
  (at level 10, p pattern, m at level 100, k at level 200) : js_scope.

(** [await Promise.all(xs.map(f))], the callbacks run in list order. *)
Fixpoint mapM {S A B} (f : A -> M S B) (xs : list A) : M S (list B) :=
  match xs with
  | [] => ret []
  | x :: rest =>
      (do y <- f x; do ys <- mapM f rest; ret (y :: ys))%js
  end.

(* ================================================================== *)
(** ** [src/types.ts] *)

(** [arguments: null | [unknown] | Record<string, unknown>] *)
Inductive SpecArguments : Type :=
| ArgsNull
| ArgsTuple (v : JsVal)
| ArgsRecord (kwargs : list (string * JsVal)).

Record EvaluatorSpec : Type := mkEvaluatorSpec {
  spec_name : string;
  spec_arguments : SpecArguments;
}.

(** [EvaluationResult<T>]: [T] is [JsVal] for a result whose value has not
    been told apart yet, and [bool], [Qc] or [string] once it has. *)
Record EvaluationResult (T : Type) : Type := mkEvaluationResult {
  er_name : string;
  er_value : T;
  er_reason : JsVal;
  er_source : EvaluatorSpec;
}.
Arguments mkEvaluationResult {T} _ _ _ _.
Arguments er_name {T} _.
Arguments er_value {T} _.
Arguments er_reason {T} _.
Arguments er_source {T} _.

Record EvaluatorFailure : Type := mkEvaluatorFailure {
  ef_name : string;
  ef_errorMessage : string;
  ef_errorStacktrace : string;
  ef_source : EvaluatorSpec;
}.

Definition isEvaluationReason (v : JsVal) : bool :=
  bool_decide (typeof v = TObject)
  && negb (is_null v)
  && has_in "value" v
  && (bool_decide (typeof (get v "value") = TBoolean)
      || bool_decide (typeof (get v "value") = TNumber)
      || bool_decide (typeof (get v "value") = TString)).

Definition isEvaluationScalar (v : JsVal) : bool :=
  bool_decide (typeof v = TBoolean)
  || bool_decide (typeof v = TNumber)
  || bool_decide (typeof v = TString).

(* ================================================================== *)
(** ** Names that every object inherits

    The code keeps its tables of metrics, scores, labels and counters in
    plain objects.  Under a name that [Object.prototype] defines, reading
    such a table finds the inherited property where the table has no
    entry, and writing it under ["__proto__"] stores no entry.  The
    tables are finite maps here: that is what the code does under every
    other name, the [ordinary] ones. *)
Definition Object_prototype_names : list string :=
  ["constructor"; "__defineGetter__"; "__defineSetter__"; "hasOwnProperty";
   "__lookupGetter__"; "__lookupSetter__"; "isPrototypeOf";
   "propertyIsEnumerable"; "toString"; "valueOf"; "__proto__";
   "toLocaleString"].

Definition ordinary (name : string) : Prop :=
  name ∉ Object_prototype_names.

#[global] Instance ordinary_dec (name : string) : Decision (ordinary name).
Proof. unfold ordinary. apply _. Defined.

(* ================================================================== *)
(** ** [src/context.ts]: the task-run scope *)

Record TaskRun : Type := mkTaskRun {
  attributes : gmap string JsVal;
  metrics : gmap string Qc;
}.

Definition emptyTaskRun : TaskRun :=
  {| attributes := ∅; metrics := ∅ |}.

(** The argument [store] is [taskRunStorage.getStore()]: [None] outside
    of a task run.  The result is the store after the call. *)
Definition setEvalAttribute (name : string) (value : JsVal)
    (store : option TaskRun) : option TaskRun :=
  match store with
  | Some taskRun =>
      Some {| attributes := <[name := value]> (attributes taskRun);
              metrics := metrics taskRun |}
  | None => None
  end.

(** [taskRun.metrics[name] ?? 0] is the lookup in the finite map with
    the default 0: what the code reads under a name that
    [Object.prototype] does not define.  Under the other names the code
    reads the inherited property, which is no number. *)
Definition incrementEvalMetric (name : string) (amount : Qc)
    (store : option TaskRun) : option TaskRun :=
  match store with
  | Some taskRun =>
      let currentValue := default 0%Qc (metrics taskRun !! name) in
      let newValue := (currentValue + amount)%Qc in
      if bool_decide (currentValue = 0%Qc) && bool_decide (newValue = 0%Qc)
      then Some taskRun
      else Some {| attributes := attributes taskRun;
                   metrics := <[name := newValue]> (metrics taskRun) |}
  | None => None
  end.

(** [withTaskRun(fn)]: [fn] runs against a fresh [TaskRun]; its state is
    the outside world paired with that store. *)
Definition withTaskRun {World A} (fn : M (World * TaskRun) A)
    : M World (A * gmap string JsVal * gmap string Qc) :=
  fun w =>
    match fn (w, emptyTaskRun) with
    | (Return result, (w', taskRun)) =>
        (Return (result, attributes taskRun, metrics taskRun), w')
    | (Throw e, (w', _)) => (Throw e, w')
    end.

(* ================================================================== *)
(** ** [src/otel]: span capture *)

(** [new SpanTree()]: the only tree this code builds is the empty one. *)
Inductive SpanTree : Type :=
| SpanTree_new.

(** [SpanTree | SpanTreeRecordingError] *)
Inductive SpanTreeOrError : Type :=
| IsSpanTree (tree : SpanTree)
| SpanTreeRecordingError (message : string).

(** What [await import('@opentelemetry/api')] finds: the package is
    missing (the import rejects), or it is there and the global tracer
    provider has, or has not, an [addSpanProcessor]. *)
Inductive OtelEnv : Type :=
| OtelNotInstalled
| OtelInstalled (hasSpanProcessor : bool).

Definition lift {S A} (o : outcome A) : M S A := fun s => (o, s).

Section Evals.

Context {TInputs TOutput TMetadata : Type}.
(** The state of everything outside the library that user code can read
    or change (counters, random sources, the clock). *)
Context {World : Type}.
Context {ReportAnalysis : Type}.
(** [new Error(msg).stack] on this engine. *)
Variable captureStack : string -> option string.
(** [performance.now()], in milliseconds. *)
Variable performance_now : World -> Qc.
Variable otel : OtelEnv.

Definition import_otel {S} : M S bool :=
  match otel with
  | OtelNotInstalled =>
      throw (ThrownError "Error"
               "Cannot find package '@opentelemetry/api'" None)
  | OtelInstalled hasSpanProcessor => ret hasSpanProcessor
  end.

Definition withSpanCapture {S A} (fn : M S A) : M S (A * SpanTreeOrError) :=
  try_catch
    (do hasSpanProcessor <- import_otel;
     if negb hasSpanProcessor then
       do result <- fn;
       ret (result,
            SpanTreeRecordingError
              ("To make use of the span tree in an evaluator, you must configure an OpenTelemetry tracer provider "
               +:+ "before running an evaluation."))
     else
       do result <- fn;
       ret (result, IsSpanTree SpanTree_new))%js
    (fun _ =>
       do result <- fn;
       ret (result,
            SpanTreeRecordingError
              ("To make use of the span tree in an evaluator, you must install "
               +:+ "@opentelemetry/api and @opentelemetry/sdk-trace-base.")))%js.

(* ================================================================== *)
(** ** [src/evaluators/context.ts], [src/evaluators/evaluator.ts] *)

Record EvaluatorContext : Type := mkEvaluatorContext {
  ctx_name : option string;
  ctx_inputs : TInputs;
  ctx_metadata : option TMetadata;
  ctx_expectedOutput : option TOutput;
  ctx_output : TOutput;
  ctx_duration : Qc;
  ctx_attributes : gmap string JsVal;
  ctx_metrics : gmap string Qc;
  ctx_spanTreeOrError : SpanTreeOrError;
}.

(** The [spanTree] getter of the context. *)
Definition ctx_spanTree (ctx : EvaluatorContext) : outcome SpanTree :=
  match ctx_spanTreeOrError ctx with
  | SpanTreeRecordingError message =>
      Throw (ThrownError "SpanTreeRecordingError" message (captureStack message))
  | IsSpanTree tree => Return tree
  end.

(** The evaluator contract.  [evaluate] is user code: it may read and
    change the world and may throw.  [getDefaultEvaluationName()] and
    [asSpec()] are accessors, modelled by the value they return: the
    record stands for an evaluator whose two accessors return that value
    at every call and do nothing else.  [EvaluatorMethods] below is the
    evaluator whose accessors may throw. *)
Record Evaluator : Type := mkEvaluator {
  ev_evaluate : EvaluatorContext -> M World JsVal;
  getDefaultEvaluationName : string;
  asSpec : EvaluatorSpec;
}.

(* ================================================================== *)
(** ** [src/evaluators/run-evaluator.ts] *)

(** [e instanceof Error ? e : new Error(String(e))], as the triple
    [name], [message], [stack].  [String(e)] is taken to return. *)
Definition toError (e : Thrown) : string * string * option string :=
  match e with
  | ThrownError name message stack => (name, message, stack)
  | ThrownValue str => ("Error", str, captureStack str)
  end.

Definition normalizeToMapping (result : JsVal) (scalarName : string) : JsVal :=
  if isEvaluationScalar result || isEvaluationReason result
  then JObj [(scalarName, result)]
  else result.

(** The body of the [for ... of Object.entries(results)] loop. *)
Definition toDetail (evaluator : Evaluator) (entry : string * JsVal)
    : EvaluationResult JsVal :=
  let '(name, result) := entry in
  if isEvaluationReason result then
    {| er_name := name;
       er_value := get result "value";
       er_reason := if is_nullish (get result "reason") then JNull
                    else get result "reason";
       er_source := asSpec evaluator |}
  else
    {| er_name := name;
       er_value := result;
       er_reason := JNull;
       er_source := asSpec evaluator |}.

Definition runEvaluator (evaluator : Evaluator) (ctx : EvaluatorContext)
    : M World (list (EvaluationResult JsVal) + EvaluatorFailure) :=
  try_catch
    (do rawResults <- ev_evaluate evaluator ctx;
     let results :=
       normalizeToMapping rawResults (getDefaultEvaluationName evaluator) in
     do entries <- lift (Object_entries results);
     ret (inl (map (toDetail evaluator) entries)))%js
    (fun e =>
       let '(name, message, stack) := toError e in
       ret (inr {| ef_name := getDefaultEvaluationName evaluator;
                   ef_errorMessage := name +:+ ": " +:+ message;
                   ef_errorStacktrace := default "" stack;
                   ef_source := asSpec evaluator |})).

(** [getDefaultEvaluationName()] and [asSpec()] are methods that a class
    of evaluators may override: like [evaluate] they can change the world
    and they can throw.  [runEvaluator] calls the first after [evaluate]
    and the second once for every result, and it calls both again in its
    [catch] block, where nothing catches what they throw.  An evaluator
    with such methods, of which [Evaluator] is the case of two methods
    that return a value and do nothing else: *)
Record EvaluatorMethods : Type := mkEvaluatorMethods {
  em_evaluate : EvaluatorContext -> M World JsVal;
  em_getDefaultEvaluationName : M World string;
  em_asSpec : M World EvaluatorSpec;
}.

Definition methods (evaluator : Evaluator) : EvaluatorMethods :=
  {| em_evaluate := ev_evaluate evaluator;
     em_getDefaultEvaluationName := ret (getDefaultEvaluationName evaluator);
     em_asSpec := ret (asSpec evaluator) |}.

(** The body of the [for ... of Object.entries(results)] loop:
    [evaluator.asSpec()] is called when the result is pushed. *)
Definition pushDetail (evaluator : EvaluatorMethods) (entry : string * JsVal)
    : M World (EvaluationResult JsVal) :=
  let '(name, result) := entry in
  let value := if isEvaluationReason result then get result "value"
               else result in
  let reason :=
    if isEvaluationReason result
    then if is_nullish (get result "reason") then JNull
         else get result "reason"
    else JNull in
  (do source <- em_asSpec evaluator;
   ret {| er_name := name;
          er_value := value;
          er_reason := reason;
          er_source := source |})%js.

Definition runEvaluator_methods (evaluator : EvaluatorMethods)
    (ctx : EvaluatorContext)
    : M World (list (EvaluationResult JsVal) + EvaluatorFailure) :=
  try_catch
    (do rawResults <- em_evaluate evaluator ctx;
     do scalarName <- em_getDefaultEvaluationName evaluator;
     let results := normalizeToMapping rawResults scalarName in
     do entries <- lift (Object_entries results);
     do details <- mapM (pushDetail evaluator) entries;
     ret (inl details))%js
    (fun e =>
       let '(name, message, stack) := toError e in
       (do evaluatorName <- em_getDefaultEvaluationName evaluator;
        do source <- em_asSpec evaluator;
        ret (inr {| ef_name := evaluatorName;
                    ef_errorMessage := name +:+ ": " +:+ message;
                    ef_errorStacktrace := default "" stack;
                    ef_source := source |}))%js).

(* ================================================================== *)
(** ** [src/reporting/report.ts]: the report model *)

Record ReportCase : Type := mkReportCase {
  rc_name : string;
  rc_inputs : TInputs;
  rc_metadata : option TMetadata;
  rc_expectedOutput : option TOutput;
  rc_output : TOutput;
  rc_metrics : gmap string Qc;
  rc_attributes : gmap string JsVal;
  rc_scores : gmap string (EvaluationResult Qc);
  rc_labels : gmap string (EvaluationResult string);
  rc_assertions : gmap string (EvaluationResult bool);
  rc_taskDuration : Qc;
  rc_totalDuration : Qc;
  rc_sourceCaseName : option string;
  rc_traceId : option string;
  rc_spanId : option string;
  rc_evaluatorFailures : list EvaluatorFailure;
}.

Record ReportCaseFailure : Type := mkReportCaseFailure {
  rcf_name : string;
  rcf_inputs : TInputs;
  rcf_metadata : option TMetadata;
  rcf_expectedOutput : option TOutput;
  rcf_errorMessage : string;
  rcf_errorStacktrace : string;
  rcf_sourceCaseName : option string;
  rcf_traceId : option string;
  rcf_spanId : option string;
}.

Record ReportCaseAggregate : Type := mkReportCaseAggregate {
  agg_name : string;
  agg_scores : gmap string Qc;
  agg_labels : gmap string (gmap string Qc);
  agg_metrics : gmap string Qc;
  agg_assertions : option Qc;
  agg_taskDuration : Qc;
  agg_totalDuration : Qc;
}.

Record ReportCaseGroup : Type := mkReportCaseGroup {
  grp_name : string;
  grp_inputs : TInputs;
  grp_metadata : option TMetadata;
  grp_expectedOutput : option TOutput;
  grp_runs : list ReportCase;
  grp_failures : list ReportCaseFailure;
  grp_summary : ReportCaseAggregate;
}.

(** The data of an [EvaluationReport]; its methods [caseGroups()] and
    [averages()] are [computeCaseGroups] and [computeAverages] below. *)
Record EvaluationReport : Type := mkEvaluationReport {
  rep_name : string;
  rep_cases : list ReportCase;
  rep_failures : list ReportCaseFailure;
  rep_analyses : list ReportAnalysis;
  rep_reportEvaluatorFailures : list EvaluatorFailure;
  rep_experimentMetadata : option (gmap string JsVal);
  rep_traceId : option string;
  rep_spanId : option string;
}.

Definition createReportCase (name : string) (inputs : TInputs)
    (metadata : option TMetadata) (expectedOutput : option TOutput)
    (output : TOutput) (metrics : gmap string Qc)
    (attributes : gmap string JsVal)
    (scores : gmap string (EvaluationResult Qc))
    (labels : gmap string (EvaluationResult string))
    (assertions : gmap string (EvaluationResult bool))
    (taskDuration totalDuration : Qc) (sourceCaseName : option string)
    (evaluatorFailures : option (list EvaluatorFailure)) : ReportCase :=
  {| rc_name := name; rc_inputs := inputs; rc_metadata := metadata;
     rc_expectedOutput := expectedOutput; rc_output := output;
     rc_metrics := metrics; rc_attributes := attributes;
     rc_scores := scores; rc_labels := labels; rc_assertions := assertions;
     rc_taskDuration := taskDuration; rc_totalDuration := totalDuration;
     rc_sourceCaseName := sourceCaseName;
     rc_traceId := None; rc_spanId := None;
     rc_evaluatorFailures := default [] evaluatorFailures |}.

Definition createReportCaseFailure (name : string) (inputs : TInputs)
    (metadata : option TMetadata) (expectedOutput : option TOutput)
    (errorMessage errorStacktrace : string) (sourceCaseName : option string)
    : ReportCaseFailure :=
  {| rcf_name := name; rcf_inputs := inputs; rcf_metadata := metadata;
     rcf_expectedOutput := expectedOutput;
     rcf_errorMessage := errorMessage;
     rcf_errorStacktrace := errorStacktrace;
     rcf_sourceCaseName := sourceCaseName;
     rcf_traceId := None; rcf_spanId := None |}.

Definition createEvaluationReport (name : string) (cases : list ReportCase)
    (failures : option (list ReportCaseFailure))
    (experimentMetadata : option (gmap string JsVal)) : EvaluationReport :=
  {| rep_name := name;
     rep_cases := cases;
     rep_failures := default [] failures;
     rep_analyses := [];
     rep_reportEvaluatorFailures := [];
     rep_experimentMetadata := experimentMetadata;
     rep_traceId := None; rep_spanId := None |}.

(* ================================================================== *)
(** ** [src/reporting/report.ts]: aggregation *)

(** [counts[k] = (counts[k] ?? 0) + 1], for a name [k] that
    [Object.prototype] does not define; under the others [counts[k]] is
    an inherited function and the sum is no number. *)
Definition bump (k : string) (counts : gmap string nat) : gmap string nat :=
  <[k := default 0 (counts !! k) + 1]> counts.

(** [sums[k] = (sums[k] ?? 0) + x], for such a name [k]. *)
Definition addTo (k : string) (x : Qc) (sums : gmap string Qc)
    : gmap string Qc :=
  <[k := (default 0 (sums !! k) + x)%Qc]> sums.

(** [xs.reduce((a, b) => a + b, 0)] *)
Definition sumQc (xs : list Qc) : Qc := foldl Qcplus 0%Qc xs.

(** [sums[k]! / counts[k]!] for every key of [sums]. *)
Definition divideByCounts (counts : gmap string nat) (sums : gmap string Qc)
    : gmap string Qc :=
  map_imap (fun k sum => Some (sum / Qc_of_nat (counts !!! k))%Qc) sums.

Definition emptyAggregate : ReportCaseAggregate :=
  {| agg_name := "Averages";
     agg_scores := ∅; agg_labels := ∅; agg_metrics := ∅;
     agg_assertions := None;
     agg_taskDuration := 0%Qc; agg_totalDuration := 0%Qc |}.

(** The two loops that fill [scoreCounts] and [scoreSums]. *)
Definition scoreTotals (cases : list ReportCase)
    : gmap string nat * gmap string Qc :=
  foldl (fun acc c =>
           foldl (fun '(scoreCounts, scoreSums) '(k, v) =>
                    (bump k scoreCounts, addTo k (er_value v) scoreSums))
                 acc (map_to_list (rc_scores c)))
        (∅, ∅) cases.

(** One step of the label loop: [labelCounts[k]++], then
    [labelSums[k][v.value]++] on an object created on demand. *)
Definition labelStep (acc : gmap string nat * gmap string (gmap string nat))
    (entry : string * EvaluationResult string)
    : gmap string nat * gmap string (gmap string nat) :=
  let '(labelCounts, labelSums) := acc in
  let '(k, v) := entry in
  (bump k labelCounts,
   <[k := bump (er_value v) (default ∅ (labelSums !! k))]> labelSums).

Definition labelTotals (cases : list ReportCase)
    : gmap string nat * gmap string (gmap string nat) :=
  foldl (fun acc c => foldl labelStep acc (map_to_list (rc_labels c)))
        (∅, ∅) cases.

Definition metricTotals (cases : list ReportCase)
    : gmap string nat * gmap string Qc :=
  foldl (fun acc c =>
           foldl (fun '(metricCounts, metricSums) '(k, v) =>
                    (bump k metricCounts, addTo k v metricSums))
                 acc (map_to_list (rc_metrics c)))
        (∅, ∅) cases.

(** The tallies of [averageCases] are plain objects read with [?? 0];
    they are finite maps here, which is what the code computes when the
    names of the scores, labels and metrics and the values of the labels
    are names that [Object.prototype] does not define
    ([ordinary_case]). *)
Definition averageCases (cases : list ReportCase) : ReportCaseAggregate :=
  let n := length cases in
  if bool_decide (n = 0) then emptyAggregate
  else
    let '(scoreCounts, scoreSums) := scoreTotals cases in
    let avgScores := divideByCounts scoreCounts scoreSums in
    let '(labelCounts, labelSums) := labelTotals cases in
    let avgLabels :=
      map_imap (fun k (counts : gmap string nat) =>
                  Some ((fun count : nat =>
                           (Qc_of_nat count / Qc_of_nat (labelCounts !!! k))%Qc)
                        <$> counts))
               labelSums in
    let '(metricCounts, metricSums) := metricTotals cases in
    let avgMetrics := divideByCounts metricCounts metricSums in
    let nAssertions :=
      foldl (fun sum c => sum + size (rc_assertions c)) 0 cases in
    let avgAssertions :=
      if bool_decide (0 < nAssertions) then
        let nPassing :=
          foldl (fun sum c =>
                   sum + length (List.filter (fun a => er_value a)
                                   (snd <$> map_to_list (rc_assertions c))))
                0 cases in
        Some (Qc_of_nat nPassing / Qc_of_nat nAssertions)%Qc
      else None in
    {| agg_name := "Averages";
       agg_scores := avgScores;
       agg_labels := avgLabels;
       agg_metrics := avgMetrics;
       agg_assertions := avgAssertions;
       agg_taskDuration :=
         (foldl (fun sum c => sum + rc_taskDuration c) 0 cases
          / Qc_of_nat n)%Qc;
       agg_totalDuration :=
         (foldl (fun sum c => sum + rc_totalDuration c) 0 cases
          / Qc_of_nat n)%Qc |}.

(** [avgNumericDicts], local to [averageFromAggregates].  The tests
    [key in d] and [key in a.labels] and the reads [d[key]] and
    [combined[labelVal] ?? 0] are lookups among the own properties:
    what the code does under the names that [Object.prototype] does not
    define ([ordinary_aggregate]). *)
Definition avgNumericDicts (dicts : list (gmap string Qc)) : gmap string Qc :=
  let allKeys : gset string := ⋃ (dom <$> dicts) in
  set_fold (fun key result =>
              let vals :=
                (fun d : gmap string Qc => default 0%Qc (d !! key))
                <$> List.filter (fun d => bool_decide (is_Some (d !! key)))
                                dicts in
              if bool_decide (0 < length vals)
              then <[key := (sumQc vals / Qc_of_nat (length vals))%Qc]> result
              else result)
           ∅ allKeys.

(** The inner loop over the aggregates for one label name: the summed
    frequencies per label value, and the number of aggregates that have
    the name. *)
Definition combineLabel (key : string) (aggregates : list ReportCaseAggregate)
    : gmap string Qc * nat :=
  foldl (fun '(combined, count) a =>
           match agg_labels a !! key with
           | Some dist =>
               (foldl (fun comb '(labelVal, freq) => addTo labelVal freq comb)
                      combined (map_to_list dist),
                count + 1)
           | None => (combined, count)
           end)
        (∅, 0) aggregates.

Definition averageFromAggregates (aggregates : list ReportCaseAggregate)
    : ReportCaseAggregate :=
  if bool_decide (length aggregates = 0) then emptyAggregate
  else
    let avgScores := avgNumericDicts (agg_scores <$> aggregates) in
    let avgMetrics := avgNumericDicts (agg_metrics <$> aggregates) in
    let allLabelKeys : gset string :=
      ⋃ ((fun a => dom (agg_labels a)) <$> aggregates) in
    let avgLabels :=
      set_fold (fun key avgLabels =>
                  let '(combined, count) := combineLabel key aggregates in
                  <[key := (fun v => (v / Qc_of_nat count)%Qc) <$> combined]>
                    avgLabels)
               (∅ : gmap string (gmap string Qc)) allLabelKeys in
    let assertionValues := omap agg_assertions aggregates in
    let avgAssertions :=
      if bool_decide (0 < length assertionValues)
      then Some (sumQc assertionValues
                 / Qc_of_nat (length assertionValues))%Qc
      else None in
    {| agg_name := "Averages";
       agg_scores := avgScores;
       agg_labels := avgLabels;
       agg_metrics := avgMetrics;
       agg_assertions := avgAssertions;
       agg_taskDuration :=
         (foldl (fun sum a => sum + agg_taskDuration a) 0 aggregates
          / Qc_of_nat (length aggregates))%Qc;
       agg_totalDuration :=
         (foldl (fun sum a => sum + agg_totalDuration a) 0 aggregates
          / Qc_of_nat (length aggregates))%Qc |}.

(** The [Map] of [computeCaseGroups], in insertion order. *)
Definition Map_has {V} (key : string) (m : list (string * V)) : bool :=
  bool_decide (key ∈ m.*1).

(** [f(m.get(key)!)], updating the entry in place. *)
Fixpoint Map_alter {V} (f : V -> V) (key : string) (m : list (string * V))
    : list (string * V) :=
  match m with
  | [] => []
  | (k, v) :: rest =>
      if String.eqb k key then (k, f v) :: rest
      else (k, v) :: Map_alter f key rest
  end.

(** [if (!groups.has(key)) groups.set(key, { runs: [], failures: [] })] *)
Definition ensureGroup (key : string)
    (groups : list (string * (list ReportCase * list ReportCaseFailure)))
    : list (string * (list ReportCase * list ReportCaseFailure)) :=
  if Map_has key groups then groups else groups ++ [(key, ([], []))].

Definition caseKey (c : ReportCase) : string :=
  default (rc_name c) (rc_sourceCaseName c).

Definition failureKey (f : ReportCaseFailure) : string :=
  default (rcf_name f) (rcf_sourceCaseName f).

Definition addRun (groups : list (string * (list ReportCase * list ReportCaseFailure)))
    (c : ReportCase) :=
  let key := caseKey c in
  Map_alter (fun '(runs, failures) => (runs ++ [c], failures)) key
            (ensureGroup key groups).

Definition addFailure (groups : list (string * (list ReportCase * list ReportCaseFailure)))
    (f : ReportCaseFailure) :=
  let key := failureKey f in
  Map_alter (fun '(runs, failures) => (runs, failures ++ [f])) key
            (ensureGroup key groups).

Definition collectGroups (report : EvaluationReport)
    : list (string * (list ReportCase * list ReportCaseFailure)) :=
  foldl addFailure (foldl addRun [] (rep_cases report)) (rep_failures report).

(** [const first = runs[0] ?? failures[0]!], then the three fields read
    from it; reading them from [undefined] is a [TypeError]. *)
Definition firstOf (runs : list ReportCase) (failures : list ReportCaseFailure)
    : outcome (TInputs * option TMetadata * option TOutput) :=
  match runs with
  | c :: _ => Return (rc_inputs c, rc_metadata c, rc_expectedOutput c)
  | [] =>
      match failures with
      | f :: _ => Return (rcf_inputs f, rcf_metadata f, rcf_expectedOutput f)
      | [] =>
          let message :=
            "Cannot read properties of undefined (reading 'inputs')" in
          Throw (ThrownError "TypeError" message (captureStack message))
      end
  end.

Fixpoint omapM {A B} (f : A -> outcome B) (xs : list A) : outcome (list B) :=
  match xs with
  | [] => Return []
  | x :: rest =>
      obind (f x) (fun y => obind (omapM f rest) (fun ys => Return (y :: ys)))
  end.

Definition makeGroup
    (entry : string * (list ReportCase * list ReportCaseFailure))
    : outcome ReportCaseGroup :=
  let '(name, (runs, failures)) := entry in
  obind (firstOf runs failures) (fun '(inputs, metadata, expectedOutput) =>
    Return {| grp_name := name;
              grp_inputs := inputs;
              grp_metadata := metadata;
              grp_expectedOutput := expectedOutput;
              grp_runs := runs;
              grp_failures := failures;
              grp_summary := averageCases runs |}).

(** [report.caseGroups()]; [Return None] is the [null] result. *)
Definition computeCaseGroups (report : EvaluationReport)
    : outcome (option (list ReportCaseGroup)) :=
  let hasSourceNames :=
    existsb (fun c => bool_decide (rc_sourceCaseName c <> None))
            (rep_cases report)
    || existsb (fun f => bool_decide (rcf_sourceCaseName f <> None))
               (rep_failures report) in
  if negb hasSourceNames then Return None
  else obind (omapM makeGroup (collectGroups report))
             (fun result => Return (Some result)).

(** [report.averages()] *)
Definition computeAverages (report : EvaluationReport)
    : outcome (option ReportCaseAggregate) :=
  obind (computeCaseGroups report) (fun groups =>
    match groups with
    | Some groups =>
        let nonEmpty :=
          grp_summary
          <$> List.filter (fun g => bool_decide (0 < length (grp_runs g)))
                          groups in
        Return (if bool_decide (0 < length nonEmpty)
                then Some (averageFromAggregates nonEmpty)
                else None)
    | None =>
        if bool_decide (0 < length (rep_cases report))
        then Return (Some (averageCases (rep_cases report)))
        else Return None
    end).

(* ================================================================== *)
(** ** [src/dataset.ts] *)

Record Case : Type := mkCase {
  case_name : option string;
  case_inputs : TInputs;
  case_metadata : option TMetadata;
  case_expectedOutput : option TOutput;
  case_evaluators : option (list Evaluator);
}.

Record ReportEvaluatorContext : Type := mkReportEvaluatorContext {
  rctx_name : string;
  rctx_report : EvaluationReport;
  rctx_experimentMetadata : option (gmap string JsVal);
}.

(** A report evaluator returns one analysis ([inl]) or an array of them
    ([inr]); the accessors are modelled by the value they return: the
    record stands for a report evaluator whose [getSerializationName()]
    and [asSpec()] return that value at every call and do nothing else.
    [ReportEvaluatorMethods] below is the one whose accessors may
    throw. *)
Record ReportEvaluator : Type := mkReportEvaluator {
  rev_evaluate :
    ReportEvaluatorContext -> M World (ReportAnalysis + list ReportAnalysis);
  rev_getSerializationName : string;
  rev_asSpec : EvaluatorSpec;
}.

Record Dataset : Type := mkDataset {
  ds_name : option string;
  ds_cases : list Case;
  ds_evaluators : list Evaluator;
  ds_reportEvaluators : list ReportEvaluator;
}.

(** [repeat] and [maxConcurrency] are counts: an integer and a natural
    number.  The options of a call with a fractional or negative
    [maxConcurrency], or with a [repeat] that is no integer, are not
    among the values of this record. *)
Record EvaluateOptions : Type := mkEvaluateOptions {
  opt_name : option string;
  opt_maxConcurrency : option nat;
  opt_progress : option bool;
  opt_repeat : option Z;
  opt_metadata : option (gmap string JsVal);
}.

(** The task: its [name] property (empty for an anonymous function) and
    the call itself, which runs inside a task-run scope. *)
Record Task : Type := mkTask {
  task_name : string;
  task_call : TInputs -> M (World * TaskRun) TOutput;
}.

(** [c.name ?? `Case ${i + 1}`] *)
Definition caseNameAt (i : nat) (c : Case) : string :=
  default ("Case " +:+ pretty (i + 1)) (case_name c).

Definition buildTasksToRun (ds : Dataset) (repeat : Z)
    : list (Case * string * option string) :=
  if bool_decide (1 < repeat)%Z then
    concat (imap (fun i c =>
                    let caseName := caseNameAt i c in
                    (fun runIdx =>
                       let reportName :=
                         caseName +:+ " [" +:+ pretty (runIdx + 1) +:+ "/"
                         +:+ pretty repeat +:+ "]" in
                       (c, reportName, Some caseName))
                    <$> seq 0 (Z.to_nat repeat))
                 (ds_cases ds))
  else imap (fun i c => (c, caseNameAt i c, None)) (ds_cases ds).

(** [while (seenNames.has(`${name}_${suffix}`)) suffix++]: [fuel] bounds
    the number of tests; [suffix_fresh] below shows that the bound used by
    [uniqueName] is never what stops the loop. *)
Fixpoint findSuffix (fuel : nat) (seenNames : gset string) (name : string)
    (suffix : nat) : nat :=
  match fuel with
  | 0 => suffix
  | S fuel' =>
      if bool_decide (name +:+ "_" +:+ pretty suffix ∈ seenNames)
      then findSuffix fuel' seenNames name (S suffix)
      else suffix
  end.

Definition uniqueName (seenNames : gset string) (name : string) : string :=
  if bool_decide (name ∈ seenNames) then
    let suffix := findSuffix (S (size seenNames)) seenNames name 2 in
    name +:+ "_" +:+ pretty suffix
  else name.

Record GroupedOutputs : Type := mkGroupedOutputs {
  go_assertions : gmap string (EvaluationResult bool);
  go_scores : gmap string (EvaluationResult Qc);
  go_labels : gmap string (EvaluationResult string);
  go_seenNames : gset string;
}.

(** The body of the loop of [groupEvaluatorOutputsByType].  The
    assignment [assertions[name] = ...] is the insertion into the finite
    map: what the code does under every name but "__proto__", which
    reaches the prototype and stores no entry. *)
Definition groupStep (acc : GroupedOutputs) (er : EvaluationResult JsVal)
    : GroupedOutputs :=
  let name := uniqueName (go_seenNames acc) (er_name er) in
  let seenNames := {[name]} ∪ go_seenNames acc in
  match er_value er with
  | JBool b =>
      {| go_assertions :=
           <[name := mkEvaluationResult name b (er_reason er) (er_source er)]>
             (go_assertions acc);
         go_scores := go_scores acc;
         go_labels := go_labels acc;
         go_seenNames := seenNames |}
  | JNum x =>
      {| go_assertions := go_assertions acc;
         go_scores :=
           <[name := mkEvaluationResult name x (er_reason er) (er_source er)]>
             (go_scores acc);
         go_labels := go_labels acc;
         go_seenNames := seenNames |}
  | JStr s =>
      {| go_assertions := go_assertions acc;
         go_scores := go_scores acc;
         go_labels :=
           <[name := mkEvaluationResult name s (er_reason er) (er_source er)]>
             (go_labels acc);
         go_seenNames := seenNames |}
  | _ =>
      {| go_assertions := go_assertions acc;
         go_scores := go_scores acc;
         go_labels := go_labels acc;
         go_seenNames := seenNames |}
  end.

Definition groupEvaluatorOutputsByType (results : list (EvaluationResult JsVal))
    : GroupedOutputs :=
  foldl groupStep
        {| go_assertions := ∅; go_scores := ∅; go_labels := ∅;
           go_seenNames := ∅ |}
        results.

Definition now : M World Qc := fun w => (Return (performance_now w), w).

(** The loop that splits what the evaluators returned. *)
Definition splitEvaluatorResults
    (results : list (list (EvaluationResult JsVal) + EvaluatorFailure))
    : list (EvaluationResult JsVal) * list EvaluatorFailure :=
  foldl (fun '(evaluatorOutputs, evaluatorFailures) result =>
           match result with
           | inl outputs => (evaluatorOutputs ++ outputs, evaluatorFailures)
           | inr failure => (evaluatorOutputs, evaluatorFailures ++ [failure])
           end)
        ([], []) results.

Definition runTaskAndEvaluators (ds : Dataset) (task : Task) (c : Case)
    (reportCaseName : string) (sourceCaseName : option string)
    : M World (ReportCase + ReportCaseFailure) :=
  try_catch
    (do t0 <- now;
     do '(taskRunResult, attributes, metrics) <-
       withTaskRun
         (do '(output, spanTree) <- withSpanCapture (task_call task (case_inputs c));
          ret (output, spanTree));
     do t1 <- now;
     let duration := ((t1 - t0) / Qc_of_nat 1000)%Qc in
     let '(output, spanTree) := taskRunResult in
     let ctx :=
       {| ctx_name := case_name c;
          ctx_inputs := case_inputs c;
          ctx_metadata := case_metadata c;
          ctx_expectedOutput := case_expectedOutput c;
          ctx_output := output;
          ctx_duration := duration;
          ctx_attributes := attributes;
          ctx_metrics := metrics;
          ctx_spanTreeOrError := spanTree |} in
     let allEvaluators := default [] (case_evaluators c) ++ ds_evaluators ds in
     do results <-
       (if bool_decide (0 < length allEvaluators)
        then mapM (fun ev => runEvaluator ev ctx) allEvaluators
        else ret []);
     let '(evaluatorOutputs, evaluatorFailures) :=
       splitEvaluatorResults results in
     let grouped := groupEvaluatorOutputsByType evaluatorOutputs in
     do t2 <- now;
     let totalDuration := ((t2 - t0) / Qc_of_nat 1000)%Qc in
     ret (inl (createReportCase reportCaseName (case_inputs c)
                 (case_metadata c) (case_expectedOutput c) output
                 metrics attributes
                 (go_scores grouped) (go_labels grouped)
                 (go_assertions grouped)
                 duration totalDuration sourceCaseName
                 (Some evaluatorFailures))))%js
    (fun e =>
       let '(name, message, stack) := toError e in
       ret (inr (createReportCaseFailure reportCaseName (case_inputs c)
                   (case_metadata c) (case_expectedOutput c)
                   (name +:+ ": " +:+ message)
                   (default "" stack)
                   sourceCaseName))).

(** [runTaskAndEvaluators] for evaluators with methods.  [allEvaluators]
    is the array [[...(c.evaluators ?? []), ...this.evaluators]] that the
    function builds; the rest is the text of the function.  What
    [runEvaluator] lets through is caught by the [catch] of the unit. *)
Definition runTaskAndEvaluators_methods (allEvaluators : list EvaluatorMethods)
    (task : Task) (c : Case)
    (reportCaseName : string) (sourceCaseName : option string)
    : M World (ReportCase + ReportCaseFailure) :=
  try_catch
    (do t0 <- now;
     do '(taskRunResult, attributes, metrics) <-
       withTaskRun
         (do '(output, spanTree) <- withSpanCapture (task_call task (case_inputs c));
          ret (output, spanTree));
     do t1 <- now;
     let duration := ((t1 - t0) / Qc_of_nat 1000)%Qc in
     let '(output, spanTree) := taskRunResult in
     let ctx :=
       {| ctx_name := case_name c;
          ctx_inputs := case_inputs c;
          ctx_metadata := case_metadata c;
          ctx_expectedOutput := case_expectedOutput c;
          ctx_output := output;
          ctx_duration := duration;
          ctx_attributes := attributes;
          ctx_metrics := metrics;
          ctx_spanTreeOrError := spanTree |} in
     do results <-
       (if bool_decide (0 < length allEvaluators)
        then mapM (fun ev => runEvaluator_methods ev ctx) allEvaluators
        else ret []);
     let '(evaluatorOutputs, evaluatorFailures) :=
       splitEvaluatorResults results in
     let grouped := groupEvaluatorOutputsByType evaluatorOutputs in
     do t2 <- now;
     let totalDuration := ((t2 - t0) / Qc_of_nat 1000)%Qc in
     ret (inl (createReportCase reportCaseName (case_inputs c)
                 (case_metadata c) (case_expectedOutput c) output
                 metrics attributes
                 (go_scores grouped) (go_labels grouped)
                 (go_assertions grouped)
                 duration totalDuration sourceCaseName
                 (Some evaluatorFailures))))%js
    (fun e =>
       let '(name, message, stack) := toError e in
       ret (inr (createReportCaseFailure reportCaseName (case_inputs c)
                   (case_metadata c) (case_expectedOutput c)
                   (name +:+ ": " +:+ message)
                   (default "" stack)
                   sourceCaseName))).

(** [runReportEvaluators]: [ctx.report] is the report object itself, so
    every evaluator sees what the earlier ones appended. *)
Fixpoint runReportEvaluators (reportEvaluators : list ReportEvaluator)
    (name : string) (experimentMetadata : option (gmap string JsVal))
    (report : EvaluationReport) : M World EvaluationReport :=
  match reportEvaluators with
  | [] => ret report
  | reportEval :: rest =>
      (do report' <-
         try_catch
           (do result <-
              rev_evaluate reportEval
                {| rctx_name := name;
                   rctx_report := report;
                   rctx_experimentMetadata := experimentMetadata |};
            let analyses :=
              match result with
              | inr several => rep_analyses report ++ several
              | inl one => rep_analyses report ++ [one]
              end in
            ret {| rep_name := rep_name report;
                   rep_cases := rep_cases report;
                   rep_failures := rep_failures report;
                   rep_analyses := analyses;
                   rep_reportEvaluatorFailures :=
                     rep_reportEvaluatorFailures report;
                   rep_experimentMetadata := rep_experimentMetadata report;
                   rep_traceId := rep_traceId report;
                   rep_spanId := rep_spanId report |})
           (fun e =>
              let '(ename, message, stack) := toError e in
              ret {| rep_name := rep_name report;
                     rep_cases := rep_cases report;
                     rep_failures := rep_failures report;
                     rep_analyses := rep_analyses report;
                     rep_reportEvaluatorFailures :=
                       rep_reportEvaluatorFailures report
                       ++ [{| ef_name := rev_getSerializationName reportEval;
                              ef_errorMessage := ename +:+ ": " +:+ message;
                              ef_errorStacktrace := default "" stack;
                              ef_source := rev_asSpec reportEval |}];
                     rep_experimentMetadata := rep_experimentMetadata report;
                     rep_traceId := rep_traceId report;
                     rep_spanId := rep_spanId report |});
       runReportEvaluators rest name experimentMetadata report')%js
  end.

(** [getSerializationName()] and [asSpec()] of a report evaluator are
    methods as well: [runReportEvaluators] calls them in its [catch]
    block, where nothing catches what they throw.  A report evaluator
    with such methods, of which [ReportEvaluator] is the case of two
    methods that return a value and do nothing else: *)
Record ReportEvaluatorMethods : Type := mkReportEvaluatorMethods {
  rem_evaluate :
    ReportEvaluatorContext -> M World (ReportAnalysis + list ReportAnalysis);
  rem_getSerializationName : M World string;
  rem_asSpec : M World EvaluatorSpec;
}.

Definition reportMethods (reportEval : ReportEvaluator)
    : ReportEvaluatorMethods :=
  {| rem_evaluate := rev_evaluate reportEval;
     rem_getSerializationName := ret (rev_getSerializationName reportEval);
     rem_asSpec := ret (rev_asSpec reportEval) |}.

(** [runReportEvaluators] with the two calls of the [catch] block written
    out: the name is asked for first, then the spec, and the failure is
    pushed when both have returned. *)
Fixpoint runReportEvaluators_methods
    (reportEvaluators : list ReportEvaluatorMethods)
    (name : string) (experimentMetadata : option (gmap string JsVal))
    (report : EvaluationReport) : M World EvaluationReport :=
  match reportEvaluators with
  | [] => ret report
  | reportEval :: rest =>
      (do report' <-
         try_catch
           (do result <-
              rem_evaluate reportEval
                {| rctx_name := name;
                   rctx_report := report;
                   rctx_experimentMetadata := experimentMetadata |};
            let analyses :=
              match result with
              | inr several => rep_analyses report ++ several
              | inl one => rep_analyses report ++ [one]
              end in
            ret {| rep_name := rep_name report;
                   rep_cases := rep_cases report;
                   rep_failures := rep_failures report;
                   rep_analyses := analyses;
                   rep_reportEvaluatorFailures :=
                     rep_reportEvaluatorFailures report;
                   rep_experimentMetadata := rep_experimentMetadata report;
                   rep_traceId := rep_traceId report;
                   rep_spanId := rep_spanId report |})
           (fun e =>
              let '(ename, message, stack) := toError e in
              do evaluatorName <- rem_getSerializationName reportEval;
              do source <- rem_asSpec reportEval;
              ret {| rep_name := rep_name report;
                     rep_cases := rep_cases report;
                     rep_failures := rep_failures report;
                     rep_analyses := rep_analyses report;
                     rep_reportEvaluatorFailures :=
                       rep_reportEvaluatorFailures report
                       ++ [{| ef_name := evaluatorName;
                              ef_errorMessage := ename +:+ ": " +:+ message;
                              ef_errorStacktrace := default "" stack;
                              ef_source := source |}];
                     rep_experimentMetadata := rep_experimentMetadata report;
                     rep_traceId := rep_traceId report;
                     rep_spanId := rep_spanId report |});
       runReportEvaluators_methods rest name experimentMetadata report')%js
  end.

(** [pLimit(concurrency)] of the third-party package p-limit, by its
    contract: the function it returns runs what it is given once a slot
    is free and hands back its result.  [None] stands for [Infinity].
    Which units are under way at the same time is not part of this
    sequential model.  The package throws a [TypeError] for a
    concurrency that is neither a positive integer nor [Infinity]: a
    negative or fractional [maxConcurrency], which [EvaluateOptions]
    below does not hold, so that [evaluate] calls [pLimit] with
    [Infinity] or a positive natural number only. *)
Definition pLimit (concurrency : option nat) {S A} (fn : M S A) : M S A := fn.

(** The loop that sorts the units' results into [cases] and [failures]. *)
Definition partitionResults (results : list (ReportCase + ReportCaseFailure))
    : list ReportCase * list ReportCaseFailure :=
  foldl (fun '(cases, failures) item =>
           match item with
           | inl reportCase => (cases ++ [reportCase], failures)
           | inr failure => (cases, failures ++ [failure])
           end)
        ([], []) results.

Definition evaluate (ds : Dataset) (task : Task) (opts : option EvaluateOptions)
    : M World EvaluationReport :=
  let repeat := default 1%Z (opts ≫= opt_repeat) in
  if bool_decide (repeat < 1)%Z then
    let message := "repeat must be >= 1, got " +:+ pretty repeat in
    throw (ThrownError "Error" message (captureStack message))
  else
    let taskName :=
      default (if bool_decide (task_name task = "") then "task"
               else task_name task)
              (opts ≫= opt_name) in
    let maxConcurrency := opts ≫= opt_maxConcurrency in
    let limit : M World (ReportCase + ReportCaseFailure)
                -> M World (ReportCase + ReportCaseFailure) :=
      match maxConcurrency with
      | Some (S n) => pLimit (Some (S n))
      | Some 0 | None => pLimit None
      end in
    let tasksToRun := buildTasksToRun ds repeat in
    (do results <-
       mapM (fun '(c, reportName, sourceName) =>
               limit (runTaskAndEvaluators ds task c reportName sourceName))
            tasksToRun;
     let '(cases, failures) := partitionResults results in
     let report :=
       createEvaluationReport taskName cases (Some failures)
                              (opts ≫= opt_metadata) in
     if bool_decide (0 < length (ds_reportEvaluators ds))
     then runReportEvaluators (ds_reportEvaluators ds) taskName
                              (opts ≫= opt_metadata) report
     else ret report)%js.

(* ================================================================== *)
(** ** [src/dataset.ts]: building a dataset *)

Record DatasetOptions : Type := mkDatasetOptions {
  dso_name : option string;
  dso_cases : list Case;
  dso_evaluators : option (list Evaluator);
  dso_reportEvaluators : option (list ReportEvaluator);
}.

(** The loop of the constructor over [opts.cases]; [names] is the set
    built so far. *)
Fixpoint checkCaseNames (names : gset string) (cases : list Case)
    : outcome unit :=
  match cases with
  | [] => Return tt
  | c :: rest =>
      match case_name c with
      | Some name =>
          if bool_decide (name ∈ names) then
            let message := "Duplicate case name: '" +:+ name +:+ "'" in
            Throw (ThrownError "Error" message (captureStack message))
          else checkCaseNames ({[name]} ∪ names) rest
      | None => checkCaseNames names rest
      end
  end.

(** [new Dataset(opts)] *)
Definition Dataset_new (opts : DatasetOptions) : outcome Dataset :=
  obind (checkCaseNames ∅ (dso_cases opts)) (fun _ =>
    Return {| ds_name := dso_name opts;
              ds_cases := dso_cases opts;
              ds_evaluators := default [] (dso_evaluators opts);
              ds_reportEvaluators := default [] (dso_reportEvaluators opts) |}).

(** [addCase] and [addEvaluator] change the dataset they are called on:
    the state is that dataset.  A case and the array of its evaluators
    are taken to belong to one position of [cases] only. *)
Definition addCase (c : Case) : M Dataset unit :=
  fun this =>
    match case_name c with
    | Some name =>
        if existsb (fun existing => bool_decide (case_name existing = Some name))
                   (ds_cases this)
        then
          let message := "Duplicate case name: '" +:+ name +:+ "'" in
          (Throw (ThrownError "Error" message (captureStack message)), this)
        else
          (Return tt,
           {| ds_name := ds_name this;
              ds_cases := ds_cases this ++ [c];
              ds_evaluators := ds_evaluators this;
              ds_reportEvaluators := ds_reportEvaluators this |})
    | None =>
        (Return tt,
         {| ds_name := ds_name this;
            ds_cases := ds_cases this ++ [c];
            ds_evaluators := ds_evaluators this;
            ds_reportEvaluators := ds_reportEvaluators this |})
    end.

(** The body of the loop of [addEvaluator] for one case, on values:
    the case has its array of evaluators to itself.  [pushInPlace] below
    is the same step on objects that may share an array. *)
Definition pushEvaluator (evaluator : Evaluator) (specificCase : string)
    (c : Case) : Case :=
  if bool_decide (case_name c = Some specificCase) then
    {| case_name := case_name c;
       case_inputs := case_inputs c;
       case_metadata := case_metadata c;
       case_expectedOutput := case_expectedOutput c;
       case_evaluators :=
         Some (default [] (case_evaluators c) ++ [evaluator]) |}
  else c.

Definition addEvaluator (evaluator : Evaluator) (specificCase : option string)
    : M Dataset unit :=
  fun this =>
    match specificCase with
    | None =>
        (Return tt,
         {| ds_name := ds_name this;
            ds_cases := ds_cases this;
            ds_evaluators := ds_evaluators this ++ [evaluator];
            ds_reportEvaluators := ds_reportEvaluators this |})
    | Some specificCase =>
        let found :=
          existsb (fun c => bool_decide (case_name c = Some specificCase))
                  (ds_cases this) in
        if found then
          (Return tt,
           {| ds_name := ds_name this;
              ds_cases := pushEvaluator evaluator specificCase
                          <$> ds_cases this;
              ds_evaluators := ds_evaluators this;
              ds_reportEvaluators := ds_reportEvaluators this |})
        else
          let message :=
            "Case '" +:+ specificCase +:+ "' not found in the dataset" in
          (Throw (ThrownError "Error" message (captureStack message)), this)
    end.

(* ================================================================== *)
(** ** [src/dataset.ts]: [addEvaluator] on shared objects

    A case is an object and its [evaluators] an array, and
    [addEvaluator] changes both in place: [c.evaluators = []] writes a
    property of the case object and [push] writes into an array.  Two
    cases of a dataset may hold the same array, a case object may stand
    twice in [cases], and a case may hold the array that is the
    [evaluators] of the dataset.  The heap keeps case objects and arrays
    of evaluators by address, so that such sharing is visible. *)

Definition Address : Type := nat.

Record CaseObject : Type := mkCaseObject {
  obj_name : option string;
  obj_inputs : TInputs;
  obj_metadata : option TMetadata;
  obj_expectedOutput : option TOutput;
  obj_evaluators : option Address;
}.

Record Heap : Type := mkHeap {
  heap_cases : gmap Address CaseObject;
  heap_arrays : gmap Address (list Evaluator);
}.

(** [this.cases] holds the addresses of the case objects and
    [this.evaluators] is the address of an array. *)
Record DatasetObject : Type := mkDatasetObject {
  dobj_name : option string;
  dobj_cases : list Address;
  dobj_evaluators : Address;
  dobj_reportEvaluators : list ReportEvaluator;
}.

(** [array.push(evaluator)] *)
Definition Array_push (array : Address) (evaluator : Evaluator) (h : Heap)
    : Heap :=
  {| heap_cases := heap_cases h;
     heap_arrays := alter (fun items => items ++ [evaluator]) array
                          (heap_arrays h) |}.

(** The body of the loop of [addEvaluator] for the case object at [a]:
    [if (!c.evaluators) c.evaluators = []] allocates a new array. *)
Definition pushInPlace (evaluator : Evaluator) (specificCase : string)
    (acc : bool * Heap) (a : Address) : bool * Heap :=
  let '(found, h) := acc in
  match heap_cases h !! a with
  | Some c =>
      if bool_decide (obj_name c = Some specificCase) then
        match obj_evaluators c with
        | Some array => (true, Array_push array evaluator h)
        | None =>
            let array := fresh (dom (heap_arrays h)) in
            (true,
             Array_push array evaluator
               {| heap_cases :=
                    <[a := {| obj_name := obj_name c;
                              obj_inputs := obj_inputs c;
                              obj_metadata := obj_metadata c;
                              obj_expectedOutput := obj_expectedOutput c;
                              obj_evaluators := Some array |}]>
                      (heap_cases h);
                  heap_arrays := <[array := []]> (heap_arrays h) |})
        end
      else (found, h)
  | None => (found, h)
  end.

Definition addEvaluator_inPlace (evaluator : Evaluator)
    (specificCase : option string) (this : DatasetObject) : M Heap unit :=
  fun h =>
    match specificCase with
    | None => (Return tt, Array_push (dobj_evaluators this) evaluator h)
    | Some specificCase =>
        let '(found, h') :=
          foldl (pushInPlace evaluator specificCase) (false, h)
                (dobj_cases this) in
        if found then (Return tt, h')
        else
          let message :=
            "Case '" +:+ specificCase +:+ "' not found in the dataset" in
          (Throw (ThrownError "Error" message (captureStack message)), h')
    end.

(** The array a case object holds, if any. *)
Definition arrayOf (h : Heap) (a : Address) : option Address :=
  heap_cases h !! a ≫= obj_evaluators.

(** The case that the object at [a] is, with the items of its array. *)
Definition readCase (h : Heap) (a : Address) : option Case :=
  c ← heap_cases h !! a;
  evaluators ← match obj_evaluators c with
               | None => Some None
               | Some array => Some <$> heap_arrays h !! array
               end;
  Some {| case_name := obj_name c;
          case_inputs := obj_inputs c;
          case_metadata := obj_metadata c;
          case_expectedOutput := obj_expectedOutput c;
          case_evaluators := evaluators |}.

(** The dataset [ds] is what the object [this] holds in the heap [h]. *)
Definition represents (h : Heap) (this : DatasetObject) (ds : Dataset)
    : Prop :=
  ds_name ds = dobj_name this
  ∧ Forall2 (fun a c => readCase h a = Some c) (dobj_cases this) (ds_cases ds)
  ∧ heap_arrays h !! dobj_evaluators this = Some (ds_evaluators ds)
  ∧ ds_reportEvaluators ds = dobj_reportEvaluators this.

(** No case object stands twice in [cases], and the arrays of the cases
    and the array of the dataset are all different arrays. *)
Definition unshared (h : Heap) (this : DatasetObject) : Prop :=
  NoDup (dobj_cases this)
  ∧ NoDup (dobj_evaluators this :: omap (arrayOf h) (dobj_cases this)).

(* ================================================================== *)
(** ** Notions used in the statements *)

(** Every scheduled unit comes from a case of the dataset and is named
    and linked as [buildTasksToRun] prescribes. *)
Definition scheduled (ds : Dataset) (repeat : Z)
    (unit : Case * string * option string) : Prop :=
  ∃ i c, ds_cases ds !! i = Some c ∧ unit.1.1 = c ∧
    if bool_decide (1 < repeat)%Z then
      unit.2 = Some (caseNameAt i c)
      ∧ ∃ k, k < Z.to_nat repeat
           ∧ unit.1.2 = caseNameAt i c +:+ " [" +:+ pretty (k + 1) +:+ "/"
                          +:+ pretty repeat +:+ "]"
    else unit.2 = None ∧ unit.1.2 = caseNameAt i c.

(** The task call of one unit, as [runTaskAndEvaluators] wraps it. *)
Definition unitTaskRun (task : Task) (c : Case)
    : M World (TOutput * SpanTreeOrError * gmap string JsVal * gmap string Qc) :=
  withTaskRun
    (do '(output, spanTree) <- withSpanCapture (task_call task (case_inputs c));
     ret (output, spanTree))%js.

(** What a unit hands back: its name and its link to the source case. *)
Definition unitName (r : ReportCase + ReportCaseFailure) : string :=
  match r with inl rc => rc_name rc | inr f => rcf_name f end.

Definition unitSource (r : ReportCase + ReportCaseFailure) : option string :=
  match r with
  | inl rc => rc_sourceCaseName rc
  | inr f => rcf_sourceCaseName f
  end.

Definition lefts {A B} (xs : list (A + B)) : list A :=
  omap (λ x, match x with inl a => Some a | inr _ => None end) xs.

Definition rights {A B} (xs : list (A + B)) : list B :=
  omap (λ x, match x with inl _ => None | inr b => Some b end) xs.

(** The name tried for a given suffix. *)
Definition suffixed (name : string) (suffix : nat) : string :=
  name +:+ "_" +:+ pretty suffix.

(** What the loop of [groupEvaluatorOutputsByType] keeps true: every
    name stored in one of the three maps is a seen name, and no name is
    stored in two of them. *)
Definition names_apart (g : GroupedOutputs) : Prop :=
  dom (go_assertions g) ⊆ go_seenNames g
  ∧ dom (go_scores g) ⊆ go_seenNames g
  ∧ dom (go_labels g) ⊆ go_seenNames g
  ∧ dom (go_assertions g) ## dom (go_scores g)
  ∧ dom (go_assertions g) ## dom (go_labels g)
  ∧ dom (go_scores g) ## dom (go_labels g).



(** The sum of the counters of a map. *)
Definition countTotal (m : gmap string nat) : nat :=
  map_fold (λ _ n acc, n + acc) 0 m.

(** Kept true by every step of the label loop: a label name has a
    counter exactly when it has a table of values, and the counter is the
    sum of the table. *)
Definition labels_consistent
    (acc : gmap string nat * gmap string (gmap string nat)) : Prop :=
  ∀ k, match acc.2 !! k with
       | Some m => acc.1 !! k = Some (countTotal m) ∧ 0 < countTotal m
       | None => acc.1 !! k = None
       end.

(** The counts the specification speaks of: the cases that carry the
    label name [k], and those among them whose label is [v]. *)
Definition carrying (k : string) (cases : list ReportCase) : nat :=
  length (List.filter (λ c, bool_decide (is_Some (rc_labels c !! k))) cases).

Definition occurrences (k v : string) (cases : list ReportCase) : nat :=
  length (List.filter
            (λ c, bool_decide (er_value <$> rc_labels c !! k = Some v))
            cases).

(** A counter that is only stored once it is positive. *)
Definition nz (n : nat) : option nat :=
  if bool_decide (n = 0) then None else Some n.

(** The groups built from the cases [cs] and the failures [fs]: one
    entry per key, holding the cases and the failures of that key in
    their order. *)
Definition grouped
    (groups : list (string * (list ReportCase * list ReportCaseFailure)))
    (cs : list ReportCase) (fs : list ReportCaseFailure) : Prop :=
  NoDup groups.*1
  ∧ ∀ k, (list_to_map groups
            : gmap string (list ReportCase * list ReportCaseFailure)) !! k
         = if decide (k ∈ (caseKey <$> cs) ++ (failureKey <$> fs))
           then Some (filter (λ c, caseKey c = k) cs,
                      filter (λ f, failureKey f = k) fs)
           else None.

(** The distributions of the aggregates that report the label [key]. *)
Definition reporting (key : string) (aggregates : list ReportCaseAggregate)
    : list (gmap string Qc) :=
  omap (λ a, agg_labels a !! key) aggregates.

(** Adding one distribution into [combined]: the innermost loop. *)
Definition addDist (combined : gmap string Qc) (dist : gmap string Qc)
    : gmap string Qc :=
  foldl (λ comb '(labelVal, freq), addTo labelVal freq comb)
        combined (map_to_list dist).


(** A run of calls [incrementEvalMetric(name, amount)], one for each of
    the amounts in turn. *)
Definition incrementEach (name : string) (amounts : list Qc)
    (store : option TaskRun) : option TaskRun :=
  foldl (fun store amount => incrementEvalMetric name amount store)
        store amounts.

(** The names of the named cases, in order. *)
Definition caseNames (cases : list Case) : list string :=
  omap case_name cases.






(** The results whose value has the JavaScript type [t]. *)
Definition ofType (t : JsType) (results : list (EvaluationResult JsVal))
    : list (EvaluationResult JsVal) :=
  filter (λ er, typeof (er_value er) = t) results.

(** The result [er] is kept in [g] under the name [name]. *)
Definition kept (g : GroupedOutputs) (er : EvaluationResult JsVal)
    (name : string) : Prop :=
  match er_value er with
  | JBool b =>
      go_assertions g !! name
      = Some (mkEvaluationResult name b (er_reason er) (er_source er))
  | JNum x =>
      go_scores g !! name
      = Some (mkEvaluationResult name x (er_reason er) (er_source er))
  | JStr s =>
      go_labels g !! name
      = Some (mkEvaluationResult name s (er_reason er) (er_source er))
  | _ => True
  end.

(** The mean of the numbers that are there, and none when there is
    none. *)
Definition mean (xs : list Qc) : option Qc :=
  match xs with
  | [] => None
  | _ :: _ => Some (sumQc xs / Qc_of_nat (length xs))%Qc
  end.

(** The total mass of a distribution. *)
Definition total (dist : gmap string Qc) : Qc :=
  sumQc (map_to_list dist).*2.

(** The names of the scores, labels and metrics of a case, and the
    values of its labels, are ordinary; the same for an aggregate. *)
Definition ordinary_case (c : ReportCase) : Prop :=
  map_Forall (λ k _, ordinary k) (rc_scores c)
  ∧ map_Forall (λ k (label : EvaluationResult string),
                  ordinary k ∧ ordinary (er_value label)) (rc_labels c)
  ∧ map_Forall (λ k _, ordinary k) (rc_metrics c).

#[global] Instance ordinary_case_dec (c : ReportCase)
    : Decision (ordinary_case c).
Proof. unfold ordinary_case. apply _. Defined.

Definition ordinary_aggregate (a : ReportCaseAggregate) : Prop :=
  map_Forall (λ k _, ordinary k) (agg_scores a)
  ∧ map_Forall (λ k (dist : gmap string Qc),
                  ordinary k ∧ map_Forall (λ v _, ordinary v) dist)
               (agg_labels a)
  ∧ map_Forall (λ k _, ordinary k) (agg_metrics a).

#[global] Instance ordinary_aggregate_dec (a : ReportCaseAggregate)
    : Decision (ordinary_aggregate a).
Proof. unfold ordinary_aggregate. apply _. Defined.

(** The aggregate [a] under the name "Averages". *)
Definition renamed (a : ReportCaseAggregate) : ReportCaseAggregate :=
  {| agg_name := "Averages";
     agg_scores := agg_scores a;
     agg_labels := agg_labels a;
     agg_metrics := agg_metrics a;
     agg_assertions := agg_assertions a;
     agg_taskDuration := agg_taskDuration a;
     agg_totalDuration := agg_totalDuration a |}.

(** The keys of a list, each kept where it occurs first. *)
Fixpoint firstOccurrences (keys : list string) : list string :=
  match keys with
  | [] => []
  | k :: rest => k :: filter (λ k', k' ≠ k) (firstOccurrences rest)
  end.

(** The characters of a string, and the decimal digits among them. *)
Definition chars (s : string) : list Ascii.ascii :=
  String.list_ascii_of_string s.

Definition isDigit (c : Ascii.ascii) : bool :=
  (48 <=? Ascii.nat_of_ascii c) && (Ascii.nat_of_ascii c <=? 57).

End Evals.

(** The record types are written with their type parameters. *)
Arguments EvaluatorContext : clear implicits.
Arguments Evaluator : clear implicits.
Arguments EvaluatorMethods : clear implicits.
Arguments ReportCase : clear implicits.
Arguments ReportCaseFailure : clear implicits.
Arguments ReportCaseGroup : clear implicits.
Arguments EvaluationReport : clear implicits.
Arguments Case : clear implicits.
Arguments ReportEvaluatorContext : clear implicits.
Arguments ReportEvaluator : clear implicits.
Arguments ReportEvaluatorMethods : clear implicits.
Arguments Dataset : clear implicits.
Arguments CaseObject : clear implicits.
Arguments Heap : clear implicits.
Arguments DatasetObject : clear implicits.
Arguments Task : clear implicits.
Arguments DatasetOptions : clear implicits.

(* ================================================================== *)
(** ** More of the [Map]s in insertion order

    [m.get(key)], [m.set(key, v)] and [new Map(entries)]. *)

Definition Map_get {V} (key : string) (m : list (string * V)) : option V :=
  snd <$> List.find (fun entry => String.eqb (fst entry) key) m.

Definition Map_set {V} (key : string) (v : V) (m : list (string * V))
    : list (string * V) :=
  if Map_has key m then Map_alter (fun _ => v) key m else m ++ [(key, v)].

Definition Map_new {V} (entries : list (string * V)) : list (string * V) :=
  foldl (fun m entry => Map_set (fst entry) (snd entry) m) [] entries.

(** The order of [sort()] without a comparator: strings by their code
    units.  A string is the list of the bytes of its UTF-8 form here;
    for a string of ASCII characters these are its UTF-16 code units
    too, and the order below is the order of [sort()]. *)
Definition codeUnitOrder : relation string :=
  fun s1 s2 => String.leb s1 s2 = true.

Definition ascii_only (s : string) : Prop :=
  Forall (fun c => (Ascii.N_of_ascii c < 128)%N)
         (String.list_ascii_of_string s).

#[global] Instance ascii_only_dec (s : string) : Decision (ascii_only s).
Proof. unfold ascii_only. apply _. Defined.

#[global] Instance codeUnitOrder_dec (s1 s2 : string)
    : Decision (codeUnitOrder s1 s2) :=
  bool_eq_dec _ _.

(** [xs.sort()] *)
Definition Array_sort (xs : list string) : list string :=
  merge_sort codeUnitOrder xs.

(* ================================================================== *)
(** ** [src/evaluators/spec.ts], [src/evaluators/base.ts]: evaluator specs

    The fields of an evaluator and the entries of a dataset file are
    [unknown] values and may be arrays, which the results of evaluators
    are not; they have a type of their own.  An object is the list of
    its own properties in enumeration order, with distinct keys.  A
    number is a rational or [NaN].  Two objects or arrays that are the
    same reference are equal in structure, and when they contain no
    [NaN] the test [===] on such a pair has no other outcome than the
    comparison of structure that follows it; the comparisons below are
    the comparison of structure, and what is stated of a value and
    itself is stated of values that contain no [NaN] ([nanFree]).  A
    lookup [obj[key]] or [key in obj] is a lookup among the own
    properties: that is what the code does under the names that
    [Object.prototype] does not define ([ordinary]). *)
Module Serialization.

Inductive Value : Type :=
| VUndefined
| VNull
| VBool (b : bool)
| VNum (x : Qc)
| VNaN
| VStr (s : string)
| VArr (items : list Value)
| VObj (props : list (string * Value)).

Definition typeof (v : Value) : JsType :=
  match v with
  | VUndefined => TUndefined
  | VBool _ => TBoolean
  | VNum _ | VNaN => TNumber
  | VStr _ => TString
  | VNull | VArr _ | VObj _ => TObject
  end.

Definition Array_isArray (v : Value) : bool :=
  match v with VArr _ => true | _ => false end.

(** [props[key]] *)
Fixpoint getProp (props : list (string * Value)) (key : string) : Value :=
  match props with
  | [] => VUndefined
  | (k, x) :: rest => if String.eqb k key then x else getProp rest key
  end.

(** [key in props] *)
Definition hasProp (props : list (string * Value)) (key : string) : bool :=
  existsb (fun kv => String.eqb (fst kv) key) props.

(** [arguments: null | [unknown] | Record<string, unknown>] *)
Inductive SpecArguments : Type :=
| ArgsNull
| ArgsTuple (v : Value)
| ArgsRecord (kwargs : list (string * Value)).

Record EvaluatorSpec : Type := mkEvaluatorSpec {
  spec_name : string;
  spec_arguments : SpecArguments;
}.

Definition specArgs (spec : EvaluatorSpec) : list Value :=
  match spec_arguments spec with
  | ArgsTuple v => [v]
  | _ => []
  end.

Definition specKwargs (spec : EvaluatorSpec) : list (string * Value) :=
  match spec_arguments spec with
  | ArgsRecord kwargs => kwargs
  | _ => []
  end.

Definition isPlainObject (value : Value) : bool :=
  match value with
  | VObj props => forallb (fun _ => true) props.*1
  | _ => false
  end.

(** [value as Record<string, unknown>] *)
Definition asRecord (value : Value) : list (string * Value) :=
  match value with
  | VObj props => props
  | _ => []
  end.

(** The spec itself as a value, for [serializeEvaluatorSpec] without the
    short form. *)
Definition specValue (spec : EvaluatorSpec) : Value :=
  VObj [("name", VStr (spec_name spec));
        ("arguments",
         match spec_arguments spec with
         | ArgsNull => VNull
         | ArgsTuple v => VArr [v]
         | ArgsRecord kwargs => VObj kwargs
         end)].

(** [useShortForm] is [None] when the argument is left out. *)
Definition serializeEvaluatorSpec (spec : EvaluatorSpec)
    (useShortForm : option bool) : Value :=
  if negb (default true useShortForm) then specValue spec
  else
    match spec_arguments spec with
    | ArgsNull => VStr (spec_name spec)
    | ArgsTuple v => VObj [(spec_name spec, v)]
    | ArgsRecord kwargs => VObj [(spec_name spec, VObj kwargs)]
    end.

(** [a === b] on values that are not both objects or arrays. *)
Definition strictEquals (a b : Value) : bool :=
  match a, b with
  | VUndefined, VUndefined | VNull, VNull => true
  | VBool x, VBool y => bool_decide (x = y)
  | VNum x, VNum y => bool_decide (x = y)
  | VStr x, VStr y => bool_decide (x = y)
  | _, _ => false
  end.

Fixpoint deepEqual (a b : Value) {struct a} : bool :=
  if strictEquals a b then true
  else
    match a, b with
    | VNull, _ | _, VNull => false
    | VArr xs, VArr ys =>
        if negb (bool_decide (length xs = length ys)) then false
        else
          (fix every (xs : list Value) (i : nat) {struct xs} : bool :=
             match xs with
             | [] => true
             | val :: rest =>
                 deepEqual val (default VUndefined (ys !! i))
                 && every rest (S i)
             end) xs 0
    | VArr _, VObj _ | VObj _, VArr _ => false
    | VObj aObj, VObj bObj =>
        if negb (bool_decide (length aObj.*1 = length bObj.*1)) then false
        else
          (fix every (entries : list (string * Value)) {struct entries}
             : bool :=
             match entries with
             | [] => true
             | (key, val) :: rest =>
                 deepEqual val (getProp bObj key) && every rest
             end) aObj
    | _, _ => false
    end.

(** Every object inside the value has distinct keys. *)
Fixpoint wellFormed (v : Value) : Prop :=
  match v with
  | VArr items =>
      (fix all (items : list Value) : Prop :=
         match items with
         | [] => True
         | item :: rest => wellFormed item ∧ all rest
         end) items
  | VObj props =>
      NoDup props.*1
      ∧ (fix all (props : list (string * Value)) : Prop :=
           match props with
           | [] => True
           | (_, x) :: rest => wellFormed x ∧ all rest
           end) props
  | _ => True
  end.

(** No [NaN] inside the value. *)
Fixpoint nanFree (v : Value) : Prop :=
  match v with
  | VNaN => False
  | VArr items =>
      (fix all (items : list Value) : Prop :=
         match items with
         | [] => True
         | item :: rest => nanFree item ∧ all rest
         end) items
  | VObj props =>
      (fix all (props : list (string * Value)) : Prop :=
         match props with
         | [] => True
         | (_, x) :: rest => nanFree x ∧ all rest
         end) props
  | _ => True
  end.

(** No object inside the value: primitives and arrays of such values. *)
Fixpoint objectFree (v : Value) : Prop :=
  match v with
  | VArr items =>
      (fix all (items : list Value) : Prop :=
         match items with
         | [] => True
         | item :: rest => objectFree item ∧ all rest
         end) items
  | VObj _ => False
  | _ => True
  end.

(** A class of evaluators as far as serialization goes: its name and
    what [getFields()] and [getDefaults()] return. *)
Record BaseEvaluator : Type := mkBaseEvaluator {
  getSerializationName : string;
  getFields : list (string * Value);
  getDefaults : list (string * Value);
}.

Definition buildSerializationArguments (this : BaseEvaluator)
    : list (string * Value) :=
  List.filter
    (fun '(key, value) =>
       negb (hasProp (getDefaults this) key
             && deepEqual value (getProp (getDefaults this) key)))
    (getFields this).

Definition asSpec (this : BaseEvaluator) : EvaluatorSpec :=
  let rawArguments := buildSerializationArguments this in
  match rawArguments with
  | [] => {| spec_name := getSerializationName this;
             spec_arguments := ArgsNull |}
  | [(key, value)] =>
      match (getFields this).*1 with
      | firstFieldName :: _ =>
          if String.eqb key firstFieldName
          then {| spec_name := getSerializationName this;
                  spec_arguments := ArgsTuple value |}
          else {| spec_name := getSerializationName this;
                  spec_arguments := ArgsRecord rawArguments |}
      | [] => {| spec_name := getSerializationName this;
                 spec_arguments := ArgsRecord rawArguments |}
      end
  | _ => {| spec_name := getSerializationName this;
            spec_arguments := ArgsRecord rawArguments |}
  end.

Section Text.

(** [JSON.stringify(value)] in a template string, and
    [new Error(msg).stack]. *)
Variable JSON_stringify : Value -> string.
Variable captureStack : string -> option string.

Definition deserializeEvaluatorSpec (value : Value) : outcome EvaluatorSpec :=
  match value with
  | VStr s => Return {| spec_name := s; spec_arguments := ArgsNull |}
  | VObj props =>
      let keys := props.*1 in
      match keys with
      | [name] =>
          let rawValue := getProp props name in
          match rawValue with
          | VUndefined | VNull =>
              Return {| spec_name := name; spec_arguments := ArgsNull |}
          | _ =>
              if isPlainObject rawValue then
                Return {| spec_name := name;
                          spec_arguments := ArgsRecord (asRecord rawValue) |}
              else
                Return {| spec_name := name;
                          spec_arguments := ArgsTuple rawValue |}
          end
      | _ =>
          let message :=
            "Expected a single key containing the Evaluator class name, found keys "
            +:+ JSON_stringify (VArr (VStr <$> keys)) in
          Throw (ThrownError "Error" message (captureStack message))
      end
  | _ =>
      let message := "Invalid evaluator spec: " +:+ JSON_stringify value in
      Throw (ThrownError "Error" message (captureStack message))
  end.

(** [toString()] of an evaluator. *)
Definition BaseEvaluator_toString (this : BaseEvaluator) : string :=
  let args := buildSerializationArguments this in
  let argStr :=
    String.concat ", "
      ((fun '(k, v) => k +:+ "=" +:+ JSON_stringify v) <$> args) in
  getSerializationName this +:+ "(" +:+ argStr +:+ ")".

End Text.

(* ------------------------------------------------------------------ *)
(** [src/serialization/loader.ts]: the registry of evaluator classes *)

Section Registry.

Context {Instance : Type}.
Variable captureStack : string -> option string.

(** A class as the loader uses it: its static [getSerializationName()],
    modelled by the name it returns, and its constructor, called with the
    list of its arguments. *)
Record EvaluatorClass : Type := mkEvaluatorClass {
  cls_getSerializationName : string;
  cls_new : list Value -> outcome Instance;
}.

(** The loop of [buildRegistry] over [customTypes]. *)
Fixpoint addCustomTypes (registry : list (string * EvaluatorClass))
    (customTypes : list EvaluatorClass)
    : outcome (list (string * EvaluatorClass)) :=
  match customTypes with
  | [] => Return registry
  | cls :: rest =>
      let name := cls_getSerializationName cls in
      if Map_has name registry then
        let message := "Duplicate evaluator class name: '" +:+ name +:+ "'" in
        Throw (ThrownError "Error" message (captureStack message))
      else addCustomTypes (Map_set name cls registry) rest
  end.

(** The loop over [defaults]. *)
Definition addDefaults (registry : list (string * EvaluatorClass))
    (defaults : list EvaluatorClass) : list (string * EvaluatorClass) :=
  foldl (fun registry cls =>
           let name := cls_getSerializationName cls in
           if negb (Map_has name registry) then Map_set name cls registry
           else registry)
        registry defaults.

Definition buildRegistry (customTypes defaults : list EvaluatorClass)
    : outcome (list (string * EvaluatorClass)) :=
  obind (addCustomTypes [] customTypes) (fun registry =>
    Return (addDefaults registry defaults)).

(** [new cls()], [new cls(...spec.arguments)] or [new cls(spec.arguments)] *)
Definition instantiate (cls : EvaluatorClass) (arguments : SpecArguments)
    : outcome Instance :=
  match arguments with
  | ArgsNull => cls_new cls []
  | ArgsTuple v => cls_new cls [v]
  | ArgsRecord kwargs => cls_new cls [VObj kwargs]
  end.

Definition loadEvaluatorFromRegistry
    (registry : list (string * EvaluatorClass)) (spec : EvaluatorSpec)
    : outcome Instance :=
  match Map_get (spec_name spec) registry with
  | None =>
      let message :=
        ("Evaluator '" +:+ spec_name spec +:+ "' is not in the registry. ")
        +:+ ("Valid choices: " +:+ String.concat ", " registry.*1 +:+ ". ")
        +:+ "If using a custom evaluator, include its class in customEvaluatorTypes." in
      Throw (ThrownError "Error" message (captureStack message))
  | Some cls =>
      match instantiate cls (spec_arguments spec) with
      | Return instance => Return instance
      | Throw e =>
          let message :=
            "Failed to instantiate evaluator '" +:+ spec_name spec +:+ "': "
            +:+ (toError captureStack e).1.2 in
          Throw (ThrownError "Error" message (captureStack message))
      end
  end.

(** The serialization names of classes, in order. *)
Definition classNames (classes : list EvaluatorClass) : list string :=
  cls_getSerializationName <$> classes.

End Registry.

Arguments EvaluatorClass : clear implicits.

(* ------------------------------------------------------------------ *)
(** [src/evaluators/common.ts]: the built-in evaluators *)

(** [deepStrictEqual], the comparison of [Equals], [EqualsExpected] and
    [Contains].  The recursion is on the structure of [a]: for an object
    the comparisons with the values of [a] are prepared in [compare] and
    looked up by key, and a key of [aKeys] always has one.  The lemmas
    [deepStrictEqual_array] and [deepStrictEqual_object] give the two
    [every] loops as the source writes them. *)
Fixpoint deepStrictEqual (a b : Value) {struct a} : bool :=
  if strictEquals a b then true
  else
    match a, b with
    | VNull, _ | _, VNull | VUndefined, _ | _, VUndefined => false
    | VArr xs, VArr ys =>
        if negb (bool_decide (length xs = length ys)) then false
        else
          forallb id
            (imap (fun i compare => compare (default VUndefined (ys !! i)))
                  (deepStrictEqual <$> xs))
    | VArr _, VObj _ | VObj _, VArr _ => false
    | VObj aObj, VObj bObj =>
        let compare :=
          (fun entry : string * Value =>
             (fst entry, deepStrictEqual (snd entry))) <$> aObj in
        let aKeys := Array_sort aObj.*1 in
        let bKeys := Array_sort bObj.*1 in
        if negb (bool_decide (length aKeys = length bKeys)) then false
        else
          forallb id
            (imap (fun i key =>
                     bool_decide (bKeys !! i = Some key)
                     && match Map_get key compare with
                        | Some compare => compare (getProp bObj key)
                        | None => strictEquals VUndefined (getProp bObj key)
                        end)
                  aKeys)
    | _, _ => false
    end.

(** The fields of the built-in evaluators.  A constructor called by the
    loader receives whatever the dataset file holds, so every field is a
    value of any type. *)
Record Equals : Type := mkEquals {
  Equals_value : Value;
  Equals_evaluationName : Value;
}.

Record EqualsExpected : Type := mkEqualsExpected {
  EqualsExpected_evaluationName : Value;
}.

Record Contains : Type := mkContains {
  Contains_value : Value;
  Contains_caseSensitive : Value;
  Contains_asStrings : Value;
  Contains_evaluationName : Value;
}.

Record IsInstance : Type := mkIsInstance {
  IsInstance_typeName : Value;
  IsInstance_evaluationName : Value;
}.

Record MaxDuration : Type := mkMaxDuration {
  MaxDuration_seconds : Value;
}.

Record HasMatchingSpan : Type := mkHasMatchingSpan {
  HasMatchingSpan_query : Value;
  HasMatchingSpan_evaluationName : Value;
}.

Inductive BuiltinEvaluator : Type :=
| AnEquals (this : Equals)
| AnEqualsExpected (this : EqualsExpected)
| AContains (this : Contains)
| AnIsInstance (this : IsInstance)
| AMaxDuration (this : MaxDuration)
| AHasMatchingSpan (this : HasMatchingSpan).

(** The argument of a call at position [i]: [undefined] when the call
    has fewer arguments. *)
Definition argument (args : list Value) (i : nat) : Value :=
  default VUndefined (args !! i).

(** A parameter declared with a default value, [param = d]. *)
Definition orDefault (v d : Value) : Value :=
  match v with
  | VUndefined => d
  | _ => v
  end.

(** [opts?.key ?? d], for a key that no prototype defines. *)
Definition optionOr (opts : Value) (key : string) (d : Value) : Value :=
  match match opts with
        | VObj props => getProp props key
        | _ => VUndefined
        end with
  | VUndefined | VNull => d
  | v => v
  end.

Definition Equals_new (args : list Value) : Equals :=
  {| Equals_value := argument args 0;
     Equals_evaluationName := orDefault (argument args 1) VNull |}.

Definition EqualsExpected_new (args : list Value) : EqualsExpected :=
  {| EqualsExpected_evaluationName := orDefault (argument args 0) VNull |}.

Definition Contains_new (args : list Value) : Contains :=
  let opts := argument args 1 in
  {| Contains_value := argument args 0;
     Contains_caseSensitive := optionOr opts "caseSensitive" (VBool true);
     Contains_asStrings := optionOr opts "asStrings" (VBool false);
     Contains_evaluationName := optionOr opts "evaluationName" VNull |}.

Definition IsInstance_new (args : list Value) : IsInstance :=
  {| IsInstance_typeName := argument args 0;
     IsInstance_evaluationName := orDefault (argument args 1) VNull |}.

Definition MaxDuration_new (args : list Value) : MaxDuration :=
  {| MaxDuration_seconds := argument args 0 |}.

Definition HasMatchingSpan_new (args : list Value) : HasMatchingSpan :=
  {| HasMatchingSpan_query := argument args 0;
     HasMatchingSpan_evaluationName := orDefault (argument args 1) VNull |}.

(** The name of the class, [getFields()] and [getDefaults()] of a
    built-in evaluator. *)
Definition base (this : BuiltinEvaluator) : BaseEvaluator :=
  match this with
  | AnEquals this =>
      {| getSerializationName := "Equals";
         getFields := [("value", Equals_value this);
                       ("evaluationName", Equals_evaluationName this)];
         getDefaults := [("evaluationName", VNull)] |}
  | AnEqualsExpected this =>
      {| getSerializationName := "EqualsExpected";
         getFields :=
           [("evaluationName", EqualsExpected_evaluationName this)];
         getDefaults := [("evaluationName", VNull)] |}
  | AContains this =>
      {| getSerializationName := "Contains";
         getFields := [("value", Contains_value this);
                       ("caseSensitive", Contains_caseSensitive this);
                       ("asStrings", Contains_asStrings this);
                       ("evaluationName", Contains_evaluationName this)];
         getDefaults := [("caseSensitive", VBool true);
                         ("asStrings", VBool false);
                         ("evaluationName", VNull)] |}
  | AnIsInstance this =>
      {| getSerializationName := "IsInstance";
         getFields := [("typeName", IsInstance_typeName this);
                       ("evaluationName", IsInstance_evaluationName this)];
         getDefaults := [("evaluationName", VNull)] |}
  | AMaxDuration this =>
      {| getSerializationName := "MaxDuration";
         getFields := [("seconds", MaxDuration_seconds this)];
         getDefaults := [] |}
  | AHasMatchingSpan this =>
      {| getSerializationName := "HasMatchingSpan";
         getFields :=
           [("query", HasMatchingSpan_query this);
            ("evaluationName", HasMatchingSpan_evaluationName this)];
         getDefaults := [("evaluationName", VNull)] |}
  end.


(** A built-in class as the loader sees it. *)
Definition builtinClass {A} (name : string) (new : list Value -> A)
    (inject : A -> BuiltinEvaluator) : EvaluatorClass BuiltinEvaluator :=
  {| cls_getSerializationName := name;
     cls_new := fun args => Return (inject (new args)) |}.

Definition DEFAULT_EVALUATORS : list (EvaluatorClass BuiltinEvaluator) :=
  [builtinClass "Equals" Equals_new AnEquals;
   builtinClass "EqualsExpected" EqualsExpected_new AnEqualsExpected;
   builtinClass "Contains" Contains_new AContains;
   builtinClass "IsInstance" IsInstance_new AnIsInstance;
   builtinClass "MaxDuration" MaxDuration_new AMaxDuration;
   builtinClass "HasMatchingSpan" HasMatchingSpan_new AHasMatchingSpan].

End Serialization.

(* ================================================================== *)
(** ** [src/evaluators/report-common.ts]: the confusion matrix

    The output and the metadata of a case are [unknown] values; what the
    evaluator reads of them is given by three functions: [String(v)] of
    an output and of a metadata value, and of the entry of a metadata
    object under a key, each [None] when the value is [null] or
    [undefined] (and, for an entry, when the metadata is no object).
    Under a key that [Object.prototype] defines and the labels of the
    case do not have, [c.labels[key]] is the inherited property, which
    has no [value]: the label read is then the string "undefined".
    [Array.prototype.sort()] without a comparison function orders
    strings by their code units; it is a merge sort here, any sort
    giving the same array.  Counts are natural numbers. *)

Section ReportEvaluators.

Context {TInputs TOutput TMetadata ReportAnalysis : Type}.
Variable captureStack : string -> option string.
Variable outputText : TOutput -> option string.
Variable metadataText : TMetadata -> option string.
Variable metadataEntryText : TMetadata -> string -> option string.

Inductive ValueSource : Type :=
| FromExpectedOutput
| FromOutput
| FromMetadata
| FromLabels.

Record ConfusionMatrixEvaluator : Type := mkConfusionMatrixEvaluator {
  cme_predictedFrom : ValueSource;
  cme_predictedKey : option string;
  cme_expectedFrom : ValueSource;
  cme_expectedKey : option string;
  cme_title : string;
}.

Record ConfusionMatrix : Type := mkConfusionMatrix {
  cm_type : string;
  cm_title : string;
  cm_classLabels : list string;
  cm_matrix : list (list nat);
}.

Definition extractValue (c : ReportCase TInputs TOutput TMetadata)
    (source : ValueSource) (key : option string) : outcome (option string) :=
  match source with
  | FromExpectedOutput => Return (rc_expectedOutput c ≫= outputText)
  | FromOutput => Return (outputText (rc_output c))
  | FromMetadata =>
      match key with
      | Some key =>
          Return (rc_metadata c
                  ≫= fun metadata => metadataEntryText metadata key)
      | None => Return (rc_metadata c ≫= metadataText)
      end
  | FromLabels =>
      match key with
      | Some (String _ _ as key) =>
          Return match rc_labels c !! key with
                 | Some label => Some (er_value label)
                 | None =>
                     if bool_decide (ordinary key) then None
                     else Some "undefined"
                 end
      | _ =>
          let message := "'key' is required when from='labels'" in
          Throw (ThrownError "Error" message (captureStack message))
      end
  end.

(** The body of the first loop: [predicted] and [expected] grow
    together. *)
Definition collectStep (this : ConfusionMatrixEvaluator)
    (lists : list string * list string)
    (c : ReportCase TInputs TOutput TMetadata)
    : outcome (list string * list string) :=
  obind (extractValue c (cme_predictedFrom this) (cme_predictedKey this))
    (fun pred =>
  obind (extractValue c (cme_expectedFrom this) (cme_expectedKey this))
    (fun exp =>
       match pred, exp with
       | Some pred, Some exp =>
           Return (fst lists ++ [pred], snd lists ++ [exp])
       | _, _ => Return lists
       end)).

Definition collectValues (this : ConfusionMatrixEvaluator)
    (cases : list (ReportCase TInputs TOutput TMetadata))
    : outcome (list string * list string) :=
  foldl (fun lists c => obind lists (fun lists => collectStep this lists c))
        (Return ([], [])) cases.

(** [[...new Set(xs)]] *)
Definition Set_values (xs : list string) : list string :=
  foldl (fun acc x => if decide (x ∈ acc) then acc else acc ++ [x]) [] xs.

(** [matrix[ei]![pi]! += 1], for the two results of [labelToIdx.get].
    With an index that is [undefined] JavaScript would throw or store
    under a stray key; the model stops with a [TypeError] in both cases,
    and never gets there. *)
Definition incrementCell (matrix : list (list nat)) (ei pi : option nat)
    : outcome (list (list nat)) :=
  match ei, pi with
  | Some ei, Some pi =>
      match matrix !! ei ≫= (.!! pi) with
      | Some _ => Return (alter (alter S pi) ei matrix)
      | None => Throw (ThrownError "TypeError" "undefined index" None)
      end
  | _, _ => Throw (ThrownError "TypeError" "undefined index" None)
  end.

(** The second loop. *)
Definition fillMatrix (labelToIdx : list (string * nat))
    (predicted expected : list string) (matrix : list (list nat))
    : outcome (list (list nat)) :=
  foldl (fun matrix i =>
           obind matrix (fun matrix =>
             let ei := expected !! i ≫= fun label => Map_get label labelToIdx in
             let pi := predicted !! i ≫= fun label => Map_get label labelToIdx in
             incrementCell matrix ei pi))
        (Return matrix) (seq 0 (length expected)).

Definition ConfusionMatrixEvaluator_evaluate (this : ConfusionMatrixEvaluator)
    (ctx : ReportEvaluatorContext TInputs TOutput TMetadata ReportAnalysis)
    : outcome ConfusionMatrix :=
  obind (collectValues this (rep_cases (rctx_report ctx))) (fun lists =>
    let predicted := fst lists in
    let expected := snd lists in
    let allLabels := Array_sort (Set_values (predicted ++ expected)) in
    let labelToIdx := Map_new (imap (fun i label => (label, i)) allLabels) in
    let matrix := (fun _ => (fun _ => 0) <$> allLabels) <$> allLabels in
    obind (fillMatrix labelToIdx predicted expected matrix) (fun matrix =>
      Return {| cm_type := "confusion_matrix";
                cm_title := cme_title this;
                cm_classLabels := allLabels;
                cm_matrix := matrix |})).



End ReportEvaluators.

(* ================================================================== *)
(** ** [src/evaluators/report-common.ts]: the precision-recall curve

    [Boolean(v)] of an expected output is given by a function.  The
    number of thresholds is a count.  The comparison function of the sort
    leaves cases of equal score in their order.  Under a key that
    [Object.prototype] defines and the case does not have, the assertion
    or label read is the inherited property, whose [value] is
    [undefined]: the case then counts as a negative one.  A score read
    under such a key would not be a number; the scores are read under an
    ordinary key. *)

#[global] Instance Qcle_dec : RelDecision Qcle :=
  fun x y =>
    match Qclt_le_dec y x with
    | left H => right (Qclt_not_le _ _ H)
    | right H => left H
    end.

#[global] Instance Qclt_dec : RelDecision Qclt :=
  fun x y =>
    match Qclt_le_dec x y with
    | left H => left H
    | right H => right (Qcle_not_lt _ _ H)
    end.

(** [Math.min(a, b)], [Math.max(a, b)] and [Math.abs(x)] *)
Definition Math_min (a b : Qc) : Qc := if decide (b < a)%Qc then b else a.

Definition Math_max (a b : Qc) : Qc := if decide (a < b)%Qc then b else a.

Definition Math_abs (x : Qc) : Qc := if decide (x < 0)%Qc then (- x)%Qc else x.

Section PrecisionRecall.

Context {TInputs TOutput TMetadata ReportAnalysis : Type}.
Variable captureStack : string -> option string.
Variable outputTruthy : TOutput -> bool.

Inductive ScoreSource : Type :=
| ScoreFromScores
| ScoreFromMetrics.

Inductive PositiveSource : Type :=
| PositiveFromExpectedOutput
| PositiveFromAssertions
| PositiveFromLabels.

Record PrecisionRecallEvaluator : Type := mkPrecisionRecallEvaluator {
  pre_scoreKey : string;
  pre_positiveFrom : PositiveSource;
  pre_positiveKey : option string;
  pre_scoreFrom : ScoreSource;
  pre_title : string;
  pre_nThresholds : nat;
}.

Record PrecisionRecallPoint : Type := mkPrecisionRecallPoint {
  pt_threshold : Qc;
  pt_precision : Qc;
  pt_recall : Qc;
}.

Record PrecisionRecallCurve : Type := mkPrecisionRecallCurve {
  curve_name : string;
  curve_points : list PrecisionRecallPoint;
  curve_auc : Qc;
}.

Record PrecisionRecall : Type := mkPrecisionRecall {
  pr_type : string;
  pr_title : string;
  pr_curves : list PrecisionRecallCurve;
}.

Definition getScore (this : PrecisionRecallEvaluator)
    (c : ReportCase TInputs TOutput TMetadata) : option Qc :=
  match pre_scoreFrom this with
  | ScoreFromScores => er_value <$> rc_scores c !! pre_scoreKey this
  | ScoreFromMetrics => rc_metrics c !! pre_scoreKey this
  end.

Definition getPositive (this : PrecisionRecallEvaluator)
    (c : ReportCase TInputs TOutput TMetadata) : outcome (option bool) :=
  match pre_positiveFrom this with
  | PositiveFromExpectedOutput =>
      Return (outputTruthy <$> rc_expectedOutput c)
  | PositiveFromAssertions =>
      match pre_positiveKey this with
      | Some (String _ _ as key) =>
          Return match rc_assertions c !! key with
                 | Some assertion => Some (er_value assertion)
                 | None =>
                     if bool_decide (ordinary key) then None else Some false
                 end
      | _ =>
          let message :=
            "'positiveKey' is required when positiveFrom='assertions'" in
          Throw (ThrownError "Error" message (captureStack message))
      end
  | PositiveFromLabels =>
      match pre_positiveKey this with
      | Some (String _ _ as key) =>
          Return match rc_labels c !! key with
                 | Some label => Some (negb (String.eqb (er_value label) ""))
                 | None =>
                     if bool_decide (ordinary key) then None else Some false
                 end
      | _ =>
          let message :=
            "'positiveKey' is required when positiveFrom='labels'" in
          Throw (ThrownError "Error" message (captureStack message))
      end
  end.

(** The body of the first loop. *)
Definition scoreStep (this : PrecisionRecallEvaluator)
    (scoredCases : list (Qc * bool))
    (c : ReportCase TInputs TOutput TMetadata)
    : outcome (list (Qc * bool)) :=
  let score := getScore this c in
  obind (getPositive this c) (fun isPositive =>
    match score, isPositive with
    | Some score, Some isPositive =>
        Return (scoredCases ++ [(score, isPositive)])
    | _, _ => Return scoredCases
    end).

Definition collectScored (this : PrecisionRecallEvaluator)
    (cases : list (ReportCase TInputs TOutput TMetadata))
    : outcome (list (Qc * bool)) :=
  foldl (fun scoredCases c =>
           obind scoredCases (fun scoredCases => scoreStep this scoredCases c))
        (Return []) cases.

(** [scoredCases.sort((a, b) => b[0] - a[0])]: by falling score, cases of
    equal score staying in their order. *)
Fixpoint insertByScore (a : Qc * bool) (sorted : list (Qc * bool))
    : list (Qc * bool) :=
  match sorted with
  | [] => [a]
  | b :: rest =>
      if decide (fst b <= fst a)%Qc then a :: b :: rest
      else b :: insertByScore a rest
  end.

Definition sortByScore (scoredCases : list (Qc * bool)) : list (Qc * bool) :=
  foldr insertByScore [] scoredCases.

(** The three counters of one threshold. *)
Definition countStep (threshold : Qc) (counts : nat * nat * nat)
    (scored : Qc * bool) : nat * nat * nat :=
  let '(tp, fp, fn) := counts in
  let '(s, p) := scored in
  let tp := if bool_decide (threshold <= s)%Qc && p then S tp else tp in
  let fp := if bool_decide (threshold <= s)%Qc && negb p then S fp else fp in
  let fn := if bool_decide (s < threshold)%Qc && p then S fn else fn in
  (tp, fp, fn).

Definition pointAt (scoredCases : list (Qc * bool)) (threshold : Qc)
    : PrecisionRecallPoint :=
  let '(tp, fp, fn) := foldl (countStep threshold) (0, 0, 0) scoredCases in
  let precision :=
    if 0 <? tp + fp then (Qc_of_nat tp / Qc_of_nat (tp + fp))%Qc else 1%Qc in
  let recall :=
    if 0 <? tp + fn then (Qc_of_nat tp / Qc_of_nat (tp + fn))%Qc else 0%Qc in
  {| pt_threshold := threshold;
     pt_precision := precision;
     pt_recall := recall |}.

(** The loop of the trapezoidal rule.  [points[i]] and [points[i - 1]]
    are there for every [i] of the loop; the model stops with a
    [TypeError] where they are not, and never gets there. *)
Definition trapezoids (points : list PrecisionRecallPoint) : outcome Qc :=
  foldl (fun auc i =>
           obind auc (fun auc =>
             match points !! i, points !! (i - 1) with
             | Some here, Some before =>
                 Return (auc
                         + Math_abs (pt_recall here - pt_recall before)
                           * (pt_precision here + pt_precision before)
                           / Q2Qc 2)%Qc
             | _, _ => Throw (ThrownError "TypeError" "undefined point" None)
             end))
        (Return 0%Qc) (seq 1 (length points - 1)).

Definition PrecisionRecallEvaluator_evaluate (this : PrecisionRecallEvaluator)
    (ctx : ReportEvaluatorContext TInputs TOutput TMetadata ReportAnalysis)
    : outcome PrecisionRecall :=
  obind (collectScored this (rep_cases (rctx_report ctx)))
    (fun scoredCases =>
  let scoredCases := sortByScore scoredCases in
  match fst <$> scoredCases with
  | [] =>
      Return {| pr_type := "precision_recall";
                pr_title := pre_title this;
                pr_curves := [] |}
  | first :: others =>
      let minScore := foldl Math_min first others in
      let maxScore := foldl Math_max first others in
      let thresholds :=
        if bool_decide (minScore = maxScore) then [minScore]
        else
          let step :=
            ((maxScore - minScore) / Qc_of_nat (pre_nThresholds this))%Qc in
          (fun i => (minScore + Qc_of_nat i * step)%Qc)
          <$> seq 0 (pre_nThresholds this + 1) in
      let points := pointAt scoredCases <$> thresholds in
      obind (trapezoids points) (fun auc =>
        Return {| pr_type := "precision_recall";
                  pr_title := pre_title this;
                  pr_curves :=
                    [{| curve_name := rctx_name ctx;
                        curve_points := points;
                        curve_auc := auc |}] |})
  end).

(** The cases counted at a threshold, and the positive cases. *)
Definition truePositives (threshold : Qc) (scoredCases : list (Qc * bool))
    : nat :=
  length (filter (fun scored => (threshold <= fst scored)%Qc
                                ∧ snd scored = true) scoredCases).

Definition falsePositives (threshold : Qc) (scoredCases : list (Qc * bool))
    : nat :=
  length (filter (fun scored => (threshold <= fst scored)%Qc
                                ∧ snd scored = false) scoredCases).

Definition falseNegatives (threshold : Qc) (scoredCases : list (Qc * bool))
    : nat :=
  length (filter (fun scored => (fst scored < threshold)%Qc
                                ∧ snd scored = true) scoredCases).

Definition positives (scoredCases : list (Qc * bool)) : nat :=
  length (filter (fun scored => snd scored = true) scoredCases).

(** A precision and a recall between 0 and 1. *)
Definition inRange (point : PrecisionRecallPoint) : Prop :=
  (0 <= pt_precision point)%Qc ∧ (pt_precision point <= 1)%Qc
  ∧ (0 <= pt_recall point)%Qc ∧ (pt_recall point <= 1)%Qc.

End PrecisionRecall.

(* ================================================================== *)
(** ** [src/evaluators/common.ts]: what [Equals] and [EqualsExpected]
    return

    The output of the task and the expected output are values of the
    dataset file here. *)

Section BuiltinEvaluators.

Context {TInputs TMetadata World : Type}.





End BuiltinEvaluators.

(* ================================================================== *)
(** ** Data of the worked examples

    Inputs and outputs are strings, there is no metadata, the world is
    the number of task calls made so far and the clock reads it, and
    errors carry no stack. *)

Definition noStack (message : string) : option string := None.

Definition clock (w : nat) : Qc := Qc_of_nat w.

(** An evaluator that returns [v] whatever the context. *)
Definition constantEvaluator (name : string) (v : JsVal)
    : Evaluator string string unit nat :=
  mkEvaluator (fun _ => ret v) name (mkEvaluatorSpec name ArgsNull).

Definition someContext : EvaluatorContext string string unit :=
  mkEvaluatorContext (Some "x") "in" None None "out" 0%Qc ∅ ∅
                     (SpanTreeRecordingError "no spans").

(** A task that echoes its input and counts its calls. *)
Definition echoTask : Task string string nat :=
  mkTask "echo"
         (fun inputs '(calls, taskRun) => (Return inputs, (S calls, taskRun))).

(** A task that throws on the very first call and echoes afterwards. *)
Definition flakyTask : Task string string nat :=
  mkTask "flaky"
         (fun inputs '(calls, taskRun) =>
            match calls with
            | 0 => (Throw (ThrownError "Error" "flaky" None), (1, taskRun))
            | S _ => (Return inputs, (S calls, taskRun))
            end).

Definition plainCase (name : option string) (inputs : string)
    : Case string string unit nat :=
  mkCase name inputs None None None.

Definition twoUnnamed : Dataset string string unit nat unit :=
  mkDataset None [plainCase None "a"; plainCase None "b"] [] [].

Definition oneCase : Dataset string string unit nat unit :=
  mkDataset None [plainCase (Some "x") "in"] [] [].

Definition repeatOptions (repeat : Z) : option EvaluateOptions :=
  Some {| opt_name := None; opt_maxConcurrency := None; opt_progress := None;
          opt_repeat := Some repeat; opt_metadata := None |}.

Definition half : Qc := Q2Qc (1 # 2).

Definition mapEvaluator : Evaluator string string unit nat :=
  constantEvaluator "Quality"
    (JObj [("accuracy", JNum half); ("fluent", JBool true)]).

(** A map result with an entry called "value". *)
Definition valueKeyEvaluator : Evaluator string string unit nat :=
  constantEvaluator "Quality"
    (JObj [("value", JNum half); ("accuracy", JNum 1%Qc)]).

(** An evaluator whose [evaluate] throws and whose [asSpec()] throws
    too. *)
Definition unspecifiedEvaluator : EvaluatorMethods string string unit nat :=
  {| em_evaluate :=
       fun _ w => (Throw (ThrownError "Error" "no verdict" None), w);
     em_getDefaultEvaluationName := ret "Strict";
     em_asSpec := fun w => (Throw (ThrownError "Error" "no spec" None), w) |}.

Definition checkResult (b : bool) : EvaluationResult JsVal :=
  mkEvaluationResult "check" (JBool b) JNull (mkEvaluatorSpec "Check" ArgsNull).

Definition assertion (name : string) (b : bool) : EvaluationResult bool :=
  mkEvaluationResult name b JNull (mkEvaluatorSpec "E" ArgsNull).

Definition label (name value : string) : EvaluationResult string :=
  mkEvaluationResult name value JNull (mkEvaluatorSpec "L" ArgsNull).

(** A successful run with the given name, source case, labels and
    assertions. *)
Definition runOf (name : string) (source : option string)
    (labels : gmap string (EvaluationResult string))
    (assertions : gmap string (EvaluationResult bool))
    : ReportCase string string unit :=
  mkReportCase name "input" None None "output" ∅ ∅ ∅ labels assertions
               1%Qc 1%Qc source None None [].

Definition failureOf (name : string) (source : option string)
    : ReportCaseFailure string string unit :=
  mkReportCaseFailure name "input" None None "Error: boom" "" source None None.


(** The two cases of the test "averages labels (distributions)". *)
Definition labelledCases : list (ReportCase string string unit) :=
  [runOf "a" None (<["category" := label "category" "cat"]> ∅) ∅;
   runOf "b" None (<["category" := label "category" "dog"]> ∅) ∅].


(** Two groups of two samples each, every sample labelled "a". *)
Definition unanimous : ReportCaseAggregate :=
  {| agg_name := "Averages"; agg_scores := ∅;
     agg_labels := <["cat" := <["a" := 1%Qc]> ∅]> ∅;
     agg_metrics := ∅; agg_assertions := Some half;
     agg_taskDuration := 1%Qc; agg_totalDuration := 1%Qc |}.

(** Two source cases run twice each, every run labelled "a". *)
Definition twiceTwoReport : EvaluationReport string string unit unit :=
  mkEvaluationReport "test"
    [runOf "x [1/2]" (Some "x") (<["cat" := label "cat" "a"]> ∅) ∅;
     runOf "x [2/2]" (Some "x") (<["cat" := label "cat" "a"]> ∅) ∅;
     runOf "y [1/2]" (Some "y") (<["cat" := label "cat" "a"]> ∅) ∅;
     runOf "y [2/2]" (Some "y") (<["cat" := label "cat" "a"]> ∅) ∅]
    [] [] [] None None None.

(** The two aggregates of the test "averages multiple aggregates",
    reduced to their labels and assertions. *)
Definition testAggregates : list ReportCaseAggregate :=
  [ {| agg_name := "g1"; agg_scores := ∅;
       agg_labels :=
         <["cat" := <["a" := Q2Qc (5 # 10)]> (<["b" := Q2Qc (5 # 10)]> ∅)]> ∅;
       agg_metrics := ∅; agg_assertions := Some 1%Qc;
       agg_taskDuration := 1%Qc; agg_totalDuration := 1%Qc |};
    {| agg_name := "g2"; agg_scores := ∅;
       agg_labels :=
         <["cat" := <["a" := Q2Qc (3 # 10)]> (<["b" := Q2Qc (7 # 10)]> ∅)]> ∅;
       agg_metrics := ∅; agg_assertions := Some half;
       agg_taskDuration := 1%Qc; agg_totalDuration := 1%Qc |} ].

(** Options of a dataset whose cases have the given names, each case
    taking its name as input. *)
Definition namedOptions (names : list string)
    : DatasetOptions string string unit nat unit :=
  mkDatasetOptions None ((λ name, plainCase (Some name) name) <$> names)
                   None None.

Definition namedDataset (names : list string)
    : Dataset string string unit nat unit :=
  mkDataset None ((λ name, plainCase (Some name) name) <$> names) [] [].

(** The case objects of [namedDataset ["a"; "b"]] at the addresses 0 and
    1, and the array of the dataset at 9. *)
Definition plainObject (name : string) (evaluators : option Address)
    : CaseObject string string unit :=
  mkCaseObject (Some name) name None None evaluators.

Definition twoObjects : DatasetObject string string unit nat unit :=
  mkDatasetObject None [0; 1] 9 [].

(** Neither case has an array of evaluators yet. *)
Definition ownHeap : Heap string string unit nat :=
  mkHeap {[0 := plainObject "a" None; 1 := plainObject "b" None]}
         {[9 := []]}.

(** Both cases hold the array at 5. *)
Definition sharingHeap : Heap string string unit nat :=
  mkHeap {[0 := plainObject "a" (Some 5); 1 := plainObject "b" (Some 5)]}
         {[5 := []; 9 := []]}.

(** An evaluator that throws whatever the context. *)
Definition throwingEvaluator (name : string)
    : Evaluator string string unit nat :=
  mkEvaluator (fun _ w => (Throw (ThrownError "Error" "no verdict" None), w))
              name (mkEvaluatorSpec name ArgsNull).

(** One case with an evaluator of its own that throws, in a dataset
    whose evaluator passes. *)
Definition judgedCase : Case string string unit nat :=
  mkCase (Some "x") "in" None None (Some [throwingEvaluator "Strict"]).



Definition twoAnalyses : ReportEvaluator string string unit nat unit :=
  mkReportEvaluator (fun _ w => (Return (inr [tt; tt]), w))
                    "Two" (mkEvaluatorSpec "Two" ArgsNull).

(** A report evaluator that throws and cannot tell its name either. *)
Definition namelessReportEvaluator
    : ReportEvaluatorMethods string string unit nat unit :=
  {| rem_evaluate :=
       fun _ w => (Throw (ThrownError "Error" "no analysis" None), w);
     rem_getSerializationName :=
       fun w => (Throw (ThrownError "TypeError" "no name" None), w);
     rem_asSpec := ret (mkEvaluatorSpec "Broken" ArgsNull) |}.

(** Runs of the cases "b", "a", "b" in this order, and a failure of
    "c". *)
Definition interleavedReport : EvaluationReport string string unit unit :=
  mkEvaluationReport "test"
    [runOf "b [1/2]" (Some "b") ∅ ∅;
     runOf "a [1/1]" (Some "a") ∅ ∅;
     runOf "b [2/2]" (Some "b") ∅ ∅]
    [failureOf "c [1/1]" (Some "c")]
    [] [] None None None.

(** A case with a score and a metric, and one with neither. *)
Definition scoredCases : list (ReportCase string string unit) :=
  [mkReportCase "a" "input" None None "output"
     (<["latency" := Q2Qc 3]> ∅) ∅
     (<["accuracy" := mkEvaluationResult "accuracy" half JNull
                        (mkEvaluatorSpec "E" ArgsNull)]> ∅)
     ∅ ∅ 1%Qc (Q2Qc 3) None None None [];
   runOf "b" None ∅ ∅].

(** Two aggregates of which only the first has a score and a metric. *)
Definition scoredAggregates : list ReportCaseAggregate :=
  [ {| agg_name := "g1";
       agg_scores := <["accuracy" := 1%Qc]> ∅;
       agg_labels := ∅;
       agg_metrics := <["latency" := Q2Qc 3]> ∅;
       agg_assertions := None;
       agg_taskDuration := 1%Qc; agg_totalDuration := Q2Qc 3 |};
    {| agg_name := "g2"; agg_scores := ∅; agg_labels := ∅;
       agg_metrics := ∅; agg_assertions := None;
       agg_taskDuration := 1%Qc; agg_totalDuration := 1%Qc |} ].

(** A stand-in for [JSON.stringify] in the messages of errors. *)
Definition unprinted (v : Serialization.Value) : string := "<value>".

(** An evaluator class with a field that has no default and one that is
    at its default. *)
Definition containsEvaluator : Serialization.BaseEvaluator :=
  Serialization.mkBaseEvaluator "Contains"
    [("value", Serialization.VStr "needle");
     ("caseSensitive", Serialization.VBool true)]
    [("caseSensitive", Serialization.VBool true)].

(** Classes whose constructor returns a note of who was called and with
    how many arguments. *)
Definition noteClass (name note : string) : Serialization.EvaluatorClass string :=
  Serialization.mkEvaluatorClass name
    (fun args => Return (note +:+ "/" +:+ pretty (length args))).

(** A successful run with the given output and expected output. *)
Definition classified (output expected : string)
    : ReportCase string string unit :=
  mkReportCase "case" "input" None (Some expected) output ∅ ∅ ∅ ∅ ∅
               1%Qc 1%Qc None None None [].

(** The output against the expected output, the defaults of the class. *)
Definition outputAgainstExpected : ConfusionMatrixEvaluator :=
  mkConfusionMatrixEvaluator FromOutput None FromExpectedOutput None
                             "Confusion Matrix".

(** Three cases: a cat taken for a cat, a cat taken for a dog, and a dog
    taken for a dog. *)
Definition catsAndDogs
    : ReportEvaluatorContext string string unit unit :=
  mkReportEvaluatorContext "test"
    (mkEvaluationReport "test"
       [classified "cat" "cat"; classified "dog" "cat";
        classified "dog" "dog"]
       [] [] [] None None None)
    None.

(** Outputs and metadata that are strings already. *)
Definition asIs (s : string) : option string := Some s.

Definition noMetadata (metadata : unit) : option string := None.

Definition noEntry (metadata : unit) (key : string) : option string := None.

(** A successful run with a confidence score and a verdict on its
    correctness. *)
Definition guessed (confidence : Qc) (correct : bool)
    : ReportCase string string unit :=
  mkReportCase "case" "input" None None "output" ∅ ∅
    (<["confidence" := mkEvaluationResult "confidence" confidence JNull
                         (mkEvaluatorSpec "Confidence" ArgsNull)]> ∅)
    ∅
    (<["correct" := assertion "correct" correct]> ∅)
    1%Qc 1%Qc None None None [].

(** The curve of the confidence against the assertion, in two steps. *)
Definition confidenceCurve : PrecisionRecallEvaluator :=
  mkPrecisionRecallEvaluator "confidence" PositiveFromAssertions
    (Some "correct") ScoreFromScores "Precision-Recall Curve" 2.

(** Three guesses: a sure one that is right, a doubtful one that is
    wrong, and an unsure one that is right. *)
Definition guesses : ReportEvaluatorContext string string unit unit :=
  mkReportEvaluatorContext "test"
    (mkEvaluationReport "test"
       [guessed (Q2Qc (9 # 10)) true; guessed half false;
        guessed (Q2Qc (1 # 10)) true]
       [] [] [] None None None)
    None.

Definition nonEmpty (output : string) : bool := negb (String.eqb output "").




(* ================================================================== *)
(** * Properties *)

Section Properties.

Context {TInputs TOutput TMetadata World ReportAnalysis : Type}.
Variable captureStack : string -> option string.
Variable performance_now : World -> Qc.
Variable otel : OtelEnv.

(** Inside this section the record types stand at the section's type
    parameters and the functions at its [captureStack],
    [performance_now] and [otel]. *)
Local Abbreviation EvaluatorContext :=
  (EvaluatorContext TInputs TOutput TMetadata).
Local Abbreviation Evaluator := (Evaluator TInputs TOutput TMetadata World).
Local Abbreviation EvaluatorMethods :=
  (EvaluatorMethods TInputs TOutput TMetadata World).
Local Abbreviation ReportCase := (ReportCase TInputs TOutput TMetadata).
Local Abbreviation ReportCaseFailure :=
  (ReportCaseFailure TInputs TOutput TMetadata).
Local Abbreviation ReportCaseGroup :=
  (ReportCaseGroup TInputs TOutput TMetadata).
Local Abbreviation EvaluationReport :=
  (EvaluationReport TInputs TOutput TMetadata ReportAnalysis).
Local Abbreviation Case := (Case TInputs TOutput TMetadata World).
Local Abbreviation ReportEvaluatorContext :=
  (ReportEvaluatorContext TInputs TOutput TMetadata ReportAnalysis).
Local Abbreviation ReportEvaluator :=
  (ReportEvaluator TInputs TOutput TMetadata World ReportAnalysis).
Local Abbreviation ReportEvaluatorMethods :=
  (ReportEvaluatorMethods TInputs TOutput TMetadata World ReportAnalysis).
Local Abbreviation Dataset :=
  (Dataset TInputs TOutput TMetadata World ReportAnalysis).
Local Abbreviation Task := (Task TInputs TOutput World).
Local Abbreviation import_otel := (import_otel otel).
Local Abbreviation withSpanCapture := (withSpanCapture otel).
Local Abbreviation ctx_spanTree := (ctx_spanTree captureStack).
Local Abbreviation toError := (toError captureStack).
Local Abbreviation runEvaluator := (runEvaluator captureStack).
Local Abbreviation runEvaluator_methods :=
  (runEvaluator_methods captureStack).
Local Abbreviation firstOf := (firstOf captureStack).
Local Abbreviation makeGroup := (makeGroup captureStack).
Local Abbreviation computeCaseGroups := (computeCaseGroups captureStack).
Local Abbreviation computeAverages := (computeAverages captureStack).
Local Abbreviation now := (now performance_now).
Local Abbreviation runTaskAndEvaluators :=
  (runTaskAndEvaluators captureStack performance_now otel).
Local Abbreviation runTaskAndEvaluators_methods :=
  (runTaskAndEvaluators_methods captureStack performance_now otel).
Local Abbreviation runReportEvaluators := (runReportEvaluators captureStack).
Local Abbreviation runReportEvaluators_methods :=
  (runReportEvaluators_methods captureStack).
Local Abbreviation evaluate := (evaluate captureStack performance_now otel).
Local Abbreviation unitTaskRun := (unitTaskRun otel).
Local Abbreviation DatasetOptions :=
  (DatasetOptions TInputs TOutput TMetadata World ReportAnalysis).
Local Abbreviation checkCaseNames := (checkCaseNames captureStack).
Local Abbreviation Dataset_new := (Dataset_new captureStack).
Local Abbreviation addCase := (addCase captureStack).
Local Abbreviation addEvaluator := (addEvaluator captureStack).
Local Abbreviation CaseObject := (CaseObject TInputs TOutput TMetadata).
Local Abbreviation Heap := (Heap TInputs TOutput TMetadata World).
Local Abbreviation DatasetObject :=
  (DatasetObject TInputs TOutput TMetadata World ReportAnalysis).
Local Abbreviation addEvaluator_inPlace :=
  (addEvaluator_inPlace captureStack).

Implicit Types (ev : Evaluator) (ctx : EvaluatorContext) (ds : Dataset)
  (task : Task) (report : EvaluationReport) (cases cs : list ReportCase)
  (fs : list ReportCaseFailure) (revs : list ReportEvaluator).

(** ** The task-run scope helpers *)

Lemma incrementEvalMetric_in_scope name amount taskRun :
  incrementEvalMetric name amount (Some taskRun) =
    if bool_decide (default 0%Qc (metrics taskRun !! name) = 0%Qc)
       && bool_decide ((default 0 (metrics taskRun !! name) + amount)%Qc = 0%Qc)
    then Some taskRun
    else Some {| attributes := attributes taskRun;
                 metrics := <[name := (default 0 (metrics taskRun !! name)
                                        + amount)%Qc]> (metrics taskRun) |}.
Proof. reflexivity. Qed.

(** The helpers of the task-run scope.  Outside a scope (no store)
    [setEvalAttribute] and [incrementEvalMetric] leave no store behind:
    they record nothing, and being total functions with no throwing step
    they cannot fail.  Inside a scope, under an ordinary name,
    incrementing by 0 a metric that has no recorded value leaves the run
    untouched (the key is not created), and an increment whose running
    value is not 0 stores that value under the key and changes nothing
    else. *)
Theorem eval_helpers_scope (name : string) (value : JsVal) (amount : Qc)
    (taskRun : TaskRun) :
  setEvalAttribute name value None = None
  ∧ incrementEvalMetric name amount None = None
  ∧ (ordinary name →
     metrics taskRun !! name = None →
     incrementEvalMetric name 0%Qc (Some taskRun) = Some taskRun)
  ∧ (ordinary name →
     (default 0 (metrics taskRun !! name) + amount)%Qc ≠ 0%Qc →
     ∃ taskRun',
       incrementEvalMetric name amount (Some taskRun) = Some taskRun'
       ∧ metrics taskRun' !! name
         = Some (default 0 (metrics taskRun !! name) + amount)%Qc
       ∧ (∀ other, other ≠ name →
            metrics taskRun' !! other = metrics taskRun !! other)
       ∧ attributes taskRun' = attributes taskRun).
Proof.
  split; [reflexivity|]. split; [reflexivity|]. split.
  - intros _ Hnone. rewrite incrementEvalMetric_in_scope, Hnone. reflexivity.
  - intros _ Hnz. rewrite incrementEvalMetric_in_scope.
    rewrite (bool_decide_eq_false_2 (_ + _ = _)%Qc) by exact Hnz.
    rewrite andb_false_r. eexists. split; [reflexivity|]. simpl.
    split; [apply lookup_insert_eq|]. split; [|reflexivity].
    intros other Hne. apply lookup_insert_ne. congruence.
Qed.

(** ** The evaluator runner *)

Lemma isEvaluationScalar_not_reason v :
  isEvaluationScalar v = true → isEvaluationReason v = false.
Proof. destruct v; simpl; try discriminate; reflexivity. Qed.

Lemma normalizeToMapping_single v scalarName :
  isEvaluationScalar v || isEvaluationReason v = true →
  normalizeToMapping v scalarName = JObj [(scalarName, v)].
Proof. intros H. unfold normalizeToMapping. rewrite H. reflexivity. Qed.

Lemma runEvaluator_thrown ev ctx w e w' :
  ev_evaluate ev ctx w = (Throw e, w') →
  runEvaluator ev ctx w =
    (Return (inr {| ef_name := getDefaultEvaluationName ev;
                    ef_errorMessage :=
                      (toError e).1.1 +:+ ": " +:+ (toError e).1.2;
                    ef_errorStacktrace := default "" (toError e).2;
                    ef_source := asSpec ev |}), w').
Proof.
  intros He. unfold runEvaluator, try_catch, bind. rewrite He.
  destruct (toError e) as [[ename message] stack]. reflexivity.
Qed.

Lemma runEvaluator_returned ev ctx w v w' :
  ev_evaluate ev ctx w = (Return v, w') →
  runEvaluator ev ctx w =
    match Object_entries (normalizeToMapping v (getDefaultEvaluationName ev)) with
    | Return entries => (Return (inl (toDetail ev <$> entries)), w')
    | Throw e =>
        (Return (inr {| ef_name := getDefaultEvaluationName ev;
                        ef_errorMessage :=
                          (toError e).1.1 +:+ ": " +:+ (toError e).1.2;
                        ef_errorStacktrace := default "" (toError e).2;
                        ef_source := asSpec ev |}), w')
    end.
Proof.
  intros He. unfold runEvaluator, try_catch, bind, lift. rewrite He.
  destruct (Object_entries _) as [entries|e]; [reflexivity|].
  destruct (toError e) as [[ename message] stack]. reflexivity.
Qed.

(** The results of [runEvaluator] for an evaluator whose two methods
    return a value and do nothing else. *)
Lemma runEvaluator_plain_results (ev : Evaluator) (ctx : EvaluatorContext)
    (w : World) :
  (∃ r w', runEvaluator ev ctx w = (Return r, w'))
  ∧ (∀ ename message stack w',
       ev_evaluate ev ctx w = (Throw (ThrownError ename message stack), w') →
       runEvaluator ev ctx w =
         (Return (inr {| ef_name := getDefaultEvaluationName ev;
                         ef_errorMessage := ename +:+ ": " +:+ message;
                         ef_errorStacktrace := default "" stack;
                         ef_source := asSpec ev |}), w'))
  ∧ (∀ str w',
       ev_evaluate ev ctx w = (Throw (ThrownValue str), w') →
       runEvaluator ev ctx w =
         (Return (inr {| ef_name := getDefaultEvaluationName ev;
                         ef_errorMessage := "Error: " +:+ str;
                         ef_errorStacktrace := default "" (captureStack str);
                         ef_source := asSpec ev |}), w'))
  ∧ (∀ v w',
       ev_evaluate ev ctx w = (Return v, w') →
       isEvaluationScalar v = true →
       runEvaluator ev ctx w =
         (Return (inl [ {| er_name := getDefaultEvaluationName ev;
                           er_value := v;
                           er_reason := JNull;
                           er_source := asSpec ev |} ]), w'))
  ∧ (∀ props x w',
       ev_evaluate ev ctx w = (Return (JObj props), w') →
       has_in "value" (JObj props) = true →
       getProp props "value" = x →
       isEvaluationScalar x = true →
       runEvaluator ev ctx w =
         (Return (inl [ {| er_name := getDefaultEvaluationName ev;
                           er_value := x;
                           er_reason :=
                             if is_nullish (getProp props "reason") then JNull
                             else getProp props "reason";
                           er_source := asSpec ev |} ]), w'))
  ∧ (∀ props w',
       ev_evaluate ev ctx w = (Return (JObj props), w') →
       isEvaluationReason (JObj props) = false →
       ∃ results,
         runEvaluator ev ctx w = (Return (inl results), w')
         ∧ er_name <$> results = props.*1
         ∧ er_source <$> results = (λ _, asSpec ev) <$> props
         ∧ er_value <$> results
           = (λ entry, if isEvaluationReason entry.2
                       then get entry.2 "value" else entry.2) <$> props).
Proof.
  split; [|split; [|split; [|split; [|split]]]].
  - destruct (ev_evaluate ev ctx w) as [[v|e] w'] eqn:He.
    + rewrite (runEvaluator_returned _ _ _ _ _ He).
      destruct (Object_entries _); eauto.
    + rewrite (runEvaluator_thrown _ _ _ _ _ He). eauto.
  - intros ename message stack w' He.
    rewrite (runEvaluator_thrown _ _ _ _ _ He). reflexivity.
  - intros str w' He.
    rewrite (runEvaluator_thrown _ _ _ _ _ He). reflexivity.
  - intros v w' He Hv. rewrite (runEvaluator_returned _ _ _ _ _ He).
    rewrite normalizeToMapping_single by (rewrite Hv; reflexivity).
    simpl. rewrite (isEvaluationScalar_not_reason _ Hv). reflexivity.
  - intros props x w' He Hin Hx Hs.
    assert (Hr : isEvaluationReason (JObj props) = true).
    { unfold isEvaluationReason. simpl get. rewrite Hin, Hx. simpl typeof.
      unfold isEvaluationScalar in Hs. rewrite Hs. reflexivity. }
    rewrite (runEvaluator_returned _ _ _ _ _ He).
    rewrite normalizeToMapping_single by (rewrite Hr; apply orb_true_r).
    simpl Object_entries. cbv iota. simpl fmap. unfold toDetail.
    rewrite Hr. simpl get. rewrite Hx. reflexivity.
  - intros props w' He Hr. rewrite (runEvaluator_returned _ _ _ _ _ He).
    unfold normalizeToMapping. rewrite Hr. simpl.
    eexists. split; [reflexivity|].
    rewrite <- !list_fmap_compose.
    split; [|split]; apply list_fmap_ext; intros i [k v] _; simpl;
      destruct (isEvaluationReason v); reflexivity.
Qed.

Lemma mapM_ret {S A B} (g : A → B) (f : A → M S B) (xs : list A) :
  (∀ x s, f x s = (Return (g x), s)) →
  ∀ s, mapM f xs s = (Return (g <$> xs), s).
Proof.
  intros Hf. induction xs as [|x rest IH]; intros s; simpl; [reflexivity|].
  unfold bind. rewrite Hf, IH. reflexivity.
Qed.

(** With two methods that return a value and leave the world alone,
    [runEvaluator_methods] is [runEvaluator]. *)
Lemma runEvaluator_methods_plain (ev : EvaluatorMethods) (name : string)
    (source : EvaluatorSpec) (ctx : EvaluatorContext) (w : World) :
  (∀ w, em_getDefaultEvaluationName ev w = (Return name, w)) →
  (∀ w, em_asSpec ev w = (Return source, w)) →
  runEvaluator_methods ev ctx w
  = runEvaluator {| ev_evaluate := em_evaluate ev;
                    getDefaultEvaluationName := name;
                    asSpec := source |} ctx w.
Proof.
  intros Hname Hspec.
  unfold runEvaluator_methods, runEvaluator, try_catch, bind, lift.
  cbn [ev_evaluate getDefaultEvaluationName asSpec].
  destruct (em_evaluate ev ctx w) as [[v|e] w1].
  - rewrite Hname.
    destruct (Object_entries (normalizeToMapping v name)) as [entries|e].
    + rewrite (mapM_ret
                 (toDetail {| ev_evaluate := em_evaluate ev;
                              getDefaultEvaluationName := name;
                              asSpec := source |})).
      * reflexivity.
      * intros [k result] s. unfold pushDetail, toDetail, bind.
        rewrite Hspec. cbn [asSpec].
        destruct (isEvaluationReason result); reflexivity.
    + destruct (toError e) as [[ename message] stack].
      rewrite Hname, Hspec. reflexivity.
  - destruct (toError e) as [[ename message] stack].
    rewrite Hname, Hspec. reflexivity.
Qed.

(** A method that throws in the [catch] block is not caught: when
    [evaluate] has thrown and [asSpec()] throws in its turn, that second
    error leaves [runEvaluator]. *)
Lemma runEvaluator_methods_escape (ev : EvaluatorMethods)
    (ctx : EvaluatorContext) (w w1 w2 w3 : World) (e e' : Thrown)
    (name : string) :
  em_evaluate ev ctx w = (Throw e, w1) →
  em_getDefaultEvaluationName ev w1 = (Return name, w2) →
  em_asSpec ev w2 = (Throw e', w3) →
  runEvaluator_methods ev ctx w = (Throw e', w3).
Proof.
  intros He Hname Hspec. unfold runEvaluator_methods, try_catch, bind.
  rewrite He. destruct (toError e) as [[ename message] stack].
  rewrite Hname, Hspec. reflexivity.
Qed.

(** C3, as amended.  For an evaluator whose [getDefaultEvaluationName()]
    and [asSpec()] return a value and do nothing else, [runEvaluator]
    always returns.  What [evaluate] threw comes back as an
    [EvaluatorFailure] whose message is the error's name and message
    joined by a colon and a space and whose stack trace is the error's,
    or the empty string when it has none; a thrown value that is not an
    error is taken as the string that [String(e)] makes of it and
    wrapped in an error.  A bare scalar, and an object that has a scalar
    under the key "value", each give one result under the evaluator's
    default evaluation name.  Any other object gives one result per
    entry, in the order of the entries, under the entry's key. *)
Theorem runEvaluator_normalizes (ev : EvaluatorMethods) (name : string)
    (source : EvaluatorSpec) (ctx : EvaluatorContext) (w : World) :
  (∀ w, em_getDefaultEvaluationName ev w = (Return name, w)) →
  (∀ w, em_asSpec ev w = (Return source, w)) →
  (∃ r w', runEvaluator_methods ev ctx w = (Return r, w'))
  ∧ (∀ ename message stack w',
       em_evaluate ev ctx w = (Throw (ThrownError ename message stack), w') →
       runEvaluator_methods ev ctx w =
         (Return (inr {| ef_name := name;
                         ef_errorMessage := ename +:+ ": " +:+ message;
                         ef_errorStacktrace := default "" stack;
                         ef_source := source |}), w'))
  ∧ (∀ str w',
       em_evaluate ev ctx w = (Throw (ThrownValue str), w') →
       runEvaluator_methods ev ctx w =
         (Return (inr {| ef_name := name;
                         ef_errorMessage := "Error: " +:+ str;
                         ef_errorStacktrace := default "" (captureStack str);
                         ef_source := source |}), w'))
  ∧ (∀ v w',
       em_evaluate ev ctx w = (Return v, w') →
       isEvaluationScalar v = true →
       runEvaluator_methods ev ctx w =
         (Return (inl [ {| er_name := name;
                           er_value := v;
                           er_reason := JNull;
                           er_source := source |} ]), w'))
  ∧ (∀ props x w',
       em_evaluate ev ctx w = (Return (JObj props), w') →
       has_in "value" (JObj props) = true →
       getProp props "value" = x →
       isEvaluationScalar x = true →
       runEvaluator_methods ev ctx w =
         (Return (inl [ {| er_name := name;
                           er_value := x;
                           er_reason :=
                             if is_nullish (getProp props "reason") then JNull
                             else getProp props "reason";
                           er_source := source |} ]), w'))
  ∧ (∀ props w',
       em_evaluate ev ctx w = (Return (JObj props), w') →
       isEvaluationReason (JObj props) = false →
       ∃ results,
         runEvaluator_methods ev ctx w = (Return (inl results), w')
         ∧ er_name <$> results = props.*1
         ∧ er_source <$> results = (λ _, source) <$> props
         ∧ er_value <$> results
           = (λ entry, if isEvaluationReason entry.2
                       then get entry.2 "value" else entry.2) <$> props).
Proof.
  intros Hname Hspec.
  rewrite (runEvaluator_methods_plain ev name source ctx w Hname Hspec).
  exact (runEvaluator_plain_results
           {| ev_evaluate := em_evaluate ev;
              getDefaultEvaluationName := name;
              asSpec := source |} ctx w).
Qed.

(** ** The schedule built by [buildTasksToRun] *)

Lemma caseNameAt_named i (c : Case) n :
  case_name c = Some n → caseNameAt i c = n.
Proof. intros H. unfold caseNameAt. rewrite H. reflexivity. Qed.

Lemma caseNameAt_unnamed i (c : Case) :
  case_name c = None → caseNameAt i c = "Case " +:+ pretty (i + 1).
Proof. intros H. unfold caseNameAt. rewrite H. reflexivity. Qed.

(** Position [i * r + k] of a concatenation of chunks of length [r]. *)
Lemma lookup_concat_uniform {A} (r : nat) (chunks : list (list A)) i k :
  Forall (λ chunk, length chunk = r) chunks →
  k < r →
  concat chunks !! (i * r + k) = chunks !! i ≫= (.!! k).
Proof.
  intros Hall Hk. revert i. induction Hall as [|chunk rest Hlen _ IH]; intros i.
  - rewrite !lookup_nil. reflexivity.
  - destruct i as [|i]; simpl.
    + rewrite lookup_app_l by lia. reflexivity.
    + rewrite lookup_app_r by lia.
      replace (r + i * r + k - length chunk) with (i * r + k) by lia.
      apply IH.
Qed.

Lemma length_concat_uniform {A} (r : nat) (chunks : list (list A)) :
  Forall (λ chunk, length chunk = r) chunks →
  length (concat chunks) = length chunks * r.
Proof.
  induction 1 as [|chunk rest Hlen _ IH]; simpl; [reflexivity|].
  rewrite length_app, IH. lia.
Qed.

Lemma elem_of_concat {A} (x : A) (chunks : list (list A)) :
  x ∈ concat chunks → ∃ chunk, x ∈ chunk ∧ chunk ∈ chunks.
Proof.
  induction chunks as [|chunk rest IH]; simpl.
  - intros H. inversion H.
  - intros [H|H]%elem_of_app.
    + exists chunk. split; [exact H|left].
    + destruct (IH H) as (chunk' & ? & ?). exists chunk'.
      split; [assumption|right; assumption].
Qed.

Lemma buildTasksToRun_once ds repeat i :
  (repeat ≤ 1)%Z →
  buildTasksToRun ds repeat !! i
  = (λ c, (c, caseNameAt i c, None)) <$> ds_cases ds !! i.
Proof.
  intros Hr. unfold buildTasksToRun.
  rewrite bool_decide_eq_false_2 by lia. apply list_lookup_imap.
Qed.

Lemma buildTasksToRun_chunks ds repeat :
  Forall (λ chunk : list (Case * string * option string),
            length chunk = Z.to_nat repeat)
    (imap (λ i c,
             (λ runIdx,
                (c, caseNameAt i c +:+ " [" +:+ pretty (runIdx + 1) +:+ "/"
                    +:+ pretty repeat +:+ "]", Some (caseNameAt i c)))
             <$> seq 0 (Z.to_nat repeat))
          (ds_cases ds)).
Proof.
  apply Forall_lookup. intros i chunk Hi.
  rewrite list_lookup_imap in Hi.
  destruct (ds_cases ds !! i); simplify_eq/=.
  rewrite length_fmap, length_seq. reflexivity.
Qed.

Lemma buildTasksToRun_repeated ds repeat i k (c : Case) :
  (1 < repeat)%Z →
  ds_cases ds !! i = Some c →
  k < Z.to_nat repeat →
  buildTasksToRun ds repeat !! (i * Z.to_nat repeat + k)
  = Some (c,
          caseNameAt i c +:+ " [" +:+ pretty (k + 1) +:+ "/"
            +:+ pretty repeat +:+ "]",
          Some (caseNameAt i c)).
Proof.
  intros Hr Hc Hk. unfold buildTasksToRun.
  rewrite bool_decide_eq_true_2 by lia.
  rewrite (lookup_concat_uniform (Z.to_nat repeat))
    by (apply buildTasksToRun_chunks || exact Hk).
  rewrite list_lookup_imap, Hc. simpl.
  rewrite list_lookup_fmap, lookup_seq_lt by exact Hk. reflexivity.
Qed.

Lemma length_buildTasksToRun ds repeat :
  (1 ≤ repeat)%Z →
  length (buildTasksToRun ds repeat)
  = length (ds_cases ds) * Z.to_nat repeat.
Proof.
  intros Hr. unfold buildTasksToRun. case_bool_decide as Hgt.
  - rewrite (length_concat_uniform (Z.to_nat repeat))
      by apply buildTasksToRun_chunks.
    rewrite length_imap. reflexivity.
  - rewrite length_imap. replace repeat with 1%Z by lia. simpl. lia.
Qed.

Lemma buildTasksToRun_scheduled ds repeat :
  Forall (scheduled ds repeat) (buildTasksToRun ds repeat).
Proof.
  apply Forall_forall. intros unit Hin. unfold buildTasksToRun in Hin.
  unfold scheduled. case_bool_decide as Hgt.
  - apply elem_of_concat in Hin as (chunk & Hin & Hchunk).
    apply elem_of_lookup_imap in Hchunk as (i & c & -> & Hc).
    apply list_elem_of_fmap in Hin as (k & -> & Hk).
    apply elem_of_seq in Hk. exists i, c. simpl.
    split; [exact Hc|]. split; [reflexivity|]. split; [reflexivity|].
    exists k. split; [lia|reflexivity].
  - apply elem_of_lookup_imap in Hin as (i & c & -> & Hc).
    exists i, c. simpl. auto.
Qed.

(** ** Running the units *)

(** A list of callbacks that all return: the whole list returns, result
    by result. *)
Lemma mapM_Forall2 {S A B} (f : A → M S B) (P : A → B → Prop) (xs : list A) :
  Forall (λ x, ∀ s, ∃ y s', f x s = (Return y, s') ∧ P x y) xs →
  ∀ s, ∃ ys s', mapM f xs s = (Return ys, s') ∧ Forall2 P xs ys.
Proof.
  induction 1 as [|x rest Hx _ IH]; intros s; simpl.
  - exists [], s. split; [reflexivity|constructor].
  - unfold bind. destruct (Hx s) as (y & s1 & -> & Hy).
    destruct (IH s1) as (ys & s2 & -> & Hys).
    exists (y :: ys), s2. split; [reflexivity|]. constructor; assumption.
Qed.

Lemma mapM_ext {S A B} (f g : A → M S B) (xs : list A) :
  (∀ x, f x = g x) → mapM f xs = mapM g xs.
Proof.
  intros Hfg. induction xs as [|x rest IH]; simpl; [reflexivity|].
  rewrite Hfg, IH. reflexivity.
Qed.

Lemma runEvaluator_returns ev ctx w :
  ∃ r w', runEvaluator ev ctx w = (Return r, w').
Proof.
  destruct (ev_evaluate ev ctx w) as [[v|e] w'] eqn:He.
  - rewrite (runEvaluator_returned _ _ _ _ _ He).
    destruct (Object_entries _); eauto.
  - rewrite (runEvaluator_thrown _ _ _ _ _ He). eauto.
Qed.

Lemma runEvaluators_return (evs : list Evaluator) ctx w :
  ∃ results w',
    (if bool_decide (0 < length evs)
     then mapM (λ ev, runEvaluator ev ctx) evs
     else ret []) w = (Return results, w').
Proof.
  case_bool_decide.
  - destruct (mapM_Forall2 (λ ev, runEvaluator ev ctx) (λ _ _, True) evs)
      with (s := w) as (ys & w' & Hys & _).
    + apply Forall_forall. intros ev _ s.
      destruct (runEvaluator_returns ev ctx s) as (r & s' & Hr). eauto.
    + eauto.
  - exists [], w. reflexivity.
Qed.

Lemma runTaskAndEvaluators_failed ds task (c : Case)
    reportCaseName sourceCaseName w e w1 :
  unitTaskRun task c w = (Throw e, w1) →
  runTaskAndEvaluators ds task c reportCaseName sourceCaseName w =
    (Return (inr (createReportCaseFailure reportCaseName (case_inputs c)
                    (case_metadata c) (case_expectedOutput c)
                    ((toError e).1.1 +:+ ": " +:+ (toError e).1.2)
                    (default "" (toError e).2)
                    sourceCaseName)), w1).
Proof.
  unfold unitTaskRun. intros Hrun.
  unfold runTaskAndEvaluators, try_catch, bind at 1, now.
  unfold bind at 1. rewrite Hrun.
  destruct (toError e) as [[ename message] stack]. reflexivity.
Qed.

Lemma runTaskAndEvaluators_succeeded ds task (c : Case)
    reportCaseName sourceCaseName w
    output spanTree attrs mets w1 :
  unitTaskRun task c w = (Return (output, spanTree, attrs, mets), w1) →
  ∃ rc w',
    runTaskAndEvaluators ds task c reportCaseName sourceCaseName w
    = (Return (inl rc), w')
    ∧ rc_name rc = reportCaseName
    ∧ rc_sourceCaseName rc = sourceCaseName
    ∧ rc_output rc = output
    ∧ rc_attributes rc = attrs
    ∧ rc_metrics rc = mets
    ∧ ∃ outputs,
        rc_scores rc = go_scores (groupEvaluatorOutputsByType outputs)
        ∧ rc_labels rc = go_labels (groupEvaluatorOutputsByType outputs)
        ∧ rc_assertions rc
          = go_assertions (groupEvaluatorOutputsByType outputs).
Proof.
  unfold unitTaskRun. intros Hrun.
  unfold runTaskAndEvaluators, try_catch, bind at 1, now.
  unfold bind at 1. rewrite Hrun. unfold bind at 1.
  set (ctx := mkEvaluatorContext _ _ _ _ _ _ _ _ _).
  unfold bind at 1.
  destruct (runEvaluators_return
              (default [] (case_evaluators c) ++ ds_evaluators ds) ctx w1)
    as (results & w2 & ->).
  destruct (splitEvaluatorResults results) as [outputs failures].
  unfold bind, ret. eexists _, _. split; [reflexivity|].
  simpl. repeat (split; [reflexivity|]). exists outputs. auto.
Qed.

(** A unit always hands back exactly one record, named and linked as it
    was scheduled. *)
Lemma runTaskAndEvaluators_returns ds task (c : Case)
    reportCaseName sourceCaseName w :
  ∃ r w',
    runTaskAndEvaluators ds task c reportCaseName sourceCaseName w
    = (Return r, w')
    ∧ unitName r = reportCaseName ∧ unitSource r = sourceCaseName.
Proof.
  destruct (unitTaskRun task c w)
    as [[[[[output spanTree] attrs] mets]|e] w1] eqn:Hrun.
  - destruct (runTaskAndEvaluators_succeeded ds _ _ reportCaseName
                sourceCaseName _ _ _ _ _ _ Hrun)
      as (rc & w' & -> & Hn & Hs & _).
    exists (inl rc), w'. auto.
  - rewrite (runTaskAndEvaluators_failed ds _ _ reportCaseName
               sourceCaseName _ _ _ Hrun).
    eexists _, _. split; [reflexivity|]. split; reflexivity.
Qed.

Lemma partitionResults_lefts_rights
    (results : list (ReportCase + ReportCaseFailure)) :
  partitionResults results = (lefts results, rights results).
Proof.
  unfold partitionResults.
  enough (∀ cases failures,
            foldl (λ '(cases, failures) item,
                     match item with
                     | inl reportCase => (cases ++ [reportCase], failures)
                     | inr failure => (cases, failures ++ [failure])
                     end) (cases, failures) results
            = (cases ++ lefts results, failures ++ rights results)) as H
    by apply (H [] []).
  induction results as [|[rc|f] rest IH]; intros cases failures; simpl.
  - rewrite !app_nil_r. reflexivity.
  - rewrite IH. unfold lefts, rights. simpl. rewrite <- app_assoc. reflexivity.
  - rewrite IH. unfold lefts, rights. simpl. rewrite <- app_assoc. reflexivity.
Qed.

Lemma length_lefts_rights {A B} (xs : list (A + B)) :
  length (lefts xs) + length (rights xs) = length xs.
Proof.
  induction xs as [|[a|b] rest IH]; [reflexivity| |];
    unfold lefts, rights in *; cbn; cbn in IH; lia.
Qed.

Lemma elem_of_lefts {A B} (a : A) (xs : list (A + B)) :
  a ∈ lefts xs ↔ inl a ∈ xs.
Proof.
  unfold lefts. rewrite list_elem_of_omap. split.
  - intros ([a'|b] & Hin & Heq); simplify_eq. exact Hin.
  - intros Hin. exists (inl a). auto.
Qed.

Lemma elem_of_rights {A B} (b : B) (xs : list (A + B)) :
  b ∈ rights xs ↔ inr b ∈ xs.
Proof.
  unfold rights. rewrite list_elem_of_omap. split.
  - intros ([a|b'] & Hin & Heq); simplify_eq. exact Hin.
  - intros Hin. exists (inr b). auto.
Qed.

(** Report evaluators always return, and only touch the analyses and the
    report-evaluator failures. *)
Lemma runReportEvaluators_returns revs name meta report w :
  ∃ report' w',
    runReportEvaluators revs name meta report w = (Return report', w')
    ∧ rep_cases report' = rep_cases report
    ∧ rep_failures report' = rep_failures report
    ∧ rep_name report' = rep_name report.
Proof.
  revert report w. induction revs as [|reportEval rest IH]; intros report w.
  - exists report, w. auto.
  - simpl. unfold bind at 1, try_catch, bind at 1.
    destruct (rev_evaluate reportEval _ w) as [[result|e] w1].
    + unfold ret.
      match goal with |- context [runReportEvaluators rest name meta ?r w1] =>
        destruct (IH r w1) as (report' & w' & -> & Hc & Hf & Hn) end.
      exists report', w'. auto.
    + destruct (toError e) as [[ename message] stack]. unfold ret.
      match goal with |- context [runReportEvaluators rest name meta ?r w1] =>
        destruct (IH r w1) as (report' & w' & -> & Hc & Hf & Hn) end.
      exists report', w'. auto.
Qed.

(** What [evaluate] returns when the precondition holds: the units'
    records, sorted into the two lists in submission order. *)
Lemma evaluate_returns ds task opts w :
  (1 ≤ default 1 (opts ≫= opt_repeat))%Z →
  ∃ results report w',
    evaluate ds task opts w = (Return report, w')
    ∧ Forall2 (λ '(c, reportName, sourceName) r,
                 unitName r = reportName ∧ unitSource r = sourceName)
              (buildTasksToRun ds (default 1%Z (opts ≫= opt_repeat))) results
    ∧ rep_cases report = lefts results
    ∧ rep_failures report = rights results.
Proof.
  intros Hr. unfold evaluate. rewrite bool_decide_eq_false_2 by lia.
  cbv zeta.
  rewrite (mapM_ext _ (λ '(c, reportName, sourceName),
                         runTaskAndEvaluators ds task c reportName sourceName))
    by (intros [[c reportName] sourceName];
        destruct (opts ≫= opt_maxConcurrency) as [[|n]|]; reflexivity).
  unfold bind at 1.
  destruct (mapM_Forall2
              (λ '(c, reportName, sourceName),
                 runTaskAndEvaluators ds task c reportName sourceName)
              (λ '(c, reportName, sourceName) r,
                 unitName r = reportName ∧ unitSource r = sourceName)
              (buildTasksToRun ds (default 1%Z (opts ≫= opt_repeat))))
    with (s := w) as (results & w1 & -> & Hall).
  { apply Forall_forall. intros [[c reportName] sourceName] _ s.
    apply runTaskAndEvaluators_returns. }
  rewrite partitionResults_lefts_rights.
  case_bool_decide.
  - match goal with |- context [runReportEvaluators ?a ?b ?c ?r w1] =>
      destruct (runReportEvaluators_returns a b c r w1)
        as (report' & w' & -> & Hc & Hf & _) end.
    exists results, report', w'. simpl in Hc, Hf. auto.
  - eexists results, _, w1. split; [reflexivity|]. simpl. auto.
Qed.

Lemma evaluate_records_scheduled ds task opts w :
  (1 ≤ default 1 (opts ≫= opt_repeat))%Z →
  ∃ report w',
    evaluate ds task opts w = (Return report, w')
    ∧ Forall (λ rc, ∃ unit,
                scheduled ds (default 1%Z (opts ≫= opt_repeat)) unit
                ∧ rc_name rc = unit.1.2 ∧ rc_sourceCaseName rc = unit.2)
             (rep_cases report)
    ∧ Forall (λ f, ∃ unit,
                scheduled ds (default 1%Z (opts ≫= opt_repeat)) unit
                ∧ rcf_name f = unit.1.2 ∧ rcf_sourceCaseName f = unit.2)
             (rep_failures report).
Proof.
  intros Hr.
  destruct (evaluate_returns ds task opts w Hr)
    as (results & report & w' & Hev & Hall & Hc & Hf).
  exists report, w'. split; [exact Hev|].
  pose proof (buildTasksToRun_scheduled ds (default 1%Z (opts ≫= opt_repeat)))
    as Hsched.
  rewrite Forall_forall in Hsched.
  rewrite Hc, Hf. split; apply Forall_forall.
  - intros rc [i Hi]%elem_of_lefts%list_elem_of_lookup.
    destruct (Forall2_lookup_r _ _ _ _ _ Hall Hi)
      as ([[c reportName] sourceName] & Hu & Hn & Hs).
    exists (c, reportName, sourceName). simpl in *.
    split; [apply Hsched; eapply list_elem_of_lookup_2; exact Hu|]. auto.
  - intros f [i Hi]%elem_of_rights%list_elem_of_lookup.
    destruct (Forall2_lookup_r _ _ _ _ _ Hall Hi)
      as ([[c reportName] sourceName] & Hu & Hn & Hs).
    exists (c, reportName, sourceName). simpl in *.
    split; [apply Hsched; eapply list_elem_of_lookup_2; exact Hu|]. auto.
Qed.

(** C1. With a repeat count of at least 1, [evaluate] returns a report;
    every scheduled unit handed back exactly one record, a [ReportCase]
    or a [ReportCaseFailure]; the report's two lists are those records
    sorted by kind, so that together they hold as many records as there
    are cases times the repeat count. *)
Theorem evaluate_one_record_per_unit (ds : Dataset) (task : Task)
    (opts : option EvaluateOptions) (w : World) :
  (1 ≤ default 1 (opts ≫= opt_repeat))%Z →
  ∃ results report w',
    evaluate ds task opts w = (Return report, w')
    ∧ length results
      = length (buildTasksToRun ds (default 1%Z (opts ≫= opt_repeat)))
    ∧ rep_cases report = lefts results
    ∧ rep_failures report = rights results
    ∧ length (rep_cases report) + length (rep_failures report)
      = length (ds_cases ds) * Z.to_nat (default 1%Z (opts ≫= opt_repeat)).
Proof.
  intros Hr.
  destruct (evaluate_returns ds task opts w Hr)
    as (results & report & w' & Hev & Hall & Hc & Hf).
  exists results, report, w'.
  pose proof (Forall2_length _ _ _ Hall) as Hlen.
  repeat (split; [first [assumption | symmetry; assumption]|]).
  rewrite Hc, Hf, length_lefts_rights, <- Hlen.
  apply length_buildTasksToRun. exact Hr.
Qed.

Lemma Forall2_names units (results : list (ReportCase + ReportCaseFailure)) :
  Forall2 (λ '(c, reportName, sourceName) r,
             unitName r = reportName ∧ unitSource r = sourceName)
          units results →
  (λ r, (unitName r, unitSource r)) <$> results
  = (λ unit : Case * string * option string, (unit.1.2, unit.2)) <$> units.
Proof.
  induction 1 as [|[[c reportName] sourceName] r units results [Hn Hs] _ IH];
    [reflexivity|].
  rewrite !fmap_cons, IH, Hn, Hs. reflexivity.
Qed.

(** C4. With [repeat] 1 the schedule has one unit per case, named after
    the case or "Case N" (N counted from 1) and not linked to a source
    case.  With [repeat] above 1 the unit at position [i * repeat + k] is
    run [k + 1] of case [i], named "{caseName} [{k+1}/{repeat}]" and
    linked to [caseName].  The records of the report, cases and failures
    alike, carry the names and links of the units in submission order:
    none has a [sourceCaseName] when [repeat] is 1, and each has the name
    of its originating case as [sourceCaseName] when [repeat] is above
    1. *)
Theorem evaluate_names_and_links (ds : Dataset) (task : Task)
    (opts : option EvaluateOptions) (w : World) :
  (∀ i (c : Case), caseNameAt i c
          = match case_name c with
            | Some name => name
            | None => "Case " +:+ pretty (i + 1)
            end)
  ∧ (∀ i, buildTasksToRun ds 1 !! i
          = (λ c, (c, caseNameAt i c, None)) <$> ds_cases ds !! i)
  ∧ (∀ repeat, (1 < repeat)%Z →
       length (buildTasksToRun ds repeat)
       = length (ds_cases ds) * Z.to_nat repeat
       ∧ ∀ i c k,
           ds_cases ds !! i = Some c →
           k < Z.to_nat repeat →
           buildTasksToRun ds repeat !! (i * Z.to_nat repeat + k)
           = Some (c,
                   caseNameAt i c +:+ " [" +:+ pretty (k + 1) +:+ "/"
                     +:+ pretty repeat +:+ "]",
                   Some (caseNameAt i c)))
  ∧ ((1 ≤ default 1 (opts ≫= opt_repeat))%Z →
     ∃ results report w',
       evaluate ds task opts w = (Return report, w')
       ∧ rep_cases report = lefts results
       ∧ rep_failures report = rights results
       ∧ (λ r, (unitName r, unitSource r)) <$> results
         = (λ unit : Case * string * option string, (unit.1.2, unit.2))
           <$> buildTasksToRun ds (default 1%Z (opts ≫= opt_repeat)))
  ∧ (default 1%Z (opts ≫= opt_repeat) = 1%Z →
     ∃ report w',
       evaluate ds task opts w = (Return report, w')
       ∧ Forall (λ rc, rc_sourceCaseName rc = None
                       ∧ ∃ i c, ds_cases ds !! i = Some c
                                ∧ rc_name rc = caseNameAt i c)
                (rep_cases report)
       ∧ Forall (λ f, rcf_sourceCaseName f = None
                      ∧ ∃ i c, ds_cases ds !! i = Some c
                               ∧ rcf_name f = caseNameAt i c)
                (rep_failures report))
  ∧ ((1 < default 1 (opts ≫= opt_repeat))%Z →
     ∃ report w',
       evaluate ds task opts w = (Return report, w')
       ∧ Forall (λ rc, ∃ i c k,
                   ds_cases ds !! i = Some c
                   ∧ k < Z.to_nat (default 1%Z (opts ≫= opt_repeat))
                   ∧ rc_name rc
                     = caseNameAt i c +:+ " [" +:+ pretty (k + 1) +:+ "/"
                       +:+ pretty (default 1%Z (opts ≫= opt_repeat)) +:+ "]"
                   ∧ rc_sourceCaseName rc = Some (caseNameAt i c))
                (rep_cases report)
       ∧ Forall (λ f, ∃ i c k,
                   ds_cases ds !! i = Some c
                   ∧ k < Z.to_nat (default 1%Z (opts ≫= opt_repeat))
                   ∧ rcf_name f
                     = caseNameAt i c +:+ " [" +:+ pretty (k + 1) +:+ "/"
                       +:+ pretty (default 1%Z (opts ≫= opt_repeat)) +:+ "]"
                   ∧ rcf_sourceCaseName f = Some (caseNameAt i c))
                (rep_failures report)).
Proof.
  split; [|split; [|split; [|split; [|split]]]].
  - intros i c. unfold caseNameAt. destruct (case_name c); reflexivity.
  - intros i. apply buildTasksToRun_once. lia.
  - intros repeat Hr. split.
    + apply length_buildTasksToRun. lia.
    + intros i c k Hc Hk. apply buildTasksToRun_repeated; assumption.
  - intros Hr.
    destruct (evaluate_returns ds task opts w Hr)
      as (results & report & w' & Hev & Hall & Hc & Hf).
    exists results, report, w'. repeat (split; [assumption|]).
    apply Forall2_names, Hall.
  - intros Hr.
    destruct (evaluate_records_scheduled ds task opts w)
      as (report & w' & Hev & Hc & Hf); [lia|].
    exists report, w'. split; [exact Hev|]. rewrite Hr in Hc, Hf.
    split; (eapply Forall_impl; [eassumption|]); simpl;
      intros x (unit & (i & c & Hi & _ & Hs) & Hn & Hx);
      rewrite bool_decide_eq_false_2 in Hs by lia;
      destruct Hs as [Hs Hname];
      (split; [congruence|]); exists i, c; (split; [exact Hi|congruence]).
  - intros Hr.
    destruct (evaluate_records_scheduled ds task opts w)
      as (report & w' & Hev & Hc & Hf); [lia|].
    exists report, w'. split; [exact Hev|].
    split; (eapply Forall_impl; [eassumption|]); simpl;
      intros x (unit & (i & c & Hi & _ & Hs) & Hn & Hx);
      rewrite bool_decide_eq_true_2 in Hs by lia;
      destruct Hs as (Hs & k & Hk & Hname);
      exists i, c, k; (split; [exact Hi|]); (split; [exact Hk|]);
      (split; congruence).
Qed.

(** ** Failure handling of [evaluate] *)

Lemma evaluate_rejects ds task opts w :
  (default 1 (opts ≫= opt_repeat) < 1)%Z →
  evaluate ds task opts w =
    (Throw (ThrownError "Error"
              ("repeat must be >= 1, got "
               +:+ pretty (default 1%Z (opts ≫= opt_repeat)))
              (captureStack
                 ("repeat must be >= 1, got "
                  +:+ pretty (default 1%Z (opts ≫= opt_repeat))))), w).
Proof.
  intros Hr. unfold evaluate. rewrite bool_decide_eq_true_2 by exact Hr.
  reflexivity.
Qed.

(** On the options of this embedding (a concurrency limit that is absent
    or a natural number) and with report evaluators whose name and spec
    are plain values, [evaluate] throws exactly when the repeat count is
    below 1. *)
Lemma evaluate_throws_iff ds task opts w :
  (∃ e w', evaluate ds task opts w = (Throw e, w'))
  ↔ (default 1 (opts ≫= opt_repeat) < 1)%Z.
Proof.
  split.
  - intros (e & w' & Hev).
    destruct (decide (default 1 (opts ≫= opt_repeat) < 1)%Z) as [|Hge];
      [assumption|].
    destruct (evaluate_returns ds task opts w) as (? & ? & ? & Hret & _);
      [lia|congruence].
  - intros Hr. rewrite (evaluate_rejects _ _ _ _ Hr). eauto.
Qed.

Lemma withSpanCapture_not_installed {S A} (fn : M S A) s :
  otel = OtelNotInstalled →
  withSpanCapture fn s =
    match fn s with
    | (Return result, s') =>
        (Return (result,
                 SpanTreeRecordingError
                   ("To make use of the span tree in an evaluator, you must install "
                    +:+ "@opentelemetry/api and @opentelemetry/sdk-trace-base.")),
         s')
    | (Throw e, s') => (Throw e, s')
    end.
Proof.
  intros Hotel. unfold withSpanCapture, try_catch, bind at 1, import_otel.
  rewrite Hotel. unfold throw, bind, ret.
  destruct (fn s) as [[result|e] s']; reflexivity.
Qed.

(** With the package installed a task call that throws is made again. *)
Lemma withSpanCapture_installed {S A} (fn : M S A) s hasSpanProcessor :
  otel = OtelInstalled hasSpanProcessor →
  withSpanCapture fn s =
    match fn s with
    | (Return result, s') =>
        (Return (result,
                 if hasSpanProcessor then IsSpanTree SpanTree_new
                 else SpanTreeRecordingError
                        ("To make use of the span tree in an evaluator, you must configure an OpenTelemetry tracer provider "
                         +:+ "before running an evaluation.")),
         s')
    | (Throw _, s') =>
        match fn s' with
        | (Return result, s'') =>
            (Return (result,
                     SpanTreeRecordingError
                       ("To make use of the span tree in an evaluator, you must install "
                        +:+ "@opentelemetry/api and @opentelemetry/sdk-trace-base.")),
             s'')
        | (Throw e, s'') => (Throw e, s'')
        end
    end.
Proof.
  intros Hotel. unfold withSpanCapture, try_catch, bind at 1, import_otel.
  rewrite Hotel. unfold ret at 1.
  destruct hasSpanProcessor; simpl; unfold bind, ret;
    destruct (fn s) as [[result|e] s']; try reflexivity;
    destruct (fn s') as [[result'|e'] s'']; reflexivity.
Qed.

(** With the package installed, a task call that throws is followed by
    a second call; when that one returns, the unit is a successful case
    and the error of the first call is dropped. *)
Lemma task_error_dropped_with_otel ds task (c : Case)
    reportCaseName sourceCaseName
    w e s1 output w2 taskRun hasSpanProcessor :
  otel = OtelInstalled hasSpanProcessor →
  task_call task (case_inputs c) (w, emptyTaskRun) = (Throw e, s1) →
  task_call task (case_inputs c) s1 = (Return output, (w2, taskRun)) →
  ∃ rc w',
    runTaskAndEvaluators ds task c reportCaseName sourceCaseName w
    = (Return (inl rc), w')
    ∧ rc_name rc = reportCaseName
    ∧ rc_output rc = output.
Proof.
  intros Hotel Hfirst Hsecond.
  destruct (runTaskAndEvaluators_succeeded ds task c reportCaseName
              sourceCaseName w output
              (SpanTreeRecordingError
                 ("To make use of the span tree in an evaluator, you must install "
                  +:+ "@opentelemetry/api and @opentelemetry/sdk-trace-base."))
              (attributes taskRun) (metrics taskRun) w2)
    as (rc & w' & Hrun & Hn & _ & Ho & _).
  { unfold unitTaskRun, withTaskRun, bind.
    rewrite (withSpanCapture_installed _ _ _ Hotel), Hfirst, Hsecond.
    reflexivity. }
  exists rc, w'. auto.
Qed.

(** Where the import of the package fails, the task is called once and
    what it throws fails its unit: the record carries the error's name
    and message, its stack or the empty string, and the world is the one
    the task left, no evaluator having run. *)
Lemma task_error_captured_without_otel ds task (c : Case)
    reportCaseName sourceCaseName
    w e w1 taskRun :
  otel = OtelNotInstalled →
  task_call task (case_inputs c) (w, emptyTaskRun) = (Throw e, (w1, taskRun)) →
  runTaskAndEvaluators ds task c reportCaseName sourceCaseName w =
    (Return (inr (createReportCaseFailure reportCaseName (case_inputs c)
                    (case_metadata c) (case_expectedOutput c)
                    ((toError e).1.1 +:+ ": " +:+ (toError e).1.2)
                    (default "" (toError e).2)
                    sourceCaseName)), w1).
Proof.
  intros Hotel Htask. apply runTaskAndEvaluators_failed.
  unfold unitTaskRun, withTaskRun, bind.
  rewrite (withSpanCapture_not_installed _ _ Hotel), Htask. reflexivity.
Qed.

(** ** Name deduplication *)

Lemma suffixed_inj name : Inj (=) (=) (suffixed name).
Proof.
  intros j k H. unfold suffixed in H.
  apply (inj (String.app name)) in H.
  apply (inj (String.app "_")) in H.
  apply (inj pretty) in H. exact H.
Qed.

(** The loop stops on the first unused suffix, given that one lies
    within the bound. *)
Lemma findSuffix_first_unused seenNames name fuel start :
  (∃ j, start ≤ j < start + fuel ∧ suffixed name j ∉ seenNames) →
  start ≤ findSuffix fuel seenNames name start
  ∧ (suffixed name (findSuffix fuel seenNames name start) ∉ seenNames)
  ∧ ∀ j, start ≤ j < findSuffix fuel seenNames name start →
         suffixed name j ∈ seenNames.
Proof.
  revert start. induction fuel as [|fuel IH]; intros start (j & Hj & Hfree).
  - lia.
  - simpl. fold (suffixed name start). case_bool_decide as Hin.
    + destruct (IH (S start)) as (Hle & Hout & Hbelow).
      { exists j. split; [|exact Hfree].
        destruct (decide (j = start)) as [->|]; [contradiction|lia]. }
      split; [lia|]. split; [exact Hout|].
      intros i Hi. destruct (decide (i = start)) as [->|]; [exact Hin|].
      apply Hbelow. lia.
    + split; [lia|]. split; [exact Hin|]. intros i Hi. lia.
Qed.

(** A finite set cannot hold all of [size + 1] different names. *)
Lemma unused_suffix_exists (seenNames : gset string) name start :
  ∃ j, start ≤ j < start + S (size seenNames) ∧ suffixed name j ∉ seenNames.
Proof.
  set (candidates := seq start (S (size seenNames))).
  destruct (decide (Forall (λ j, suffixed name j ∈ seenNames) candidates))
    as [Hall|Hnot].
  - exfalso.
    assert (Hsub : list_to_set (suffixed name <$> candidates) ⊆ seenNames).
    { intros x [y [-> Hy]]%elem_of_list_to_set%list_elem_of_fmap.
      rewrite Forall_forall in Hall. apply Hall, Hy. }
    apply subseteq_size in Hsub.
    rewrite size_list_to_set in Hsub.
    + rewrite length_fmap in Hsub. unfold candidates in Hsub.
      rewrite length_seq in Hsub. lia.
    + apply NoDup_fmap; [apply suffixed_inj|apply NoDup_seq].
  - apply not_Forall_Exists in Hnot; [|intros j; apply _].
    apply Exists_exists in Hnot as (j & Hj & Hfree).
    apply elem_of_seq in Hj. exists j. split; [lia|exact Hfree].
Qed.

Lemma uniqueName_unused seenNames name :
  name ∉ seenNames → uniqueName seenNames name = name.
Proof.
  intros H. unfold uniqueName. rewrite bool_decide_eq_false_2 by exact H.
  reflexivity.
Qed.

Lemma uniqueName_used seenNames name :
  name ∈ seenNames →
  ∃ k, 2 ≤ k
       ∧ uniqueName seenNames name = suffixed name k
       ∧ (suffixed name k ∉ seenNames)
       ∧ ∀ j, 2 ≤ j < k → suffixed name j ∈ seenNames.
Proof.
  intros H. unfold uniqueName. rewrite bool_decide_eq_true_2 by exact H.
  destruct (findSuffix_first_unused seenNames name (S (size seenNames)) 2
              (unused_suffix_exists seenNames name 2))
    as (Hle & Hout & Hbelow).
  eexists. split; [exact Hle|]. split; [reflexivity|].
  split; [exact Hout|exact Hbelow].
Qed.

Lemma uniqueName_fresh seenNames name :
  uniqueName seenNames name ∉ seenNames.
Proof.
  destruct (decide (name ∈ seenNames)) as [Hin|Hout].
  - destruct (uniqueName_used _ _ Hin) as (k & _ & -> & Hfree & _).
    exact Hfree.
  - rewrite uniqueName_unused by exact Hout. exact Hout.
Qed.

Lemma groupStep_names_apart g er :
  names_apart g → names_apart (groupStep g er).
Proof.
  clear captureStack.
  intros (Ha & Hs & Hl & Has & Hal & Hsl).
  pose proof (uniqueName_fresh (go_seenNames g) (er_name er)) as Hfresh.
  unfold names_apart, groupStep.
  destruct (er_value er); simpl; rewrite ?dom_insert_L; set_solver.
Qed.

Lemma groupEvaluatorOutputsByType_names_apart results :
  names_apart (groupEvaluatorOutputsByType results).
Proof.
  clear captureStack.
  unfold groupEvaluatorOutputsByType.
  induction results as [|er rest IH] using rev_ind.
  - unfold names_apart. simpl. set_solver.
  - rewrite foldl_app. simpl. apply groupStep_names_apart, IH.
Qed.


Lemma groupStep_stores g er :
  let name := uniqueName (go_seenNames g) (er_name er) in
  go_seenNames (groupStep g er) = {[name]} ∪ go_seenNames g
  ∧ match er_value er with
    | JBool b =>
        go_assertions (groupStep g er) !! name
        = Some (mkEvaluationResult name b (er_reason er) (er_source er))
    | JNum x =>
        go_scores (groupStep g er) !! name
        = Some (mkEvaluationResult name x (er_reason er) (er_source er))
    | JStr s =>
        go_labels (groupStep g er) !! name
        = Some (mkEvaluationResult name s (er_reason er) (er_source er))
    | _ => True
    end.
Proof.
  unfold groupStep. destruct (er_value er); simpl;
    (split; [reflexivity|]); try exact I; apply lookup_insert_eq.
Qed.




(** ** Aggregation over cases *)






(** ** Label distributions *)

Lemma Qc_of_nat_add a b : Qc_of_nat (a + b) = (Qc_of_nat a + Qc_of_nat b)%Qc.
Proof.
  unfold Qc_of_nat. apply Qc_is_canon. simpl.
  rewrite !Qred_correct, Nat2Z.inj_add, inject_Z_plus. reflexivity.
Qed.

Lemma Qc_of_nat_0 : Qc_of_nat 0 = 0%Qc.
Proof. apply Qc_is_canon. reflexivity. Qed.

Lemma Qc_of_nat_nonzero n : 0 < n → Qc_of_nat n ≠ 0%Qc.
Proof.
  intros Hn Heq. unfold Qc_of_nat in Heq.
  apply (f_equal this) in Heq. simpl in Heq.
  assert (Hq : (inject_Z (Z.of_nat n) == 0)%Q).
  { rewrite <- (Qred_correct (inject_Z (Z.of_nat n))), Heq. reflexivity. }
  unfold Qeq in Hq. simpl in Hq. lia.
Qed.

Lemma foldl_Qcplus_shift (a : Qc) (xs : list Qc) :
  foldl Qcplus a xs = (a + foldl Qcplus 0 xs)%Qc.
Proof.
  revert a. induction xs as [|x rest IH]; intros a; simpl.
  - ring.
  - rewrite (IH (a + x)%Qc), (IH (0 + x)%Qc). ring.
Qed.

Lemma sumQc_cons (x : Qc) (xs : list Qc) :
  sumQc (x :: xs) = (x + sumQc xs)%Qc.
Proof.
  unfold sumQc. simpl. rewrite foldl_Qcplus_shift. ring.
Qed.

Lemma countTotal_insert_fresh v n (m : gmap string nat) :
  m !! v = None → countTotal (<[v := n]> m) = n + countTotal m.
Proof.
  intros Hv. unfold countTotal.
  rewrite map_fold_insert_L; [reflexivity| |exact Hv]. intros. lia.
Qed.

Lemma countTotal_bump v (m : gmap string nat) :
  countTotal (bump v m) = countTotal m + 1.
Proof.
  unfold bump. destruct (m !! v) as [n|] eqn:Hv; simpl.
  - rewrite <- insert_delete_eq.
    rewrite countTotal_insert_fresh by apply lookup_delete_eq.
    rewrite <- (insert_delete_id m v n Hv) at 2.
    rewrite countTotal_insert_fresh by apply lookup_delete_eq. lia.
  - rewrite countTotal_insert_fresh by exact Hv. lia.
Qed.

Lemma sumQc_fractions (m : gmap string nat) (q : Qc) :
  sumQc ((map_to_list ((λ count : nat, (Qc_of_nat count / q)%Qc) <$> m)).*2)
  = (Qc_of_nat (countTotal m) / q)%Qc.
Proof.
  unfold countTotal. rewrite map_to_list_fmap, map_fold_foldr.
  induction (map_to_list m) as [|[k n] rest IH].
  - simpl. unfold sumQc. simpl. rewrite Qc_of_nat_0. unfold Qcdiv. ring.
  - rewrite !fmap_cons. cbn [prod_map fst snd id foldr uncurry].
    rewrite sumQc_cons, IH. simpl.
    rewrite Qc_of_nat_add. unfold Qcdiv. ring.
Qed.

Lemma foldl_concat {A B C} (f : A → C → A) (g : B → list C) (a : A)
    (xs : list B) :
  foldl (λ acc x, foldl f acc (g x)) a xs = foldl f a (concat (g <$> xs)).
Proof.
  revert a. induction xs as [|x rest IH]; intros a; [reflexivity|].
  rewrite fmap_cons. cbn [foldl concat]. rewrite IH, foldl_app. reflexivity.
Qed.

Lemma labelStep_consistent acc entry :
  labels_consistent acc → labels_consistent (labelStep acc entry).
Proof.
  destruct acc as [labelCounts labelSums], entry as [k0 v].
  intros H k. specialize (H k). simpl in *.
  destruct (decide (k = k0)) as [->|Hne].
  - rewrite lookup_insert_eq. cbn beta iota. rewrite countTotal_bump.
    unfold bump at 1. rewrite lookup_insert_eq.
    destruct (labelSums !! k0) as [m|]; simpl.
    + destruct H as [-> _]. simpl. split; [reflexivity|lia].
    + rewrite H. simpl. split; [reflexivity|lia].
  - rewrite lookup_insert_ne by congruence. unfold bump.
    rewrite lookup_insert_ne by congruence. exact H.
Qed.

Lemma labelStep_keeps_names acc entry k :
  is_Some (acc.2 !! k) ∨ k = entry.1 →
  is_Some ((labelStep acc entry).2 !! k).
Proof.
  destruct acc as [labelCounts labelSums], entry as [k0 v]. simpl.
  intros [H| ->].
  - destruct (decide (k = k0)) as [->|Hne].
    + rewrite lookup_insert_eq. eauto.
    + rewrite lookup_insert_ne by congruence. exact H.
  - rewrite lookup_insert_eq. eauto.
Qed.

Lemma labelSteps_invariant entries acc :
  labels_consistent acc →
  labels_consistent (foldl labelStep acc entries)
  ∧ ∀ k, is_Some (acc.2 !! k) ∨ k ∈ entries.*1 →
         is_Some ((foldl labelStep acc entries).2 !! k).
Proof.
  revert acc. induction entries as [|entry rest IH]; intros acc Hacc.
  - simpl. split; [exact Hacc|]. intros k [H|H]; [exact H|inversion H].
  - simpl. destruct (IH (labelStep acc entry)) as [Hc Hp].
    { apply labelStep_consistent, Hacc. }
    split; [exact Hc|]. intros k Hk. apply Hp.
    destruct Hk as [Hk|Hk].
    + left. apply labelStep_keeps_names. left. exact Hk.
    + apply elem_of_cons in Hk as [->|Hk].
      * left. apply labelStep_keeps_names. right. reflexivity.
      * right. exact Hk.
Qed.

Lemma averageCases_labels cases :
  cases ≠ [] →
  agg_labels (averageCases cases) =
    map_imap (λ k (counts : gmap string nat),
                Some ((λ count : nat,
                         (Qc_of_nat count
                          / Qc_of_nat ((labelTotals cases).1 !!! k))%Qc)
                      <$> counts))
             (labelTotals cases).2.
Proof.
  intros Hne. unfold averageCases.
  rewrite bool_decide_eq_false_2
    by (intros H%length_zero_iff_nil; contradiction).
  destruct (scoreTotals cases), (labelTotals cases), (metricTotals cases).
  reflexivity.
Qed.

Lemma labelTotals_flat cases :
  labelTotals cases
  = foldl labelStep (∅, ∅)
          (concat ((λ c, map_to_list (rc_labels c)) <$> cases)).
Proof. unfold labelTotals. apply foldl_concat. Qed.

Lemma labelTotals_invariant cases :
  labels_consistent (labelTotals cases)
  ∧ ∀ k c, c ∈ cases → is_Some (rc_labels c !! k) →
           is_Some ((labelTotals cases).2 !! k).
Proof.
  rewrite labelTotals_flat.
  destruct (labelSteps_invariant
              (concat ((λ c, map_to_list (rc_labels c)) <$> cases)) (∅, ∅))
    as [Hc Hp].
  { intros k. simpl. rewrite !lookup_empty. reflexivity. }
  split; [exact Hc|]. intros k c Hin [r Hr]. apply Hp. right.
  apply list_elem_of_fmap. exists (k, r). split; [reflexivity|].
  apply list_elem_of_In, in_concat.
  exists (map_to_list (rc_labels c)). split.
  - apply list_elem_of_In, list_elem_of_fmap. exists c. auto.
  - apply list_elem_of_In, elem_of_map_to_list, Hr.
Qed.

Lemma default_nz n : default 0 (nz n) = n.
Proof. unfold nz. case_bool_decide; simpl; lia. Qed.

Lemma nz_succ n : nz (n + 1) = Some (n + 1).
Proof. unfold nz. rewrite bool_decide_eq_false_2 by lia. reflexivity. Qed.

Lemma nz_Some n x : nz n = Some x → n = x ∧ 0 < x.
Proof. unfold nz. case_bool_decide; intros; simplify_eq. lia. Qed.

Lemma bump_lookup v v' (m : gmap string nat) :
  bump v m !! v'
  = if decide (v = v') then Some (default 0 (m !! v) + 1) else m !! v'.
Proof. unfold bump. apply lookup_insert. Qed.

(** The effect of the label loop over the entries of one case, name by
    name. *)
Lemma labelSteps_lookup (entries : list (string * EvaluationResult string))
    acc k :
  NoDup entries.*1 →
  match (list_to_map entries : gmap string (EvaluationResult string)) !! k with
  | Some r =>
      (foldl labelStep acc entries).1 !! k
      = Some (default 0 (acc.1 !! k) + 1)
      ∧ (foldl labelStep acc entries).2 !! k
        = Some (bump (er_value r) (default ∅ (acc.2 !! k)))
  | None =>
      (foldl labelStep acc entries).1 !! k = acc.1 !! k
      ∧ (foldl labelStep acc entries).2 !! k = acc.2 !! k
  end.
Proof.
  revert acc. induction entries as [|[k0 r0] rest IH]; intros acc Hnd.
  - simpl. rewrite lookup_empty. auto.
  - rewrite fmap_cons in Hnd. apply NoDup_cons in Hnd as [Hk0 Hnd].
    simpl in Hk0. cbn [foldl list_to_map foldr uncurry fst snd].
    specialize (IH (labelStep acc (k0, r0)) Hnd).
    destruct acc as [labelCounts labelSums].
    destruct (decide (k = k0)) as [->|Hne].
    + rewrite lookup_insert_eq.
      rewrite (not_elem_of_list_to_map_1 _ _ Hk0) in IH.
      destruct IH as [-> ->]. simpl. unfold bump at 1.
      rewrite !lookup_insert_eq. auto.
    + rewrite lookup_insert_ne by congruence.
      assert (H1 : (labelStep (labelCounts, labelSums) (k0, r0)).1 !! k
                   = labelCounts !! k)
        by (simpl; unfold bump; apply lookup_insert_ne; congruence).
      assert (H2 : (labelStep (labelCounts, labelSums) (k0, r0)).2 !! k
                   = labelSums !! k)
        by (simpl; apply lookup_insert_ne; congruence).
      rewrite H1, H2 in IH. exact IH.
Qed.

Lemma carrying_snoc k cases c :
  carrying k (cases ++ [c])
  = carrying k cases
    + match rc_labels c !! k with Some _ => 1 | None => 0 end.
Proof.
  unfold carrying. rewrite List.filter_app, length_app. simpl.
  destruct (rc_labels c !! k).
  - rewrite bool_decide_eq_true_2 by eauto. reflexivity.
  - rewrite bool_decide_eq_false_2 by (intros [? ?]; discriminate).
    reflexivity.
Qed.

Lemma occurrences_snoc k v cases c :
  occurrences k v (cases ++ [c])
  = occurrences k v cases
    + (if bool_decide (er_value <$> rc_labels c !! k = Some v) then 1 else 0).
Proof.
  unfold occurrences. rewrite List.filter_app, length_app. simpl.
  case_bool_decide; reflexivity.
Qed.

Lemma labelTotals_pointwise cases k :
  (labelTotals cases).1 !! k = nz (carrying k cases)
  ∧ ∀ v, (labelTotals cases).2 !! k ≫= (.!! v)
         = nz (occurrences k v cases).
Proof.
  induction cases as [|c cases [IHc IHs]] using rev_ind.
  - simpl. rewrite !lookup_empty. auto.
  - unfold labelTotals. rewrite foldl_app. cbn [foldl].
    fold (labelTotals cases).
    pose proof (labelSteps_lookup (map_to_list (rc_labels c))
                  (labelTotals cases) k (NoDup_fst_map_to_list _)) as Hstep.
    rewrite list_to_map_to_list in Hstep.
    rewrite carrying_snoc.
    destruct (rc_labels c !! k) as [r|] eqn:Hr.
    + destruct Hstep as [-> ->]. rewrite IHc, default_nz.
      split; [symmetry; apply nz_succ|].
      intros v. rewrite occurrences_snoc, Hr. simpl.
      rewrite bump_lookup.
      assert (Hm : default ∅ ((labelTotals cases).2 !! k) !! v
                   = nz (occurrences k v cases)).
      { rewrite <- IHs. destruct ((labelTotals cases).2 !! k); simpl;
          [reflexivity|apply lookup_empty]. }
      destruct (decide (er_value r = v)) as [->|Hne].
      * rewrite bool_decide_eq_true_2 by reflexivity.
        rewrite Hm, default_nz. symmetry. apply nz_succ.
      * rewrite bool_decide_eq_false_2 by congruence.
        rewrite Nat.add_0_r. exact Hm.
    + destruct Hstep as [-> ->]. rewrite Nat.add_0_r.
      split; [exact IHc|].
      intros v. rewrite occurrences_snoc, Hr. simpl.
      rewrite Nat.add_0_r. apply IHs.
Qed.

(** Label distributions under ordinary names.  When no name of a score,
    label or metric and no value of a label is a name every object
    inherits, and a label name is carried by at least one of the cases,
    [averageCases] returns a distribution for that name; its fractions
    add up to exactly 1, and the fraction of a label value is the number
    of cases that have this value under the name over the number of cases
    that carry the name, values that never occur having no entry. *)
Theorem label_distribution_sums_to_one (cases : list ReportCase) (k : string) :
  Forall ordinary_case cases →
  (∃ c, c ∈ cases ∧ is_Some (rc_labels c !! k)) →
  ∃ dist,
    agg_labels (averageCases cases) !! k = Some dist
    ∧ sumQc ((map_to_list dist).*2) = 1%Qc
    ∧ ∀ v, dist !! v
           = if bool_decide (occurrences k v cases = 0) then None
             else Some (Qc_of_nat (occurrences k v cases)
                        / Qc_of_nat (carrying k cases))%Qc.
Proof.
  intros _ (c & Hin & Hk).
  assert (Hne : cases ≠ []) by (intros ->; inversion Hin).
  rewrite (averageCases_labels _ Hne), map_lookup_imap.
  destruct (labelTotals_invariant cases) as [Hcons Hpresent].
  destruct (Hpresent k c Hin Hk) as [m Hm].
  destruct (labelTotals_pointwise cases k) as [Hcount Hocc].
  specialize (Hcons k). rewrite Hm in Hcons. destruct Hcons as [Hc Hpos].
  rewrite Hm. simpl. eexists. split; [reflexivity|].
  rewrite (lookup_total_correct _ _ _ Hc).
  split.
  - rewrite sumQc_fractions. unfold Qcdiv.
    apply Qcmult_inv_r, Qc_of_nat_nonzero, Hpos.
  - intros v. rewrite lookup_fmap. specialize (Hocc v).
    rewrite Hm in Hocc. simpl in Hocc. rewrite Hocc.
    rewrite Hc in Hcount. symmetry in Hcount.
    apply nz_Some in Hcount as [-> _].
    unfold nz. case_bool_decide; reflexivity.
Qed.

(** ** Case groups *)

Lemma fst_Map_alter {V} (f : V → V) key (m : list (string * V)) :
  (Map_alter f key m).*1 = m.*1.
Proof.
  induction m as [|[k v] rest IH]; [reflexivity|]. cbn [Map_alter].
  destruct (String.eqb k key); rewrite !fmap_cons; [reflexivity|].
  rewrite IH. reflexivity.
Qed.

Lemma list_to_map_Map_alter {V} (f : V → V) key (m : list (string * V)) :
  (list_to_map (Map_alter f key m) : gmap string V)
  = alter f key (list_to_map m).
Proof.
  induction m as [|[k v] rest IH]; simpl.
  - symmetry. apply map_eq. intros i. rewrite lookup_alter.
    case_decide; rewrite ?lookup_empty; reflexivity.
  - destruct (String.eqb_spec k key) as [->|Hne]; simpl.
    + rewrite alter_insert_eq. reflexivity.
    + rewrite IH, alter_insert_ne by congruence. reflexivity.
Qed.

(** The lookups of the [Map] after one
    [if (!groups.has(key)) groups.set(key, ...); f(groups.get(key))]. *)
Lemma ensure_alter_lookup f key k
    (groups : list (string * (list ReportCase * list ReportCaseFailure))) :
  NoDup groups.*1 →
  NoDup (Map_alter f key (ensureGroup key groups)).*1
  ∧ (list_to_map (Map_alter f key (ensureGroup key groups))
       : gmap string (list ReportCase * list ReportCaseFailure)) !! k
    = if decide (k = key)
      then Some (f (default ([], [])
                      ((list_to_map groups
                          : gmap string (list ReportCase * list ReportCaseFailure))
                       !! key)))
      else (list_to_map groups
              : gmap string (list ReportCase * list ReportCaseFailure)) !! k.
Proof.
  intros Hnd. rewrite fst_Map_alter, list_to_map_Map_alter, lookup_alter.
  unfold ensureGroup, Map_has. case_bool_decide as Hin.
  - split; [exact Hnd|].
    destruct (decide (key = k)) as [->|Hne].
    + rewrite decide_True by reflexivity.
      apply list_elem_of_fmap in Hin as ([k' v] & -> & Hin).
      apply (elem_of_list_to_map_1 (M := gmap string)) in Hin;
        [|exact Hnd].
      simpl in *. rewrite Hin. reflexivity.
    + rewrite decide_False by congruence. reflexivity.
  - split.
    + rewrite fmap_app. apply NoDup_app. split; [exact Hnd|].
      split; [|apply NoDup_singleton].
      intros x Hx Hx'. apply list_elem_of_singleton in Hx'. simpl in Hx'.
      subst x. contradiction.
    + rewrite list_to_map_snoc by exact Hin.
      rewrite (not_elem_of_list_to_map_1 _ _ Hin). simpl.
      destruct (decide (key = k)) as [->|Hne].
      * rewrite decide_True by reflexivity. rewrite lookup_insert_eq.
        reflexivity.
      * rewrite decide_False by congruence.
        rewrite lookup_insert_ne by congruence. reflexivity.
Qed.

Lemma filter_key_absent {A} (key : A → string) k (xs : list A) :
  k ∉ key <$> xs → filter (λ x, key x = k) xs = [].
Proof.
  intros Hk. induction xs as [|x rest IH]; [reflexivity|].
  rewrite fmap_cons in Hk. apply not_elem_of_cons in Hk as [Hne Hk].
  rewrite filter_cons_False by congruence. apply IH, Hk.
Qed.

Lemma grouped_default groups cs fs k :
  grouped groups cs fs →
  default ([], [])
    ((list_to_map groups
        : gmap string (list ReportCase * list ReportCaseFailure)) !! k)
  = (filter (λ c, caseKey c = k) cs, filter (λ f, failureKey f = k) fs).
Proof.
  intros [_ H]. rewrite H. case_decide as Hin; [reflexivity|].
  simpl. rewrite not_elem_of_app in Hin. destruct Hin as [Hc Hf].
  rewrite !filter_key_absent by assumption. reflexivity.
Qed.

Lemma addRun_grouped groups cs fs c :
  grouped groups cs fs → grouped (addRun groups c) (cs ++ [c]) fs.
Proof.
  clear captureStack.
  intros Hg. pose proof Hg as [Hnd Hlook]. unfold addRun.
  split; [apply ensure_alter_lookup with (k := caseKey c), Hnd|].
  intros k.
  destruct (ensure_alter_lookup
              (λ '(runs, failures), (runs ++ [c], failures))
              (caseKey c) k groups Hnd) as [_ ->].
  rewrite (grouped_default _ _ _ _ Hg), Hlook, fmap_app, filter_app.
  destruct (decide (k = caseKey c)) as [->|Hne].
  - rewrite decide_True by set_solver.
    rewrite (filter_singleton_True _ c) by (reflexivity || exact []).
    reflexivity.
  - rewrite (filter_singleton_False _ c) by (congruence || exact []).
    rewrite app_nil_r.
    repeat case_decide; try reflexivity; exfalso; set_solver.
Qed.

Lemma addFailure_grouped groups cs fs f :
  grouped groups cs fs → grouped (addFailure groups f) cs (fs ++ [f]).
Proof.
  clear captureStack.
  intros Hg. pose proof Hg as [Hnd Hlook]. unfold addFailure.
  split; [apply ensure_alter_lookup with (k := failureKey f), Hnd|].
  intros k.
  destruct (ensure_alter_lookup
              (λ '(runs, failures), (runs, failures ++ [f]))
              (failureKey f) k groups Hnd) as [_ ->].
  rewrite (grouped_default _ _ _ _ Hg), Hlook, fmap_app, filter_app.
  destruct (decide (k = failureKey f)) as [->|Hne].
  - rewrite decide_True by set_solver.
    rewrite (filter_singleton_True _ f) by (reflexivity || exact []).
    reflexivity.
  - rewrite (filter_singleton_False _ f) by (congruence || exact []).
    rewrite app_nil_r.
    repeat case_decide; try reflexivity; exfalso; set_solver.
Qed.

Lemma collectGroups_grouped report :
  grouped (collectGroups report) (rep_cases report) (rep_failures report).
Proof.
  unfold collectGroups.
  assert (Hruns : grouped (foldl addRun [] (rep_cases report))
                          (rep_cases report) []).
  { induction (rep_cases report) as [|c cs IH] using rev_ind.
    - split; [constructor|]. intros k. simpl. rewrite lookup_empty.
      reflexivity.
    - rewrite foldl_app. simpl. apply addRun_grouped, IH. }
  induction (rep_failures report) as [|f fs IH] using rev_ind.
  - exact Hruns.
  - rewrite foldl_app. simpl. apply addFailure_grouped, IH.
Qed.

Lemma grouped_entry groups cs fs k runs failures :
  grouped groups cs fs →
  (k, (runs, failures)) ∈ groups →
  runs = filter (λ c, caseKey c = k) cs
  ∧ failures = filter (λ f, failureKey f = k) fs
  ∧ (runs ≠ [] ∨ failures ≠ []).
Proof.
  intros [Hnd Hlook] Hin.
  apply (elem_of_list_to_map_1 (M := gmap string)) in Hin; [|exact Hnd].
  rewrite Hlook in Hin. case_decide as Hk; [|discriminate].
  simplify_eq. split; [reflexivity|]. split; [reflexivity|].
  apply elem_of_app in Hk as [Hk|Hk];
    apply list_elem_of_fmap in Hk as (x & -> & Hx); [left|right];
    intros Hnil; eapply filter_nil_not_elem_of; eauto; reflexivity.
Qed.

Lemma grouped_keys groups cs fs k :
  grouped groups cs fs →
  k ∈ groups.*1 ↔ k ∈ caseKey <$> cs ∨ k ∈ failureKey <$> fs.
Proof.
  intros [Hnd Hlook]. rewrite <- elem_of_app. split.
  - intros Hin. destruct (decide (k ∈ (caseKey <$> cs) ++ (failureKey <$> fs)))
      as [|Hout]; [assumption|].
    specialize (Hlook k). rewrite decide_False in Hlook by exact Hout.
    apply not_elem_of_list_to_map in Hlook. contradiction.
  - intros Hin. specialize (Hlook k). rewrite decide_True in Hlook by exact Hin.
    apply elem_of_list_to_map_2 in Hlook.
    apply list_elem_of_fmap. eexists. split; [|exact Hlook]. reflexivity.
Qed.

Lemma makeGroups_return
    (groups : list (string * (list ReportCase * list ReportCaseFailure))) :
  Forall (λ entry, entry.2.1 ≠ [] ∨ entry.2.2 ≠ []) groups →
  ∃ gs,
    omapM makeGroup groups = Return gs
    ∧ Forall2 (λ entry g,
                 grp_name g = entry.1
                 ∧ grp_runs g = entry.2.1
                 ∧ grp_failures g = entry.2.2
                 ∧ grp_summary g = averageCases entry.2.1)
              groups gs.
Proof.
  induction 1 as [|[name [runs failures]] rest Hne _ (gs & IH & Hall)].
  - exists []. split; [reflexivity|constructor].
  - simpl in Hne. simpl. rewrite IH.
    destruct runs as [|c runs]; [destruct failures as [|f failures]|].
    + destruct Hne; contradiction.
    + simpl. eexists. split; [reflexivity|]. constructor; [|exact Hall].
      simpl. auto.
    + simpl. eexists. split; [reflexivity|]. constructor; [|exact Hall].
      simpl. auto.
Qed.




Lemma computeCaseGroups_groups report :
  computeCaseGroups report = Return None
  ∨ ∃ gs,
      computeCaseGroups report = Return (Some gs)
      ∧ Forall2 (λ entry g,
                   grp_name g = entry.1
                   ∧ grp_runs g = entry.2.1
                   ∧ grp_failures g = entry.2.2
                   ∧ grp_summary g = averageCases entry.2.1)
                (collectGroups report) gs.
Proof.
  unfold computeCaseGroups.
  destruct (existsb _ _ || existsb _ _); simpl; [right|left; reflexivity].
  destruct (makeGroups_return (collectGroups report)) as (gs & -> & Hall).
  - apply Forall_forall. intros [k [runs failures]] Hin. simpl.
    eapply grouped_entry; [apply collectGroups_grouped|exact Hin].
  - exists gs. split; [reflexivity|exact Hall].
Qed.


(** ** Aggregation over aggregates *)

Lemma addTo_entries_lookup (entries : list (string * Qc))
    (combined : gmap string Qc) v :
  NoDup entries.*1 →
  foldl (λ comb '(labelVal, freq), addTo labelVal freq comb) combined entries
  !! v
  = match (list_to_map entries : gmap string Qc) !! v with
    | Some freq => Some (default 0 (combined !! v) + freq)%Qc
    | None => combined !! v
    end.
Proof.
  revert combined. induction entries as [|[k0 f0] rest IH];
    intros combined Hnd.
  - simpl. rewrite lookup_empty. reflexivity.
  - rewrite fmap_cons in Hnd. apply NoDup_cons in Hnd as [Hk0 Hnd].
    simpl in Hk0. cbn [foldl list_to_map foldr uncurry fst snd].
    rewrite (IH _ Hnd).
    destruct (decide (v = k0)) as [->|Hne].
    + rewrite lookup_insert_eq.
      rewrite (not_elem_of_list_to_map_1 _ _ Hk0).
      unfold addTo. apply lookup_insert_eq.
    + rewrite lookup_insert_ne by congruence. unfold addTo.
      rewrite lookup_insert_ne by congruence. reflexivity.
Qed.

Lemma addDist_lookup combined dist v :
  addDist combined dist !! v
  = match dist !! v with
    | Some freq => Some (default 0 (combined !! v) + freq)%Qc
    | None => combined !! v
    end.
Proof.
  unfold addDist.
  rewrite addTo_entries_lookup by apply NoDup_fst_map_to_list.
  rewrite list_to_map_to_list. reflexivity.
Qed.

Lemma addDists_lookup (dists : list (gmap string Qc)) combined v :
  foldl addDist combined dists !! v
  = match omap (.!! v) dists with
    | [] => combined !! v
    | freq :: freqs =>
        Some (default 0 (combined !! v) + sumQc (freq :: freqs))%Qc
    end.
Proof.
  revert combined. induction dists as [|dist rest IH]; intros combined.
  - reflexivity.
  - cbn [foldl]. rewrite IH, addDist_lookup.
    change (omap (.!! v) (dist :: rest))
      with (match dist !! v with
            | Some f => f :: omap (.!! v) rest
            | None => omap (.!! v) rest
            end).
    destruct (dist !! v) as [f|]; [|reflexivity].
    destruct (omap (.!! v) rest) as [|f' fs]; simpl.
    + f_equal. unfold sumQc. simpl. ring.
    + f_equal. rewrite !sumQc_cons. ring.
Qed.

Lemma combineLabel_reporting key aggregates :
  combineLabel key aggregates
  = (foldl addDist ∅ (reporting key aggregates),
     length (reporting key aggregates)).
Proof.
  unfold combineLabel, reporting.
  enough (∀ combined count,
            foldl (λ '(combined, count) a,
                     match agg_labels a !! key with
                     | Some dist =>
                         (foldl (λ comb '(labelVal, freq),
                                   addTo labelVal freq comb)
                                combined (map_to_list dist),
                          count + 1)
                     | None => (combined, count)
                     end) (combined, count) aggregates
            = (foldl addDist combined
                     (omap (λ a, agg_labels a !! key) aggregates),
               count + length (omap (λ a, agg_labels a !! key) aggregates)))
    as H by apply (H ∅ 0).
  induction aggregates as [|a rest IH]; intros combined count.
  - simpl. f_equal. lia.
  - cbn [foldl omap list_omap]. fold (omap (λ a, agg_labels a !! key) rest).
    destruct (agg_labels a !! key) as [dist|].
    + rewrite IH. cbn [foldl length]. unfold addDist. f_equal. lia.
    + apply IH.
Qed.

(** A map filled by a loop over a set of keys. *)
Lemma set_fold_insert_lookup {V}
    (f : string → gmap string V → gmap string V) (g : string → V)
    (keys : gset string) k :
  (∀ key acc, f key acc = <[key := g key]> acc) →
  set_fold f (∅ : gmap string V) keys !! k
  = if decide (k ∈ keys) then Some (g k) else None.
Proof.
  clear captureStack.
  intros Hf. unfold set_fold. simpl.
  assert (H : ∀ l : list string,
            foldr f (∅ : gmap string V) l !! k
            = if decide (k ∈ l) then Some (g k) else None).
  { induction l as [|x rest IH]; cbn [foldr]; rewrite ?Hf.
    - rewrite lookup_empty, decide_False by apply not_elem_of_nil.
      reflexivity.
    - destruct (decide (k = x)) as [->|Hne].
      + rewrite lookup_insert_eq, decide_True by left. reflexivity.
      + rewrite lookup_insert_ne, IH by congruence.
        repeat case_decide; try reflexivity; exfalso; set_solver. }
  rewrite H. repeat case_decide; try reflexivity; exfalso; set_solver.
Qed.

Lemma elem_of_allLabelKeys key (aggregates : list ReportCaseAggregate) :
  key ∈ (⋃ ((λ a, dom (agg_labels a)) <$> aggregates) : gset string)
  ↔ reporting key aggregates ≠ [].
Proof.
  clear captureStack.
  unfold reporting. induction aggregates as [|a rest IH].
  - simpl. set_solver.
  - rewrite fmap_cons, union_list_cons, elem_of_union, IH, elem_of_dom.
    cbn [omap list_omap]. fold (omap (λ a, agg_labels a !! key) rest).
    destruct (agg_labels a !! key) as [dist|].
    + split; [discriminate|]. intros _. left. eauto.
    + split.
      * intros [[? ?]|H]; [discriminate|exact H].
      * intros H. right. exact H.
Qed.

Lemma averageFromAggregates_labels aggregates key :
  agg_labels (averageFromAggregates aggregates) !! key
  = match reporting key aggregates with
    | [] => None
    | dist :: dists =>
        Some ((λ x, (x / Qc_of_nat (length (dist :: dists)))%Qc)
              <$> foldl addDist ∅ (dist :: dists))
    end.
Proof.
  unfold averageFromAggregates. case_bool_decide as Hn.
  - apply length_zero_iff_nil in Hn. subst. reflexivity.
  - cbn [agg_labels].
    rewrite (set_fold_insert_lookup _
               (λ key, (λ x, (x / Qc_of_nat (length (reporting key aggregates)))%Qc)
                       <$> foldl addDist ∅ (reporting key aggregates)))
      by (intros; rewrite combineLabel_reporting; reflexivity).
    pose proof (elem_of_allLabelKeys key aggregates) as Hkeys.
    destruct (reporting key aggregates) as [|dist dists].
    + rewrite decide_False; [reflexivity|]. intros H. apply Hkeys in H.
      contradiction.
    + rewrite decide_True; [reflexivity|]. apply Hkeys. discriminate.
Qed.

Lemma averageFromAggregates_assertions aggregates :
  agg_assertions (averageFromAggregates aggregates)
  = match omap agg_assertions aggregates with
    | [] => None
    | x :: xs => Some (sumQc (x :: xs) / Qc_of_nat (length (x :: xs)))%Qc
    end.
Proof.
  unfold averageFromAggregates. case_bool_decide as Hn.
  - apply length_zero_iff_nil in Hn. subst. reflexivity.
  - cbn [agg_assertions].
    destruct (omap agg_assertions aggregates) as [|x xs].
    + reflexivity.
    + rewrite bool_decide_eq_true_2 by (simpl; lia). reflexivity.
Qed.


(** ** Metrics of a task run *)

Lemma incrementEvalMetric_reads name amount taskRun :
  ∃ taskRun',
    incrementEvalMetric name amount (Some taskRun) = Some taskRun'
    ∧ default 0%Qc (metrics taskRun' !! name)
      = (default 0 (metrics taskRun !! name) + amount)%Qc
    ∧ (∀ other, other ≠ name →
         metrics taskRun' !! other = metrics taskRun !! other)
    ∧ attributes taskRun' = attributes taskRun
    ∧ (is_Some (metrics taskRun !! name) → is_Some (metrics taskRun' !! name))
    ∧ (metrics taskRun !! name = None →
       (metrics taskRun' !! name = None ↔ amount = 0%Qc)).
Proof.
  rewrite incrementEvalMetric_in_scope.
  destruct (bool_decide (default 0%Qc (metrics taskRun !! name) = 0%Qc)
            && bool_decide ((default 0 (metrics taskRun !! name) + amount)%Qc
                            = 0%Qc)) eqn:Hz.
  - apply andb_true_iff in Hz as [H0 Hsum].
    apply bool_decide_eq_true in H0, Hsum.
    exists taskRun. split; [reflexivity|]. split; [congruence|].
    split; [auto|]. split; [reflexivity|]. split; [auto|].
    intros Hnone. split; [|auto]. intros _. rewrite H0 in Hsum.
    rewrite Qcplus_0_l in Hsum. exact Hsum.
  - eexists. split; [reflexivity|]. simpl. rewrite lookup_insert_eq.
    split; [reflexivity|].
    split; [intros other Hne; apply lookup_insert_ne; congruence|].
    split; [reflexivity|]. split; [eauto|].
    intros Hnone. split; [discriminate|].
    intros ->. exfalso. rewrite Hnone in Hz.
    apply andb_false_iff in Hz as [Hz|Hz]; apply bool_decide_eq_false in Hz;
      apply Hz; cbn [default]; ring.
Qed.

(** X1. Within a task run, for a metric of an ordinary name and with
    numbers taken as exact rationals, the value recorded for the metric,
    read with the default 0, is what it was plus the sum of all the
    increments; no other metric and no attribute changes. A metric that
    was not recorded stays unrecorded exactly when every increment is 0:
    once a non-zero amount has been added the key stays, even if later
    increments bring the value back to 0. *)
Theorem increments_add_up (name : string) (amounts : list Qc)
    (taskRun : TaskRun) :
  ordinary name →
  ∃ taskRun',
    incrementEach name amounts (Some taskRun) = Some taskRun'
    ∧ default 0%Qc (metrics taskRun' !! name)
      = (default 0 (metrics taskRun !! name) + sumQc amounts)%Qc
    ∧ (∀ other, other ≠ name →
         metrics taskRun' !! other = metrics taskRun !! other)
    ∧ attributes taskRun' = attributes taskRun
    ∧ (is_Some (metrics taskRun !! name) → is_Some (metrics taskRun' !! name))
    ∧ (metrics taskRun !! name = None →
       (metrics taskRun' !! name = None ↔ Forall (λ a, a = 0%Qc) amounts)).
Proof.
  clear captureStack performance_now otel. intros _.
  unfold incrementEach. revert taskRun.
  induction amounts as [|a amounts IH]; intros taskRun.
  - exists taskRun. simpl. split; [reflexivity|].
    split; [unfold sumQc; simpl; ring|]. split; [auto|].
    split; [reflexivity|]. split; [auto|]. intros Hnone. split; auto.
  - destruct (incrementEvalMetric_reads name a taskRun)
      as (t1 & H1 & Hval1 & Hoth1 & Hattr1 & Hsome1 & Hnone1).
    destruct (IH t1) as (t2 & H2 & Hval2 & Hoth2 & Hattr2 & Hsome2 & Hnone2).
    exists t2. cbn [foldl]. rewrite H1. split; [exact H2|].
    split; [rewrite Hval2, Hval1, sumQc_cons; ring|].
    split; [intros other Hne; rewrite Hoth2, Hoth1 by exact Hne; reflexivity|].
    split; [congruence|]. split; [auto|].
    intros Hnone. rewrite Forall_cons.
    destruct (decide (a = 0%Qc)) as [Ha|Ha].
    + apply (Hnone1 Hnone) in Ha as Hn1. rewrite (Hnone2 Hn1). tauto.
    + split; [|tauto]. intros Hn2. exfalso.
      destruct (metrics t1 !! name) eqn:Ht1.
      * destruct Hsome2 as [x Hx]; [eauto|]. congruence.
      * apply Ha, (Hnone1 Hnone). reflexivity.
Qed.

(** ** Building a dataset *)

Lemma checkCaseNames_spec (cases : list Case) (names : gset string) :
  match checkCaseNames names cases with
  | Return _ =>
      NoDup (caseNames cases) ∧ ∀ n, n ∈ caseNames cases → n ∉ names
  | Throw e =>
      ∃ before c after name,
        cases = before ++ c :: after
        ∧ case_name c = Some name
        ∧ NoDup (caseNames before)
        ∧ (∀ n, n ∈ caseNames before → n ∉ names)
        ∧ (name ∈ names ∨ name ∈ caseNames before)
        ∧ e = ThrownError "Error"
                ("Duplicate case name: '" +:+ name +:+ "'")
                (captureStack ("Duplicate case name: '" +:+ name +:+ "'"))
  end.
Proof.
  revert names. induction cases as [|c rest IH]; intros names.
  - simpl. split; [constructor|]. intros n Hn. inversion Hn.
  - cbn [checkCaseNames]. unfold caseNames. cbn [omap list_omap].
    destruct (case_name c) as [name|] eqn:Hname.
    + case_bool_decide as Hin.
      * exists [], c, rest, name. cbn.
        split; [reflexivity|]. split; [exact Hname|].
        split; [constructor|]. split; [intros n Hn; inversion Hn|].
        split; [left; exact Hin|reflexivity].
      * specialize (IH ({[name]} ∪ names)).
        destruct (checkCaseNames ({[name]} ∪ names) rest) as [[]|e].
        -- destruct IH as [Hnd Hfresh]. split.
           ++ constructor; [|exact Hnd]. intros Hn.
              apply (Hfresh _ Hn). set_solver.
           ++ intros n Hn. apply elem_of_cons in Hn as [->|Hn];
                [exact Hin|]. specialize (Hfresh _ Hn). set_solver.
        -- destruct IH as (before & c' & after & name' & -> & Hc' & Hnd
                           & Hfresh & Hdup & ->).
           exists (c :: before), c', after, name'.
           split; [reflexivity|]. split; [exact Hc'|].
           unfold caseNames. cbn [omap list_omap]. rewrite Hname.
           split; [|split; [|split; [|reflexivity]]].
           ++ constructor; [|exact Hnd]. intros Hn.
              apply (Hfresh _ Hn). set_solver.
           ++ intros n Hn. apply elem_of_cons in Hn as [->|Hn];
                [exact Hin|]. specialize (Hfresh _ Hn). set_solver.
           ++ destruct Hdup as [Hdup|Hdup]; [|right; set_solver].
              apply elem_of_union in Hdup as [Hdup|Hdup];
                [right|left; exact Hdup].
              apply elem_of_singleton in Hdup as ->. set_solver.
    + specialize (IH names).
      destruct (checkCaseNames names rest) as [[]|e]; [exact IH|].
      destruct IH as (before & c' & after & name' & -> & Hc' & Hnd
                      & Hfresh & Hdup & ->).
      exists (c :: before), c', after, name'.
      unfold caseNames. cbn [omap list_omap]. rewrite Hname.
      split; [reflexivity|]. split; [exact Hc'|]. auto.
Qed.

(** X2. [new Dataset(opts)] succeeds exactly when no two named cases
    share a name; it then holds the cases as given and the evaluator
    lists, empty when not given. Otherwise it throws, naming the first
    case whose name was already used by an earlier one. *)
Theorem Dataset_new_rejects_duplicates (opts : DatasetOptions) :
  (NoDup (caseNames (dso_cases opts)) →
   Dataset_new opts
   = Return {| ds_name := dso_name opts;
               ds_cases := dso_cases opts;
               ds_evaluators := default [] (dso_evaluators opts);
               ds_reportEvaluators :=
                 default [] (dso_reportEvaluators opts) |})
  ∧ (¬ NoDup (caseNames (dso_cases opts)) →
     ∃ before c after name,
       dso_cases opts = before ++ c :: after
       ∧ case_name c = Some name
       ∧ NoDup (caseNames before)
       ∧ name ∈ caseNames before
       ∧ Dataset_new opts
         = Throw (ThrownError "Error"
                    ("Duplicate case name: '" +:+ name +:+ "'")
                    (captureStack
                       ("Duplicate case name: '" +:+ name +:+ "'")))).
Proof.
  pose proof (checkCaseNames_spec (dso_cases opts) ∅) as Hspec.
  unfold Dataset_new.
  destruct (checkCaseNames ∅ (dso_cases opts)) as [[]|e].
  - destruct Hspec as [Hnd _]. split; [reflexivity|]. intros Hdup.
    contradiction.
  - destruct Hspec as (before & c & after & name & Hcases & Hc & Hnd & _
                       & Hdup & ->).
    destruct Hdup as [Hdup|Hdup]; [set_solver|].
    split.
    + intros Hall. exfalso. rewrite Hcases in Hall. unfold caseNames in Hall.
      rewrite omap_app in Hall. cbn [omap list_omap] in Hall.
      rewrite Hc in Hall. apply NoDup_app in Hall as (_ & Hsep & _).
      apply (Hsep name Hdup). left.
    + intros _. exists before, c, after, name. auto.
Qed.

Lemma existsb_case_name (cases : list Case) name :
  existsb (λ c, bool_decide (case_name c = Some name)) cases = true
  ↔ name ∈ caseNames cases.
Proof.
  unfold caseNames. rewrite existsb_exists, list_elem_of_omap.
  split.
  - intros (c & Hin & Hc). apply bool_decide_eq_true in Hc.
    exists c. split; [apply list_elem_of_In; exact Hin|exact Hc].
  - intros (c & Hin & Hc). exists c.
    split; [apply list_elem_of_In; exact Hin|].
    apply bool_decide_eq_true. exact Hc.
Qed.

(** X3. [addCase] refuses a case whose name is already the name of a
    case of the dataset, and leaves the dataset as it was. Any other
    case, named or not, is appended, nothing else changes, and names
    that were distinct remain distinct. *)
Theorem addCase_keeps_names_distinct (c : Case) (this : Dataset) :
  (∀ name, case_name c = Some name →
     name ∈ caseNames (ds_cases this) →
     addCase c this
     = (Throw (ThrownError "Error"
                 ("Duplicate case name: '" +:+ name +:+ "'")
                 (captureStack
                    ("Duplicate case name: '" +:+ name +:+ "'"))), this))
  ∧ ((∀ name, case_name c = Some name →
        name ∉ caseNames (ds_cases this)) →
     ∃ this',
       addCase c this = (Return tt, this')
       ∧ ds_cases this' = ds_cases this ++ [c]
       ∧ ds_name this' = ds_name this
       ∧ ds_evaluators this' = ds_evaluators this
       ∧ ds_reportEvaluators this' = ds_reportEvaluators this
       ∧ (NoDup (caseNames (ds_cases this)) →
          NoDup (caseNames (ds_cases this')))).
Proof.
  split.
  - intros name Hc Hin. unfold addCase. rewrite Hc.
    apply existsb_case_name in Hin. rewrite Hin. reflexivity.
  - intros Hfree. unfold addCase.
    destruct (case_name c) as [name|] eqn:Hc.
    + specialize (Hfree name eq_refl).
      destruct (existsb _ (ds_cases this)) eqn:Hex.
      { apply existsb_case_name in Hex. contradiction. }
      eexists. split; [reflexivity|]. cbn.
      repeat (split; [reflexivity|]).
      intros Hnd. unfold caseNames in *. rewrite omap_app.
      cbn [omap list_omap]. rewrite Hc. apply NoDup_app.
      split; [exact Hnd|]. split; [|apply NoDup_singleton].
      intros n Hn Hn'. apply list_elem_of_singleton in Hn' as ->.
      contradiction.
    + eexists. split; [reflexivity|]. cbn.
      repeat (split; [reflexivity|]).
      intros Hnd. unfold caseNames in *. rewrite omap_app.
      cbn [omap list_omap]. rewrite Hc. rewrite app_nil_r. exact Hnd.
Qed.

Lemma caseNames_pushEvaluator evaluator specificCase (cases : list Case) :
  caseNames (pushEvaluator evaluator specificCase <$> cases) = caseNames cases.
Proof.
  unfold caseNames. induction cases as [|c rest IH]; [reflexivity|].
  rewrite fmap_cons. cbn [omap list_omap]. rewrite IH.
  unfold pushEvaluator. case_bool_decide; reflexivity.
Qed.

Lemma pushEvaluator_other evaluator specificCase (cases : list Case) :
  specificCase ∉ caseNames cases →
  pushEvaluator evaluator specificCase <$> cases = cases.
Proof.
  clear captureStack performance_now otel.
  intros Hout. induction cases as [|c rest IH]; [reflexivity|].
  rewrite fmap_cons. unfold caseNames in *. cbn [omap list_omap] in Hout.
  unfold pushEvaluator at 1. case_bool_decide as Hc.
  - rewrite Hc in Hout. exfalso. apply Hout. left.
  - rewrite IH; [reflexivity|]. destruct (case_name c); set_solver.
Qed.

(** [addEvaluator] on a dataset of values, where every case has its
    evaluators to itself. *)
Lemma addEvaluator_on_values (evaluator : Evaluator)
    (specificCase : string) (this : Dataset) :
  addEvaluator evaluator None this
  = (Return tt,
     {| ds_name := ds_name this;
        ds_cases := ds_cases this;
        ds_evaluators := ds_evaluators this ++ [evaluator];
        ds_reportEvaluators := ds_reportEvaluators this |})
  ∧ (specificCase ∉ caseNames (ds_cases this) →
     addEvaluator evaluator (Some specificCase) this
     = (Throw (ThrownError "Error"
                 ("Case '" +:+ specificCase +:+ "' not found in the dataset")
                 (captureStack
                    ("Case '" +:+ specificCase
                     +:+ "' not found in the dataset"))), this))
  ∧ (specificCase ∈ caseNames (ds_cases this) →
     ∃ this',
       addEvaluator evaluator (Some specificCase) this = (Return tt, this')
       ∧ ds_name this' = ds_name this
       ∧ ds_evaluators this' = ds_evaluators this
       ∧ ds_reportEvaluators this' = ds_reportEvaluators this
       ∧ caseNames (ds_cases this') = caseNames (ds_cases this)
       ∧ Forall2 (λ c c',
                    case_name c' = case_name c
                    ∧ case_inputs c' = case_inputs c
                    ∧ case_metadata c' = case_metadata c
                    ∧ case_expectedOutput c' = case_expectedOutput c
                    ∧ if bool_decide (case_name c = Some specificCase)
                      then case_evaluators c'
                           = Some (default [] (case_evaluators c)
                                   ++ [evaluator])
                      else c' = c)
                 (ds_cases this) (ds_cases this')
       ∧ (NoDup (caseNames (ds_cases this)) →
          ∃ i c,
            ds_cases this !! i = Some c
            ∧ case_name c = Some specificCase
            ∧ ds_cases this'
              = <[i := pushEvaluator evaluator specificCase c]>
                  (ds_cases this))).
Proof.
  split; [reflexivity|]. split.
  - intros Hout. unfold addEvaluator.
    destruct (existsb _ (ds_cases this)) eqn:Hex; [|reflexivity].
    apply existsb_case_name in Hex. contradiction.
  - intros Hin. unfold addEvaluator.
    pose proof Hin as Hex. apply existsb_case_name in Hex. rewrite Hex.
    eexists. split; [reflexivity|]. cbn.
    repeat (split; [reflexivity|]).
    split; [apply caseNames_pushEvaluator|]. split.
    + apply Forall2_fmap_r, Forall_Forall2_diag, Forall_forall.
      intros c _. unfold compose, pushEvaluator. cbv beta.
      destruct (decide (case_name c = Some specificCase)) as [Hc|Hc].
      * rewrite !(bool_decide_eq_true_2 _ Hc). cbn. repeat split.
      * rewrite !(bool_decide_eq_false_2 _ Hc). repeat split.
    + clear Hex. induction (ds_cases this) as [|c rest IH]; intros Hnd.
      { inversion Hin. }
      unfold caseNames in Hin, Hnd. cbn [omap list_omap] in Hin, Hnd.
      destruct (decide (case_name c = Some specificCase)) as [Hc|Hc].
      * exists 0, c. split; [reflexivity|]. split; [exact Hc|].
        rewrite fmap_cons. cbn. f_equal.
        apply pushEvaluator_other. rewrite Hc in Hnd.
        apply NoDup_cons in Hnd as [Hout _]. exact Hout.
      * destruct IH as (i & c' & Hi & Hc' & Hrest).
        -- destruct (case_name c) as [n|]; [|exact Hin].
           apply elem_of_cons in Hin as [->|Hin]; [congruence|exact Hin].
        -- destruct (case_name c); [|exact Hnd].
           apply NoDup_cons in Hnd as [_ Hnd]. exact Hnd.
        -- exists (S i), c'. split; [exact Hi|]. split; [exact Hc'|].
           rewrite fmap_cons, Hrest. unfold pushEvaluator at 1.
           rewrite bool_decide_eq_false_2 by exact Hc. reflexivity.
Qed.

(** ** [addEvaluator] in place *)

Lemma NoDup_omap_inj {A B} (f : A → option B) (l : list A) :
  NoDup (omap f l) →
  ∀ x y b, x ∈ l → y ∈ l → f x = Some b → f y = Some b → NoDup l → x = y.
Proof.
  induction l as [|z rest IH]; intros Hnd x y b Hx Hy Hfx Hfy Hl.
  - inversion Hx.
  - inversion Hl as [|? ? Hz Hrest]; subst. cbn in Hnd.
    apply elem_of_cons in Hx as [->|Hx]; apply elem_of_cons in Hy as [->|Hy];
      try reflexivity.
    + rewrite Hfx in Hnd. inversion Hnd as [|? ? Hb _]; subst.
      exfalso. apply Hb. apply list_elem_of_omap. eauto.
    + rewrite Hfy in Hnd. inversion Hnd as [|? ? Hb _]; subst.
      exfalso. apply Hb. apply list_elem_of_omap. eauto.
    + destruct (f z); [inversion Hnd; subst|]; eauto.
Qed.

Lemma NoDup_omap_of_inj {A B} (f : A → option B) (l : list A) :
  NoDup l →
  (∀ x y b, x ∈ l → y ∈ l → f x = Some b → f y = Some b → x = y) →
  NoDup (omap f l).
Proof.
  induction 1 as [|z rest Hz Hrest IH]; intros Hinj; cbn; [constructor|].
  assert (NoDup (omap f rest)) as Hnd.
  { apply IH. intros x y b Hx Hy. apply Hinj; right; assumption. }
  destruct (f z) as [b|] eqn:Hfz; [|exact Hnd].
  constructor; [|exact Hnd].
  intros Hin. apply list_elem_of_omap in Hin as (x & Hx & Hfx).
  apply Hz. rewrite (Hinj z x b); auto; [left|right; exact Hx].
Qed.

Lemma Forall2_impl_elem {A B} (P Q : A → B → Prop) (l : list A) (k : list B) :
  Forall2 P l k → (∀ x y, x ∈ l → P x y → Q x y) → Forall2 Q l k.
Proof.
  induction 1 as [|x y l k Hxy _ IH]; intros Himpl; constructor.
  - apply Himpl; [left|exact Hxy].
  - apply IH. intros x' y' Hx'. apply Himpl. right. exact Hx'.
Qed.

Lemma Forall2_elem_l {A B} (P : A → B → Prop) (l : list A) (k : list B) x :
  Forall2 P l k → x ∈ l → ∃ y, P x y.
Proof.
  induction 1 as [|x' y l k Hxy _ IH]; intros Hx; [inversion Hx|].
  apply elem_of_cons in Hx as [->|Hx]; eauto.
Qed.

(** The array of a case that can be read is an array of the heap. *)
Lemma readCase_array (h : Heap) a cv array :
  readCase h a = Some cv → arrayOf h a = Some array →
  array ∈ dom (heap_arrays h).
Proof.
  unfold readCase, arrayOf. intros Hread Harr.
  destruct (heap_cases h !! a) as [c|]; [|discriminate]. cbn in *.
  rewrite Harr in Hread.
  destruct (heap_arrays h !! array) eqn:Hl; [|discriminate].
  apply elem_of_dom. eauto.
Qed.

(** One turn of the loop, for a case object that can be read: the case
    it stands for changes as [pushEvaluator] says, and whatever does not
    hold its array stays. *)
Lemma pushInPlace_spec evaluator specificCase found (h : Heap) a cv :
  readCase h a = Some cv →
  ∃ h1,
    pushInPlace evaluator specificCase (found, h) a
    = (found || bool_decide (case_name cv = Some specificCase), h1)
    ∧ readCase h1 a = Some (pushEvaluator evaluator specificCase cv)
    ∧ (∀ a' cv', a' ≠ a → readCase h a' = Some cv' →
                 (∀ array, arrayOf h a' = Some array →
                           arrayOf h a ≠ Some array) →
                 readCase h1 a' = Some cv')
    ∧ (∀ a', a' ≠ a → arrayOf h1 a' = arrayOf h a')
    ∧ (arrayOf h1 a = arrayOf h a
       ∨ ∃ array, arrayOf h1 a = Some array
                  ∧ array ∉ dom (heap_arrays h))
    ∧ (∀ array items, heap_arrays h !! array = Some items →
                      arrayOf h a ≠ Some array →
                      heap_arrays h1 !! array = Some items).
Proof.
  intros Hread. unfold pushInPlace, pushEvaluator.
  pose proof Hread as Hread0.
  unfold readCase in Hread.
  destruct (heap_cases h !! a) as [c|] eqn:Hc; [|discriminate].
  cbn in Hread.
  destruct (obj_evaluators c) as [array|] eqn:Harr; cbn in Hread.
  - destruct (heap_arrays h !! array) as [items|] eqn:Hitems;
      [|discriminate].
    cbn in Hread. injection Hread as <-. cbn [case_name case_evaluators].
    case_bool_decide as Hname.
    + rewrite orb_true_r. eexists. split; [reflexivity|].
      split; [|split; [|split; [|split]]].
      * unfold readCase, Array_push. cbn. rewrite Hc. cbn. rewrite Harr.
        rewrite lookup_alter_eq, Hitems. reflexivity.
      * intros a' cv' Hne Hread' Hapart.
        unfold readCase, Array_push in *. cbn.
        destruct (heap_cases h !! a') as [c'|] eqn:Hc'; [|discriminate].
        cbn in *. destruct (obj_evaluators c') as [array'|] eqn:Harr';
          [|exact Hread'].
        rewrite lookup_alter_ne; [exact Hread'|].
        intros ->. apply (Hapart array'); unfold arrayOf.
        -- rewrite Hc'. exact Harr'.
        -- rewrite Hc. exact Harr.
      * intros a' _. reflexivity.
      * left. reflexivity.
      * intros array' items' Hitems' Hne. unfold Array_push. cbn.
        rewrite lookup_alter_ne; [exact Hitems'|].
        intros ->. apply Hne. unfold arrayOf. rewrite Hc. exact Harr.
    + rewrite orb_false_r. exists h. split; [reflexivity|].
      split; [exact Hread0|]. split; [auto|]. split; [auto|].
      split; [left; reflexivity|auto].
  - injection Hread as <-. cbn [case_name case_evaluators].
    pose proof (is_fresh (dom (heap_arrays h))) as Hfresh.
    set (array := fresh (dom (heap_arrays h))) in *.
    case_bool_decide as Hname.
    + rewrite orb_true_r. eexists. split; [reflexivity|].
      split; [|split; [|split; [|split]]].
      * unfold readCase, Array_push. cbn. rewrite lookup_insert_eq. cbn.
        rewrite lookup_alter_eq, lookup_insert_eq. reflexivity.
      * intros a' cv' Hne Hread' _.
        unfold readCase, Array_push in *. cbn.
        rewrite lookup_insert_ne by congruence.
        destruct (heap_cases h !! a') as [c'|] eqn:Hc'; [|discriminate].
        cbn in *. destruct (obj_evaluators c') as [array'|] eqn:Harr';
          [|exact Hread'].
        destruct (heap_arrays h !! array') as [items'|] eqn:Hitems';
          [|discriminate].
        assert (array ≠ array') as Hne'.
        { intros Heq. apply Hfresh. rewrite Heq. apply elem_of_dom. eauto. }
        rewrite lookup_alter_ne, lookup_insert_ne by exact Hne'.
        rewrite Hitems'. exact Hread'.
      * intros a' Hne. unfold arrayOf, Array_push. cbn.
        rewrite lookup_insert_ne by congruence. reflexivity.
      * right. exists array. split; [|exact Hfresh].
        unfold arrayOf, Array_push. cbn. rewrite lookup_insert_eq.
        reflexivity.
      * intros array' items' Hitems' _. unfold Array_push. cbn.
        assert (array ≠ array') as Hne'.
        { intros Heq. apply Hfresh. rewrite Heq. apply elem_of_dom. eauto. }
        rewrite lookup_alter_ne, lookup_insert_ne by exact Hne'.
        exact Hitems'.
    + rewrite orb_false_r. exists h. split; [reflexivity|].
      split; [exact Hread0|]. split; [auto|]. split; [auto|].
      split; [left; reflexivity|auto].
Qed.

(** The loop of [addEvaluator] over case objects that hold different
    arrays: the cases still to come ([todo]) change as [pushEvaluator]
    says, and the cases seen before ([frame]) and the array [keep] stay
    as they are. *)
Lemma pushInPlace_loop evaluator specificCase keep (evs : list Evaluator) :
  ∀ todo (h : Heap) found tcases frame fcases,
    Forall2 (λ a c, readCase h a = Some c) todo tcases →
    Forall2 (λ a c, readCase h a = Some c) frame fcases →
    heap_arrays h !! keep = Some evs →
    NoDup (frame ++ todo) →
    (∀ a array, a ∈ frame ++ todo → arrayOf h a = Some array →
                array ≠ keep) →
    (∀ x y array, x ∈ frame ++ todo → y ∈ frame ++ todo →
                  arrayOf h x = Some array → arrayOf h y = Some array →
                  x = y) →
    ∃ h',
      foldl (pushInPlace evaluator specificCase) (found, h) todo
      = (found || existsb (λ c, bool_decide (case_name c = Some specificCase))
                          tcases, h')
      ∧ Forall2 (λ a c, readCase h' a = Some c) todo
                (pushEvaluator evaluator specificCase <$> tcases)
      ∧ Forall2 (λ a c, readCase h' a = Some c) frame fcases
      ∧ heap_arrays h' !! keep = Some evs
      ∧ (∀ a array, a ∈ frame ++ todo → arrayOf h' a = Some array →
                    array ≠ keep)
      ∧ (∀ x y array, x ∈ frame ++ todo → y ∈ frame ++ todo →
                      arrayOf h' x = Some array → arrayOf h' y = Some array →
                      x = y).
Proof.
  induction todo as [|a rest IH];
    intros h found tcases frame fcases Htodo Hframe Hkeep Hnd Hk Hinj.
  - inversion Htodo; subst. exists h. cbn. rewrite orb_false_r.
    split; [reflexivity|]. split; [constructor|]. auto.
  - inversion Htodo as [|? cv ? trest Hread Hrest]; subst.
    destruct (pushInPlace_spec evaluator specificCase found h a cv Hread)
      as (h1 & Hstep & Hread1 & Hother & Hsame & Hown & Harrays).
    assert (a ∈ frame ++ a :: rest) as Ha
      by (apply elem_of_app; right; left).
    assert (∀ a', a' ∈ frame ++ rest → a' ≠ a) as Hne.
    { intros a' Hin ->. apply NoDup_app in Hnd as (Hf & Hfr & Hr).
      apply elem_of_app in Hin as [Hin|Hin].
      - apply (Hfr a Hin). left.
      - inversion Hr; subst. contradiction. }
    assert (∀ a', a' ∈ frame ++ rest → a' ∈ frame ++ a :: rest) as Hsub.
    { intros a' Hin. apply elem_of_app in Hin as [Hin|Hin];
        apply elem_of_app; [left|right; right]; exact Hin. }
    assert (∀ a' cv', a' ∈ frame ++ rest → readCase h a' = Some cv' →
                      readCase h1 a' = Some cv') as Hstay.
    { intros a' cv' Hin Hread'. apply Hother; [apply Hne, Hin|exact Hread'|].
      intros array Harr' Harr. apply (Hne a' Hin).
      apply (Hinj a' a array); auto. }
    assert (∀ a', a' ∈ frame ++ a :: rest → is_Some (readCase h a')) as Hall.
    { intros a' Hin. apply elem_of_app in Hin as [Hin|Hin].
      - destruct (Forall2_elem_l _ _ _ _ Hframe Hin) as (? & ->). eauto.
      - destruct (Forall2_elem_l _ _ _ _ Htodo Hin) as (? & ->). eauto. }
    assert (∀ a' array, a' ∈ frame ++ a :: rest →
                        arrayOf h1 a' = Some array →
                        arrayOf h a' = Some array
                        ∨ (a' = a ∧ array ∉ dom (heap_arrays h))) as Hold.
    { intros a' array Hin Harr. destruct (decide (a' = a)) as [->|Hna].
      - destruct Hown as [<-|(array' & Heq & Hfresh)]; [left; exact Harr|].
        right. split; [reflexivity|]. congruence.
      - left. rewrite <- (Hsame a' Hna). exact Harr. }
    destruct (IH h1 (found || bool_decide (case_name cv = Some specificCase))
                 trest (frame ++ [a])
                 (fcases ++ [pushEvaluator evaluator specificCase cv]))
      as (h' & Hloop & Hrest' & Hframe' & Hkeep' & Hk' & Hinj').
    + apply (Forall2_impl_elem _ _ _ _ Hrest). intros a' cv' Hin.
      apply Hstay. apply elem_of_app. right. exact Hin.
    + apply Forall2_app; [|constructor; [exact Hread1|constructor]].
      apply (Forall2_impl_elem _ _ _ _ Hframe). intros a' cv' Hin.
      apply Hstay. apply elem_of_app. left. exact Hin.
    + apply Harrays; [exact Hkeep|]. intros Harr. exact (Hk a keep Ha Harr eq_refl).
    + rewrite <- app_assoc. exact Hnd.
    + rewrite <- app_assoc. cbn. intros a' array Hin Harr.
      destruct (Hold a' array Hin Harr) as [Harr0|[-> Hfresh]];
        [exact (Hk a' array Hin Harr0)|].
      intros ->. apply Hfresh. apply elem_of_dom. eauto.
    + rewrite <- app_assoc. cbn. intros x y array Hx Hy Harrx Harry.
      destruct (Hold x array Hx Harrx) as [Hx0|[-> Hfx]],
               (Hold y array Hy Harry) as [Hy0|[-> Hfy]];
        [exact (Hinj x y array Hx Hy Hx0 Hy0)| | |reflexivity]; exfalso.
      * destruct (Hall x Hx) as [cx Hcx].
        apply Hfy. exact (readCase_array h x cx array Hcx Hx0).
      * destruct (Hall y Hy) as [cy Hcy].
        apply Hfx. exact (readCase_array h y cy array Hcy Hy0).
    + exists h'. cbn [foldl existsb fmap list_fmap]. rewrite Hstep, Hloop.
      rewrite orb_assoc. split; [reflexivity|].
      apply Forall2_app_inv_l in Hframe'
        as (fcases1 & last & Hframe1 & Hlast & Heq).
      inversion Hlast as [|? cv1 ? ? Hread' Hnil]; subst.
      inversion Hnil; subst.
      apply Forall2_length in Hframe as Hlen, Hframe1 as Hlen1.
      apply app_inj_1 in Heq as [<- Heq]; [|congruence].
      injection Heq as <-.
      split; [constructor; [exact Hread'|exact Hrest']|].
      split; [exact Hframe1|]. split; [exact Hkeep'|].
      rewrite <- app_assoc in Hk', Hinj'. cbn in Hk', Hinj'. auto.
Qed.

(** [addEvaluator] on a dataset object that shares no case object and
    no array is [addEvaluator] on the dataset it holds. *)
Lemma addEvaluator_inPlace_unshared (evaluator : Evaluator)
    (specificCase : option string) (this : DatasetObject) (h : Heap)
    (ds : Dataset) :
  represents h this ds → unshared h this →
  ∃ r h' ds',
    addEvaluator_inPlace evaluator specificCase this h = (r, h')
    ∧ addEvaluator evaluator specificCase ds = (r, ds')
    ∧ represents h' this ds'
    ∧ unshared h' this.
Proof.
  intros (Hname & Hcases & Hevs & Hrevs) (Hnd & Hnda).
  inversion Hnda as [|? ? Hkeep Hnda']; subst.
  assert (∀ a array, a ∈ dobj_cases this → arrayOf h a = Some array →
                     array ≠ dobj_evaluators this) as Hk.
  { intros a array Hin Harr ->. apply Hkeep. apply list_elem_of_omap. eauto. }
  assert (∀ x y array, x ∈ dobj_cases this → y ∈ dobj_cases this →
                       arrayOf h x = Some array → arrayOf h y = Some array →
                       x = y) as Hinj.
  { intros x y array Hx Hy Hax Hay.
    exact (NoDup_omap_inj _ _ Hnda' x y array Hx Hy Hax Hay Hnd). }
  destruct specificCase as [specificCase|].
  - destruct (pushInPlace_loop evaluator specificCase (dobj_evaluators this)
                (ds_evaluators ds) (dobj_cases this) h false (ds_cases ds)
                [] [] Hcases (List.Forall2_nil _) Hevs Hnd Hk Hinj)
      as (h' & Hloop & Hcases' & _ & Hevs' & Hk' & Hinj').
    cbn in Hloop, Hk', Hinj'.
    unfold addEvaluator_inPlace, addEvaluator. rewrite Hloop.
    assert (unshared h' this) as Hun'.
    { split; [exact Hnd|]. constructor.
      - intros Hin. apply list_elem_of_omap in Hin as (a & Hin & Harr).
        exact (Hk' a _ Hin Harr eq_refl).
      - apply NoDup_omap_of_inj; [exact Hnd|]. exact Hinj'. }
    destruct (existsb _ (ds_cases ds)) eqn:Hfound.
    + eexists _, h', _. split; [reflexivity|]. split; [reflexivity|].
      split; [|exact Hun']. repeat split; cbn; assumption.
    + eexists _, h', _. split; [reflexivity|]. split; [reflexivity|].
      split; [|exact Hun']. repeat split; try assumption.
      assert (pushEvaluator evaluator specificCase <$> ds_cases ds
              = ds_cases ds) as Hid; [|rewrite <- Hid; exact Hcases'].
      clear -Hfound. induction (ds_cases ds) as [|c rest IH];
        [reflexivity|].
      cbn in Hfound. apply orb_false_iff in Hfound as [Hc Hrest].
      cbn. rewrite (IH Hrest). unfold pushEvaluator at 1. rewrite Hc.
      reflexivity.
  - unfold addEvaluator_inPlace, addEvaluator. eexists _, _, _.
    split; [reflexivity|]. split; [reflexivity|].
    split.
    + repeat split; cbn; try assumption.
      * apply (Forall2_impl_elem _ _ _ _ Hcases). intros a c Hin Hread.
        unfold readCase in *. cbn.
        destruct (heap_cases h !! a) as [co|] eqn:Hco; [|discriminate].
        cbn in *. destruct (obj_evaluators co) as [array|] eqn:Harr;
          [|exact Hread].
        rewrite lookup_alter_ne; [exact Hread|].
        intros Heq. apply (Hk a array Hin); [|congruence].
        unfold arrayOf. rewrite Hco. exact Harr.
      * rewrite lookup_alter_eq, Hevs. reflexivity.
    + split; [exact Hnd|exact Hnda].
Qed.

(** When no case has the name, the loop changes nothing. *)
Lemma pushInPlace_no_match evaluator specificCase :
  ∀ todo tcases (h : Heap) found,
    Forall2 (λ a c, readCase h a = Some c) todo tcases →
    existsb (λ c, bool_decide (case_name c = Some specificCase)) tcases
    = false →
    foldl (pushInPlace evaluator specificCase) (found, h) todo = (found, h).
Proof.
  induction todo as [|a rest IH]; intros tcases h found Hall Hnone;
    [reflexivity|].
  inversion Hall as [|? cv ? trest Hread Hrest]; subst.
  cbn in Hnone. apply orb_false_iff in Hnone as [Hcv Htrest].
  cbn [foldl]. unfold pushInPlace at 2. unfold readCase in Hread.
  destruct (heap_cases h !! a) as [c|]; [|discriminate]. cbn in Hread.
  destruct (match obj_evaluators c with
            | Some array => Some <$> heap_arrays h !! array
            | None => Some None
            end); [|discriminate].
  cbn in Hread. injection Hread as <-. cbn in Hcv. rewrite Hcv.
  exact (IH trest h found Hrest Htrest).
Qed.

(** X4. Take a dataset object that shares nothing: no case object
    stands twice in [cases], and the [evaluators] arrays of its cases
    and of the dataset are all different arrays. [addEvaluator], which
    pushes in place, leaves it so. [addEvaluator(evaluator)] appends to
    the evaluators of the dataset and touches no case.
    [addEvaluator(evaluator, name)] throws, changing nothing, when no
    case has that name; otherwise it appends the evaluator to the
    evaluators of every case of that name, creating the array when the
    case had none, and changes nothing else: names, order and the
    evaluators of the dataset stay. When the names are distinct exactly
    one case is changed. (Cases that share an array change together:
    [a_shared_array_reaches_two_cases].) *)
Theorem addEvaluator_reaches_the_named_case (evaluator : Evaluator)
    (specificCase : string) (this : DatasetObject) (h : Heap)
    (ds : Dataset) :
  represents h this ds →
  unshared h this →
  (∃ h',
     addEvaluator_inPlace evaluator None this h = (Return tt, h')
     ∧ unshared h' this
     ∧ represents h' this
         {| ds_name := ds_name ds;
            ds_cases := ds_cases ds;
            ds_evaluators := ds_evaluators ds ++ [evaluator];
            ds_reportEvaluators := ds_reportEvaluators ds |})
  ∧ (specificCase ∉ caseNames (ds_cases ds) →
     addEvaluator_inPlace evaluator (Some specificCase) this h
     = (Throw (ThrownError "Error"
                 ("Case '" +:+ specificCase +:+ "' not found in the dataset")
                 (captureStack
                    ("Case '" +:+ specificCase
                     +:+ "' not found in the dataset"))), h))
  ∧ (specificCase ∈ caseNames (ds_cases ds) →
     ∃ h' ds',
       addEvaluator_inPlace evaluator (Some specificCase) this h
       = (Return tt, h')
       ∧ unshared h' this
       ∧ represents h' this ds'
       ∧ ds_name ds' = ds_name ds
       ∧ ds_evaluators ds' = ds_evaluators ds
       ∧ ds_reportEvaluators ds' = ds_reportEvaluators ds
       ∧ caseNames (ds_cases ds') = caseNames (ds_cases ds)
       ∧ Forall2 (λ c c',
                    case_name c' = case_name c
                    ∧ case_inputs c' = case_inputs c
                    ∧ case_metadata c' = case_metadata c
                    ∧ case_expectedOutput c' = case_expectedOutput c
                    ∧ if bool_decide (case_name c = Some specificCase)
                      then case_evaluators c'
                           = Some (default [] (case_evaluators c)
                                   ++ [evaluator])
                      else c' = c)
                 (ds_cases ds) (ds_cases ds')
       ∧ (NoDup (caseNames (ds_cases ds)) →
          ∃ i c,
            ds_cases ds !! i = Some c
            ∧ case_name c = Some specificCase
            ∧ ds_cases ds'
              = <[i := pushEvaluator evaluator specificCase c]>
                  (ds_cases ds))).
Proof.
  intros Hrep Hun.
  destruct (addEvaluator_on_values evaluator specificCase ds)
    as (Hnone & Hthrow & Hsome).
  split; [|split].
  - destruct (addEvaluator_inPlace_unshared evaluator None this h ds Hrep Hun)
      as (r & h' & ds' & Hrun & Hval & Hrep' & Hun').
    rewrite Hnone in Hval. injection Hval as <- <-. eauto.
  - intros Hout. specialize (Hthrow Hout).
    destruct Hrep as (_ & Hcases & _).
    unfold addEvaluator in Hthrow. unfold addEvaluator_inPlace.
    destruct (existsb _ (ds_cases ds)) eqn:Hfound; [discriminate|].
    rewrite (pushInPlace_no_match _ _ _ _ _ _ Hcases Hfound). reflexivity.
  - intros Hin. destruct (Hsome Hin) as (ds1 & Hval1 & Hrest).
    destruct (addEvaluator_inPlace_unshared evaluator (Some specificCase)
                this h ds Hrep Hun)
      as (r & h' & ds' & Hrun & Hval & Hrep' & Hun').
    rewrite Hval1 in Hval. injection Hval as <- <-.
    exists h', ds1. auto.
Qed.


(** ** Evaluators and report evaluators of a unit *)













(** A throw of [getSerializationName()] in the [catch] block leaves
    [runReportEvaluators]. *)
Lemma runReportEvaluators_methods_escape
    (reportEval : ReportEvaluatorMethods)
    (rest : list ReportEvaluatorMethods) (name : string)
    (meta : option (gmap string JsVal)) (report : EvaluationReport)
    (w w1 w2 : World) (e e' : Thrown) :
  rem_evaluate reportEval
    {| rctx_name := name; rctx_report := report;
       rctx_experimentMetadata := meta |} w = (Throw e, w1) →
  rem_getSerializationName reportEval w1 = (Throw e', w2) →
  runReportEvaluators_methods (reportEval :: rest) name meta report w
  = (Throw e', w2).
Proof.
  intros Hev Hname. cbn [runReportEvaluators_methods].
  unfold bind at 1, try_catch, bind at 1. rewrite Hev.
  destruct (toError e) as [[ename message] stack].
  unfold bind at 1. rewrite Hname. reflexivity.
Qed.


Lemma groupStep_keeps g er er' name' :
  names_apart g →
  name' ∈ go_seenNames g →
  kept g er' name' →
  kept (groupStep g er) er' name'.
Proof.
  intros Hapart Hseen Hkept.
  pose proof (uniqueName_fresh (go_seenNames g) (er_name er)) as Hfresh.
  assert (uniqueName (go_seenNames g) (er_name er) ≠ name') as Hne
    by (intros <-; contradiction).
  unfold kept, groupStep in *.
  destruct (er_value er'), (er_value er); cbn; try exact I;
    try exact Hkept; rewrite lookup_insert_ne by exact Hne; exact Hkept.
Qed.

Lemma ofType_snoc t (results : list (EvaluationResult JsVal)) er :
  length (ofType t (results ++ [er]))
  = length (ofType t results)
    + (if bool_decide (typeof (er_value er) = t) then 1 else 0).
Proof.
  unfold ofType. rewrite filter_app, length_app. f_equal.
  rewrite filter_cons, filter_nil.
  destruct (decide (typeof (er_value er) = t)) as [Ht|Ht].
  - rewrite bool_decide_eq_true_2 by exact Ht. reflexivity.
  - rewrite bool_decide_eq_false_2 by exact Ht. reflexivity.
Qed.

Lemma groupStep_sizes g er :
  names_apart g →
  size (go_seenNames (groupStep g er)) = S (size (go_seenNames g))
  ∧ size (go_assertions (groupStep g er))
    = size (go_assertions g)
      + (if bool_decide (typeof (er_value er) = TBoolean) then 1 else 0)
  ∧ size (go_scores (groupStep g er))
    = size (go_scores g)
      + (if bool_decide (typeof (er_value er) = TNumber) then 1 else 0)
  ∧ size (go_labels (groupStep g er))
    = size (go_labels g)
      + (if bool_decide (typeof (er_value er) = TString) then 1 else 0).
Proof.
  clear captureStack performance_now otel.
  intros (Ha & Hs & Hl & _).
  pose proof (uniqueName_fresh (go_seenNames g) (er_name er)) as Hfresh.
  set (name := uniqueName (go_seenNames g) (er_name er)) in *.
  assert (go_assertions g !! name = None) as Hna
    by (apply not_elem_of_dom; set_solver).
  assert (go_scores g !! name = None) as Hns
    by (apply not_elem_of_dom; set_solver).
  assert (go_labels g !! name = None) as Hnl
    by (apply not_elem_of_dom; set_solver).
  assert (size ({[name]} ∪ go_seenNames g) = S (size (go_seenNames g)))
    as Hseen.
  { rewrite size_union by set_solver. rewrite size_singleton. reflexivity. }
  unfold groupStep. fold name.
  destruct (er_value er); cbn;
    rewrite ?map_size_insert_None by assumption;
    (split; [exact Hseen|]); repeat split;
    repeat case_bool_decide; try discriminate; try congruence; lia.
Qed.

(** X8. When no result is named "__proto__", grouping loses no result
    and overwrites none. There are as many names in use as there are
    results; each of the three maps has as many entries as there are
    results whose value is a boolean, a number or a string; and every
    result is found in the map of its type, with its value, reason and
    source, under a name in use that is its own name or its own name
    with a suffix "_k". A result whose value is of no such type uses up
    a name and is stored nowhere. *)
Theorem grouping_keeps_every_result
    (results : list (EvaluationResult JsVal)) :
  Forall (λ er, er_name er ≠ "__proto__") results →
  size (go_seenNames (groupEvaluatorOutputsByType results)) = length results
  ∧ size (go_assertions (groupEvaluatorOutputsByType results))
    = length (ofType TBoolean results)
  ∧ size (go_scores (groupEvaluatorOutputsByType results))
    = length (ofType TNumber results)
  ∧ size (go_labels (groupEvaluatorOutputsByType results))
    = length (ofType TString results)
  ∧ ∀ er, er ∈ results →
      ∃ name,
        name ∈ go_seenNames (groupEvaluatorOutputsByType results)
        ∧ kept (groupEvaluatorOutputsByType results) er name
        ∧ (name = er_name er
           ∨ ∃ k, 2 ≤ k ∧ name = er_name er +:+ "_" +:+ pretty k).
Proof.
  clear captureStack performance_now otel. intros _.
  induction results as [|er results IH] using rev_ind.
  - cbn. rewrite size_empty, !map_size_empty.
    repeat (split; [reflexivity|]). intros er Her. inversion Her.
  - destruct IH as (Hseen & Ha & Hs & Hl & Hkept).
    pose proof (groupEvaluatorOutputsByType_names_apart results) as Hapart.
    destruct (groupStep_sizes _ er Hapart) as (Hseen' & Ha' & Hs' & Hl').
    unfold groupEvaluatorOutputsByType in *. rewrite foldl_app. cbn [foldl].
    rewrite Hseen', Ha', Hs', Hl', Hseen, Ha, Hs, Hl, !ofType_snoc, length_app.
    cbn [length]. split; [lia|]. repeat (split; [reflexivity|]).
    intros er' Her'. apply elem_of_app in Her' as [Her'|Her'].
    + destruct (Hkept _ Her') as (name' & Hin & Hk & Hform).
      exists name'.
      split; [|split; [apply groupStep_keeps; assumption|exact Hform]].
      destruct (groupStep_stores
                  (foldl groupStep
                     {| go_assertions := ∅; go_scores := ∅; go_labels := ∅;
                        go_seenNames := ∅ |} results) er) as [-> _].
      set_solver.
    + apply list_elem_of_singleton in Her' as ->.
      destruct (groupStep_stores
                  (foldl groupStep
                     {| go_assertions := ∅; go_scores := ∅; go_labels := ∅;
                        go_seenNames := ∅ |} results) er) as [Hs1 Hs2].
      cbv zeta in Hs1, Hs2. eexists.
      split; [rewrite Hs1; apply elem_of_union_l, elem_of_singleton;
              reflexivity|].
      split; [unfold kept; exact Hs2|].
      match goal with |- context [uniqueName ?seen _] =>
        destruct (decide (er_name er ∈ seen)) as [Hused|Hunused] end.
      * destruct (uniqueName_used _ _ Hused) as (k & Hk & -> & _).
        right. exists k. split; [exact Hk|reflexivity].
      * left. apply uniqueName_unused. exact Hunused.
Qed.

(** ** Means, distributions and the order of groups *)

Lemma tally_entries_lookup {V} (val : V → Qc) (entries : list (string * V))
    (acc : gmap string nat * gmap string Qc) k :
  NoDup entries.*1 →
  let r := foldl (λ '(counts, sums) '(key, v),
                    (bump key counts, addTo key (val v) sums))
                 acc entries in
  match (list_to_map entries : gmap string V) !! k with
  | Some v =>
      r.1 !! k = Some (default 0 (acc.1 !! k) + 1)
      ∧ r.2 !! k = Some (default 0 (acc.2 !! k) + val v)%Qc
  | None => r.1 !! k = acc.1 !! k ∧ r.2 !! k = acc.2 !! k
  end.
Proof.
  revert acc. induction entries as [|[k0 v0] rest IH]; intros acc Hnd.
  - simpl. rewrite lookup_empty. auto.
  - rewrite fmap_cons in Hnd. apply NoDup_cons in Hnd as [Hk0 Hnd].
    simpl in Hk0. destruct acc as [counts sums].
    cbn [foldl list_to_map foldr uncurry fst snd]. cbv zeta.
    specialize (IH (bump k0 counts, addTo k0 (val v0) sums) Hnd).
    cbv zeta in IH.
    destruct (decide (k = k0)) as [->|Hne].
    + rewrite lookup_insert_eq.
      rewrite (not_elem_of_list_to_map_1 _ _ Hk0) in IH.
      destruct IH as [-> ->]. cbn [fst snd]. unfold bump, addTo.
      rewrite !lookup_insert_eq. auto.
    + rewrite lookup_insert_ne by congruence.
      assert (H1 : bump k0 counts !! k = counts !! k)
        by (unfold bump; apply lookup_insert_ne; congruence).
      assert (H2 : addTo k0 (val v0) sums !! k = sums !! k)
        by (unfold addTo; apply lookup_insert_ne; congruence).
      cbn [fst snd] in IH. rewrite H1, H2 in IH. exact IH.
Qed.

Lemma tally_cases_lookup {V} (val : V → Qc) (get : ReportCase → gmap string V)
    cases k :
  let r := foldl (λ acc c,
                    foldl (λ '(counts, sums) '(key, v),
                             (bump key counts, addTo key (val v) sums))
                          acc (map_to_list (get c)))
                 ((∅, ∅) : gmap string nat * gmap string Qc) cases in
  let vals := omap (λ c, val <$> get c !! k) cases in
  r.1 !! k = nz (length vals)
  ∧ r.2 !! k = match vals with [] => None | _ :: _ => Some (sumQc vals) end.
Proof.
  cbv zeta. induction cases as [|c cases IH] using rev_ind.
  - cbn. rewrite !lookup_empty. auto.
  - rewrite foldl_app, omap_app. cbn [foldl omap list_omap].
    pose proof (tally_entries_lookup val (map_to_list (get c))
                  (foldl (λ acc c,
                            foldl (λ '(counts, sums) '(key, v),
                                     (bump key counts,
                                      addTo key (val v) sums))
                                  acc (map_to_list (get c)))
                         ((∅, ∅) : gmap string nat * gmap string Qc) cases)
                  k (NoDup_fst_map_to_list _)) as Hstep.
    cbv zeta in Hstep. rewrite list_to_map_to_list in Hstep.
    destruct IH as [IH1 IH2]. rewrite IH1, IH2 in Hstep.
    destruct (get c !! k) as [v|]; cbn [fmap option_fmap option_map].
    + destruct Hstep as [-> ->]. rewrite length_app. cbn [length].
      rewrite default_nz, nz_succ. split; [reflexivity|].
      destruct (omap (λ c, val <$> get c !! k) cases) as [|x xs] eqn:Hvals.
      * cbn. unfold sumQc. reflexivity.
      * cbn [app]. cbn [default]. f_equal.
        change (x :: xs ++ [val v]) with ((x :: xs) ++ [val v]).
        unfold sumQc. rewrite foldl_app. reflexivity.
    + destruct Hstep as [-> ->]. rewrite app_nil_r. auto.
Qed.

Lemma divideByCounts_mean (counts : gmap string nat) (sums : gmap string Qc)
    (vals : list Qc) k :
  counts !! k = nz (length vals) →
  sums !! k = match vals with [] => None | _ :: _ => Some (sumQc vals) end →
  divideByCounts counts sums !! k = mean vals.
Proof.
  intros Hc Hs. unfold divideByCounts. rewrite map_lookup_imap, Hs.
  destruct vals as [|x xs]; [reflexivity|].
  cbn [mean mbind option_bind]. rewrite lookup_total_alt, Hc.
  unfold nz. rewrite bool_decide_eq_false_2 by (cbn; lia). reflexivity.
Qed.

Lemma foldl_Qcplus_fmap {A} (f : A → Qc) (xs : list A) :
  foldl (λ sum x, (sum + f x)%Qc) 0%Qc xs = sumQc (f <$> xs).
Proof.
  unfold sumQc. generalize 0%Qc.
  induction xs as [|x rest IH]; intros a; [reflexivity|].
  cbn. apply IH.
Qed.

(** X9. With numbers taken as exact rationals, and cases whose names
    of scores, labels and metrics and whose label values are ordinary:
    the average score of a name is the mean of the scores of the cases
    that have a score of that name, and there is none when no case has
    one; in the same way the average of a metric is the mean over the
    cases that recorded it. The two durations are means over all the
    cases. *)
Theorem averageCases_means_over_present (cases : list ReportCase)
    (k : string) :
  Forall ordinary_case cases →
  agg_scores (averageCases cases) !! k
  = mean (omap (λ c, er_value <$> rc_scores c !! k) cases)
  ∧ agg_metrics (averageCases cases) !! k
    = mean (omap (λ c, rc_metrics c !! k) cases)
  ∧ (cases ≠ [] →
     agg_taskDuration (averageCases cases)
     = (sumQc (rc_taskDuration <$> cases) / Qc_of_nat (length cases))%Qc
     ∧ agg_totalDuration (averageCases cases)
       = (sumQc (rc_totalDuration <$> cases) / Qc_of_nat (length cases))%Qc).
Proof.
  intros _. unfold averageCases. case_bool_decide as Hn.
  - apply length_zero_iff_nil in Hn. subst. cbn. rewrite !lookup_empty.
    split; [reflexivity|]. split; [reflexivity|]. intros H. contradiction.
  - pose proof (tally_cases_lookup er_value rc_scores cases k) as Hs.
    pose proof (tally_cases_lookup id rc_metrics cases k) as Hm.
    cbv zeta in Hs, Hm. fold (scoreTotals cases) in Hs.
    change (foldl _ (∅, ∅) cases) with (metricTotals cases) in Hm.
    destruct (scoreTotals cases) as [scoreCounts scoreSums].
    destruct (labelTotals cases) as [labelCounts labelSums].
    destruct (metricTotals cases) as [metricCounts metricSums].
    cbn [agg_scores agg_metrics agg_taskDuration agg_totalDuration].
    split; [apply divideByCounts_mean; [apply Hs|apply Hs]|].
    split.
    + replace (omap (λ c, rc_metrics c !! k) cases)
        with (omap (λ c, id <$> rc_metrics c !! k) cases).
      * apply divideByCounts_mean; [apply Hm|apply Hm].
      * clear. induction cases as [|c rest IH]; [reflexivity|].
        cbn. rewrite IH. destruct (rc_metrics c !! k); reflexivity.
    + intros _. rewrite !foldl_Qcplus_fmap. auto.
Qed.

Lemma set_fold_insert_if_lookup {V}
    (f : string → gmap string V → gmap string V) (g : string → option V)
    (keys : gset string) k :
  (∀ key acc, f key acc
              = match g key with Some v => <[key := v]> acc | None => acc end) →
  set_fold f (∅ : gmap string V) keys !! k
  = if decide (k ∈ keys) then g k else None.
Proof.
  clear captureStack.
  intros Hf. unfold set_fold. simpl.
  assert (H : ∀ l : list string,
            foldr f (∅ : gmap string V) l !! k
            = if decide (k ∈ l) then g k else None).
  { induction l as [|x rest IH]; cbn [foldr]; rewrite ?Hf.
    - rewrite lookup_empty, decide_False by apply not_elem_of_nil.
      reflexivity.
    - destruct (decide (k = x)) as [->|Hne].
      + rewrite decide_True by left.
        destruct (g x) as [v|] eqn:Hg; [apply lookup_insert_eq|].
        rewrite IH. case_decide; reflexivity.
      + assert (match g x with
                | Some v => <[x := v]> (foldr f ∅ rest)
                | None => foldr f ∅ rest
                end !! k = foldr f ∅ rest !! k) as ->
          by (destruct (g x); [apply lookup_insert_ne; congruence
                              |reflexivity]).
        rewrite IH.
        repeat case_decide; try reflexivity; exfalso; set_solver. }
  rewrite H. repeat case_decide; try reflexivity; exfalso; set_solver.
Qed.

Lemma present_values (dicts : list (gmap string Qc)) key :
  (λ d : gmap string Qc, default 0%Qc (d !! key))
  <$> List.filter (λ d, bool_decide (is_Some (d !! key))) dicts
  = omap (.!! key) dicts.
Proof.
  induction dicts as [|d rest IH]; [reflexivity|].
  cbn [List.filter omap list_omap].
  destruct (d !! key) as [x|] eqn:Hd.
  - rewrite bool_decide_eq_true_2 by eauto.
    rewrite fmap_cons, Hd, IH. reflexivity.
  - rewrite bool_decide_eq_false_2 by (intros [? ?]; discriminate).
    exact IH.
Qed.

Lemma elem_of_allKeys (dicts : list (gmap string Qc)) key :
  key ∈ (⋃ (dom <$> dicts) : gset string) ↔ omap (.!! key) dicts ≠ [].
Proof.
  clear captureStack.
  induction dicts as [|d rest IH].
  - simpl. set_solver.
  - rewrite fmap_cons, union_list_cons, elem_of_union, IH, elem_of_dom.
    cbn [omap list_omap]. fold (omap (.!! key) rest).
    destruct (d !! key) as [x|].
    + split; [discriminate|]. intros _. left. eauto.
    + split.
      * intros [[? ?]|H]; [discriminate|exact H].
      * intros H. right. exact H.
Qed.

Lemma avgNumericDicts_lookup (dicts : list (gmap string Qc)) key :
  avgNumericDicts dicts !! key = mean (omap (.!! key) dicts).
Proof.
  unfold avgNumericDicts.
  rewrite (set_fold_insert_if_lookup _ (λ key, mean (omap (.!! key) dicts))).
  - pose proof (elem_of_allKeys dicts key) as Hkeys.
    case_decide as Hin; [reflexivity|].
    destruct (omap (.!! key) dicts); [reflexivity|].
    exfalso. apply Hin, Hkeys. discriminate.
  - intros key' acc. cbv zeta. rewrite present_values.
    destruct (omap (.!! key') dicts) as [|x xs]; [reflexivity|].
    rewrite bool_decide_eq_true_2 by (cbn; lia). reflexivity.
Qed.

Lemma omap_lookup_fmap {A} (f : A → gmap string Qc) (xs : list A) key :
  omap (.!! key) (f <$> xs) = omap (λ a, f a !! key) xs.
Proof.
  induction xs as [|x rest IH]; [reflexivity|].
  rewrite fmap_cons. cbn [omap list_omap]. rewrite <- IH. reflexivity.
Qed.

Lemma averageFromAggregates_means_over_present_aux
    (aggregates : list ReportCaseAggregate) (k : string) :
  agg_scores (averageFromAggregates aggregates) !! k
  = mean (omap (λ a, agg_scores a !! k) aggregates)
  ∧ agg_metrics (averageFromAggregates aggregates) !! k
    = mean (omap (λ a, agg_metrics a !! k) aggregates)
  ∧ (aggregates ≠ [] →
     agg_taskDuration (averageFromAggregates aggregates)
     = (sumQc (agg_taskDuration <$> aggregates)
        / Qc_of_nat (length aggregates))%Qc
     ∧ agg_totalDuration (averageFromAggregates aggregates)
       = (sumQc (agg_totalDuration <$> aggregates)
          / Qc_of_nat (length aggregates))%Qc).
Proof.
  unfold averageFromAggregates. case_bool_decide as Hn.
  - apply length_zero_iff_nil in Hn. subst. cbn. rewrite !lookup_empty.
    split; [reflexivity|]. split; [reflexivity|]. intros H. contradiction.
  - cbn [agg_scores agg_metrics agg_taskDuration agg_totalDuration].
    rewrite !avgNumericDicts_lookup, !omap_lookup_fmap.
    split; [reflexivity|]. split; [reflexivity|].
    intros _. rewrite !foldl_Qcplus_fmap. auto.
Qed.

(** X10. With numbers taken as exact rationals, and aggregates whose
    names of scores, labels and metrics and whose label values are
    ordinary: a score or a metric is averaged over the aggregates that
    have it, each counting once, and is absent when none has it; the
    durations are means over all the aggregates. *)
Theorem averageFromAggregates_means_over_present
    (aggregates : list ReportCaseAggregate) (k : string) :
  Forall ordinary_aggregate aggregates →
  agg_scores (averageFromAggregates aggregates) !! k
  = mean (omap (λ a, agg_scores a !! k) aggregates)
  ∧ agg_metrics (averageFromAggregates aggregates) !! k
    = mean (omap (λ a, agg_metrics a !! k) aggregates)
  ∧ (aggregates ≠ [] →
     agg_taskDuration (averageFromAggregates aggregates)
     = (sumQc (agg_taskDuration <$> aggregates)
        / Qc_of_nat (length aggregates))%Qc
     ∧ agg_totalDuration (averageFromAggregates aggregates)
       = (sumQc (agg_totalDuration <$> aggregates)
          / Qc_of_nat (length aggregates))%Qc).
Proof. intros _. apply averageFromAggregates_means_over_present_aux. Qed.

Lemma sumQc_Permutation (xs ys : list Qc) : xs ≡ₚ ys → sumQc xs = sumQc ys.
Proof.
  induction 1 as [|x xs ys _ IH|x y xs|xs ys zs _ IH1 _ IH2].
  - reflexivity.
  - rewrite !sumQc_cons, IH. reflexivity.
  - rewrite !sumQc_cons. ring.
  - congruence.
Qed.

Lemma sumQc_app (xs ys : list Qc) : sumQc (xs ++ ys) = (sumQc xs + sumQc ys)%Qc.
Proof.
  induction xs as [|x xs IH]; cbn [app].
  - unfold sumQc at 2. cbn. ring.
  - rewrite !sumQc_cons, IH. ring.
Qed.

Lemma total_empty : total ∅ = 0%Qc.
Proof. unfold total. rewrite map_to_list_empty. reflexivity. Qed.

Lemma total_insert (m : gmap string Qc) k x :
  m !! k = None → total (<[k := x]> m) = (x + total m)%Qc.
Proof.
  intros Hk. unfold total.
  rewrite (sumQc_Permutation _ ((k, x) :: map_to_list m).*2).
  - rewrite fmap_cons. apply sumQc_cons.
  - apply fmap_Permutation, map_to_list_insert, Hk.
Qed.

Lemma total_addTo (m : gmap string Qc) k x :
  total (addTo k x m) = (total m + x)%Qc.
Proof.
  unfold addTo. destruct (m !! k) as [y|] eqn:Hk; cbn [default].
  - rewrite <- insert_delete_eq.
    rewrite total_insert by apply lookup_delete_eq.
    rewrite <- (insert_delete_id m k y Hk) at 2.
    rewrite total_insert by apply lookup_delete_eq. unfold id. ring.
  - rewrite total_insert by exact Hk. ring.
Qed.

Lemma total_addDist (combined dist : gmap string Qc) :
  total (addDist combined dist) = (total combined + total dist)%Qc.
Proof.
  unfold addDist, total at 3.
  revert combined. induction (map_to_list dist) as [|[k x] rest IH];
    intros combined.
  - cbn. unfold sumQc. cbn. ring.
  - cbn [foldl]. rewrite IH, total_addTo, fmap_cons, sumQc_cons. cbn. ring.
Qed.

Lemma total_addDists (dists : list (gmap string Qc)) combined :
  total (foldl addDist combined dists)
  = (total combined + sumQc (total <$> dists))%Qc.
Proof.
  revert combined. induction dists as [|d rest IH]; intros combined.
  - cbn. unfold sumQc. cbn. ring.
  - cbn [foldl]. rewrite IH, total_addDist, fmap_cons, sumQc_cons. ring.
Qed.

Lemma total_scaled (m : gmap string Qc) (q : Qc) :
  total ((λ x, (x / q)%Qc) <$> m) = (total m / q)%Qc.
Proof.
  unfold total. rewrite map_to_list_fmap.
  induction (map_to_list m) as [|[k x] rest IH].
  - cbn. unfold sumQc. cbn. unfold Qcdiv. ring.
  - rewrite !fmap_cons. cbn [prod_map fst snd id].
    rewrite !sumQc_cons, IH. unfold Qcdiv. ring.
Qed.

Lemma sumQc_ones (xs : list Qc) :
  Forall (λ x, x = 1%Qc) xs → sumQc xs = Qc_of_nat (length xs).
Proof.
  induction 1 as [|x xs -> _ IH].
  - reflexivity.
  - rewrite sumQc_cons, IH. cbn [length].
    change (S (length xs)) with (1 + length xs). rewrite Qc_of_nat_add.
    reflexivity.
Qed.

Lemma combined_distribution_total
    (aggregates : list ReportCaseAggregate) (key : string)
    (dist : gmap string Qc) :
  Forall (λ d, total d = 1%Qc) (reporting key aggregates) →
  agg_labels (averageFromAggregates aggregates) !! key = Some dist →
  total dist = 1%Qc.
Proof.
  intros Hone. rewrite averageFromAggregates_labels.
  destruct (reporting key aggregates) as [|d ds] eqn:Hrep; [discriminate|].
  intros [= <-]. rewrite total_scaled.
  change (foldl addDist (addDist ∅ d) ds) with (foldl addDist ∅ (d :: ds)).
  change (S (length ds)) with (length (d :: ds)).
  rewrite total_addDists, total_empty.
  rewrite (sumQc_ones (total <$> d :: ds)) by (apply Forall_fmap; exact Hone).
  rewrite length_fmap, Qcplus_0_l. unfold Qcdiv.
  apply Qcmult_inv_r, Qc_of_nat_nonzero. cbn. lia.
Qed.

(** X11. Combining aggregates keeps distributions, in exact arithmetic
    and under ordinary names: when the names of the labels and their
    values are ordinary and the distribution of a label in every
    aggregate that reports it has total mass 1, so has the combined
    distribution of that label. *)
Theorem averageFromAggregates_keeps_distributions
    (aggregates : list ReportCaseAggregate) (key : string)
    (dist : gmap string Qc) :
  Forall ordinary_aggregate aggregates →
  Forall (λ d, total d = 1%Qc) (reporting key aggregates) →
  agg_labels (averageFromAggregates aggregates) !! key = Some dist →
  total dist = 1%Qc.
Proof. intros _. apply combined_distribution_total. Qed.

Lemma averageCases_label_total cases k dist :
  agg_labels (averageCases cases) !! k = Some dist → total dist = 1%Qc.
Proof.
  destruct (decide (cases = [])) as [->|Hne].
  { unfold averageCases. cbn. intros H. inversion H. }
  rewrite (averageCases_labels _ Hne), map_lookup_imap.
  destruct (labelTotals_invariant cases) as [Hcons _].
  specialize (Hcons k).
  destruct ((labelTotals cases).2 !! k) as [m|]; [|discriminate].
  destruct Hcons as [Hc Hpos]. cbn. intros [= <-].
  rewrite (lookup_total_correct _ _ _ Hc). unfold total.
  rewrite sumQc_fractions. unfold Qcdiv.
  apply Qcmult_inv_r, Qc_of_nat_nonzero, Hpos.
Qed.

(** X12. For a report whose cases have ordinary names of scores, labels
    and metrics and ordinary label values, and in exact arithmetic,
    every label distribution of [averages()] has total mass 1: with or
    without case groups, the fractions of the values of a label add up
    to exactly 1. *)
Theorem averages_label_distributions_sum_to_one (report : EvaluationReport)
    (avg : ReportCaseAggregate) (key : string) (dist : gmap string Qc) :
  Forall ordinary_case (rep_cases report) →
  computeAverages report = Return (Some avg) →
  agg_labels avg !! key = Some dist →
  total dist = 1%Qc.
Proof.
  intros _. unfold computeAverages.
  destruct (computeCaseGroups_groups report) as [->|(gs & -> & Hgs)];
    cbn [obind].
  - case_bool_decide; [|discriminate]. intros [= <-].
    apply averageCases_label_total.
  - case_bool_decide; [|discriminate]. intros [= <-].
    apply combined_distribution_total.
    apply Forall_forall. intros d Hd. unfold reporting in Hd.
    apply list_elem_of_omap in Hd as (a & Ha & Hd).
    apply list_elem_of_fmap in Ha as (g & -> & Hg).
    apply list_elem_of_In, filter_In in Hg as [Hg _].
    apply list_elem_of_In in Hg.
    apply list_elem_of_lookup in Hg as [i Hi].
    destruct (Forall2_lookup_r _ _ _ _ _ Hgs Hi)
      as (entry & _ & _ & _ & _ & Hsum).
    rewrite Hsum in Hd. exact (averageCases_label_total _ _ _ Hd).
Qed.

Lemma omap_replicate {A B} (f : A → option B) n x :
  omap f (replicate n x)
  = match f x with Some y => replicate n y | None => [] end.
Proof.
  induction n as [|n IH]; cbn [replicate omap list_omap].
  - destruct (f x); reflexivity.
  - fold (omap f (replicate n x)). rewrite IH. destruct (f x); reflexivity.
Qed.

Lemma sumQc_replicate n (y : Qc) :
  sumQc (replicate n y) = (Qc_of_nat n * y)%Qc.
Proof.
  induction n as [|n IH]; cbn [replicate].
  - unfold sumQc. cbn. rewrite Qc_of_nat_0. ring.
  - rewrite sumQc_cons, IH. change (S n) with (1 + n).
    rewrite Qc_of_nat_add. change (Qc_of_nat 1) with 1%Qc. ring.
Qed.

Lemma mean_of_copies n (y : Qc) :
  (sumQc (replicate (S n) y) / Qc_of_nat (length (replicate (S n) y)))%Qc = y.
Proof.
  rewrite sumQc_replicate, length_replicate. field.
  apply Qc_of_nat_nonzero. lia.
Qed.

Lemma mean_replicate n (y : Qc) : mean (replicate (S n) y) = Some y.
Proof.
  unfold mean. cbn [replicate].
  change (y :: replicate n y) with (replicate (S n) y).
  rewrite mean_of_copies. reflexivity.
Qed.

(** X13. Averaging aggregates that all agree changes nothing, in exact
    arithmetic and under ordinary names: the average of one or more
    copies of an aggregate whose names of scores, labels and metrics and
    whose label values are ordinary is that aggregate, under the name
    "Averages". *)
Theorem averageFromAggregates_of_copies (a : ReportCaseAggregate) (n : nat) :
  ordinary_aggregate a →
  averageFromAggregates (replicate (S n) a) = renamed a.
Proof.
  intros _.
  assert (∀ x y : ReportCaseAggregate,
            agg_name x = agg_name y → agg_scores x = agg_scores y →
            agg_labels x = agg_labels y → agg_metrics x = agg_metrics y →
            agg_assertions x = agg_assertions y →
            agg_taskDuration x = agg_taskDuration y →
            agg_totalDuration x = agg_totalDuration y → x = y) as Hext.
  { intros [] []; cbn; intros; subst; reflexivity. }
  apply Hext.
  - reflexivity.
  - apply map_eq. intros k.
    destruct (averageFromAggregates_means_over_present_aux
                (replicate (S n) a) k) as (-> & _ & _).
    rewrite omap_replicate. cbn [renamed agg_scores].
    destruct (agg_scores a !! k); [apply mean_replicate|reflexivity].
  - apply map_eq. intros key. rewrite averageFromAggregates_labels.
    unfold reporting. rewrite omap_replicate. cbn [renamed agg_labels].
    destruct (agg_labels a !! key) as [dist|]; [|reflexivity].
    cbn [replicate]. f_equal. apply map_eq. intros v.
    change (dist :: replicate n dist) with (replicate (S n) dist).
    rewrite lookup_fmap, addDists_lookup, omap_replicate, lookup_empty.
    destruct (dist !! v) as [freq|]; [|reflexivity].
    cbn [replicate default fmap option_fmap option_map]. f_equal.
    change (freq :: replicate n freq) with (replicate (S n) freq).
    change (length (dist :: replicate n dist))
      with (S (length (replicate n dist))).
    rewrite Qcplus_0_l, sumQc_replicate, length_replicate. field.
    apply Qc_of_nat_nonzero. lia.
  - apply map_eq. intros k.
    destruct (averageFromAggregates_means_over_present_aux
                (replicate (S n) a) k) as (_ & -> & _).
    rewrite omap_replicate. cbn [renamed agg_metrics].
    destruct (agg_metrics a !! k); [apply mean_replicate|reflexivity].
  - rewrite averageFromAggregates_assertions, omap_replicate.
    cbn [renamed agg_assertions].
    destruct (agg_assertions a) as [x|]; [|reflexivity].
    apply (mean_replicate n x).
  - destruct (averageFromAggregates_means_over_present_aux
                (replicate (S n) a) "") as (_ & _ & Hd).
    destruct Hd as [-> _]; [discriminate|].
    rewrite fmap_replicate, sumQc_replicate, length_replicate.
    cbn [renamed agg_taskDuration]. field. apply Qc_of_nat_nonzero. lia.
  - destruct (averageFromAggregates_means_over_present_aux
                (replicate (S n) a) "") as (_ & _ & Hd).
    destruct Hd as [_ ->]; [discriminate|].
    rewrite fmap_replicate, sumQc_replicate, length_replicate.
    cbn [renamed agg_totalDuration]. field. apply Qc_of_nat_nonzero. lia.
Qed.

Lemma filter_weaken {A} (P Q : A → Prop) `{!∀ x, Decision (P x)}
    `{!∀ x, Decision (Q x)} (l : list A) :
  (∀ x, P x → Q x) → filter P (filter Q l) = filter P l.
Proof.
  intros HPQ. induction l as [|x l IH]; [reflexivity|].
  rewrite (filter_cons Q). destruct (decide (Q x)) as [Hq|Hq].
  - rewrite !filter_cons. destruct (decide (P x)); rewrite IH; reflexivity.
  - rewrite filter_cons, IH. destruct (decide (P x)) as [Hp|]; [|reflexivity].
    exfalso. apply Hq, HPQ, Hp.
Qed.

Lemma filter_all {A} (P : A → Prop) `{!∀ x, Decision (P x)} (l : list A) :
  (∀ x, P x) → filter P l = l.
Proof.
  intros HP. induction l as [|x l IH]; [reflexivity|].
  rewrite filter_cons, decide_True by apply HP. rewrite IH. reflexivity.
Qed.

Lemma filter_swap {A} (P Q : A → Prop) `{!∀ x, Decision (P x)}
    `{!∀ x, Decision (Q x)} (l : list A) :
  filter P (filter Q l) = filter Q (filter P l).
Proof.
  induction l as [|x l IH]; [reflexivity|].
  rewrite (filter_cons Q), (filter_cons P).
  destruct (decide (Q x)) as [Hq|Hq], (decide (P x)) as [Hp|Hp];
    rewrite ?filter_cons, ?decide_True, ?decide_False by assumption;
    rewrite IH; reflexivity.
Qed.

Lemma firstOccurrences_filter (P : string → Prop) `{!∀ x, Decision (P x)}
    (keys : list string) :
  firstOccurrences (filter P keys) = filter P (firstOccurrences keys).
Proof.
  induction keys as [|k rest IH]; [reflexivity|].
  rewrite filter_cons. cbn [firstOccurrences].
  destruct (decide (P k)) as [Hk|Hk].
  - cbn [firstOccurrences]. rewrite IH, filter_cons, decide_True by exact Hk.
    f_equal. apply filter_swap.
  - rewrite IH, filter_cons, decide_False by exact Hk.
    symmetry. apply filter_weaken. intros x Hx ->. contradiction.
Qed.

Lemma foldl_append_new (keys acc : list string) :
  foldl (λ acc k, if decide (k ∈ acc) then acc else acc ++ [k]) acc keys
  = acc ++ firstOccurrences (filter (λ k, k ∉ acc) keys).
Proof.
  clear captureStack performance_now otel.
  revert acc. induction keys as [|k rest IH]; intros acc.
  - cbn. rewrite app_nil_r. reflexivity.
  - cbn [foldl]. rewrite filter_cons. destruct (decide (k ∈ acc)) as [Hk|Hk].
    + rewrite decide_False by (intros H; contradiction). apply IH.
    + rewrite decide_True by exact Hk. cbn [firstOccurrences].
      rewrite IH, <- app_assoc. cbn [app]. do 2 f_equal.
      rewrite <- firstOccurrences_filter. f_equal.
      rewrite list_filter_filter. apply list_filter_iff.
      intros x. rewrite elem_of_app, list_elem_of_singleton. tauto.
Qed.

Lemma keys_addRun
    (groups : list (string * (list ReportCase * list ReportCaseFailure)))
    (c : ReportCase) :
  (addRun groups c).*1
  = if decide (caseKey c ∈ groups.*1) then groups.*1
    else groups.*1 ++ [caseKey c].
Proof.
  unfold addRun, ensureGroup, Map_has. rewrite fst_Map_alter.
  case_bool_decide; [rewrite decide_True by assumption
                    |rewrite decide_False by assumption].
  - reflexivity.
  - rewrite fmap_app. reflexivity.
Qed.

Lemma keys_addFailure
    (groups : list (string * (list ReportCase * list ReportCaseFailure)))
    (f : ReportCaseFailure) :
  (addFailure groups f).*1
  = if decide (failureKey f ∈ groups.*1) then groups.*1
    else groups.*1 ++ [failureKey f].
Proof.
  unfold addFailure, ensureGroup, Map_has. rewrite fst_Map_alter.
  case_bool_decide; [rewrite decide_True by assumption
                    |rewrite decide_False by assumption].
  - reflexivity.
  - rewrite fmap_app. reflexivity.
Qed.

Lemma keys_collectGroups report :
  (collectGroups report).*1
  = firstOccurrences ((caseKey <$> rep_cases report)
                      ++ (failureKey <$> rep_failures report)).
Proof.
  clear captureStack performance_now otel.
  unfold collectGroups.
  assert (∀ cs groups,
            (foldl addRun groups cs).*1
            = foldl (λ acc k, if decide (k ∈ acc) then acc else acc ++ [k])
                    groups.*1 (caseKey <$> cs)) as Hruns.
  { induction cs as [|c cs IH]; intros groups; [reflexivity|].
    cbn [foldl fmap list_fmap]. rewrite IH, keys_addRun. reflexivity. }
  assert (∀ fs groups,
            (foldl addFailure groups fs).*1
            = foldl (λ acc k, if decide (k ∈ acc) then acc else acc ++ [k])
                    groups.*1 (failureKey <$> fs)) as Hfails.
  { induction fs as [|f fs IH]; intros groups; [reflexivity|].
    cbn [foldl fmap list_fmap]. rewrite IH, keys_addFailure. reflexivity. }
  rewrite Hfails, Hruns, <- foldl_app, foldl_append_new. cbn [app fmap list_fmap].
  f_equal. apply filter_all. intros k Hk. inversion Hk.
Qed.

Lemma omapM_Return {A B} (f : A → outcome B) (xs : list A) (ys : list B) :
  omapM f xs = Return ys → Forall2 (λ x y, f x = Return y) xs ys.
Proof.
  revert ys. induction xs as [|x xs IH]; intros ys; cbn.
  - intros [= <-]. constructor.
  - destruct (f x) as [y|e] eqn:Hx; cbn; [|discriminate].
    destruct (omapM f xs) as [ys'|e]; cbn; [|discriminate].
    intros [= <-]. constructor; [exact Hx|apply IH; reflexivity].
Qed.

(** X14. [caseGroups()] lists the groups in the order in which their
    keys first appear, going through the cases and then through the
    failures. A group shows the inputs, the metadata and the expected
    output of its first run, or those of its first failure when it has
    no run; it is never empty. *)
Theorem caseGroups_in_order_of_first_appearance (report : EvaluationReport)
    (gs : list ReportCaseGroup) :
  computeCaseGroups report = Return (Some gs) →
  grp_name <$> gs
  = firstOccurrences ((caseKey <$> rep_cases report)
                      ++ (failureKey <$> rep_failures report))
  ∧ Forall (λ g,
              match grp_runs g, grp_failures g with
              | c :: _, _ =>
                  grp_inputs g = rc_inputs c
                  ∧ grp_metadata g = rc_metadata c
                  ∧ grp_expectedOutput g = rc_expectedOutput c
              | [], f :: _ =>
                  grp_inputs g = rcf_inputs f
                  ∧ grp_metadata g = rcf_metadata f
                  ∧ grp_expectedOutput g = rcf_expectedOutput f
              | [], [] => False
              end) gs.
Proof.
  unfold computeCaseGroups. destruct (negb _); [discriminate|].
  destruct (omapM makeGroup (collectGroups report)) as [gs'|e] eqn:Hgs;
    [|discriminate].
  cbn. intros [= <-]. apply omapM_Return in Hgs.
  rewrite <- keys_collectGroups. split.
  - induction Hgs as [|[k [runs failures]] g entries gs' Hg _ IH].
    + reflexivity.
    + rewrite !fmap_cons, IH. f_equal. unfold makeGroup in Hg.
      destruct (firstOf runs failures) as [[[? ?] ?]|]; [|discriminate].
      cbn in Hg. injection Hg as <-. reflexivity.
  - induction Hgs as [|[k [runs failures]] g entries gs' Hg _ IH];
      constructor; [|exact IH].
    unfold makeGroup, firstOf in Hg.
    destruct runs as [|c runs]; [destruct failures as [|f failures]|];
      cbn in Hg; [discriminate| |]; injection Hg as <-; cbn; auto.
Qed.

(** ** Names of the records *)

Lemma chars_app (s1 s2 : string) : chars (s1 +:+ s2) = chars s1 ++ chars s2.
Proof.
  unfold chars. induction s1 as [|c s1 IH]; [reflexivity|].
  change (String c s1 +:+ s2) with (String c (s1 +:+ s2)).
  cbn [String.list_ascii_of_string app]. rewrite IH. reflexivity.
Qed.

Lemma chars_inj (s1 s2 : string) : chars s1 = chars s2 → s1 = s2.
Proof.
  unfold chars. intros H.
  rewrite <- (String.string_of_list_ascii_of_string s1), H.
  apply String.string_of_list_ascii_of_string.
Qed.

Lemma isDigit_pretty_N_char (y : N) : isDigit (pretty_N_char y) = true.
Proof.
  destruct y as [|p]; [reflexivity|].
  do 4 (try destruct p as [p|p|]); reflexivity.
Qed.

Lemma pretty_N_go_digits (x : N) (s : string) :
  Forall (λ c, isDigit c = true) (chars s) →
  Forall (λ c, isDigit c = true) (chars (pretty_N_go x s)).
Proof.
  revert s. induction (N.lt_wf_0 x) as [x _ IH]. intros s Hs.
  destruct (decide (x = 0%N)) as [->|Hx].
  - rewrite pretty_N_go_0. exact Hs.
  - rewrite pretty_N_go_step by lia. apply IH.
    + apply N.div_lt; lia.
    + constructor; [apply isDigit_pretty_N_char|exact Hs].
Qed.

Lemma pretty_nat_digits (n : nat) :
  Forall (λ c, isDigit c = true) (chars (pretty n)).
Proof.
  unfold pretty, pretty_nat, pretty, pretty_N. case_decide.
  - repeat constructor.
  - apply pretty_N_go_digits. constructor.
Qed.

Lemma digits_then_other (d1 d2 t1 t2 : list Ascii.ascii) (c : Ascii.ascii) :
  Forall (λ c, isDigit c = true) d1 →
  Forall (λ c, isDigit c = true) d2 →
  isDigit c = false →
  d1 ++ c :: t1 = d2 ++ c :: t2 → d1 = d2 ∧ t1 = t2.
Proof.
  intros H1. revert d2. induction H1 as [|x d1 Hx _ IH]; intros d2 H2 Hc Heq.
  - destruct H2 as [|y d2 Hy _]; cbn in Heq.
    + injection Heq as ->. auto.
    + injection Heq as -> _. congruence.
  - destruct H2 as [|y d2 Hy H2]; cbn in Heq.
    + injection Heq as -> _. congruence.
    + injection Heq as -> Heq. destruct (IH d2 H2 Hc Heq) as [-> ->]. auto.
Qed.

Lemma run_name_inj (name1 name2 : string) (k1 k2 : nat) (tail : string) :
  name1 +:+ " [" +:+ pretty k1 +:+ tail = name2 +:+ " [" +:+ pretty k2 +:+ tail →
  name1 = name2 ∧ k1 = k2.
Proof.
  intros Heq. apply (f_equal chars) in Heq.
  rewrite !chars_app in Heq. apply (f_equal reverse) in Heq.
  rewrite !reverse_app in Heq. rewrite <- !app_assoc in Heq.
  apply app_inv_head in Heq.
  assert (reverse (chars " [")
          = Ascii.ascii_of_nat 91 :: [Ascii.ascii_of_nat 32]) as Hsep
    by reflexivity.
  rewrite Hsep in Heq. cbn [app] in Heq.
  apply digits_then_other in Heq as [Hk Hn].
  - split.
    + apply chars_inj. apply (inj reverse). congruence.
    + apply (inj pretty), chars_inj, (inj reverse), Hk.
  - apply Forall_reverse, pretty_nat_digits.
  - apply Forall_reverse, pretty_nat_digits.
  - reflexivity.
Qed.

Lemma unit_names_distinct ds (repeat : Z) :
  NoDup (imap caseNameAt (ds_cases ds)) →
  NoDup ((λ unit : Case * string * option string, unit.1.2)
         <$> buildTasksToRun ds repeat).
Proof.
  intros Hnd. destruct (decide (1 < repeat)%Z) as [Hr|Hr].
  - apply NoDup_alt. intros p q name Hp Hq.
    rewrite list_lookup_fmap in Hp, Hq.
    destruct (buildTasksToRun ds repeat !! p) as [up|] eqn:Hup;
      [|discriminate].
    destruct (buildTasksToRun ds repeat !! q) as [uq|] eqn:Huq;
      [|discriminate].
    cbn in Hp, Hq. injection Hp as Hp. injection Hq as Hq.
    pose proof (lookup_lt_Some _ _ _ Hup) as Hlp.
    pose proof (lookup_lt_Some _ _ _ Huq) as Hlq.
    rewrite length_buildTasksToRun in Hlp, Hlq by lia.
    set (r := Z.to_nat repeat) in *.
    assert (0 < r) as Hrpos by (unfold r; lia).
    assert (p `div` r < length (ds_cases ds)) as Hi
      by (apply Nat.Div0.div_lt_upper_bound; lia).
    assert (q `div` r < length (ds_cases ds)) as Hj
      by (apply Nat.Div0.div_lt_upper_bound; lia).
    destruct (lookup_lt_is_Some_2 _ _ Hi) as [ci Hci].
    destruct (lookup_lt_is_Some_2 _ _ Hj) as [cj Hcj].
    assert (p `mod` r < r) as Hpm by (apply Nat.mod_upper_bound; lia).
    assert (q `mod` r < r) as Hqm by (apply Nat.mod_upper_bound; lia).
    pose proof (buildTasksToRun_repeated ds repeat (p `div` r) (p `mod` r) ci
                  Hr Hci Hpm) as Hp'.
    pose proof (buildTasksToRun_repeated ds repeat (q `div` r) (q `mod` r) cj
                  Hr Hcj Hqm) as Hq'.
    fold r in Hp', Hq'.
    rewrite (Nat.mul_comm _ r), <- Nat.div_mod_eq in Hp'.
    rewrite (Nat.mul_comm _ r), <- Nat.div_mod_eq in Hq'.
    rewrite Hup in Hp'. rewrite Huq in Hq'.
    injection Hp' as ->. injection Hq' as ->. cbn in Hp, Hq.
    rewrite <- Hq in Hp. apply run_name_inj in Hp as [Hname Hk].
    assert (p `div` r = q `div` r) as Hdiv.
    { apply (proj1 (NoDup_alt _) Hnd _ _ (caseNameAt (p `div` r) ci)).
      - rewrite list_lookup_imap, Hci. reflexivity.
      - rewrite list_lookup_imap, Hcj, Hname. reflexivity. }
    rewrite (Nat.div_mod_eq p r), (Nat.div_mod_eq q r). lia.
  - unfold buildTasksToRun. rewrite bool_decide_eq_false_2 by exact Hr.
    rewrite fmap_imap. exact Hnd.
Qed.

Lemma names_lefts_rights (results : list (ReportCase + ReportCaseFailure)) :
  (rc_name <$> lefts results) ++ (rcf_name <$> rights results)
  ≡ₚ unitName <$> results.
Proof.
  unfold lefts, rights.
  induction results as [|[rc|f] results IH]; [reflexivity| |].
  - cbn. constructor. exact IH.
  - cbn. cbn in IH. rewrite <- IH. symmetry. apply Permutation_middle.
Qed.

(** X15. Records are told apart by their names. When the names of the
    cases, "Case N" standing for a missing one, are all different, so
    are the names of the scheduled units whatever the repeat count, and
    so are the names of all the records of a report, cases and failures
    together. Cases that all have a name, no two the same, are such
    cases. *)
Theorem report_names_are_distinct (ds : Dataset) (task : Task)
    (opts : option EvaluateOptions) (w : World) :
  (Forall (λ c, is_Some (case_name c)) (ds_cases ds) →
   NoDup (omap case_name (ds_cases ds)) →
   NoDup (imap caseNameAt (ds_cases ds)))
  ∧ (NoDup (imap caseNameAt (ds_cases ds)) →
     (∀ repeat : Z,
        NoDup ((λ unit : Case * string * option string, unit.1.2)
               <$> buildTasksToRun ds repeat))
     ∧ ((1 ≤ default 1 (opts ≫= opt_repeat))%Z →
        ∃ report w',
          evaluate ds task opts w = (Return report, w')
          ∧ NoDup ((rc_name <$> rep_cases report)
                   ++ (rcf_name <$> rep_failures report)))).
Proof.
  split.
  - intros Hnamed Hnd.
    replace (imap caseNameAt (ds_cases ds))
      with (omap case_name (ds_cases ds)); [exact Hnd|].
    generalize 0 as start. intros start.
    assert (∀ start, imap (λ i, caseNameAt (start + i)) (ds_cases ds)
                     = omap case_name (ds_cases ds)) as H.
    { clear Hnd. induction Hnamed as [|c cases [n Hn] _ IH]; intros s;
        [reflexivity|].
      cbn [imap omap list_omap]. rewrite Hn. f_equal.
      - unfold caseNameAt. rewrite Hn. reflexivity.
      - rewrite <- (IH (S s)). apply imap_ext. intros i x _. cbn.
        f_equal. lia. }
    symmetry. apply (H 0).
  - intros Hnd. split; [intros repeat; apply unit_names_distinct, Hnd|].
    intros Hr.
    destruct (evaluate_returns ds task opts w Hr)
      as (results & report & w' & Hev & Hnames & Hc & Hf).
    exists report, w'. split; [exact Hev|].
    rewrite Hc, Hf, names_lefts_rights.
    apply Forall2_names in Hnames.
    apply (f_equal (fmap fst)) in Hnames.
    rewrite <- !list_fmap_compose in Hnames.
    change (fst ∘ (λ r, (unitName r, unitSource r))) with (@unitName TInputs TOutput TMetadata) in Hnames.
    rewrite Hnames. apply unit_names_distinct, Hnd.
Qed.

(** ** The groups partition the records *)

Lemma partition_by_key {A} (key : A → string) (l : list A)
    (keys : list string) :
  NoDup keys →
  (∀ x, x ∈ l → key x ∈ keys) →
  concat ((λ k, filter (λ x, key x = k) l) <$> keys) ≡ₚ l.
Proof.
  clear captureStack performance_now otel.
  intros Hnd. revert l. induction Hnd as [|k keys Hk _ IH]; intros l Hcover.
  - destruct l as [|x l]; [reflexivity|].
    specialize (Hcover x ltac:(left)). inversion Hcover.
  - cbn [fmap list_fmap concat].
    etransitivity; [|apply (filter_app_complement (λ x, key x = k) l)].
    apply Permutation_app; [reflexivity|].
    etransitivity; [|apply (IH (filter (λ x, ¬ key x = k) l))].
    + apply reflexive_eq. f_equal. apply list_fmap_ext. intros i k' Hk'.
      apply list_elem_of_lookup_2 in Hk'. symmetry. apply filter_weaken.
      intros x <- Heq. apply Hk. rewrite <- Heq. exact Hk'.
    + intros x Hx. apply list_elem_of_filter in Hx as [Hne Hx].
      specialize (Hcover x Hx). apply elem_of_cons in Hcover as [Heq|Hin];
        [contradiction|exact Hin].
Qed.

Lemma groups_partition report gs :
  computeCaseGroups report = Return (Some gs) →
  concat (grp_runs <$> gs) ≡ₚ rep_cases report
  ∧ concat (grp_failures <$> gs) ≡ₚ rep_failures report.
Proof.
  intros Hgs.
  destruct (computeCaseGroups_groups report) as [Hnone|(gs' & Hsome & Hall)];
    [congruence|].
  assert (gs' = gs) by congruence. subst gs'.
  pose proof (collectGroups_grouped report) as Hgrouped.
  assert (Hruns : grp_runs <$> gs
                  = (λ k, filter (λ c, caseKey c = k) (rep_cases report))
                    <$> (collectGroups report).*1).
  { rewrite <- list_fmap_compose. apply list_eq. intros i.
    rewrite !list_lookup_fmap.
    destruct (collectGroups report !! i) as [[k [runs failures]]|] eqn:Hi.
    - destruct (Forall2_lookup_l _ _ _ _ _ Hall Hi) as (g & Hg & _ & Hr & _).
      rewrite Hg. cbn. f_equal. rewrite Hr. cbn.
      apply list_elem_of_lookup_2 in Hi.
      destruct (grouped_entry _ _ _ _ _ _ Hgrouped Hi) as (Hruns & _).
      exact Hruns.
    - destruct (gs !! i) as [g|] eqn:Hg; [|reflexivity].
      destruct (Forall2_lookup_r _ _ _ _ _ Hall Hg) as (e & He & _).
      congruence. }
  assert (Hfailures :
            grp_failures <$> gs
            = (λ k, filter (λ f, failureKey f = k) (rep_failures report))
              <$> (collectGroups report).*1).
  { rewrite <- list_fmap_compose. apply list_eq. intros i.
    rewrite !list_lookup_fmap.
    destruct (collectGroups report !! i) as [[k [runs failures]]|] eqn:Hi.
    - destruct (Forall2_lookup_l _ _ _ _ _ Hall Hi)
        as (g & Hg & _ & _ & Hf & _).
      rewrite Hg. cbn. f_equal. rewrite Hf. cbn.
      apply list_elem_of_lookup_2 in Hi.
      destruct (grouped_entry _ _ _ _ _ _ Hgrouped Hi) as (_ & Hfails & _).
      exact Hfails.
    - destruct (gs !! i) as [g|] eqn:Hg; [|reflexivity].
      destruct (Forall2_lookup_r _ _ _ _ _ Hall Hg) as (e & He & _).
      congruence. }
  rewrite Hruns, Hfailures. destruct Hgrouped as [Hnd Hlook] eqn:Hsame.
  split; apply partition_by_key; try exact Hnd.
  - intros c Hc. apply (grouped_keys _ _ _ _ (conj Hnd Hlook)). left.
    apply list_elem_of_fmap. exists c. split; [reflexivity|exact Hc].
  - intros f Hf. apply (grouped_keys _ _ _ _ (conj Hnd Hlook)). right.
    apply list_elem_of_fmap. exists f. split; [reflexivity|exact Hf].
Qed.

(** X24. When there are groups they partition the records: the runs of
    all the groups together are the cases of the report, each once, and
    the failures of all the groups are its failures; within a group the
    records keep their order. No record is lost and none is counted
    twice. *)
Theorem caseGroups_partition_the_records (report : EvaluationReport)
    (gs : list ReportCaseGroup) :
  computeCaseGroups report = Return (Some gs) →
  concat (grp_runs <$> gs) ≡ₚ rep_cases report
  ∧ concat (grp_failures <$> gs) ≡ₚ rep_failures report
  ∧ sum_list (length ∘ grp_runs <$> gs) = length (rep_cases report)
  ∧ sum_list (length ∘ grp_failures <$> gs) = length (rep_failures report)
  ∧ Forall (λ g, sublist (grp_runs g) (rep_cases report)
                 ∧ sublist (grp_failures g) (rep_failures report)) gs.
Proof.
  intros Hgs. destruct (groups_partition report gs Hgs) as [Hruns Hfailures].
  assert (Hlength : ∀ {A} (ls : list (list A)),
            sum_list (length <$> ls) = length (concat ls)).
  { intros A ls. induction ls as [|l ls IH]; [reflexivity|].
    cbn. rewrite length_app, IH. reflexivity. }
  split; [exact Hruns|]. split; [exact Hfailures|].
  split; [|split].
  - rewrite list_fmap_compose, Hlength, Hruns. reflexivity.
  - rewrite list_fmap_compose, Hlength, Hfailures. reflexivity.
  - destruct (computeCaseGroups_groups report)
      as [Hnone|(gs' & Hsome & Hall)]; [congruence|].
    assert (gs' = gs) by congruence. subst gs'.
    pose proof (collectGroups_grouped report) as Hgrouped.
    apply Forall_forall. intros g Hg.
    apply list_elem_of_lookup_1 in Hg as [i Hg].
    destruct (Forall2_lookup_r _ _ _ _ _ Hall Hg)
      as ([k [runs failures]] & He & _ & Hr & Hf & _).
    apply list_elem_of_lookup_2 in He.
    destruct (grouped_entry _ _ _ _ _ _ Hgrouped He) as (-> & -> & _).
    cbn in Hr, Hf. rewrite Hr, Hf. split; apply sublist_filter.
Qed.


End Properties.

(* ================================================================== *)
(** * Properties of evaluator specs and of the report evaluators *)

(** ** Maps in insertion order, first occurrences *)

Lemma Map_get_app {V} key (m1 m2 : list (string * V)) :
  Map_get key (m1 ++ m2)
  = match Map_get key m1 with
    | Some v => Some v
    | None => Map_get key m2
    end.
Proof.
  unfold Map_get. induction m1 as [|[k v] m1 IH]; [reflexivity|].
  cbn. destruct (String.eqb k key); [reflexivity|exact IH].
Qed.

Lemma Map_get_None {V} key (m : list (string * V)) :
  Map_get key m = None ↔ key ∉ m.*1.
Proof.
  unfold Map_get. induction m as [|[k v] m IH].
  - cbn. split; [intros _ H; inversion H|reflexivity].
  - cbn. rewrite not_elem_of_cons.
    destruct (String.eqb k key) eqn:Hk.
    + apply String.eqb_eq in Hk. cbn. split; [discriminate|].
      intros [Hne _]. congruence.
    + apply String.eqb_neq in Hk. rewrite IH. split; [auto|].
      intros [_ H]. exact H.
Qed.

Lemma filter_Forall {A} (P : A → Prop) `{!∀ x, Decision (P x)} (l : list A) :
  Forall P l → filter P l = l.
Proof.
  induction 1 as [|x l Hx _ IH]; [reflexivity|].
  rewrite filter_cons, decide_True by exact Hx. rewrite IH. reflexivity.
Qed.

Lemma firstOccurrences_NoDup (keys : list string) :
  NoDup keys → firstOccurrences keys = keys.
Proof.
  induction 1 as [|k keys Hk _ IH]; [reflexivity|].
  cbn [firstOccurrences]. rewrite IH. f_equal. apply filter_Forall.
  apply Forall_forall. intros x Hx ->. contradiction.
Qed.

Lemma NoDup_firstOccurrences (keys : list string) :
  NoDup (firstOccurrences keys).
Proof.
  induction keys as [|k keys IH]; [constructor|].
  cbn [firstOccurrences]. constructor.
  - rewrite list_elem_of_filter. intros [Hne _]. congruence.
  - apply NoDup_filter, IH.
Qed.

Lemma firstOccurrences_app (keys more : list string) :
  firstOccurrences (keys ++ more)
  = firstOccurrences keys
    ++ firstOccurrences (filter (λ k, k ∉ keys) more).
Proof.
  induction keys as [|k keys IH].
  - cbn. rewrite filter_all; [reflexivity|]. intros x Hx. inversion Hx.
  - cbn [app firstOccurrences]. rewrite IH, filter_app. cbn [app].
    do 2 f_equal. rewrite <- firstOccurrences_filter. f_equal.
    rewrite list_filter_filter. apply list_filter_iff.
    intros x. rewrite not_elem_of_cons. reflexivity.
Qed.

Section SerializationProperties.

Import Serialization.

Variable JSON_stringify : Value -> string.
Variable captureStack : string -> option string.

Local Abbreviation deserializeEvaluatorSpec :=
  (deserializeEvaluatorSpec JSON_stringify captureStack).

Lemma getProp_single name (v : Value) : getProp [(name, v)] name = v.
Proof. cbn. rewrite String.eqb_refl. reflexivity. Qed.

Lemma isPlainObject_object props : isPlainObject (VObj props) = true.
Proof.
  unfold isPlainObject. induction props.*1 as [|k ks IH]; [reflexivity|].
  exact IH.
Qed.

(** X16. Writing a spec in its short form and reading it back gives the
    same name and the same arguments, but for a single positional
    argument that is [undefined] or [null], which is read back as no
    argument, and one that is an object, which is read back as keyword
    arguments. So the round trip is the identity exactly on the other
    specs. *)
Theorem spec_short_form_round_trip (spec : EvaluatorSpec) :
  deserializeEvaluatorSpec (serializeEvaluatorSpec spec None)
  = Return {| spec_name := spec_name spec;
              spec_arguments :=
                match spec_arguments spec with
                | ArgsTuple VUndefined | ArgsTuple VNull => ArgsNull
                | ArgsTuple (VObj kwargs) => ArgsRecord kwargs
                | arguments => arguments
                end |}
  ∧ (deserializeEvaluatorSpec (serializeEvaluatorSpec spec None) = Return spec
     ↔ match spec_arguments spec with
       | ArgsTuple VUndefined | ArgsTuple VNull | ArgsTuple (VObj _) => False
       | _ => True
       end)
  ∧ serializeEvaluatorSpec spec (Some false)
    = VObj [("name", VStr (spec_name spec));
            ("arguments",
             match spec_arguments spec with
             | ArgsNull => VNull
             | ArgsTuple v => VArr [v]
             | ArgsRecord kwargs => VObj kwargs
             end)].
Proof.
  assert (deserializeEvaluatorSpec (serializeEvaluatorSpec spec None)
          = Return {| spec_name := spec_name spec;
                      spec_arguments :=
                        match spec_arguments spec with
                        | ArgsTuple VUndefined | ArgsTuple VNull => ArgsNull
                        | ArgsTuple (VObj kwargs) => ArgsRecord kwargs
                        | arguments => arguments
                        end |}) as Hrt.
  { destruct spec as [name [|v|kwargs]]; unfold serializeEvaluatorSpec;
      cbn [default negb spec_arguments spec_name].
    - reflexivity.
    - unfold Serialization.deserializeEvaluatorSpec.
      cbn [fmap list_fmap fst]. rewrite getProp_single.
      destruct v; try reflexivity. rewrite isPlainObject_object. reflexivity.
    - unfold Serialization.deserializeEvaluatorSpec.
      cbn [fmap list_fmap fst]. rewrite getProp_single, isPlainObject_object.
      reflexivity. }
  split; [exact Hrt|]. split; [|reflexivity].
  rewrite Hrt. destruct spec as [name [|[]|kwargs]]; cbn;
    split; try tauto; try discriminate; try reflexivity; intros _; reflexivity.
Qed.

(** X17. [deserializeEvaluatorSpec] accepts a string and an object with
    exactly one key, and nothing else; what it refuses it refuses with
    an [Error]. Writing the spec it read in short form gives the value
    back, except that [{Name: null}] and [{Name: undefined}] come back
    as the string [Name]. *)
Theorem deserialize_accepts_the_short_forms (value : Value) :
  ((∃ spec, deserializeEvaluatorSpec value = Return spec)
   ↔ (∃ s, value = VStr s) ∨ (∃ name raw, value = VObj [(name, raw)]))
  ∧ (∀ spec, deserializeEvaluatorSpec value = Return spec →
       serializeEvaluatorSpec spec None
       = match value with
         | VObj [(name, VUndefined)] | VObj [(name, VNull)] => VStr name
         | _ => value
         end)
  ∧ (∀ e, deserializeEvaluatorSpec value = Throw e →
       ∃ message, e = ThrownError "Error" message (captureStack message)).
Proof.
  split; [|split].
  - split.
    + intros [spec Hspec]. destruct value as [| | | | | s |items|props];
        try discriminate; [left; eauto|right].
      destruct props as [|[name raw] [|? ?]]; try discriminate. eauto.
    + intros [[s ->]|(name & raw & ->)]; [eexists; reflexivity|].
      unfold Serialization.deserializeEvaluatorSpec.
      cbn [fmap list_fmap fst]. rewrite getProp_single.
      destruct raw; try (eexists; reflexivity).
      rewrite isPlainObject_object. eexists; reflexivity.
  - intros spec. destruct value as [| | | | | s |items|props]; try discriminate.
    + intros [= <-]. reflexivity.
    + destruct props as [|[name raw] [|? ?]]; try discriminate.
      unfold Serialization.deserializeEvaluatorSpec.
      cbn [fmap list_fmap fst]. rewrite getProp_single.
      destruct raw; try (intros [= <-]; reflexivity).
      rewrite isPlainObject_object. intros [= <-]. reflexivity.
  - intros e. destruct value as [| | | | | s |items|props];
      try (intros [= <-]; eexists; reflexivity).
    destruct props as [|[name raw] [|? ?]];
      try (intros [= <-]; eexists; reflexivity).
    unfold Serialization.deserializeEvaluatorSpec.
    cbn [fmap list_fmap fst]. rewrite getProp_single.
    destruct raw; try discriminate.
    rewrite isPlainObject_object. discriminate.
Qed.

Lemma Value_nested_ind (P : Value → Prop) :
  P VUndefined → P VNull → (∀ b, P (VBool b)) → (∀ x, P (VNum x)) →
  P VNaN → (∀ s, P (VStr s)) →
  (∀ items, Forall P items → P (VArr items)) →
  (∀ props, Forall (λ kv, P kv.2) props → P (VObj props)) →
  ∀ v, P v.
Proof.
  intros Hu Hn Hb Hx Hnan Hs Ha Ho.
  fix IH 1. intros [| | b | x | | s | items | props].
  - exact Hu.
  - exact Hn.
  - apply Hb.
  - apply Hx.
  - exact Hnan.
  - apply Hs.
  - apply Ha. induction items as [|item items IHitems]; constructor.
    + apply IH.
    + exact IHitems.
  - apply Ho. induction props as [|[k x] props IHprops]; constructor.
    + apply IH.
    + exact IHprops.
Qed.

Lemma strictEquals_eq (a b : Value) : strictEquals a b = true → a = b.
Proof.
  destruct a, b; cbn; try discriminate; try reflexivity;
    intros H%bool_decide_eq_true; congruence.
Qed.

Lemma getProp_NoDup (before after : list (string * Value)) key x :
  key ∉ before.*1 → getProp (before ++ (key, x) :: after) key = x.
Proof.
  induction before as [|[k y] before IH]; intros Hout; cbn.
  - rewrite String.eqb_refl. reflexivity.
  - rewrite fmap_cons, not_elem_of_cons in Hout. destruct Hout as [Hne Hout].
    cbn in Hne. destruct (String.eqb_spec k key) as [->|_]; [contradiction|].
    apply IH, Hout.
Qed.

Lemma deepEqual_refl (a : Value) :
  wellFormed a → nanFree a → deepEqual a a = true.
Proof.
  induction a as [| | b | x | | s | items IH | props IH] using Value_nested_ind;
    intros Hwf Hnan; try reflexivity.
  - cbn. rewrite bool_decide_eq_true_2; reflexivity.
  - cbn. rewrite bool_decide_eq_true_2; reflexivity.
  - destruct Hnan.
  - cbn. rewrite bool_decide_eq_true_2; reflexivity.
  - cbn [deepEqual strictEquals].
    rewrite bool_decide_eq_true_2 by reflexivity. cbn [negb].
    enough (∀ before rest,
              items = before ++ rest →
              (fix every (xs : list Value) (i : nat) {struct xs} : bool :=
                 match xs with
                 | [] => true
                 | val :: rest =>
                     deepEqual val (default VUndefined (items !! i))
                     && every rest (S i)
                 end) rest (length before) = true) as H
      by apply (H [] items eq_refl).
    intros before rest. revert before.
    induction rest as [|val rest IHrest]; intros before Hitems; [reflexivity|].
    assert (items !! length before = Some val) as ->.
    { rewrite Hitems. apply list_lookup_middle. reflexivity. }
    cbn [default]. apply andb_true_iff. split.
    + rewrite Forall_forall in IH. apply IH.
      * rewrite Hitems. apply elem_of_app. right. left.
      * clear -Hwf Hitems. subst items. cbn in Hwf.
        induction before as [|b before IHb]; cbn in Hwf; [tauto|].
        apply IHb. tauto.
      * clear -Hnan Hitems. subst items. cbn in Hnan.
        induction before as [|b before IHb]; cbn in Hnan; [tauto|].
        apply IHb. tauto.
    + specialize (IHrest (before ++ [val])).
      rewrite length_app in IHrest. cbn [length] in IHrest.
      rewrite Nat.add_1_r in IHrest. apply IHrest.
      rewrite <- app_assoc. exact Hitems.
  - cbn [deepEqual strictEquals].
    rewrite bool_decide_eq_true_2 by reflexivity. cbn [negb].
    destruct Hwf as [Hnd Hwf].
    enough (∀ before rest,
              props = before ++ rest →
              (fix every (entries : list (string * Value)) {struct entries}
                 : bool :=
                 match entries with
                 | [] => true
                 | (key, val) :: rest =>
                     deepEqual val (getProp props key) && every rest
                 end) rest = true) as H
      by apply (H [] props eq_refl).
    intros before rest. revert before.
    induction rest as [|[key val] rest IHrest]; intros before Hprops;
      [reflexivity|].
    assert (getProp props key = val) as ->.
    { rewrite Hprops. apply getProp_NoDup. rewrite Hprops in Hnd.
      rewrite fmap_app, fmap_cons in Hnd.
      apply NoDup_app in Hnd as (_ & Hsep & _). intros Hin.
      apply (Hsep _ Hin). left. }
    apply andb_true_iff. split.
    + rewrite Forall_forall in IH. apply (IH (key, val)).
      * rewrite Hprops. apply elem_of_app. right. left.
      * clear -Hwf Hprops. subst props.
        induction before as [|[k b] before IHb]; cbn in Hwf; [tauto|].
        apply IHb. tauto.
      * clear -Hnan Hprops. subst props. cbn in Hnan.
        induction before as [|[k b] before IHb]; cbn in Hnan; [tauto|].
        apply IHb. tauto.
    + apply (IHrest (before ++ [(key, val)])).
      rewrite <- app_assoc. exact Hprops.
Qed.

Lemma objectFree_wellFormed (a : Value) : objectFree a → wellFormed a.
Proof.
  clear JSON_stringify captureStack.
  induction a as [| | b | x | | s | items IH | props IH] using Value_nested_ind;
    cbn; try tauto.
  induction IH as [|item items Hitem _ IHitems]; [tauto|].
  intros [H1 H2]. split; [apply Hitem, H1|apply IHitems, H2].
Qed.

Lemma deepEqual_exact (a b : Value) :
  objectFree a → deepEqual a b = true → a = b.
Proof.
  revert b.
  induction a as [| | c | x | | s | items IH | props IH] using Value_nested_ind;
    intros b Hfree Heq.
  - destruct b; cbn in Heq; try discriminate; reflexivity.
  - destruct b; cbn in Heq; try discriminate; reflexivity.
  - destruct b; cbn in Heq; try discriminate.
    case_bool_decide; [congruence|discriminate].
  - destruct b; cbn in Heq; try discriminate.
    case_bool_decide; [congruence|discriminate].
  - destruct b; cbn in Heq; discriminate.
  - destruct b; cbn in Heq; try discriminate.
    case_bool_decide; [congruence|discriminate].
  - destruct b as [| | | | | |ys|]; try discriminate.
    cbn [deepEqual strictEquals] in Heq.
    destruct (decide (length items = length ys)) as [Hlen|Hlen];
      [rewrite bool_decide_eq_true_2 in Heq by exact Hlen
      |rewrite bool_decide_eq_false_2 in Heq by exact Hlen; discriminate].
    cbn [negb] in Heq. f_equal.
    enough (∀ rest i,
              Forall (λ item, ∀ b, objectFree item →
                                   deepEqual item b = true → item = b) rest →
              (fix all (items : list Value) : Prop :=
                 match items with
                 | [] => True
                 | item :: rest => objectFree item ∧ all rest
                 end) rest →
              (fix every (xs : list Value) (i : nat) {struct xs} : bool :=
                 match xs with
                 | [] => true
                 | val :: rest =>
                     deepEqual val (default VUndefined (ys !! i))
                     && every rest (S i)
                 end) rest i = true →
              length rest + i = length ys →
              rest = drop i ys) as H.
    { rewrite (H items 0 IH Hfree Heq); [apply drop_0|lia]. }
    clear. induction rest as [|val rest IHrest]; intros i HP Hfree Hevery Hlen.
    + cbn in Hlen. subst i. rewrite drop_all. reflexivity.
    + apply andb_true_iff in Hevery as [Hval Hrest].
      apply Forall_cons in HP as [HPval HP]. destruct Hfree as [Hfval Hfree].
      cbn [length] in Hlen.
      destruct (ys !! i) as [y|] eqn:Hy;
        [|apply lookup_ge_None in Hy; lia].
      change (default VUndefined (Some y)) with y in Hval.
      apply HPval in Hval; [|exact Hfval]. rewrite <- Hval in Hy. rewrite (drop_S _ _ _ Hy). f_equal.
      apply IHrest; [exact HP|exact Hfree|exact Hrest|lia].
  - destruct Hfree.
Qed.

(** X18. [deepEqual] holds between a value that contains no [NaN] and
    itself, and it does not hold between [NaN] and [NaN]. Between a
    value that contains no object and no [NaN] (a primitive, or an array
    of such values) and any other value it holds exactly when the two
    are the same. Between objects it is not an equality: it holds
    between [{x: undefined}] and [{y: 1}] and not the other way round. *)
Theorem deepEqual_compares_structure (a : Value) :
  (wellFormed a → nanFree a → deepEqual a a = true)
  ∧ deepEqual VNaN VNaN = false
  ∧ (objectFree a → nanFree a → ∀ b, deepEqual a b = true ↔ a = b)
  ∧ deepEqual (VObj [("x", VUndefined)]) (VObj [("y", VNum 1)]) = true
  ∧ deepEqual (VObj [("y", VNum 1)]) (VObj [("x", VUndefined)]) = false.
Proof.
  split; [apply deepEqual_refl|]. split; [reflexivity|].
  split; [|split; reflexivity].
  intros Hfree Hnan b. split; [apply deepEqual_exact, Hfree|].
  intros <-.
  apply deepEqual_refl; [apply objectFree_wellFormed, Hfree|exact Hnan].
Qed.

Lemma hasProp_elem_of (props : list (string * Value)) key :
  hasProp props key = true ↔ key ∈ props.*1.
Proof.
  unfold hasProp. induction props as [|[k x] props IH]; cbn.
  - split; [discriminate|]. intros H. inversion H.
  - rewrite orb_true_iff, IH, elem_of_cons.
    destruct (String.eqb_spec k key) as [->|Hne]; split; auto.
    + intros [?|?]; [discriminate|auto].
    + intros [->|?]; [contradiction|auto].
Qed.

(** X19. For an evaluator whose fields have ordinary names, [asSpec()]
    keeps the name of the class. There is no argument when every field
    is left out; there is a single positional argument when the only
    field kept is the first field; in every other case the arguments
    are the fields kept, by name. A field without a default is always
    kept, and a field whose value is its default and contains no [NaN]
    is left out, whereas a field and a default that are both [NaN] is
    kept. *)
Theorem asSpec_keeps_what_differs_from_default (this : BaseEvaluator) :
  Forall ordinary (getFields this).*1 →
  spec_name (asSpec this) = getSerializationName this
  ∧ match spec_arguments (asSpec this) with
    | ArgsNull => buildSerializationArguments this = []
    | ArgsTuple v =>
        ∃ first others,
          (getFields this).*1 = first :: others
          ∧ buildSerializationArguments this = [(first, v)]
    | ArgsRecord kwargs =>
        buildSerializationArguments this = kwargs
        ∧ kwargs ≠ []
        ∧ ∀ first others v,
            (getFields this).*1 = first :: others → kwargs ≠ [(first, v)]
    end
  ∧ (∀ key value,
       (key, value) ∈ getFields this →
       key ∉ (getDefaults this).*1 →
       (key, value) ∈ buildSerializationArguments this)
  ∧ (∀ key value,
       (key, value) ∈ getFields this →
       key ∈ (getDefaults this).*1 →
       wellFormed value →
       nanFree value →
       getProp (getDefaults this) key = value →
       (key, value) ∉ buildSerializationArguments this)
  ∧ (∀ key,
       (key, VNaN) ∈ getFields this →
       getProp (getDefaults this) key = VNaN →
       (key, VNaN) ∈ buildSerializationArguments this).
Proof.
  intros _.
  assert (buildSerializationArguments this
          = filter (λ field,
                      ¬ (field.1 ∈ (getDefaults this).*1
                         ∧ deepEqual field.2
                             (getProp (getDefaults this) field.1) = true))
                   (getFields this)) as Hbuild.
  { unfold buildSerializationArguments.
    induction (getFields this) as [|[key value] fields IH]; [reflexivity|].
    cbn [List.filter]. rewrite filter_cons, IH. cbn [fst snd].
    destruct (hasProp (getDefaults this) key) eqn:Hhas;
      destruct (deepEqual value (getProp (getDefaults this) key)) eqn:Heq;
      cbn [andb negb].
    - rewrite decide_False; [reflexivity|]. intros H. apply H.
      split; [apply hasProp_elem_of, Hhas|reflexivity].
    - rewrite decide_True; [reflexivity|]. intros [_ ?]. discriminate.
    - rewrite decide_True; [reflexivity|]. intros [Hin _].
      apply hasProp_elem_of in Hin. congruence.
    - rewrite decide_True; [reflexivity|]. intros [_ ?]. discriminate. }
  split; [|split; [|split; [|split]]].
  - unfold asSpec. destruct (buildSerializationArguments this) as [|[k v] [|]];
      try reflexivity.
    destruct ((getFields this).*1); [reflexivity|].
    destruct (String.eqb k s); reflexivity.
  - unfold asSpec.
    destruct (buildSerializationArguments this) as [|[k v] [|kv rest]] eqn:Hb.
    + reflexivity.
    + destruct ((getFields this).*1) as [|first others] eqn:Hf.
      * cbn. split; [reflexivity|]. split; [discriminate|]. intros. discriminate.
      * destruct (String.eqb_spec k first) as [->|Hne]; cbn.
        -- exists first, others. split; reflexivity.
        -- split; [reflexivity|]. split; [discriminate|].
           intros first' others' v' [= <- _] [= ? _]. contradiction.
    + cbn. split; [reflexivity|]. split; [discriminate|]. intros. discriminate.
  - intros key value Hin Hout. rewrite Hbuild. apply list_elem_of_filter.
    split; [|exact Hin]. cbn. intros [? _]. contradiction.
  - intros key value Hin Hdef Hwf Hnan Hval. rewrite Hbuild.
    rewrite list_elem_of_filter. intros [Hkeep _]. apply Hkeep. cbn.
    split; [exact Hdef|]. rewrite Hval. apply deepEqual_refl; assumption.
  - intros key Hin Hval. rewrite Hbuild. apply list_elem_of_filter.
    split; [|exact Hin]. cbn. rewrite Hval. intros [_ ?]. discriminate.
Qed.

End SerializationProperties.

(** ** The registry of evaluator classes *)

Section RegistryProperties.

Import Serialization.

Context {Instance : Type}.
Variable JSON_stringify : Value -> string.
Variable captureStack : string -> option string.

Local Abbreviation EvaluatorClass := (EvaluatorClass Instance).
Local Abbreviation buildRegistry := (buildRegistry captureStack).
Local Abbreviation addCustomTypes := (addCustomTypes captureStack).
Local Abbreviation loadEvaluatorFromRegistry :=
  (loadEvaluatorFromRegistry captureStack).
Local Abbreviation deserializeEvaluatorSpec :=
  (deserializeEvaluatorSpec JSON_stringify captureStack).

Implicit Types (cls : EvaluatorClass) (registry : list (string * EvaluatorClass))
  (customTypes defaults classes : list EvaluatorClass).

Lemma Map_get_classes name classes :
  Map_get name ((λ cls, (cls_getSerializationName cls, cls)) <$> classes)
  = head (filter (λ cls, cls_getSerializationName cls = name) classes).
Proof.
  unfold Map_get. induction classes as [|cls classes IH]; [reflexivity|].
  rewrite filter_cons. cbn [fmap list_fmap List.find fst].
  destruct (String.eqb (cls_getSerializationName cls) name) eqn:Hk.
  - apply String.eqb_eq in Hk. rewrite decide_True by exact Hk. reflexivity.
  - apply String.eqb_neq in Hk. rewrite decide_False by exact Hk. exact IH.
Qed.

Lemma addCustomTypes_spec customTypes registry :
  match addCustomTypes registry customTypes with
  | Return registry' =>
      NoDup (classNames customTypes)
      ∧ (∀ name, name ∈ classNames customTypes → name ∉ registry.*1)
      ∧ registry'
        = registry
          ++ ((λ cls, (cls_getSerializationName cls, cls)) <$> customTypes)
  | Throw e =>
      ∃ before cls after,
        customTypes = before ++ cls :: after
        ∧ NoDup (classNames before)
        ∧ (∀ name, name ∈ classNames before → name ∉ registry.*1)
        ∧ (cls_getSerializationName cls ∈ registry.*1
           ∨ cls_getSerializationName cls ∈ classNames before)
        ∧ e = ThrownError "Error"
                ("Duplicate evaluator class name: '"
                 +:+ cls_getSerializationName cls +:+ "'")
                (captureStack
                   ("Duplicate evaluator class name: '"
                    +:+ cls_getSerializationName cls +:+ "'"))
  end.
Proof.
  revert registry.
  induction customTypes as [|cls rest IH]; intros registry.
  - cbn. split; [constructor|]. split; [intros name H; inversion H|].
    rewrite app_nil_r. reflexivity.
  - cbn [Serialization.addCustomTypes]. unfold Map_has at 1.
    case_bool_decide as Hin.
    + exists [], cls, rest. cbn. split; [reflexivity|].
      split; [constructor|]. split; [intros name H; inversion H|].
      split; [left; exact Hin|reflexivity].
    + unfold Map_set, Map_has. rewrite bool_decide_eq_false_2 by exact Hin.
      specialize (IH (registry ++ [(cls_getSerializationName cls, cls)])).
      destruct (Serialization.addCustomTypes captureStack
                  (registry ++ [(cls_getSerializationName cls, cls)]) rest)
        as [registry'|e].
      * destruct IH as (Hnd & Hfresh & ->). unfold classNames.
        cbn [fmap list_fmap]. split; [|split].
        -- constructor; [|exact Hnd]. intros Hcls.
           apply (Hfresh _ Hcls). rewrite fmap_app. cbn.
           apply elem_of_app. right. left.
        -- intros name Hname. apply elem_of_cons in Hname as [->|Hname];
             [exact Hin|].
           intros Hreg. apply (Hfresh _ Hname). rewrite fmap_app.
           apply elem_of_app. left. exact Hreg.
        -- rewrite <- app_assoc. reflexivity.
      * destruct IH as (before & dup & after & -> & Hnd & Hfresh & Hdup & ->).
        exists (cls :: before), dup, after. split; [reflexivity|].
        unfold classNames. cbn [fmap list_fmap]. split; [|split; [|split]].
        -- constructor; [|exact Hnd]. intros Hcls.
           apply (Hfresh _ Hcls). rewrite fmap_app. cbn.
           apply elem_of_app. right. left.
        -- intros name Hname. apply elem_of_cons in Hname as [->|Hname];
             [exact Hin|].
           intros Hreg. apply (Hfresh _ Hname). rewrite fmap_app.
           apply elem_of_app. left. exact Hreg.
        -- rewrite fmap_app in Hdup. cbn in Hdup.
           destruct Hdup as [Hdup|Hdup].
           ++ apply elem_of_app in Hdup as [Hdup|Hdup]; [left; exact Hdup|].
              right. apply list_elem_of_singleton in Hdup. rewrite Hdup. left.
           ++ right. right. exact Hdup.
        -- reflexivity.
Qed.

Lemma addDefaults_spec defaults registry :
  (addDefaults registry defaults).*1
  = registry.*1
    ++ firstOccurrences (filter (λ k, k ∉ registry.*1) (classNames defaults))
  ∧ ∀ name,
      Map_get name (addDefaults registry defaults)
      = match Map_get name registry with
        | Some cls => Some cls
        | None =>
            head (filter (λ cls, cls_getSerializationName cls = name)
                         defaults)
        end.
Proof.
  clear JSON_stringify captureStack.
  revert registry. induction defaults as [|cls rest IH]; intros registry.
  - unfold addDefaults, classNames. cbn [foldl fmap list_fmap].
    rewrite filter_nil. cbn [firstOccurrences]. rewrite app_nil_r.
    split; [reflexivity|]. intros name.
    destruct (Map_get name registry); reflexivity.
  - assert (Hstep : addDefaults registry (cls :: rest)
                    = addDefaults
                        (if negb (Map_has (cls_getSerializationName cls)
                                          registry)
                         then Map_set (cls_getSerializationName cls) cls
                                      registry
                         else registry) rest) by reflexivity.
    rewrite Hstep. clear Hstep. unfold classNames. cbn [fmap list_fmap]. rewrite filter_cons.
    destruct (Map_has (cls_getSerializationName cls) registry) eqn:Hhas;
      [apply bool_decide_eq_true in Hhas as Hin
      |apply bool_decide_eq_false in Hhas as Hin]; cbn [negb].
    + rewrite decide_False by (intros H; contradiction).
      destruct (IH registry) as [Hkeys Hget]. split; [exact Hkeys|].
      intros name. rewrite Hget.
      destruct (Map_get name registry) as [found|] eqn:Hfound; [reflexivity|].
      rewrite filter_cons, decide_False; [reflexivity|].
      intros <-. apply Map_get_None in Hfound. contradiction.
    + rewrite decide_True by exact Hin.
      unfold Map_set. rewrite Hhas.
      destruct (IH (registry ++ [(cls_getSerializationName cls, cls)]))
        as [Hkeys Hget].
      split.
      * rewrite Hkeys, fmap_app, <- app_assoc. cbn [fmap list_fmap app fst].
        cbn [firstOccurrences]. do 2 f_equal.
        rewrite <- firstOccurrences_filter. f_equal.
        rewrite list_filter_filter. apply list_filter_iff.
        intros x. rewrite elem_of_app, list_elem_of_singleton. tauto.
      * intros name. rewrite Hget, Map_get_app.
        destruct (Map_get name registry) as [found|]; [reflexivity|].
        rewrite filter_cons. unfold Map_get. cbn.
        destruct (String.eqb (cls_getSerializationName cls) name) eqn:Hk.
        -- apply String.eqb_eq in Hk. rewrite decide_True by exact Hk.
           reflexivity.
        -- apply String.eqb_neq in Hk. rewrite decide_False by exact Hk.
           reflexivity.
Qed.

(** X20. [buildRegistry] refuses two custom classes of the same name and
    nothing else. The registry it returns holds every name once, in the
    order of first appearance among the custom classes followed by the
    defaults, and a name stands for the first class of that name in that
    order: a custom class replaces the default of its name. *)
Theorem buildRegistry_custom_classes_first
    (customTypes defaults : list EvaluatorClass) :
  (NoDup (classNames customTypes) →
   ∃ registry,
     buildRegistry customTypes defaults = Return registry
     ∧ registry.*1 = firstOccurrences (classNames (customTypes ++ defaults))
     ∧ NoDup registry.*1
     ∧ ∀ name,
         Map_get name registry
         = head (filter (λ cls, cls_getSerializationName cls = name)
                        (customTypes ++ defaults)))
  ∧ (¬ NoDup (classNames customTypes) →
     ∃ before cls after,
       customTypes = before ++ cls :: after
       ∧ NoDup (classNames before)
       ∧ cls_getSerializationName cls ∈ classNames before
       ∧ buildRegistry customTypes defaults
         = Throw (ThrownError "Error"
                    ("Duplicate evaluator class name: '"
                     +:+ cls_getSerializationName cls +:+ "'")
                    (captureStack
                       ("Duplicate evaluator class name: '"
                        +:+ cls_getSerializationName cls +:+ "'")))).
Proof.
  pose proof (addCustomTypes_spec customTypes []) as Hcustom.
  unfold Serialization.buildRegistry.
  destruct (Serialization.addCustomTypes captureStack [] customTypes)
    as [registry|e].
  - destruct Hcustom as (Hnd & _ & ->). cbn [app obind].
    split; [|intros Hdup; contradiction]. intros _.
    destruct (addDefaults_spec defaults
                ((λ cls, (cls_getSerializationName cls, cls)) <$> customTypes))
      as [Hkeys Hget].
    assert (Hnames : ((λ cls, (cls_getSerializationName cls, cls))
                      <$> customTypes).*1 = classNames customTypes).
    { unfold classNames. rewrite <- list_fmap_compose. reflexivity. }
    rewrite Hnames in Hkeys.
    assert (Hall : (addDefaults
                      ((λ cls, (cls_getSerializationName cls, cls))
                       <$> customTypes) defaults).*1
                   = firstOccurrences (classNames (customTypes ++ defaults))).
    { rewrite Hkeys.
      replace (classNames (customTypes ++ defaults))
        with (classNames customTypes ++ classNames defaults)
        by (symmetry; apply fmap_app).
      rewrite firstOccurrences_app, (firstOccurrences_NoDup _ Hnd).
      reflexivity. }
    eexists. split; [reflexivity|]. split; [exact Hall|]. split.
    + rewrite Hkeys. apply NoDup_app. split; [exact Hnd|]. split.
      * intros x Hx Hx'. rewrite firstOccurrences_filter in Hx'.
        apply list_elem_of_filter in Hx' as [Hx' _]. contradiction.
      * apply NoDup_firstOccurrences.
    + intros name. rewrite Hget, Map_get_classes, filter_app.
      destruct (filter _ customTypes); reflexivity.
  - destruct Hcustom as (before & cls & after & -> & Hnd & _ & Hdup & ->).
    destruct Hdup as [Hdup|Hdup]; [inversion Hdup|].
    split.
    + intros Hall. exfalso. unfold classNames in Hall.
      rewrite fmap_app in Hall. cbn in Hall.
      apply NoDup_app in Hall as (_ & Hsep & _).
      apply (Hsep _ Hdup). left.
    + intros _. exists before, cls, after. auto.
Qed.

(** X21. Loading a spec that went through the short form calls the same
    constructor with the same arguments as loading the spec itself, so
    that a positional object read back as keyword arguments makes no
    difference; only a positional [null] or [undefined] is lost, the
    constructor being then called without arguments. *)
Theorem loading_survives_the_short_form
    (registry : list (string * EvaluatorClass)) (spec : EvaluatorSpec) :
  ∃ spec',
    deserializeEvaluatorSpec (serializeEvaluatorSpec spec None)
    = Return spec'
    ∧ loadEvaluatorFromRegistry registry spec'
      = loadEvaluatorFromRegistry registry
          match spec_arguments spec with
          | ArgsTuple VUndefined | ArgsTuple VNull =>
              {| spec_name := spec_name spec; spec_arguments := ArgsNull |}
          | _ => spec
          end.
Proof.
  destruct spec as [name [|v|kwargs]];
    unfold serializeEvaluatorSpec; cbn [default negb spec_arguments spec_name].
  - eexists. split; reflexivity.
  - unfold Serialization.deserializeEvaluatorSpec.
    cbn [fmap list_fmap fst]. rewrite getProp_single.
    destruct v; try (eexists; split; reflexivity).
    rewrite isPlainObject_object. eexists. split; reflexivity.
  - unfold Serialization.deserializeEvaluatorSpec.
    cbn [fmap list_fmap fst]. rewrite getProp_single, isPlainObject_object.
    eexists. split; reflexivity.
Qed.

End RegistryProperties.

(** ** The confusion matrix *)

Section ReportEvaluatorProperties.

Context {TInputs TOutput TMetadata ReportAnalysis : Type}.
Variable captureStack : string -> option string.
Variable outputText : TOutput -> option string.
Variable metadataText : TMetadata -> option string.
Variable metadataEntryText : TMetadata -> string -> option string.

Local Abbreviation ReportCase := (ReportCase TInputs TOutput TMetadata).
Local Abbreviation ReportEvaluatorContext :=
  (ReportEvaluatorContext TInputs TOutput TMetadata ReportAnalysis).
Local Abbreviation extractValue :=
  (extractValue captureStack outputText metadataText metadataEntryText).
Local Abbreviation collectStep :=
  (collectStep captureStack outputText metadataText metadataEntryText).
Local Abbreviation collectValues :=
  (collectValues captureStack outputText metadataText metadataEntryText).
Local Abbreviation ConfusionMatrixEvaluator_evaluate :=
  (ConfusionMatrixEvaluator_evaluate captureStack outputText metadataText
     metadataEntryText).

Implicit Types (this : ConfusionMatrixEvaluator) (c : ReportCase)
  (cases : list ReportCase) (ctx : ReportEvaluatorContext)
  (predicted expected labels : list string) (matrix : list (list nat)).






Lemma codeUnitOrder_total : Total codeUnitOrder.
Proof. intros s1 s2. apply String.leb_total. Qed.















End ReportEvaluatorProperties.

(** ** The precision-recall curve *)

(** Order on the numbers, read on the fractions they stand for. *)
Ltac on_fractions :=
  unfold Qcle, Qclt, Qcdiv, Qcminus in *;
  cbn [this Qcplus Qcmult Qcopp Qcinv Q2Qc] in *;
  rewrite ?Qred_correct in *.

Lemma Qc_of_nat_fraction n : (this (Qc_of_nat n) == inject_Z (Z.of_nat n))%Q.
Proof. unfold Qc_of_nat. cbn [this Q2Qc]. apply Qred_correct. Qed.

Lemma Qc_of_nat_le a b : a ≤ b → (Qc_of_nat a <= Qc_of_nat b)%Qc.
Proof.
  intros Hab. unfold Qcle. rewrite !Qc_of_nat_fraction, <- Zle_Qle. lia.
Qed.

Lemma Qc_of_nat_pos n : 0 < n → (0 < Qc_of_nat n)%Qc.
Proof.
  intros Hn. unfold Qclt. rewrite Qc_of_nat_fraction.
  change (this 0%Qc) with (inject_Z 0). rewrite <- Zlt_Qlt. lia.
Qed.

Lemma ratio_range a b :
  a ≤ b → 0 < b →
  (0 <= Qc_of_nat a / Qc_of_nat b)%Qc ∧ (Qc_of_nat a / Qc_of_nat b <= 1)%Qc.
Proof.
  intros Hab Hb.
  pose proof (Qc_of_nat_le 0 a ltac:(lia)) as H0a.
  pose proof (Qc_of_nat_le a b Hab) as Hle.
  pose proof (Qc_of_nat_pos b Hb) as Hpos.
  rewrite Qc_of_nat_0 in H0a.
  on_fractions.
  change (this 0%Qc) with 0%Q in *. change (this 1%Qc) with 1%Q.
  set (x := this (Qc_of_nat a)) in *. set (y := this (Qc_of_nat b)) in *.
  split.
  - apply Qle_shift_div_l; [exact Hpos|]. lra.
  - apply Qle_shift_div_r; [exact Hpos|]. lra.
Qed.

Lemma ratio_mono a a' b :
  a ≤ a' → (Qc_of_nat a / Qc_of_nat b <= Qc_of_nat a' / Qc_of_nat b)%Qc.
Proof.
  intros Haa. destruct b as [|b].
  - rewrite Qc_of_nat_0. unfold Qcdiv.
    replace (/ 0)%Qc with 0%Qc by (apply Qc_is_canon; reflexivity).
    rewrite !Qcmult_0_r. apply Qcle_refl.
  - pose proof (Qc_of_nat_le a a' Haa) as Hle.
    pose proof (Qc_of_nat_pos (S b) ltac:(lia)) as Hpos.
    unfold Qcdiv. apply Qcmult_le_compat_r; [exact Hle|].
    apply Qclt_le_weak. on_fractions.
    change (this 0%Qc) with 0%Q in *. apply Qinv_lt_0_compat. exact Hpos.
Qed.

Section PrecisionRecallProperties.

Context {TInputs TOutput TMetadata ReportAnalysis : Type}.
Variable captureStack : string -> option string.
Variable outputTruthy : TOutput -> bool.

Local Abbreviation ReportCase := (ReportCase TInputs TOutput TMetadata).
Local Abbreviation ReportEvaluatorContext :=
  (ReportEvaluatorContext TInputs TOutput TMetadata ReportAnalysis).
Local Abbreviation getPositive := (getPositive captureStack outputTruthy).
Local Abbreviation scoreStep := (scoreStep captureStack outputTruthy).
Local Abbreviation collectScored := (collectScored captureStack outputTruthy).
Local Abbreviation PrecisionRecallEvaluator_evaluate :=
  (PrecisionRecallEvaluator_evaluate captureStack outputTruthy).

Implicit Types (this : PrecisionRecallEvaluator) (c : ReportCase)
  (cases : list ReportCase) (ctx : ReportEvaluatorContext)
  (scoredCases : list (Qc * bool)) (points : list PrecisionRecallPoint)
  (threshold : Qc).

Lemma countStep_counts threshold scoredCases tp fp fn :
  foldl (countStep threshold) (tp, fp, fn) scoredCases
  = (tp + truePositives threshold scoredCases,
     fp + falsePositives threshold scoredCases,
     fn + falseNegatives threshold scoredCases).
Proof.
  revert tp fp fn.
  induction scoredCases as [|[s p] rest IH]; intros tp fp fn.
  - cbn. apply (f_equal2 pair); [apply (f_equal2 pair)|]; lia.
  - cbn [foldl countStep]. rewrite IH.
    unfold truePositives, falsePositives, falseNegatives.
    rewrite !filter_cons. cbn [fst snd].
    destruct (Qclt_le_dec s threshold) as [Hlt|Hle];
      [pose proof (Qclt_not_le _ _ Hlt)|pose proof (Qcle_not_lt _ _ Hle)];
      destruct p; cbn [andb negb];
      repeat case_bool_decide; repeat case_decide;
      cbn [length andb];
      first [exfalso; tauto
            |apply (f_equal2 pair); [apply (f_equal2 pair)|]; lia].
Qed.

Lemma positives_split threshold scoredCases :
  truePositives threshold scoredCases + falseNegatives threshold scoredCases
  = positives scoredCases.
Proof.
  unfold truePositives, falseNegatives, positives.
  induction scoredCases as [|[s p] rest IH]; [reflexivity|].
  rewrite !filter_cons. cbn [fst snd].
  destruct (Qclt_le_dec s threshold) as [Hlt|Hle].
  - pose proof (Qclt_not_le _ _ Hlt).
    destruct p; repeat case_decide; cbn [length]; try lia;
      exfalso; intuition congruence.
  - pose proof (Qcle_not_lt _ _ Hle).
    destruct p; repeat case_decide; cbn [length]; try lia;
      exfalso; intuition congruence.
Qed.

Lemma truePositives_mono threshold threshold' scoredCases :
  (threshold <= threshold')%Qc →
  truePositives threshold' scoredCases ≤ truePositives threshold scoredCases.
Proof.
  intros Hle. unfold truePositives.
  induction scoredCases as [|[s p] rest IH]; [reflexivity|].
  rewrite !filter_cons. cbn [fst snd].
  repeat case_decide; cbn [length]; try lia.
  exfalso. destruct H as [Hs Hp]. apply H0. split; [|exact Hp].
  eapply Qcle_trans; eassumption.
Qed.

Lemma pointAt_recall scoredCases threshold :
  pt_threshold (pointAt scoredCases threshold) = threshold
  ∧ pt_recall (pointAt scoredCases threshold)
    = (if 0 <? positives scoredCases
       then (Qc_of_nat (truePositives threshold scoredCases)
             / Qc_of_nat (positives scoredCases))%Qc
       else 0%Qc)
  ∧ inRange (pointAt scoredCases threshold).
Proof.
  unfold pointAt, inRange. rewrite countStep_counts. cbn [plus].
  rewrite positives_split. cbn [pt_threshold pt_recall pt_precision].
  split; [reflexivity|]. split; [reflexivity|].
  pose proof (positives_split threshold scoredCases) as Hsplit.
  split; [|split; [|split]].
  - destruct (0 <? _) eqn:Hpos; [|discriminate].
    apply Nat.ltb_lt in Hpos. apply ratio_range; lia.
  - destruct (0 <? _) eqn:Hpos; [|apply Qcle_refl].
    apply Nat.ltb_lt in Hpos. apply ratio_range; lia.
  - destruct (0 <? _) eqn:Hpos; [|apply Qcle_refl].
    apply Nat.ltb_lt in Hpos. apply ratio_range; lia.
  - destruct (0 <? _) eqn:Hpos; [|discriminate].
    apply Nat.ltb_lt in Hpos. apply ratio_range; lia.
Qed.

Lemma pointAt_recall_mono scoredCases threshold threshold' :
  (threshold <= threshold')%Qc →
  (pt_recall (pointAt scoredCases threshold')
   <= pt_recall (pointAt scoredCases threshold))%Qc.
Proof.
  intros Hle.
  destruct (pointAt_recall scoredCases threshold) as (_ & -> & _).
  destruct (pointAt_recall scoredCases threshold') as (_ & -> & _).
  destruct (0 <? positives scoredCases); [|apply Qcle_refl].
  apply ratio_mono, truePositives_mono, Hle.
Qed.

Lemma Math_min_le (a : Qc) (others : list Qc) :
  (foldl Math_min a others <= a)%Qc.
Proof.
  revert a. induction others as [|b others IH]; intros a; [apply Qcle_refl|].
  cbn [foldl]. eapply Qcle_trans; [apply IH|].
  unfold Math_min. case_decide as Hlt; [|apply Qcle_refl].
  apply Qclt_le_weak, Hlt.
Qed.

Lemma Math_max_ge (a : Qc) (others : list Qc) :
  (a <= foldl Math_max a others)%Qc.
Proof.
  revert a. induction others as [|b others IH]; intros a; [apply Qcle_refl|].
  cbn [foldl]. eapply Qcle_trans; [|apply IH].
  unfold Math_max. case_decide as Hlt; [|apply Qcle_refl].
  apply Qclt_le_weak, Hlt.
Qed.

Lemma threshold_mono (minScore maxScore : Qc) (n i j : nat) :
  (minScore <= maxScore)%Qc → i ≤ j →
  (minScore + Qc_of_nat i * ((maxScore - minScore) / Qc_of_nat n)
   <= minScore + Qc_of_nat j * ((maxScore - minScore) / Qc_of_nat n))%Qc.
Proof.
  intros Hle Hij.
  apply Qcplus_le_compat; [apply Qcle_refl|].
  apply Qcmult_le_compat_r; [apply Qc_of_nat_le, Hij|].
  destruct n as [|n].
  - rewrite Qc_of_nat_0. unfold Qcdiv.
    replace (/ 0)%Qc with 0%Qc by (apply Qc_is_canon; reflexivity).
    rewrite Qcmult_0_r. apply Qcle_refl.
  - pose proof (Qc_of_nat_pos (S n) ltac:(lia)) as Hpos.
    on_fractions. change (this 0%Qc) with 0%Q in *.
    apply Qle_shift_div_l; [exact Hpos|]. lra.
Qed.

Lemma length_insertByScore a sorted :
  length (insertByScore a sorted) = S (length sorted).
Proof.
  induction sorted as [|b rest IH]; [reflexivity|].
  cbn [insertByScore]. case_decide; cbn [length]; [reflexivity|].
  rewrite IH. reflexivity.
Qed.

Lemma length_sortByScore scoredCases :
  length (sortByScore scoredCases) = length scoredCases.
Proof.
  induction scoredCases as [|a rest IH]; [reflexivity|].
  cbn [sortByScore foldr]. rewrite length_insertByScore. cbn [length].
  f_equal. exact IH.
Qed.

Lemma getPositive_throws this c e :
  getPositive this c = Throw e →
  ∃ message, e = ThrownError "Error" message (captureStack message).
Proof.
  unfold getPositive.
  destruct (pre_positiveFrom this), (pre_positiveKey this) as [[|]|];
    intros [= <-]; eexists; reflexivity.
Qed.

Lemma term_range (first before here : PrecisionRecallPoint)
    (sum : Qc) :
  inRange before → inRange here →
  (pt_recall here <= pt_recall before)%Qc →
  (0 <= sum)%Qc →
  (sum <= pt_recall first - pt_recall before)%Qc →
  (0 <= sum + Math_abs (pt_recall here - pt_recall before)
              * (pt_precision here + pt_precision before) / Q2Qc 2)%Qc
  ∧ (sum + Math_abs (pt_recall here - pt_recall before)
           * (pt_precision here + pt_precision before) / Q2Qc 2
     <= pt_recall first - pt_recall here)%Qc.
Proof.
  intros (Hb1 & Hb2 & _) (Hh1 & Hh2 & _) Hmono Hsum0 Hsum.
  unfold Math_abs. case_decide as Hneg.
  - on_fractions. change (this 0%Qc) with 0%Q in *.
    change (this 1%Qc) with 1%Q in *.
    set (rh := this (pt_recall here)) in *.
    set (rb := this (pt_recall before)) in *.
    set (ph := this (pt_precision here)) in *.
    set (pb := this (pt_precision before)) in *.
    set (rf := this (pt_recall first)) in *. set (a := this sum) in *.
    clearbody rh rb ph pb rf a. change (/ 2)%Q with (1 # 2)%Q.
    split; nra.
  - assert (Hzero : pt_recall here = pt_recall before).
    { apply Qcle_antisym; [exact Hmono|].
      destruct (Qclt_le_dec (pt_recall here) (pt_recall before))
        as [Hlt|Hge]; [|exact Hge].
      exfalso. apply Hneg. on_fractions. change (this 0%Qc) with 0%Q. lra. }
    rewrite Hzero. on_fractions. change (this 0%Qc) with 0%Q in *.
    change (this 1%Qc) with 1%Q in *.
    set (rb := this (pt_recall before)) in *.
    set (ph := this (pt_precision here)) in *.
    set (pb := this (pt_precision before)) in *.
    set (rf := this (pt_recall first)) in *. set (a := this sum) in *.
    clearbody rb ph pb rf a. change (/ 2)%Q with (1 # 2)%Q.
    split; nra.
Qed.

Lemma trapezoids_range points :
  Forall inRange points →
  (∀ i j a b, i ≤ j → points !! i = Some a → points !! j = Some b →
     (pt_recall b <= pt_recall a)%Qc) →
  ∃ auc, trapezoids points = Return auc ∧ (0 <= auc)%Qc ∧ (auc <= 1)%Qc.
Proof.
  intros Hrange Hmono. destruct points as [|first rest].
  { exists 0%Qc. split; [reflexivity|]. split; [apply Qcle_refl|].
    on_fractions. lra. }
  assert (Hprefix : ∀ k, k < length (first :: rest) →
            ∃ sum here,
              foldl (λ auc i,
                       obind auc (λ auc,
                         match (first :: rest) !! i,
                               (first :: rest) !! (i - 1) with
                         | Some here, Some before =>
                             Return (auc
                                     + Math_abs (pt_recall here
                                                 - pt_recall before)
                                       * (pt_precision here
                                          + pt_precision before)
                                       / Q2Qc 2)%Qc
                         | _, _ =>
                             Throw (ThrownError "TypeError"
                                      "undefined point" None)
                         end))
                    (Return 0%Qc) (seq 1 k)
              = Return sum
              ∧ (first :: rest) !! k = Some here
              ∧ (0 <= sum)%Qc
              ∧ (sum <= pt_recall first - pt_recall here)%Qc).
  { induction k as [|k IH]; intros Hk.
    - exists 0%Qc, first. split; [reflexivity|]. split; [reflexivity|].
      split; [apply Qcle_refl|]. on_fractions. lra.
    - destruct IH as (sum & before & Hrun & Hbefore & Hsum0 & Hsum); [lia|].
      destruct (lookup_lt_is_Some_2 (first :: rest) (S k) Hk)
        as [here Hhere].
      rewrite seq_S, foldl_app, Hrun. cbn [foldl obind plus].
      rewrite Hhere. replace (S k - 1) with k by lia. rewrite Hbefore.
      destruct (term_range first before here sum) as [Hlow Hhigh].
      + eapply Forall_forall in Hrange; [exact Hrange|].
        eapply list_elem_of_lookup_2, Hbefore.
      + eapply Forall_forall in Hrange; [exact Hrange|].
        eapply list_elem_of_lookup_2, Hhere.
      + apply (Hmono k (S k) before here); [lia|exact Hbefore|exact Hhere].
      + exact Hsum0.
      + exact Hsum.
      + eexists _, here. split; [reflexivity|]. split; [reflexivity|].
        split; [exact Hlow|exact Hhigh]. }
  destruct (Hprefix (length (first :: rest) - 1))
    as (auc & last & Hrun & Hlast & Hlow & Hhigh); [cbn [length]; lia|].
  exists auc. split; [exact Hrun|]. split; [exact Hlow|].
  assert (Hfirst : inRange first)
    by (eapply Forall_forall in Hrange; [exact Hrange|left]).
  assert (Hlast' : inRange last).
  { eapply Forall_forall in Hrange; [exact Hrange|].
    eapply list_elem_of_lookup_2, Hlast. }
  destruct Hfirst as (_ & _ & _ & Hf), Hlast' as (_ & _ & Hl & _).
  on_fractions. change (this 0%Qc) with 0%Q in *.
  change (this 1%Qc) with 1%Q in *. lra.
Qed.

Lemma collectScored_throws this cases scoredCases e :
  foldl (λ acc c, obind acc (λ scoredCases, scoreStep this scoredCases c))
        (Return scoredCases) cases = Throw e →
  ∃ message, e = ThrownError "Error" message (captureStack message).
Proof.
  revert scoredCases.
  induction cases as [|c cases IH]; intros scoredCases; [discriminate|].
  cbn [foldl obind]. unfold scoreStep at 2.
  destruct (getPositive this c) as [isPositive|e'] eqn:Hpositive;
    cbn [obind].
  - destruct (getScore this c), isPositive; apply IH.
  - assert (Hthrown :
      foldl (λ acc c,
               obind acc (λ scoredCases, scoreStep this scoredCases c))
            (Throw e') cases = Throw e').
    { clear. induction cases as [|c cases IH]; [reflexivity|exact IH]. }
    rewrite Hthrown. intros [= <-]. exact (getPositive_throws _ _ _ Hpositive).
Qed.

(** X23. Whatever the cases, with at least one threshold step, scores
    read under an ordinary key and numbers taken as exact rationals, the
    curve stays in range. [evaluate] passes on the error of a missing
    key and otherwise returns: no curve when no case has both a score
    and a verdict, and else one curve, named after the experiment, with
    one point when all the scores are equal and one more point than
    steps otherwise. Along the points the thresholds do not fall and the
    recall does not rise; every precision and every recall lies between
    0 and 1, and so does the area under the curve. *)
Theorem precision_recall_stays_in_range (this : PrecisionRecallEvaluator)
    (ctx : ReportEvaluatorContext) :
  1 ≤ pre_nThresholds this →
  ordinary (pre_scoreKey this) →
  (∀ e,
     collectScored this (rep_cases (rctx_report ctx)) = Throw e →
     PrecisionRecallEvaluator_evaluate this ctx = Throw e
     ∧ ∃ message, e = ThrownError "Error" message (captureStack message))
  ∧ (∀ scoredCases,
       collectScored this (rep_cases (rctx_report ctx)) = Return scoredCases →
       ∃ result,
         PrecisionRecallEvaluator_evaluate this ctx = Return result
         ∧ pr_type result = "precision_recall"
         ∧ pr_title result = pre_title this
         ∧ (scoredCases = [] → pr_curves result = [])
         ∧ (scoredCases ≠ [] →
            ∃ curve,
              pr_curves result = [curve]
              ∧ curve_name curve = rctx_name ctx
              ∧ (length (curve_points curve) = 1
                 ∨ length (curve_points curve) = pre_nThresholds this + 1)
              ∧ Forall inRange (curve_points curve)
              ∧ (∀ i j a b,
                   i ≤ j →
                   curve_points curve !! i = Some a →
                   curve_points curve !! j = Some b →
                   (pt_threshold a <= pt_threshold b)%Qc
                   ∧ (pt_recall b <= pt_recall a)%Qc)
              ∧ (0 <= curve_auc curve)%Qc
              ∧ (curve_auc curve <= 1)%Qc)).
Proof.
  intros Hsteps _. unfold PrecisionRecallEvaluator_evaluate.
  pose proof (collectScored_throws this (rep_cases (rctx_report ctx)) [])
    as Hthrows.
  fold (collectScored this (rep_cases (rctx_report ctx))) in Hthrows.
  destruct (collectScored this (rep_cases (rctx_report ctx)))
    as [scoredCases|e]; cbn [obind].
  2: { split; [|intros ? [=]]. intros ? [= <-]. split; [reflexivity|].
       apply Hthrows. reflexivity. }
  split; [intros ? [=]|]. intros ? [= <-].
  pose proof (length_sortByScore scoredCases) as Hlength.
  destruct (sortByScore scoredCases) as [|[first positive] others] eqn:Hsorted.
  { cbn [fmap list_fmap]. eexists. split; [reflexivity|].
    split; [reflexivity|]. split; [reflexivity|].
    split; [reflexivity|]. intros Hsome. exfalso. apply Hsome.
    destruct scoredCases; [reflexivity|discriminate]. }
  cbn [fmap list_fmap fst].
  set (sorted := (first, positive) :: others) in *.
  set (minScore := foldl Math_min first others.*1).
  set (maxScore := foldl Math_max first others.*1).
  assert (Hminmax : (minScore <= maxScore)%Qc).
  { eapply Qcle_trans; [apply Math_min_le|apply Math_max_ge]. }
  set (thresholds :=
         if bool_decide (minScore = maxScore) then [minScore]
         else (λ i, (minScore
                     + Qc_of_nat i
                       * ((maxScore - minScore)
                          / Qc_of_nat (pre_nThresholds this)))%Qc)
              <$> seq 0 (pre_nThresholds this + 1)).
  assert (Hcount : length thresholds = 1
                   ∨ length thresholds = pre_nThresholds this + 1).
  { unfold thresholds. case_bool_decide; [left; reflexivity|right].
    rewrite length_fmap, length_seq. reflexivity. }
  assert (Hrising : ∀ i j t t', i ≤ j →
            thresholds !! i = Some t → thresholds !! j = Some t' →
            (t <= t')%Qc).
  { unfold thresholds. intros i j t t' Hij Hi Hj. case_bool_decide.
    - destruct i, j; cbn in Hi, Hj; try discriminate.
      injection Hi as <-. injection Hj as <-. apply Qcle_refl.
    - rewrite list_lookup_fmap in Hi, Hj.
      destruct (seq 0 (pre_nThresholds this + 1) !! i) as [i'|] eqn:Hi';
        [|discriminate].
      destruct (seq 0 (pre_nThresholds this + 1) !! j) as [j'|] eqn:Hj';
        [|discriminate].
      apply lookup_seq in Hi' as [-> _]. apply lookup_seq in Hj' as [-> _].
      cbn in Hi, Hj. injection Hi as <-. injection Hj as <-.
      apply threshold_mono; [exact Hminmax|lia]. }
  assert (Hrange : Forall inRange (pointAt sorted <$> thresholds)).
  { apply Forall_fmap, Forall_forall. intros t _. apply pointAt_recall. }
  assert (Hmono : ∀ i j a b, i ≤ j →
            (pointAt sorted <$> thresholds) !! i = Some a →
            (pointAt sorted <$> thresholds) !! j = Some b →
            (pt_threshold a <= pt_threshold b)%Qc
            ∧ (pt_recall b <= pt_recall a)%Qc).
  { intros i j a b Hij Ha Hb. rewrite list_lookup_fmap in Ha, Hb.
    destruct (thresholds !! i) as [t|] eqn:Hi; [|discriminate].
    destruct (thresholds !! j) as [t'|] eqn:Hj; [|discriminate].
    cbn in Ha, Hb. injection Ha as <-. injection Hb as <-.
    pose proof (Hrising i j t t' Hij Hi Hj) as Hle.
    destruct (pointAt_recall sorted t) as (-> & _ & _).
    destruct (pointAt_recall sorted t') as (-> & _ & _).
    split; [exact Hle|]. apply pointAt_recall_mono, Hle. }
  destruct (trapezoids_range (pointAt sorted <$> thresholds) Hrange)
    as (auc & Hauc & Hlow & Hhigh).
  { intros i j a b Hij Ha Hb. apply (Hmono i j a b Hij Ha Hb). }
  fold thresholds. rewrite Hauc. cbn [obind].
  eexists. split; [reflexivity|]. cbn.
  split; [reflexivity|]. split; [reflexivity|].
  split; [intros ->; cbn in Hlength; discriminate|]. intros _.
  eexists. split; [reflexivity|]. cbn.
  split; [reflexivity|]. split; [rewrite length_fmap; exact Hcount|].
  split; [exact Hrange|]. split; [exact Hmono|]. split; assumption.
Qed.

End PrecisionRecallProperties.

(** ** The comparison of the built-in evaluators *)

Section DeepStrictEqual.

Import Serialization.

Lemma forallb_imap {A} (f : nat → A → bool) (l : list A) :
  forallb id (imap f l) = true ↔ ∀ i x, l !! i = Some x → f i x = true.
Proof.
  revert f. induction l as [|y l IH]; intros f.
  - split; [intros _ i x Hi; inversion Hi|reflexivity].
  - cbn [imap forallb id]. rewrite andb_true_iff, IH. split.
    + intros [Hy Hl] [|i] x Hi; cbn in Hi.
      * injection Hi as <-. exact Hy.
      * apply (Hl i x Hi).
    + intros Hall. split; [apply (Hall 0 y eq_refl)|].
      intros i x Hi. apply (Hall (S i) x Hi).
Qed.

Lemma Map_get_compare (f : Value → Value → bool)
    (props : list (string * Value)) key :
  key ∈ props.*1 →
  Map_get key ((λ entry : string * Value, (entry.1, f entry.2)) <$> props)
  = Some (f (getProp props key)).
Proof.
  unfold Map_get. induction props as [|[k v] props IH]; intros Hin.
  - inversion Hin.
  - cbn [fmap list_fmap List.find fst snd getProp].
    destruct (String.eqb k key) eqn:Hk; [reflexivity|].
    apply IH. cbn in Hin. apply elem_of_cons in Hin as [->|Hin]; [|exact Hin].
    rewrite String.eqb_refl in Hk. discriminate.
Qed.

Lemma elem_of_Array_sort (key : string) keys :
  key ∈ Array_sort keys ↔ key ∈ keys.
Proof. unfold Array_sort. rewrite merge_sort_Permutation. reflexivity. Qed.

Lemma length_Array_sort keys : length (Array_sort keys) = length keys.
Proof. unfold Array_sort. rewrite merge_sort_Permutation. reflexivity. Qed.

(** The comparison of two arrays and of two objects, as the source has
    them. *)
Lemma deepStrictEqual_array (xs ys : list Value) :
  deepStrictEqual (VArr xs) (VArr ys)
  = bool_decide (length xs = length ys)
    && forallb id
         (imap (λ i val, deepStrictEqual val (default VUndefined (ys !! i)))
               xs).
Proof.
  cbn [deepStrictEqual strictEquals].
  destruct (bool_decide (length xs = length ys)); [|reflexivity].
  cbn [negb andb]. f_equal. rewrite imap_fmap. reflexivity.
Qed.

Lemma deepStrictEqual_object (aObj bObj : list (string * Value)) :
  deepStrictEqual (VObj aObj) (VObj bObj)
  = bool_decide (length (Array_sort aObj.*1) = length (Array_sort bObj.*1))
    && forallb id
         (imap (λ i key,
                  bool_decide (Array_sort bObj.*1 !! i = Some key)
                  && deepStrictEqual (getProp aObj key) (getProp bObj key))
               (Array_sort aObj.*1)).
Proof.
  cbn [deepStrictEqual strictEquals].
  destruct (bool_decide (length (Array_sort aObj.*1)
                         = length (Array_sort bObj.*1))); [|reflexivity].
  cbn [negb andb]. f_equal. apply imap_ext. intros i key Hi.
  rewrite Map_get_compare; [reflexivity|].
  rewrite <- elem_of_Array_sort. eapply list_elem_of_lookup_2, Hi.
Qed.

Lemma strictEquals_sym (a b : Value) : strictEquals a b = strictEquals b a.
Proof.
  destruct a, b; try reflexivity; cbn;
    apply bool_decide_ext; split; congruence.
Qed.

Lemma deepStrictEqual_primitive (a b : Value) :
  match a with VArr _ | VObj _ => False | _ => True end →
  deepStrictEqual a b = strictEquals a b
  ∧ deepStrictEqual b a = strictEquals a b.
Proof.
  intros Ha. rewrite (strictEquals_sym a b).
  destruct a; try contradiction; destruct b; cbn;
    try (split; reflexivity); repeat case_bool_decide;
    try (split; reflexivity); congruence.
Qed.

Lemma getProp_elem_of (props : list (string * Value)) key :
  key ∈ props.*1 → (key, getProp props key) ∈ props.
Proof.
  induction props as [|[k v] props IH]; intros Hin; [inversion Hin|].
  cbn [getProp]. destruct (String.eqb_spec k key) as [->|Hne]; [left|].
  right. apply IH. cbn in Hin. apply elem_of_cons in Hin as [->|Hin];
    [contradiction|exact Hin].
Qed.


Lemma nanFree_array (items : list Value) :
  nanFree (VArr items) ↔ Forall nanFree items.
Proof.
  cbn. induction items as [|item items IH]; [split; auto|].
  rewrite Forall_cons, <- IH. reflexivity.
Qed.

Lemma nanFree_object (props : list (string * Value)) :
  nanFree (VObj props) ↔ Forall (λ entry, nanFree entry.2) props.
Proof.
  cbn. induction props as [|[key val] props IH]; [split; auto|].
  rewrite Forall_cons, <- IH. reflexivity.
Qed.

Lemma deepStrictEqual_refl (a : Value) :
  nanFree a → deepStrictEqual a a = true.
Proof.
  induction a as [| | x | x | | s | xs IH | aObj IH] using Value_nested_ind;
    intros Hnan; try reflexivity.
  1-2, 4: cbn; rewrite bool_decide_eq_true_2; reflexivity.
  - destruct Hnan.
  - rewrite deepStrictEqual_array, andb_true_iff, bool_decide_eq_true,
      forallb_imap.
    apply nanFree_array in Hnan. rewrite Forall_forall in IH, Hnan.
    split; [reflexivity|]. intros i x Hi. rewrite Hi. cbn [default].
    apply IH; [|apply Hnan]; eapply list_elem_of_lookup_2, Hi.
  - rewrite deepStrictEqual_object, andb_true_iff, bool_decide_eq_true,
      forallb_imap.
    apply nanFree_object in Hnan. rewrite Forall_forall in IH, Hnan.
    split; [reflexivity|]. intros i key Hi. apply andb_true_iff. split.
    + apply bool_decide_eq_true. exact Hi.
    + assert (Hentry : (key, getProp aObj key) ∈ aObj).
      { apply getProp_elem_of. rewrite <- elem_of_Array_sort.
        eapply list_elem_of_lookup_2, Hi. }
      apply (IH (key, getProp aObj key) Hentry).
      apply (Hnan (key, getProp aObj key) Hentry).
Qed.

(** The order of [sort()] is a total order on strings. *)
Lemma String_compare_trans (s1 s2 s3 : string) :
  String.compare s1 s2 ≠ Gt → String.compare s2 s3 ≠ Gt →
  String.compare s1 s3 ≠ Gt.
Proof.
  revert s2 s3.
  induction s1 as [|c1 s1 IH]; intros [|c2 s2] [|c3 s3]; cbn;
    try congruence.
  unfold Ascii.compare.
  destruct (N.compare_spec (Ascii.N_of_ascii c1) (Ascii.N_of_ascii c2))
    as [H12|H12|H12]; [|..|congruence];
    destruct (N.compare_spec (Ascii.N_of_ascii c2) (Ascii.N_of_ascii c3))
      as [H23|H23|H23]; try congruence; intros Hs12 Hs23.
  - rewrite H12, H23, N.compare_refl. apply (IH s2 s3 Hs12 Hs23).
  - rewrite H12. apply N.compare_lt_iff in H23. rewrite H23. discriminate.
  - rewrite <- H23. apply N.compare_lt_iff in H12. rewrite H12. discriminate.
  - assert (H13 : (Ascii.N_of_ascii c1 < Ascii.N_of_ascii c3)%N) by lia.
    apply N.compare_lt_iff in H13. rewrite H13. discriminate.
Qed.

Lemma codeUnitOrder_trans : Transitive codeUnitOrder.
Proof.
  intros s1 s2 s3. unfold codeUnitOrder, String.leb.
  pose proof (String_compare_trans s1 s2 s3) as Htrans.
  destruct (String.compare s1 s2), (String.compare s2 s3),
    (String.compare s1 s3); try congruence; intros _ _;
    exfalso; apply Htrans; congruence.
Qed.

Lemma codeUnitOrder_antisym : AntiSymm (=) codeUnitOrder.
Proof. intros s1 s2. apply String.leb_antisym. Qed.

Lemma Array_sort_Permutation (keys1 keys2 : list string) :
  Array_sort keys1 = Array_sort keys2 ↔ keys1 ≡ₚ keys2.
Proof.
  unfold Array_sort. split.
  - intros Heq. rewrite <- (merge_sort_Permutation codeUnitOrder keys1), Heq.
    apply merge_sort_Permutation.
  - intros Hperm.
    apply (@Sorted_unique _ codeUnitOrder codeUnitOrder_trans
             codeUnitOrder_antisym).
    + apply @Sorted_merge_sort. exact codeUnitOrder_total.
    + apply @Sorted_merge_sort. exact codeUnitOrder_total.
    + rewrite !merge_sort_Permutation. exact Hperm.
Qed.

Lemma same_entries (keys1 keys2 : list string) :
  length keys1 = length keys2 →
  (∀ i key, keys1 !! i = Some key → keys2 !! i = Some key) →
  keys1 = keys2.
Proof.
  intros Hlen Hall. apply list_eq. intros i.
  destruct (keys1 !! i) as [key|] eqn:Hi; [symmetry; apply Hall, Hi|].
  symmetry. apply lookup_ge_None. apply lookup_ge_None in Hi. lia.
Qed.

Lemma deepStrictEqual_object_iff (aObj bObj : list (string * Value)) :
  deepStrictEqual (VObj aObj) (VObj bObj) = true
  ↔ aObj.*1 ≡ₚ bObj.*1
    ∧ ∀ key, key ∈ aObj.*1 →
             deepStrictEqual (getProp aObj key) (getProp bObj key) = true.
Proof.
  rewrite deepStrictEqual_object, andb_true_iff, bool_decide_eq_true,
    forallb_imap, <- Array_sort_Permutation.
  split.
  - intros [Hlen Hall].
    assert (Hkeys : Array_sort aObj.*1 = Array_sort bObj.*1).
    { apply same_entries; [exact Hlen|]. intros i key Hi.
      specialize (Hall i key Hi). apply andb_true_iff in Hall as [Hk _].
      apply bool_decide_eq_true in Hk. exact Hk. }
    split; [exact Hkeys|]. intros key Hkey.
    rewrite <- elem_of_Array_sort in Hkey.
    apply list_elem_of_lookup_1 in Hkey as [i Hi].
    specialize (Hall i key Hi). apply andb_true_iff in Hall as [_ Hv].
    exact Hv.
  - intros [Hkeys Hall]. split; [rewrite Hkeys; reflexivity|].
    intros i key Hi. apply andb_true_iff. split.
    + apply bool_decide_eq_true. rewrite <- Hkeys. exact Hi.
    + apply Hall. rewrite <- elem_of_Array_sort.
      eapply list_elem_of_lookup_2, Hi.
Qed.

Lemma getProp_first (props : list (string * Value)) key val :
  NoDup props.*1 → (key, val) ∈ props → getProp props key = val.
Proof.
  intros Hnd Hin. apply list_elem_of_split in Hin as (before & after & ->).
  apply getProp_NoDup. rewrite fmap_app, fmap_cons in Hnd.
  apply NoDup_app in Hnd as (_ & Hsep & _). intros Hin.
  apply (Hsep _ Hin). left.
Qed.

Lemma getProp_Permutation (aObj bObj : list (string * Value)) key :
  NoDup aObj.*1 → aObj ≡ₚ bObj → getProp aObj key = getProp bObj key.
Proof.
  intros Hnd Hperm.
  assert (Hnd' : NoDup bObj.*1) by (rewrite <- Hperm; exact Hnd).
  destruct (decide (key ∈ aObj.*1)) as [Hin|Hout].
  - pose proof (getProp_elem_of aObj key Hin) as Ha.
    assert (Hin' : key ∈ bObj.*1) by (rewrite <- Hperm; exact Hin).
    pose proof (getProp_elem_of bObj key Hin') as Hb.
    apply (elem_of_Permutation_proper _ _ _ Hperm) in Hb.
    apply (getProp_first aObj key _ Hnd Hb).
  - assert (Hout' : key ∉ bObj.*1) by (rewrite <- Hperm; exact Hout).
    clear -Hout Hout'.
    assert (Hmissing : ∀ props : list (string * Value),
              key ∉ props.*1 → getProp props key = VUndefined).
    { induction props as [|[k v] props IH]; intros Hk; [reflexivity|].
      cbn in *. apply not_elem_of_cons in Hk as [Hne Hk].
      destruct (String.eqb_spec k key) as [->|_]; [contradiction|].
      apply IH, Hk. }
    rewrite !Hmissing by assumption. reflexivity.
Qed.

Lemma wellFormed_array (items : list Value) :
  wellFormed (VArr items) ↔ Forall wellFormed items.
Proof.
  cbn. induction items as [|item items IH]; [split; auto|].
  rewrite Forall_cons, <- IH. reflexivity.
Qed.

Lemma wellFormed_object (props : list (string * Value)) :
  wellFormed (VObj props)
  ↔ NoDup props.*1 ∧ Forall (λ entry, wellFormed entry.2) props.
Proof.
  cbn. apply and_iff_compat_l.
  induction props as [|[key val] props IH]; [split; auto|].
  rewrite Forall_cons, <- IH. reflexivity.
Qed.

Lemma deepEqual_array (xs ys : list Value) :
  deepEqual (VArr xs) (VArr ys)
  = bool_decide (length xs = length ys)
    && forallb id
         (imap (λ i val, deepEqual val (default VUndefined (ys !! i))) xs).
Proof.
  cbn [deepEqual strictEquals].
  destruct (bool_decide (length xs = length ys)); [|reflexivity].
  cbn [negb andb].
  enough (∀ k,
            (fix every (xs : list Value) (i : nat) {struct xs} : bool :=
               match xs with
               | [] => true
               | val :: rest =>
                   deepEqual val (default VUndefined (ys !! i))
                   && every rest (S i)
               end) xs k
            = forallb id
                (imap (λ i val,
                         deepEqual val (default VUndefined (ys !! (k + i))))
                      xs)) as H
    by apply (H 0).
  induction xs as [|val rest IH]; intros k; [reflexivity|].
  cbn [imap forallb id]. rewrite Nat.add_0_r. f_equal.
  rewrite IH. f_equal. apply imap_ext. intros i x _. cbn.
  rewrite Nat.add_succ_r. reflexivity.
Qed.

Lemma deepEqual_object (aObj bObj : list (string * Value)) :
  deepEqual (VObj aObj) (VObj bObj)
  = bool_decide (length aObj.*1 = length bObj.*1)
    && forallb (λ entry, deepEqual entry.2 (getProp bObj entry.1)) aObj.
Proof.
  cbn [deepEqual strictEquals].
  destruct (bool_decide (length aObj.*1 = length bObj.*1)); [|reflexivity].
  cbn [negb andb].
  induction aObj as [|[key val] rest IH]; [reflexivity|].
  cbn [forallb fst snd]. rewrite IH. reflexivity.
Qed.

Lemma deepStrictEqual_deepEqual (a : Value) :
  wellFormed a → ∀ b, deepStrictEqual a b = true → deepEqual a b = true.
Proof.
  induction a as [| | x | x | | s | xs IH | aObj IH] using Value_nested_ind;
    intros Hwf b.
  1-6: match goal with
       | |- deepStrictEqual ?a _ = _ → _ =>
           destruct (deepStrictEqual_primitive a b I) as [-> _];
           intros Heq; cbn [deepEqual]; rewrite Heq; reflexivity
       end.
  - destruct b as [| | y | y | | s | ys | bObj]; try discriminate.
    rewrite deepStrictEqual_array, deepEqual_array, !andb_true_iff,
      !forallb_imap.
    apply wellFormed_array in Hwf. rewrite Forall_forall in IH, Hwf.
    intros [Hlen Hall]. split; [exact Hlen|]. intros i x Hi.
    apply IH; [eapply list_elem_of_lookup_2, Hi| |apply (Hall i x Hi)].
    eapply Hwf, list_elem_of_lookup_2, Hi.
  - destruct b as [| | y | y | | s | ys | bObj]; try discriminate.
    rewrite deepStrictEqual_object_iff, deepEqual_object, andb_true_iff,
      bool_decide_eq_true, forallb_forall.
    apply wellFormed_object in Hwf as [Hnd Hwf].
    rewrite Forall_forall in IH, Hwf.
    intros [Hkeys Hall]. split; [rewrite Hkeys; reflexivity|].
    intros [key val] Hin%list_elem_of_In. cbn [fst snd].
    apply (IH (key, val) Hin); [apply (Hwf (key, val) Hin)|].
    rewrite <- (getProp_first aObj key val Hnd Hin). apply Hall.
    apply list_elem_of_fmap. exists (key, val). split; [reflexivity|exact Hin].
Qed.

Lemma deepStrictEqual_exact (a b : Value) :
  objectFree a → deepStrictEqual a b = true → a = b.
Proof.
  intros Hfree Heq. apply deepEqual_exact; [exact Hfree|].
  apply deepStrictEqual_deepEqual; [|exact Heq].
  apply objectFree_wellFormed, Hfree.
Qed.


(** X27. An object that contains no [NaN] is [deepStrictEqual] to
    another exactly when the two have the same keys, in whatever order,
    and hold [deepStrictEqual] values under each key; so such an object
    with distinct keys equals every reordering of itself. *)
Theorem deepStrictEqual_ignores_key_order
    (aObj bObj : list (string * Value)) :
  nanFree (VObj aObj) →
  (deepStrictEqual (VObj aObj) (VObj bObj) = true
   ↔ aObj.*1 ≡ₚ bObj.*1
     ∧ ∀ key, key ∈ aObj.*1 →
              deepStrictEqual (getProp aObj key) (getProp bObj key) = true)
  ∧ (NoDup aObj.*1 → aObj ≡ₚ bObj →
     deepStrictEqual (VObj aObj) (VObj bObj) = true).
Proof.
  intros Hnan. split; [apply deepStrictEqual_object_iff|].
  intros Hnd Hperm. apply deepStrictEqual_object_iff. split.
  - apply fmap_Permutation, Hperm.
  - intros key Hkey. rewrite <- (getProp_Permutation aObj bObj key Hnd Hperm).
    apply deepStrictEqual_refl.
    apply nanFree_object in Hnan. rewrite Forall_forall in Hnan.
    apply (Hnan (key, getProp aObj key)), getProp_elem_of, Hkey.
Qed.

(** X28. For a value that contains no [NaN]: what [deepStrictEqual]
    accepts, the [deepEqual] of [src/evaluators/base.ts] accepts too, on
    objects with distinct keys; on values without objects both are
    plain equality. The converse fails: [deepEqual] accepts two objects
    with one key each, the first holding [undefined] under an ordinary
    key, whatever the other key is. *)
Theorem deepStrictEqual_stricter_than_deepEqual (a b : Value) :
  (wellFormed a → nanFree a →
   deepStrictEqual a b = true → deepEqual a b = true)
  ∧ (objectFree a → nanFree a → deepStrictEqual a b = true ↔ a = b)
  ∧ ∀ key key' val,
      key ≠ key' →
      ordinary key →
      deepEqual (VObj [(key, VUndefined)]) (VObj [(key', val)]) = true
      ∧ deepStrictEqual (VObj [(key, VUndefined)]) (VObj [(key', val)])
        = false.
Proof.
  split; [intros Hwf _; apply deepStrictEqual_deepEqual, Hwf|]. split.
  - intros Hfree Hnan. split; [apply deepStrictEqual_exact, Hfree|].
    intros <-. apply deepStrictEqual_refl, Hnan.
  - intros key key' val Hne _. split.
    + rewrite deepEqual_object. cbn [fmap list_fmap length].
      rewrite bool_decide_eq_true_2 by reflexivity.
      cbn [andb forallb fst snd getProp].
      destruct (String.eqb_spec key' key) as [->|_]; [contradiction|].
      reflexivity.
    + apply not_true_is_false. rewrite deepStrictEqual_object_iff.
      cbn [fmap list_fmap fst]. intros [Hkeys _].
      apply Permutation_singleton_l in Hkeys. congruence.
Qed.

End DeepStrictEqual.

(** ** [Equals] and [EqualsExpected] under [runEvaluator] *)

Section BuiltinEvaluatorProperties.

Context {TInputs TMetadata World : Type}.
Variable captureStack : string → option string.

Local Abbreviation Context_ :=
  (EvaluatorContext TInputs Serialization.Value TMetadata).


End BuiltinEvaluatorProperties.

(** ** The specs of the built-in evaluators *)

Section BuiltinSpecProperties.

Import Serialization.

Variable captureStack : string → option string.

Lemma deepEqual_default (a d : Value) :
  match d with VNull | VBool _ => True | _ => False end →
  deepEqual a d = true → a = d.
Proof.
  clear captureStack.
  intros Hd. destruct d; try contradiction; destruct a; cbn;
    try discriminate; try reflexivity.
  case_bool_decide; [congruence|discriminate].
Qed.

Lemma orDefault_idem (v d : Value) :
  orDefault (orDefault v d) d = orDefault v d.
Proof. clear captureStack. destruct v, d; reflexivity. Qed.

(** The registry of the loader when no custom class is given. *)
Lemma default_registry :
  buildRegistry captureStack [] DEFAULT_EVALUATORS
  = Return ((λ cls, (cls_getSerializationName cls, cls))
              <$> DEFAULT_EVALUATORS).
Proof. reflexivity. Qed.

(** X30. A built-in evaluator whose spec has no keyword arguments comes
    back from the default registry as it was: the spec of an evaluator
    made by its constructor, with every optional field at its default,
    names the class and holds at most the first field, and the
    constructor called with that field alone fills the others with the
    same defaults. An [Equals] with an evaluation name of its own has
    keyword arguments instead and comes back as an [Equals] without a
    name, whose value is the object of those arguments. *)
Theorem builtin_positional_spec_round_trip
    (registry : list (string * EvaluatorClass BuiltinEvaluator)) :
  buildRegistry captureStack [] DEFAULT_EVALUATORS = Return registry →
  (∀ cls args this,
     cls ∈ DEFAULT_EVALUATORS →
     cls_new cls args = Return this →
     (∀ kwargs, spec_arguments (asSpec (base this)) ≠ ArgsRecord kwargs) →
     loadEvaluatorFromRegistry captureStack registry (asSpec (base this))
     = Return this)
  ∧ (∀ value evalName,
       evalName ≠ VNull →
       loadEvaluatorFromRegistry captureStack registry
         (asSpec (base (AnEquals {| Equals_value := value;
                                    Equals_evaluationName := evalName |})))
       = Return
           (AnEquals
              {| Equals_value :=
                   VObj [("value", value); ("evaluationName", evalName)];
                 Equals_evaluationName := VNull |})).
Proof.
  rewrite default_registry. intros [= <-]. split.
  - intros cls args this Hcls Hnew Hpositional.
    unfold DEFAULT_EVALUATORS in Hcls.
    repeat (apply elem_of_cons in Hcls as [->|Hcls]);
      [..|inversion Hcls];
      cbn [builtinClass cls_new] in Hnew; injection Hnew as <-;
      revert Hpositional;
      unfold asSpec, buildSerializationArguments;
      cbn [base getFields getDefaults getSerializationName List.filter
           hasProp existsb String.eqb Ascii.eqb Bool.eqb fst snd orb andb
           negb getProp fmap list_fmap].
    all: repeat match goal with
                | |- context [deepEqual ?v ?d] =>
                    let Heq := fresh "Heq" in
                    destruct (deepEqual v d) eqn:Heq;
                    [apply deepEqual_default in Heq; [|exact I]|]
                end;
           cbn [negb String.eqb Ascii.eqb Bool.eqb spec_arguments];
           intros Hpositional;
           try (exfalso; eapply Hpositional; reflexivity).
    all: unfold loadEvaluatorFromRegistry, Map_get, instantiate;
         cbn [spec_name spec_arguments List.find fst snd fmap option_fmap
              option_map String.eqb Ascii.eqb Bool.eqb builtinClass cls_new].
    all: do 2 f_equal.
    all: unfold Equals_new, EqualsExpected_new, Contains_new, IsInstance_new,
           MaxDuration_new, HasMatchingSpan_new, argument in *;
         cbn [lookup list_lookup default Equals_value Equals_evaluationName
              EqualsExpected_evaluationName Contains_value
              Contains_caseSensitive Contains_asStrings
              Contains_evaluationName IsInstance_typeName
              IsInstance_evaluationName MaxDuration_seconds
              HasMatchingSpan_query HasMatchingSpan_evaluationName
              orDefault optionOr] in *;
         cbn [id]; rewrite ?orDefault_idem; congruence.
  - intros value evalName Hname.
    unfold asSpec, buildSerializationArguments;
      cbn [base getFields getDefaults getSerializationName List.filter
           hasProp existsb String.eqb Ascii.eqb Bool.eqb fst snd orb andb
           negb getProp fmap list_fmap Equals_value Equals_evaluationName].
    destruct (deepEqual evalName VNull) eqn:Heq;
      [apply deepEqual_default in Heq; [contradiction|exact I]|].
    reflexivity.
Qed.

End BuiltinSpecProperties.

(* ================================================================== *)
(** * Worked examples *)

(** Closes an equation between two computed numbers. *)
Ltac same_number :=
  lazymatch goal with
  | |- Some _ = Some _ => apply (f_equal Some); apply Qc_is_canon; reflexivity
  | |- _ => apply Qc_is_canon; reflexivity
  end.

(** ** C1 *)

Lemma evaluate_one_record_per_unit_witness :
  (1 ≤ default 1 (repeatOptions 2 ≫= opt_repeat))%Z
  ∧ ∃ results report w',
      evaluate noStack clock OtelNotInstalled twoUnnamed echoTask
               (repeatOptions 2) 0 = (Return report, w')
      ∧ length results
        = length (buildTasksToRun twoUnnamed
                    (default 1%Z (repeatOptions 2 ≫= opt_repeat)))
      ∧ rep_cases report = lefts results
      ∧ rep_failures report = rights results
      ∧ length (rep_cases report) + length (rep_failures report)
        = length (ds_cases twoUnnamed)
          * Z.to_nat (default 1%Z (repeatOptions 2 ≫= opt_repeat)).
Proof.
  split; [simpl; lia|].
  apply (evaluate_one_record_per_unit noStack clock OtelNotInstalled
           twoUnnamed echoTask
           (repeatOptions 2) 0).
  simpl. lia.
Defined.

(** ** C2: a task error that leaves no failure record *)

(** C2.  With the OpenTelemetry package installed, a task that throws on
    its first call is called a second time by [withSpanCapture]; when that
    call returns, the unit is reported as a successful case and the error
    is nowhere in the report.  Without the package the same task gives
    the failure record the specification asks for. *)
Lemma retried_task_hides_its_error :
  fst (task_call flakyTask "in" (0, emptyTaskRun))
  = Throw (ThrownError "Error" "flaky" None)
  ∧ match fst (evaluate noStack clock (OtelInstalled false) oneCase
                        flakyTask None 0) with
    | Return report =>
        rc_name <$> rep_cases report = ["x"] ∧ rep_failures report = []
    | Throw _ => False
    end
  ∧ match fst (evaluate noStack clock OtelNotInstalled oneCase
                        flakyTask None 0) with
    | Return report =>
        rep_cases report = []
        ∧ rcf_errorMessage <$> rep_failures report = ["Error: flaky"]
        ∧ rcf_errorStacktrace <$> rep_failures report = [""]
    | Throw _ => False
    end.
Proof. vm_compute. auto. Qed.

(** ** C3 *)

(** A map that has an entry called "value" is taken for a reasoned
    scalar: its two entries come back as one result under the default
    name, not as one result per entry. *)
Lemma runEvaluator_value_entry_counterexample :
  ∃ results,
    fst (runEvaluator_methods noStack (methods valueKeyEvaluator)
           someContext 0)
    = Return (inl results)
    ∧ er_name <$> results = ["Quality"]
    ∧ er_name <$> results ≠ ["value"; "accuracy"].
Proof.
  eexists. split; [reflexivity|]. split; [reflexivity|discriminate].
Defined.

Lemma runEvaluator_normalizes_witness :
  (∀ w, em_getDefaultEvaluationName (methods mapEvaluator) w
        = (Return "Quality", w))
  ∧ (∀ w, em_asSpec (methods mapEvaluator) w
          = (Return (mkEvaluatorSpec "Quality" ArgsNull), w))
  ∧ isEvaluationReason
      (JObj [("accuracy", JNum half); ("fluent", JBool true)]) = false
  ∧ ∃ results,
      runEvaluator_methods noStack (methods mapEvaluator) someContext 0
      = (Return (inl results), 0)
      ∧ er_name <$> results = ["accuracy"; "fluent"]
      ∧ er_source <$> results
        = [mkEvaluatorSpec "Quality" ArgsNull;
           mkEvaluatorSpec "Quality" ArgsNull]
      ∧ er_value <$> results = [JNum half; JBool true].
Proof.
  assert (Hname : ∀ w : nat, em_getDefaultEvaluationName
                               (methods mapEvaluator) w
                             = (Return "Quality", w)) by reflexivity.
  assert (Hspec : ∀ w : nat, em_asSpec (methods mapEvaluator) w
                             = (Return (mkEvaluatorSpec "Quality" ArgsNull),
                                w)) by reflexivity.
  split; [exact Hname|]. split; [exact Hspec|]. split; [reflexivity|].
  destruct (runEvaluator_normalizes noStack (methods mapEvaluator)
              "Quality" (mkEvaluatorSpec "Quality" ArgsNull)
              someContext 0 Hname Hspec) as (_ & _ & _ & _ & _ & Hmap).
  apply (Hmap [("accuracy", JNum half); ("fluent", JBool true)] 0);
    reflexivity.
Defined.

(** An evaluator that cannot tell its spec: its [evaluate] throws, and
    so does its [asSpec()] in the [catch] block, and that error is what
    leaves [runEvaluator]. *)
Example a_throwing_asSpec_escapes :
  runEvaluator_methods noStack unspecifiedEvaluator someContext 0
  = (Throw (ThrownError "Error" "no spec" None), 0).
Proof.
  apply (runEvaluator_methods_escape noStack unspecifiedEvaluator
           someContext 0 0 0 0 (ThrownError "Error" "no verdict" None) _
           "Strict"); reflexivity.
Qed.

(** ** C4 *)

Lemma evaluate_names_and_links_witness :
  default 1%Z (None ≫= opt_repeat) = 1%Z
  ∧ ∃ report w',
      evaluate noStack clock OtelNotInstalled twoUnnamed echoTask None 0
      = (Return report, w')
      ∧ Forall (λ rc, rc_sourceCaseName rc = None
                      ∧ ∃ i c, ds_cases twoUnnamed !! i = Some c
                               ∧ rc_name rc = caseNameAt i c)
               (rep_cases report)
      ∧ Forall (λ f, rcf_sourceCaseName f = None
                     ∧ ∃ i c, ds_cases twoUnnamed !! i = Some c
                              ∧ rcf_name f = caseNameAt i c)
               (rep_failures report).
Proof.
  split; [reflexivity|].
  destruct (evaluate_names_and_links noStack clock OtelNotInstalled
              twoUnnamed echoTask None 0)
    as (_ & _ & _ & _ & Honce & _).
  apply Honce. reflexivity.
Defined.

(** The test "assigns auto names to unnamed cases", and the same dataset
    run twice. *)
Example unnamed_cases_are_numbered :
  match fst (evaluate noStack clock OtelNotInstalled twoUnnamed echoTask
                      None 0) with
  | Return report =>
      (λ rc, (rc_name rc, rc_sourceCaseName rc)) <$> rep_cases report
      = [("Case 1", None); ("Case 2", None)]
  | Throw _ => False
  end
  ∧ match fst (evaluate noStack clock OtelNotInstalled twoUnnamed echoTask
                        (repeatOptions 2) 0) with
    | Return report =>
        (λ rc, (rc_name rc, rc_sourceCaseName rc)) <$> rep_cases report
        = [("Case 1 [1/2]", Some "Case 1"); ("Case 1 [2/2]", Some "Case 1");
           ("Case 2 [1/2]", Some "Case 2"); ("Case 2 [2/2]", Some "Case 2")]
    | Throw _ => False
    end.
Proof. vm_compute. auto. Qed.

(** ** C5 *)


(** The test "deduplicates evaluator output names with suffix > 2", run
    through [evaluate]: three evaluators that all default to "check". *)
Example three_evaluators_named_check :
  match fst (evaluate noStack clock OtelNotInstalled
               (mkDataset None [plainCase (Some "test") "x"]
                  [constantEvaluator "check" (JBool true);
                   constantEvaluator "check" (JBool true);
                   constantEvaluator "check" (JBool true)]
                  ([] : list (ReportEvaluator string string unit nat unit)))
               echoTask None 0) with
  | Return report =>
      (λ rc, dom (rc_assertions rc)) <$> rep_cases report
      = [({["check"; "check_2"; "check_3"]} : gset string)]
  | Throw _ => False
  end.
Proof. vm_compute. reflexivity. Qed.

(** ** C6 *)


(** ** C7 *)


(** ** C8 *)



(** ** Label distributions *)

Lemma label_distribution_sums_to_one_witness :
  Forall ordinary_case labelledCases
  ∧ (∃ c, c ∈ labelledCases ∧ is_Some (rc_labels c !! "category"))
  ∧ ∃ dist,
      agg_labels (averageCases labelledCases) !! "category" = Some dist
      ∧ sumQc ((map_to_list dist).*2) = 1%Qc
      ∧ ∀ v, dist !! v
             = if bool_decide (occurrences "category" v labelledCases = 0)
               then None
               else Some (Qc_of_nat (occurrences "category" v labelledCases)
                          / Qc_of_nat (carrying "category" labelledCases))%Qc.
Proof.
  assert (Hcarried : ∃ c, c ∈ labelledCases
                          ∧ is_Some (rc_labels c !! "category")).
  { eexists. split; [left|]. eexists. reflexivity. }
  assert (Hordinary : Forall ordinary_case labelledCases)
    by (apply (bool_decide_unpack _); vm_compute; exact I).
  split; [exact Hordinary|]. split; [exact Hcarried|].
  exact (label_distribution_sums_to_one labelledCases
           "category" Hordinary Hcarried).
Defined.

(** The test "averages labels (distributions)": one half each. *)
Example cat_and_dog_share_evenly :
  agg_labels (averageCases labelledCases) !! "category" ≫= (.!! "cat")
  = Some half
  ∧ agg_labels (averageCases labelledCases) !! "category" ≫= (.!! "dog")
    = Some half.
Proof. vm_compute. split; same_number. Qed.

(** ** The helpers of the task-run scope *)

Lemma eval_helpers_scope_witness :
  ordinary "tokens"
  ∧ metrics emptyTaskRun !! "tokens" = None
  ∧ incrementEvalMetric "tokens" 0%Qc (Some emptyTaskRun) = Some emptyTaskRun
  ∧ (default 0 (metrics emptyTaskRun !! "tokens") + Q2Qc 100)%Qc ≠ 0%Qc
  ∧ ∃ taskRun',
      incrementEvalMetric "tokens" (Q2Qc 100) (Some emptyTaskRun)
      = Some taskRun'
      ∧ metrics taskRun' !! "tokens"
        = Some (default 0 (metrics emptyTaskRun !! "tokens") + Q2Qc 100)%Qc
      ∧ (∀ other, other ≠ "tokens" →
           metrics taskRun' !! other = metrics emptyTaskRun !! other)
      ∧ attributes taskRun' = attributes emptyTaskRun.
Proof.
  destruct (eval_helpers_scope "tokens" JNull 0%Qc emptyTaskRun)
    as (_ & _ & Hzero & _).
  destruct (eval_helpers_scope "tokens" JNull (Q2Qc 100) emptyTaskRun)
    as (_ & _ & _ & Hsome).
  assert (Hnz : (default 0 (metrics emptyTaskRun !! "tokens") + Q2Qc 100)%Qc
                ≠ 0%Qc) by (vm_compute; discriminate).
  assert (Hname : ordinary "tokens")
    by (apply (bool_decide_unpack _); vm_compute; exact I).
  split; [exact Hname|].
  split; [reflexivity|]. split; [exact (Hzero Hname eq_refl)|].
  split; [exact Hnz|exact (Hsome Hname Hnz)].
Defined.

(** The tests of the task-run scope: increments add up, and a zero
    increment of an unset metric records nothing. *)
Example metrics_add_up :
  (metrics <$> incrementEvalMetric "tokens" (Q2Qc 50)
                 (incrementEvalMetric "tokens" (Q2Qc 100)
                    (Some emptyTaskRun)))
  ≫= (.!! "tokens") = Some (Q2Qc 150)
  ∧ metrics <$> incrementEvalMetric "zero" 0%Qc (Some emptyTaskRun)
    = Some ∅.
Proof. vm_compute. split; [same_number|reflexivity]. Qed.

(** ** Metrics of a task run *)

(** One up and one down: the metric is recorded, with the value 0. *)
Lemma increments_add_up_witness :
  ordinary "tokens"
  ∧ metrics emptyTaskRun !! "tokens" = None
  ∧ ¬ Forall (λ a, a = 0%Qc) [1%Qc; (-1)%Qc]
  ∧ ∃ taskRun',
      incrementEach "tokens" [1%Qc; (-1)%Qc] (Some emptyTaskRun)
      = Some taskRun'
      ∧ default 0%Qc (metrics taskRun' !! "tokens")
        = (default 0 (metrics emptyTaskRun !! "tokens")
           + sumQc [1; -1])%Qc
      ∧ metrics taskRun' !! "tokens" ≠ None.
Proof.
  assert (Hfresh : metrics emptyTaskRun !! "tokens" = None) by reflexivity.
  assert (Hsome : ¬ Forall (λ a, a = 0%Qc) [1%Qc; (-1)%Qc]).
  { intros Hall. apply Forall_cons in Hall as [Hone _]. discriminate. }
  assert (Hname : ordinary "tokens")
    by (apply (bool_decide_unpack _); vm_compute; exact I).
  destruct (increments_add_up "tokens" [1%Qc; (-1)%Qc] emptyTaskRun Hname)
    as (taskRun' & Hrun & Hvalue & _ & _ & _ & Hkey).
  split; [exact Hname|]. split; [exact Hfresh|]. split; [exact Hsome|].
  exists taskRun'. split; [exact Hrun|]. split; [exact Hvalue|].
  intros Hnone. apply Hsome, (Hkey Hfresh), Hnone.
Defined.

(** ** Building a dataset *)

Lemma Dataset_new_rejects_duplicates_witness :
  NoDup (caseNames (dso_cases (namedOptions ["a"; "b"])))
  ∧ Dataset_new noStack (namedOptions ["a"; "b"])
    = Return (namedDataset ["a"; "b"])
  ∧ ¬ NoDup (caseNames (dso_cases (namedOptions ["a"; "b"; "a"])))
  ∧ ∃ before c after name,
      dso_cases (namedOptions ["a"; "b"; "a"]) = before ++ c :: after
      ∧ case_name c = Some name
      ∧ NoDup (caseNames before)
      ∧ name ∈ caseNames before
      ∧ Dataset_new noStack (namedOptions ["a"; "b"; "a"])
        = Throw (ThrownError "Error"
                   ("Duplicate case name: '" +:+ name +:+ "'") None).
Proof.
  assert (Hdistinct : NoDup (caseNames (dso_cases (namedOptions ["a"; "b"]))))
    by (apply (bool_decide_unpack _); vm_compute; exact I).
  assert (Hrepeated :
            ¬ NoDup (caseNames (dso_cases (namedOptions ["a"; "b"; "a"]))))
    by (apply (bool_decide_unpack _); vm_compute; exact I).
  destruct (Dataset_new_rejects_duplicates noStack (namedOptions ["a"; "b"]))
    as [Haccepts _].
  destruct (Dataset_new_rejects_duplicates noStack
              (namedOptions ["a"; "b"; "a"])) as [_ Hrejects].
  split; [exact Hdistinct|]. split; [exact (Haccepts Hdistinct)|].
  split; [exact Hrepeated|exact (Hrejects Hrepeated)].
Defined.

Lemma addCase_keeps_names_distinct_witness :
  "a" ∈ caseNames (ds_cases (namedDataset ["a"]))
  ∧ addCase noStack (plainCase (Some "a") "again") (namedDataset ["a"])
    = (Throw (ThrownError "Error" "Duplicate case name: 'a'" None),
       namedDataset ["a"])
  ∧ (∀ name, case_name (plainCase (Some "b") "b") = Some name →
       name ∉ caseNames (ds_cases (namedDataset ["a"])))
  ∧ NoDup (caseNames (ds_cases (namedDataset ["a"])))
  ∧ ∃ this',
      addCase noStack (plainCase (Some "b") "b") (namedDataset ["a"])
      = (Return tt, this')
      ∧ ds_cases this'
        = ds_cases (namedDataset ["a"]) ++ [plainCase (Some "b") "b"]
      ∧ NoDup (caseNames (ds_cases this')).
Proof.
  assert (Hused : "a" ∈ caseNames (ds_cases (namedDataset ["a"])))
    by (apply (bool_decide_unpack _); vm_compute; exact I).
  assert (Hnew : ∀ name, case_name (plainCase (Some "b") "b") = Some name →
                   name ∉ caseNames (ds_cases (namedDataset ["a"]))).
  { intros name [= <-]. apply (bool_decide_unpack _). vm_compute. exact I. }
  assert (Hdistinct : NoDup (caseNames (ds_cases (namedDataset ["a"]))))
    by (apply (bool_decide_unpack _); vm_compute; exact I).
  destruct (addCase_keeps_names_distinct noStack
              (plainCase (Some "a") "again") (namedDataset ["a"]))
    as [Hrefused _].
  destruct (addCase_keeps_names_distinct noStack
              (plainCase (Some "b") "b") (namedDataset ["a"]))
    as [_ Hadded].
  destruct (Hadded Hnew)
    as (this' & Hrun & Hcases & _ & _ & _ & Hkeeps).
  split; [exact Hused|]. split; [exact (Hrefused "a" eq_refl Hused)|].
  split; [exact Hnew|]. split; [exact Hdistinct|].
  exists this'. split; [exact Hrun|]. split; [exact Hcases|].
  exact (Hkeeps Hdistinct).
Defined.

Lemma addEvaluator_reaches_the_named_case_witness :
  represents ownHeap twoObjects (namedDataset ["a"; "b"])
  ∧ unshared ownHeap twoObjects
  ∧ ("z" ∉ caseNames (ds_cases (namedDataset ["a"; "b"])))
  ∧ addEvaluator_inPlace noStack (constantEvaluator "Pass" (JBool true))
                         (Some "z") twoObjects ownHeap
    = (Throw (ThrownError "Error" "Case 'z' not found in the dataset" None),
       ownHeap)
  ∧ "b" ∈ caseNames (ds_cases (namedDataset ["a"; "b"]))
  ∧ NoDup (caseNames (ds_cases (namedDataset ["a"; "b"])))
  ∧ ∃ h' ds' i c,
      addEvaluator_inPlace noStack (constantEvaluator "Pass" (JBool true))
                           (Some "b") twoObjects ownHeap
      = (Return tt, h')
      ∧ unshared h' twoObjects
      ∧ represents h' twoObjects ds'
      ∧ ds_cases (namedDataset ["a"; "b"]) !! i = Some c
      ∧ case_name c = Some "b"
      ∧ ds_cases ds'
        = <[i := pushEvaluator (constantEvaluator "Pass" (JBool true)) "b" c]>
            (ds_cases (namedDataset ["a"; "b"])).
Proof.
  assert (Hrep : represents ownHeap twoObjects (namedDataset ["a"; "b"]))
    by (repeat constructor).
  assert (Hown : unshared ownHeap twoObjects)
    by (split; apply (bool_decide_unpack _); vm_compute; exact I).
  assert (Hmissing : "z" ∉ caseNames (ds_cases (namedDataset ["a"; "b"])))
    by (apply (bool_decide_unpack _); vm_compute; exact I).
  assert (Hfound : "b" ∈ caseNames (ds_cases (namedDataset ["a"; "b"])))
    by (apply (bool_decide_unpack _); vm_compute; exact I).
  assert (Hdistinct : NoDup (caseNames (ds_cases (namedDataset ["a"; "b"]))))
    by (apply (bool_decide_unpack _); vm_compute; exact I).
  destruct (addEvaluator_reaches_the_named_case noStack
              (constantEvaluator "Pass" (JBool true)) "z"
              twoObjects ownHeap (namedDataset ["a"; "b"]) Hrep Hown)
    as (_ & Hthrows & _).
  destruct (addEvaluator_reaches_the_named_case noStack
              (constantEvaluator "Pass" (JBool true)) "b"
              twoObjects ownHeap (namedDataset ["a"; "b"]) Hrep Hown)
    as (_ & _ & Hpushes).
  destruct (Hpushes Hfound)
    as (h' & ds' & Hrun & Hown' & Hrep' & _ & _ & _ & _ & _ & Hone).
  destruct (Hone Hdistinct) as (i & c & Hc & Hname & Hcases).
  split; [exact Hrep|]. split; [exact Hown|].
  split; [exact Hmissing|]. split; [exact (Hthrows Hmissing)|].
  split; [exact Hfound|]. split; [exact Hdistinct|].
  exists h', ds', i, c. split; [exact Hrun|]. split; [exact Hown'|].
  split; [exact Hrep'|]. split; [exact Hc|].
  split; [exact Hname|exact Hcases].
Defined.

(** Two cases that hold one array: an evaluator added to the case "a"
    is an evaluator of the case "b" as well. *)
Example a_shared_array_reaches_two_cases :
  readCase sharingHeap 1 = Some (mkCase (Some "b") "b" None None (Some []))
  ∧ readCase
      (addEvaluator_inPlace noStack (constantEvaluator "Pass" (JBool true))
                            (Some "a") twoObjects sharingHeap).2 1
    = Some (mkCase (Some "b") "b" None None
                   (Some [constantEvaluator "Pass" (JBool true)])).
Proof. split; vm_compute; reflexivity. Qed.


(** ** Evaluators of a unit *)


(** An evaluator that cannot tell its spec: the task call returns, the
    error of [asSpec()] leaves [runEvaluator], and the unit is reported
    as a failure. *)
Example a_throwing_asSpec_fails_the_unit :
  ∃ failure w',
    runTaskAndEvaluators_methods noStack clock OtelNotInstalled
      [unspecifiedEvaluator] echoTask judgedCase "x" None 0
    = (Return (inr failure), w')
    ∧ rcf_errorMessage failure = "Error: no spec".
Proof. eexists _, _. split; reflexivity. Qed.

(** ** Report evaluators *)


(** A report evaluator that throws and cannot tell its name: the error
    of [getSerializationName()] is what leaves [runReportEvaluators],
    and the report evaluator after it is not run. *)
Example a_throwing_getSerializationName_escapes :
  runReportEvaluators_methods noStack
    [namelessReportEvaluator; reportMethods twoAnalyses]
    "test" None interleavedReport 0
  = (Throw (ThrownError "TypeError" "no name" None), 0).
Proof. reflexivity. Qed.

Lemma grouping_keeps_every_result_witness :
  Forall (λ er, er_name er ≠ "__proto__")
         [checkResult true; checkResult false]
  ∧ checkResult false ∈ [checkResult true; checkResult false]
  ∧ ∃ name,
      name ∈ go_seenNames
               (groupEvaluatorOutputsByType
                  [checkResult true; checkResult false])
      ∧ kept (groupEvaluatorOutputsByType
                [checkResult true; checkResult false])
             (checkResult false) name
      ∧ (name = er_name (checkResult false)
         ∨ ∃ k, 2 ≤ k
             ∧ name = er_name (checkResult false) +:+ "_" +:+ pretty k).
Proof.
  assert (Hin : checkResult false ∈ [checkResult true; checkResult false])
    by (right; left).
  assert (Hnames : Forall (λ er : EvaluationResult JsVal,
                             er_name er ≠ "__proto__")
                          [checkResult true; checkResult false])
    by (repeat constructor; discriminate).
  destruct (grouping_keeps_every_result
              [checkResult true; checkResult false] Hnames)
    as (_ & _ & _ & _ & Hkept).
  split; [exact Hnames|].
  split; [exact Hin|exact (Hkept (checkResult false) Hin)].
Defined.

(** ** Means, distributions and the order of groups *)

(** The score is averaged over the one case that has it. *)
Lemma averageCases_means_over_present_witness :
  Forall ordinary_case scoredCases
  ∧ scoredCases ≠ []
  ∧ agg_scores (averageCases scoredCases) !! "accuracy" = Some half
  ∧ agg_metrics (averageCases scoredCases) !! "latency" = Some (Q2Qc 3)
  ∧ agg_totalDuration (averageCases scoredCases) = Q2Qc 2.
Proof.
  assert (Hsome : scoredCases ≠ []) by discriminate.
  assert (Hordinary : Forall ordinary_case scoredCases)
    by (apply (bool_decide_unpack _); vm_compute; exact I).
  destruct (averageCases_means_over_present scoredCases "accuracy"
              Hordinary) as (Hscore & _ & Hdurations).
  destruct (averageCases_means_over_present scoredCases "latency"
              Hordinary) as (_ & Hmetric & _).
  destruct (Hdurations Hsome) as [_ Htotal].
  split; [exact Hordinary|]. split; [exact Hsome|]. rewrite Hscore, Hmetric, Htotal. vm_compute.
  split; [same_number|]. split; same_number.
Defined.

Lemma averageFromAggregates_means_over_present_witness :
  Forall ordinary_aggregate scoredAggregates
  ∧ scoredAggregates ≠ []
  ∧ agg_scores (averageFromAggregates scoredAggregates) !! "accuracy"
    = Some 1%Qc
  ∧ agg_metrics (averageFromAggregates scoredAggregates) !! "latency"
    = Some (Q2Qc 3)
  ∧ agg_totalDuration (averageFromAggregates scoredAggregates) = Q2Qc 2.
Proof.
  assert (Hsome : scoredAggregates ≠ []) by discriminate.
  assert (Hordinary : Forall ordinary_aggregate scoredAggregates)
    by (apply (bool_decide_unpack _); vm_compute; exact I).
  destruct (averageFromAggregates_means_over_present scoredAggregates
              "accuracy" Hordinary) as (Hscore & _ & Hdurations).
  destruct (averageFromAggregates_means_over_present scoredAggregates
              "latency" Hordinary) as (_ & Hmetric & _).
  destruct (Hdurations Hsome) as [_ Htotal].
  split; [exact Hordinary|]. split; [exact Hsome|]. rewrite Hscore, Hmetric, Htotal. vm_compute.
  split; [same_number|]. split; same_number.
Defined.

Lemma averageFromAggregates_keeps_distributions_witness :
  Forall ordinary_aggregate testAggregates
  ∧ Forall (λ d, total d = 1%Qc) (reporting "cat" testAggregates)
  ∧ ∃ dist,
      agg_labels (averageFromAggregates testAggregates) !! "cat" = Some dist
      ∧ total dist = 1%Qc.
Proof.
  assert (Hones : Forall (λ d, total d = 1%Qc)
                         (reporting "cat" testAggregates)).
  { vm_compute. repeat constructor; same_number. }
  assert (Hordinary : Forall ordinary_aggregate testAggregates)
    by (apply (bool_decide_unpack _); vm_compute; exact I).
  split; [exact Hordinary|].
  split; [exact Hones|]. eexists. split; [reflexivity|].
  eapply (averageFromAggregates_keeps_distributions testAggregates "cat");
    [exact Hordinary|exact Hones|reflexivity].
Defined.

(** Three copies of the second aggregate of the test. *)
Lemma averageFromAggregates_of_copies_witness :
  ∃ a,
    testAggregates !! 1 = Some a
    ∧ ordinary_aggregate a
    ∧ averageFromAggregates (replicate 3 a) = renamed a.
Proof.
  destruct (testAggregates !! 1) as [a|] eqn:Ha; [|discriminate].
  vm_compute in Ha. injection Ha as <-.
  eexists. split; [reflexivity|].
  assert (Hordinary :
            ordinary_aggregate
              {| agg_name := "g2"; agg_scores := ∅;
                 agg_labels :=
                   <["cat" := <["a" := Q2Qc (3 # 10)]>
                                (<["b" := Q2Qc (7 # 10)]> ∅)]> ∅;
                 agg_metrics := ∅; agg_assertions := Some half;
                 agg_taskDuration := 1%Qc; agg_totalDuration := 1%Qc |})
    by (apply (bool_decide_unpack _); vm_compute; exact I).
  split; [exact Hordinary|].
  exact (averageFromAggregates_of_copies _ 2 Hordinary).
Defined.

Lemma averages_label_distributions_sum_to_one_witness :
  ∃ avg dist,
    Forall ordinary_case (rep_cases twiceTwoReport)
    ∧ computeAverages noStack twiceTwoReport = Return (Some avg)
    ∧ agg_labels avg !! "cat" = Some dist
    ∧ total dist = 1%Qc.
Proof.
  destruct (computeAverages noStack twiceTwoReport) as [[avg|]|e] eqn:Havg;
    [|exfalso; vm_compute in Havg; discriminate..].
  assert (Hordinary : Forall ordinary_case (rep_cases twiceTwoReport))
    by (apply (bool_decide_unpack _); vm_compute; exact I).
  destruct (agg_labels avg !! "cat") as [dist|] eqn:Hdist.
  - exists avg, dist. split; [exact Hordinary|].
    split; [reflexivity|]. split; [exact Hdist|].
    exact (averages_label_distributions_sum_to_one noStack twiceTwoReport
             avg "cat" dist Hordinary Havg Hdist).
  - exfalso. vm_compute in Havg. injection Havg as <-.
    vm_compute in Hdist. discriminate.
Defined.

(** "b" comes first although "a" sorts before it, and "c", which has
    only a failure, comes last. *)
Lemma caseGroups_in_order_of_first_appearance_witness :
  ∃ gs,
    computeCaseGroups noStack interleavedReport = Return (Some gs)
    ∧ grp_name <$> gs = ["b"; "a"; "c"].
Proof.
  eexists. split; [reflexivity|].
  eapply (caseGroups_in_order_of_first_appearance noStack interleavedReport).
  reflexivity.
Defined.

(** ** Names of the records *)

Lemma report_names_are_distinct_witness :
  Forall (λ c, is_Some (case_name c)) (ds_cases (namedDataset ["a"; "b"]))
  ∧ NoDup (omap case_name (ds_cases (namedDataset ["a"; "b"])))
  ∧ (1 ≤ default 1 (repeatOptions 2 ≫= opt_repeat))%Z
  ∧ ∃ report w',
      evaluate noStack clock OtelNotInstalled (namedDataset ["a"; "b"])
               echoTask (repeatOptions 2) 0
      = (Return report, w')
      ∧ NoDup ((rc_name <$> rep_cases report)
               ++ (rcf_name <$> rep_failures report)).
Proof.
  assert (Hnamed : Forall (λ c, is_Some (case_name c))
                          (ds_cases (namedDataset ["a"; "b"])))
    by (repeat constructor; eexists; reflexivity).
  assert (Hdistinct : NoDup (omap case_name
                               (ds_cases (namedDataset ["a"; "b"]))))
    by (apply (bool_decide_unpack _); vm_compute; exact I).
  assert (Hrepeat : (1 ≤ default 1 (repeatOptions 2 ≫= opt_repeat))%Z)
    by (simpl; lia).
  destruct (report_names_are_distinct noStack clock OtelNotInstalled
              (namedDataset ["a"; "b"]) echoTask (repeatOptions 2) 0)
    as [Hcases Hrecords].
  destruct (Hrecords (Hcases Hnamed Hdistinct)) as [_ Hreport].
  split; [exact Hnamed|]. split; [exact Hdistinct|].
  split; [exact Hrepeat|exact (Hreport Hrepeat)].
Defined.

(** ** Evaluator specs *)

Section SerializationExamples.

Import Serialization.

(** [{Equals: null}] is read as the spec of [Equals] without arguments,
    which is written back as the string; an array is refused. *)
Lemma deserialize_accepts_the_short_forms_witness :
  deserializeEvaluatorSpec unprinted noStack (VObj [("Equals", VNull)])
  = Return (mkEvaluatorSpec "Equals" ArgsNull)
  ∧ serializeEvaluatorSpec (mkEvaluatorSpec "Equals" ArgsNull) None
    = VStr "Equals"
  ∧ deserializeEvaluatorSpec unprinted noStack (VArr [VStr "Equals"])
    = Throw (ThrownError "Error" "Invalid evaluator spec: <value>" None)
  ∧ ∃ message,
      ThrownError "Error" "Invalid evaluator spec: <value>" None
      = ThrownError "Error" message (noStack message).
Proof.
  assert (Hread : deserializeEvaluatorSpec unprinted noStack
                    (VObj [("Equals", VNull)])
                  = Return (mkEvaluatorSpec "Equals" ArgsNull))
    by reflexivity.
  assert (Hrefused : deserializeEvaluatorSpec unprinted noStack
                       (VArr [VStr "Equals"])
                     = Throw (ThrownError "Error"
                                "Invalid evaluator spec: <value>" None))
    by reflexivity.
  destruct (deserialize_accepts_the_short_forms unprinted noStack
              (VObj [("Equals", VNull)])) as (_ & Hback & _).
  destruct (deserialize_accepts_the_short_forms unprinted noStack
              (VArr [VStr "Equals"])) as (_ & _ & Herror).
  split; [exact Hread|]. split; [exact (Hback _ Hread)|].
  split; [exact Hrefused|exact (Herror _ Hrefused)].
Defined.

Lemma deepEqual_compares_structure_witness :
  wellFormed (VArr [VNum 1; VStr "x"])
  ∧ nanFree (VArr [VNum 1; VStr "x"])
  ∧ deepEqual (VArr [VNum 1; VStr "x"]) (VArr [VNum 1; VStr "x"]) = true
  ∧ objectFree (VArr [VNum 1; VStr "x"])
  ∧ (deepEqual (VArr [VNum 1; VStr "x"]) (VArr [VNum 1; VStr "y"]) = true
     ↔ VArr [VNum 1; VStr "x"] = VArr [VNum 1; VStr "y"]).
Proof.
  assert (Hwf : wellFormed (VArr [VNum 1; VStr "x"])) by (cbn; auto).
  assert (Hnan : nanFree (VArr [VNum 1; VStr "x"])) by (cbn; auto).
  assert (Hfree : objectFree (VArr [VNum 1; VStr "x"])) by (cbn; auto).
  destruct (deepEqual_compares_structure (VArr [VNum 1; VStr "x"]))
    as (Hrefl & _ & Hexact & _).
  split; [exact Hwf|]. split; [exact Hnan|]. split; [exact (Hrefl Hwf Hnan)|].
  split; [exact Hfree|exact (Hexact Hfree Hnan _)].
Defined.

(** The needle has no default and is kept; the flag is at its default
    and is left out. *)
Lemma asSpec_keeps_what_differs_from_default_witness :
  Forall ordinary (getFields containsEvaluator).*1
  ∧ ("value", VStr "needle") ∈ getFields containsEvaluator
  ∧ ("value" ∉ (getDefaults containsEvaluator).*1)
  ∧ ("value", VStr "needle") ∈ buildSerializationArguments containsEvaluator
  ∧ ("caseSensitive", VBool true) ∈ getFields containsEvaluator
  ∧ "caseSensitive" ∈ (getDefaults containsEvaluator).*1
  ∧ wellFormed (VBool true)
  ∧ nanFree (VBool true)
  ∧ getProp (getDefaults containsEvaluator) "caseSensitive" = VBool true
  ∧ (("caseSensitive", VBool true)
     ∉ buildSerializationArguments containsEvaluator).
Proof.
  assert (Hfield : ("value", VStr "needle") ∈ getFields containsEvaluator)
    by left.
  assert (Hplain : "value" ∉ (getDefaults containsEvaluator).*1)
    by (apply (bool_decide_unpack _); vm_compute; exact I).
  assert (Hflag : ("caseSensitive", VBool true) ∈ getFields containsEvaluator)
    by (right; left).
  assert (Hdefault : "caseSensitive" ∈ (getDefaults containsEvaluator).*1)
    by left.
  assert (Hnames : Forall ordinary (getFields containsEvaluator).*1)
    by (apply (bool_decide_unpack _); vm_compute; exact I).
  destruct (asSpec_keeps_what_differs_from_default containsEvaluator Hnames)
    as (_ & _ & Hkept & Hdropped & _).
  split; [exact Hnames|].
  split; [exact Hfield|]. split; [exact Hplain|].
  split; [exact (Hkept _ _ Hfield Hplain)|].
  split; [exact Hflag|]. split; [exact Hdefault|].
  split; [exact I|]. split; [exact I|]. split; [reflexivity|].
  exact (Hdropped _ _ Hflag Hdefault I I eq_refl).
Defined.

End SerializationExamples.

(** ** The registry and the confusion matrix *)

(** A custom class called "Contains" stands in for the default of that
    name; two custom classes of one name are refused. *)
Lemma buildRegistry_custom_classes_first_witness :
  NoDup (Serialization.classNames [noteClass "Contains" "custom"])
  ∧ (∃ registry,
       Serialization.buildRegistry noStack
         [noteClass "Contains" "custom"]
         [noteClass "Equals" "default"; noteClass "Contains" "default"]
       = Return registry
       ∧ registry.*1 = ["Contains"; "Equals"]
       ∧ Map_get "Contains" registry = Some (noteClass "Contains" "custom"))
  ∧ ¬ NoDup (Serialization.classNames
               [noteClass "Contains" "mine"; noteClass "Contains" "yours"])
  ∧ ∃ before cls after,
      [noteClass "Contains" "mine"; noteClass "Contains" "yours"]
      = before ++ cls :: after
      ∧ Serialization.buildRegistry noStack
          [noteClass "Contains" "mine"; noteClass "Contains" "yours"] []
        = Throw (ThrownError "Error"
                   ("Duplicate evaluator class name: '"
                    +:+ Serialization.cls_getSerializationName cls +:+ "'")
                   None).
Proof.
  assert (Hdistinct :
            NoDup (Serialization.classNames [noteClass "Contains" "custom"]))
    by (apply (bool_decide_unpack _); vm_compute; exact I).
  assert (Hrepeated :
            ¬ NoDup (Serialization.classNames
                       [noteClass "Contains" "mine";
                        noteClass "Contains" "yours"]))
    by (apply (bool_decide_unpack _); vm_compute; exact I).
  destruct (buildRegistry_custom_classes_first noStack
              [noteClass "Contains" "custom"]
              [noteClass "Equals" "default"; noteClass "Contains" "default"])
    as [Hbuilt _].
  destruct (buildRegistry_custom_classes_first noStack
              [noteClass "Contains" "mine"; noteClass "Contains" "yours"] [])
    as [_ Hrefused].
  destruct (Hbuilt Hdistinct) as (registry & Hrun & Hkeys & _ & Hget).
  destruct (Hrefused Hrepeated) as (before & cls & after & Hsplit & _ & _
                                    & Hthrown).
  split; [exact Hdistinct|]. split.
  - exists registry. split; [exact Hrun|]. split; [exact Hkeys|].
    rewrite Hget. reflexivity.
  - split; [exact Hrepeated|]. exists before, cls, after.
    split; [exact Hsplit|exact Hthrown].
Defined.


(** The rows are the expected labels and the columns the predicted
    ones. *)
Example cats_and_dogs_matrix :
  ConfusionMatrixEvaluator_evaluate noStack asIs noMetadata noEntry
                                    outputAgainstExpected catsAndDogs
  = Return {| cm_type := "confusion_matrix";
              cm_title := "Confusion Matrix";
              cm_classLabels := ["cat"; "dog"];
              cm_matrix := [[1; 1]; [0; 1]] |}.
Proof. vm_compute. reflexivity. Qed.

Lemma precision_recall_stays_in_range_witness :
  1 ≤ pre_nThresholds confidenceCurve
  ∧ ordinary (pre_scoreKey confidenceCurve)
  ∧ collectScored noStack nonEmpty confidenceCurve
                  (rep_cases (rctx_report guesses))
    = Return [(Q2Qc (9 # 10), true); (half, false); (Q2Qc (1 # 10), true)]
  ∧ ∃ result curve,
      PrecisionRecallEvaluator_evaluate noStack nonEmpty confidenceCurve
                                        guesses
      = Return result
      ∧ pr_curves result = [curve]
      ∧ Forall inRange (curve_points curve)
      ∧ (0 <= curve_auc curve)%Qc
      ∧ (curve_auc curve <= 1)%Qc.
Proof.
  assert (Hsteps : 1 ≤ pre_nThresholds confidenceCurve) by (simpl; lia).
  assert (Hcollected :
            collectScored noStack nonEmpty confidenceCurve
                          (rep_cases (rctx_report guesses))
            = Return [(Q2Qc (9 # 10), true); (half, false);
                      (Q2Qc (1 # 10), true)])
    by reflexivity.
  assert (Hkey : ordinary (pre_scoreKey confidenceCurve))
    by (apply (bool_decide_unpack _); vm_compute; exact I).
  destruct (precision_recall_stays_in_range noStack nonEmpty confidenceCurve
              guesses Hsteps Hkey) as [_ Hreturns].
  destruct (Hreturns _ Hcollected) as (result & Hrun & _ & _ & _ & Hsome).
  destruct (Hsome ltac:(discriminate))
    as (curve & Hcurve & _ & _ & Hrange & _ & Hlow & Hhigh).
  split; [exact Hsteps|]. split; [exact Hkey|]. split; [exact Hcollected|].
  exists result, curve. auto.
Defined.

(** At the thresholds 0.1, 0.5 and 0.9 the recall is 1, 1/2 and 1/2, and
    the area under the curve is 7/24. *)
Example confidence_curve :
  match PrecisionRecallEvaluator_evaluate noStack nonEmpty confidenceCurve
                                         guesses with
  | Return {| pr_curves := [curve] |} =>
      pt_recall <$> curve_points curve = [1%Qc; half; half]
      ∧ pt_precision <$> curve_points curve = [Q2Qc (2 # 3); half; 1%Qc]
      ∧ curve_auc curve = Q2Qc (7 # 24)
  | _ => False
  end.
Proof.
  vm_compute. split; [|split].
  - repeat (apply (f_equal2 cons); [same_number|]). reflexivity.
  - repeat (apply (f_equal2 cons); [same_number|]). reflexivity.
  - same_number.
Qed.

(** ** Groups and averages *)

Lemma caseGroups_partition_the_records_witness :
  ∃ gs,
    computeCaseGroups noStack interleavedReport = Return (Some gs)
    ∧ concat (grp_runs <$> gs) ≡ₚ rep_cases interleavedReport
    ∧ concat (grp_failures <$> gs) ≡ₚ rep_failures interleavedReport
    ∧ sum_list (length ∘ grp_runs <$> gs) = 3.
Proof.
  eexists. split; [reflexivity|].
  destruct (caseGroups_partition_the_records noStack interleavedReport _
              eq_refl) as (Hruns & Hfailures & Hcount & _).
  split; [exact Hruns|]. split; [exact Hfailures|exact Hcount].
Defined.



Section BuiltinExamples.

Import Serialization.


Lemma deepStrictEqual_ignores_key_order_witness :
  nanFree (VObj [("a", VNum 1); ("b", VStr "y")])
  ∧ NoDup [("a", VNum 1); ("b", VStr "y")].*1
  ∧ [("a", VNum 1); ("b", VStr "y")] ≡ₚ [("b", VStr "y"); ("a", VNum 1)]
  ∧ deepStrictEqual (VObj [("a", VNum 1); ("b", VStr "y")])
                    (VObj [("b", VStr "y"); ("a", VNum 1)]) = true.
Proof.
  assert (Hnd : NoDup [("a", VNum 1); ("b", VStr "y")].*1)
    by (apply (bool_decide_unpack _); vm_compute; exact I).
  assert (Hperm : [("a", VNum 1); ("b", VStr "y")]
                  ≡ₚ [("b", VStr "y"); ("a", VNum 1)])
    by apply perm_swap.
  assert (Hnan : nanFree (VObj [("a", VNum 1); ("b", VStr "y")]))
    by (cbn; auto).
  destruct (deepStrictEqual_ignores_key_order
              [("a", VNum 1); ("b", VStr "y")]
              [("b", VStr "y"); ("a", VNum 1)] Hnan) as [_ Hreordered].
  split; [exact Hnan|]. split; [exact Hnd|]. split; [exact Hperm|].
  exact (Hreordered Hnd Hperm).
Defined.

Lemma deepStrictEqual_stricter_than_deepEqual_witness :
  wellFormed (VObj [("a", VArr [VNum 1])])
  ∧ nanFree (VObj [("a", VArr [VNum 1])])
  ∧ deepStrictEqual (VObj [("a", VArr [VNum 1])])
                    (VObj [("a", VArr [VNum 1])]) = true
  ∧ deepEqual (VObj [("a", VArr [VNum 1])])
              (VObj [("a", VArr [VNum 1])]) = true
  ∧ objectFree (VArr [VNum 1])
  ∧ nanFree (VArr [VNum 1])
  ∧ (deepStrictEqual (VArr [VNum 1]) (VArr [VNum 2]) = true
     ↔ VArr [VNum 1] = VArr [VNum 2])
  ∧ "x" ≠ "y"
  ∧ ordinary "x"
  ∧ deepEqual (VObj [("x", VUndefined)]) (VObj [("y", VNum 1)]) = true
  ∧ deepStrictEqual (VObj [("x", VUndefined)]) (VObj [("y", VNum 1)])
    = false.
Proof.
  assert (Hwf : wellFormed (VObj [("a", VArr [VNum 1])])).
  { cbn. split; [|auto].
    apply (bool_decide_unpack _). vm_compute. exact I. }
  assert (Hsame : deepStrictEqual (VObj [("a", VArr [VNum 1])])
                                  (VObj [("a", VArr [VNum 1])]) = true)
    by (vm_compute; reflexivity).
  assert (Hfree : objectFree (VArr [VNum 1])) by (cbn; auto).
  assert (Hnan : nanFree (VObj [("a", VArr [VNum 1])])) by (cbn; auto).
  assert (Hnan' : nanFree (VArr [VNum 1])) by (cbn; auto).
  assert (Hne : "x" ≠ "y") by discriminate.
  assert (Hkey : ordinary "x")
    by (apply (bool_decide_unpack _); vm_compute; exact I).
  destruct (deepStrictEqual_stricter_than_deepEqual
              (VObj [("a", VArr [VNum 1])]) (VObj [("a", VArr [VNum 1])]))
    as (Himplies & _ & Hconverse).
  destruct (deepStrictEqual_stricter_than_deepEqual
              (VArr [VNum 1]) (VArr [VNum 2])) as (_ & Hexact & _).
  destruct (Hconverse "x" "y" (VNum 1) Hne Hkey) as [Hloose Hstrict].
  split; [exact Hwf|]. split; [exact Hnan|]. split; [exact Hsame|].
  split; [exact (Himplies Hwf Hnan Hsame)|]. split; [exact Hfree|].
  split; [exact Hnan'|].
  split; [exact (Hexact Hfree Hnan')|]. split; [exact Hne|].
  split; [exact Hkey|].
  split; [exact Hloose|exact Hstrict].
Defined.

(** [Equals] of a number, loaded back from its spec. *)
Lemma builtin_positional_spec_round_trip_witness :
  ∃ registry,
    buildRegistry noStack [] DEFAULT_EVALUATORS = Return registry
    ∧ builtinClass "Equals" Equals_new AnEquals ∈ DEFAULT_EVALUATORS
    ∧ asSpec (base (AnEquals (Equals_new [VNum 1])))
      = {| spec_name := "Equals"; spec_arguments := ArgsTuple (VNum 1) |}
    ∧ loadEvaluatorFromRegistry noStack registry
        (asSpec (base (AnEquals (Equals_new [VNum 1]))))
      = Return (AnEquals (Equals_new [VNum 1]))
    ∧ VStr "same" ≠ VNull
    ∧ loadEvaluatorFromRegistry noStack registry
        (asSpec (base (AnEquals {| Equals_value := VNum 1;
                                   Equals_evaluationName := VStr "same" |})))
      = Return
          (AnEquals
             {| Equals_value :=
                  VObj [("value", VNum 1); ("evaluationName", VStr "same")];
                Equals_evaluationName := VNull |}).
Proof.
  destruct (buildRegistry noStack [] DEFAULT_EVALUATORS)
    as [registry|] eqn:Hbuilt; [|discriminate].
  assert (Hcls : builtinClass "Equals" Equals_new AnEquals
                 ∈ DEFAULT_EVALUATORS) by left.
  assert (Hspec : asSpec (base (AnEquals (Equals_new [VNum 1])))
                  = {| spec_name := "Equals";
                       spec_arguments := ArgsTuple (VNum 1) |})
    by (vm_compute; reflexivity).
  assert (Hname : VStr "same" ≠ VNull) by discriminate.
  destruct (builtin_positional_spec_round_trip noStack registry Hbuilt)
    as [Hback Hnamed].
  exists registry. split; [reflexivity|]. split; [exact Hcls|].
  split; [exact Hspec|]. split.
  - apply (Hback _ [VNum 1] _ Hcls eq_refl).
    intros kwargs. rewrite Hspec. discriminate.
  - split; [exact Hname|]. exact (Hnamed (VNum 1) (VStr "same") Hname).
Defined.

End BuiltinExamples.
